(** * Luau analysis core: type cloner, post-inference validator, CLI helpers

    A shallow embedding of the parts of the repository that the
    specification makes checkable statements about:

    - [Frontend]     : [IsMTAScriptTypeMatched]           (Analysis/include/Luau/Frontend.h)
    - [Compile]      : [getCompileFormat]                  (CLI/Compile.cpp)
    - [TypeGraph]    : types, type packs and the memory that holds them
    - [Clone]        : the deep cloner over the type graph (Analysis/src/Clone.cpp)
    - [CloneSpec]    : what a faithful clone is, and the invariant of a traversal
    - [TypeChecker2] : the validator's expression checks   (Analysis/src/TypeChecker2.cpp)
    - [CloneSamples], [Samples] : concrete graphs and modules
    - [CloneTypeFun] : the clone of a type function       (Analysis/src/Clone.cpp)
    - [CloneFrame]   : what a traversal leaves alone
    - [CompileMain]  : the command line and [compileFile]  (CLI/Compile.cpp)
    - [TypeFamilies] : [areEquivalent], [InternalFamilyFinder] (Analysis/src/TypeChecker2.cpp)
    - [Diagnostics]  : how the validator's error list evolves
    - [PropertyLookup] : what [checkIndexTypeFromType] asks of the components
    - [Scopes]       : [findInnermostScope]                (Analysis/src/TypeChecker2.cpp)
    - [OptionalAccess] : [tryStripUnionFromNil], [stripFromNilAndReport]
    - [Generics]     : [visitGenerics]

    Pointers ([TypeId], [TypePackId]) are addresses into one memory that
    holds the nodes of every arena; C++ code that mutates through a
    reference is written as explicit state passing. *)

From stdpp Require Import base option list gmap strings fin_maps pretty.
From Stdlib Require Import ZArith Lia Ascii.

Set Default Proof Using "Type".
Open Scope string_scope.

(* ===================================================================== *)
(** ** Frontend.h : MTA script types                                     *)
(* ===================================================================== *)

Module Frontend.

(** [enum class MTAScriptType : uint8_t { Server = 1, Client, Shared }] *)
Inductive MTAScriptType : Type :=
  | Server
  | Client
  | Shared.

(** The underlying [uint8_t] of each enumerator. *)
Definition underlying (t : MTAScriptType) : Z :=
  match t with
  | Server => 1
  | Client => 2
  | Shared => 3
  end%Z.

(** [operator==] of a scoped enumeration compares the underlying values. *)
Definition MTAScriptType_eqb (a b : MTAScriptType) : bool :=
  (underlying a =? underlying b)%Z.

(** [return rhsType == Shared || lhsType == Shared || lhsType == rhsType;] *)
Definition IsMTAScriptTypeMatched (lhsType rhsType : MTAScriptType) : bool :=
  MTAScriptType_eqb rhsType Shared
  || MTAScriptType_eqb lhsType Shared
  || MTAScriptType_eqb lhsType rhsType.

End Frontend.

(* ===================================================================== *)
(** ** Compile.cpp : output format selection                             *)
(* ===================================================================== *)

Module Compile.

Inductive CompileFormat : Type :=
  | Text
  | Binary
  | Remarks
  | Codegen
  | CodegenAsm
  | CodegenIr
  | CodegenVerbose
  | CodegenNull
  | Null.

(** [strcmp(a, b) == 0] on NUL-terminated strings: equality of the
    characters before the terminator. *)
Definition strcmp_eq0 (a b : string) : bool := String.eqb a b.

(** [getCompileFormat], branch for branch; the third test repeats the
    first one. *)
Definition getCompileFormat (name : string) : option CompileFormat :=
  if strcmp_eq0 name "text" then Some Text
  else if strcmp_eq0 name "binary" then Some Binary
  else if strcmp_eq0 name "text" then Some Text
  else if strcmp_eq0 name "remarks" then Some Remarks
  else if strcmp_eq0 name "codegen" then Some Codegen
  else if strcmp_eq0 name "codegenasm" then Some CodegenAsm
  else if strcmp_eq0 name "codegenir" then Some CodegenIr
  else if strcmp_eq0 name "codegenverbose" then Some CodegenVerbose
  else if strcmp_eq0 name "codegennull" then Some CodegenNull
  else if strcmp_eq0 name "null" then Some Null
  else None.

(** The folded selector the specification asks for: the same chain with
    the repeated ["text"] branch removed. *)
Definition getCompileFormat_folded (name : string) : option CompileFormat :=
  if strcmp_eq0 name "text" then Some Text
  else if strcmp_eq0 name "binary" then Some Binary
  else if strcmp_eq0 name "remarks" then Some Remarks
  else if strcmp_eq0 name "codegen" then Some Codegen
  else if strcmp_eq0 name "codegenasm" then Some CodegenAsm
  else if strcmp_eq0 name "codegenir" then Some CodegenIr
  else if strcmp_eq0 name "codegenverbose" then Some CodegenVerbose
  else if strcmp_eq0 name "codegennull" then Some CodegenNull
  else if strcmp_eq0 name "null" then Some Null
  else None.

End Compile.

(* ===================================================================== *)
(** ** The type graph (Type.h, TypePack.h as described in the data model) *)
(* ===================================================================== *)

Module TypeGraph.

(** [TypeId = const Type*], [TypePackId = const TypePackVar*]: addresses
    into the memory below.  A null pointer is [None] where a field may be
    null. *)
Abbreviation TypeId := nat (only parsing).
Abbreviation TypePackId := nat (only parsing).
(** [TypeArena*], [Scope*]: identities only. *)
Abbreviation ArenaId := nat (only parsing).
Abbreviation ScopeId := nat (only parsing).
Abbreviation Name := string (only parsing).
Abbreviation Tags := (list string) (only parsing).

Record Position := mkPosition { line : nat; column : nat }.
Record Location := mkLocation { begin_ : Position; end_ : Position }.

Record TypeLevel := mkTypeLevel { level : nat; subLevel : nat }.

Inductive PrimitiveKind :=
  | NilType | Boolean | Number | String_ | Thread | Function | Table.

Inductive SingletonVariant :=
  | StringSingleton (value : string)
  | BooleanSingleton (value : bool).

Inductive TableState := Sealed | Unsealed | Free | Generic.

(** Modelled from the spec: [Property] (Type.h) is not under src/.  "Either
    a single read/write type or separately-tracked read-only / write-only
    types, plus deprecated, deprecatedSuggestion, location, tags,
    documentationSymbol." *)
Record Property := mkProperty {
  readTy : option TypeId;
  writeTy : option TypeId;
  deprecated : bool;
  deprecatedSuggestion : string;
  location : option Location;
  tags : Tags;
  prop_documentationSymbol : option string }.

Record TableIndexer := mkTableIndexer {
  indexType : TypeId;
  indexResultType : TypeId }.

Record FunctionType := mkFunctionType {
  fn_level : TypeLevel;
  fn_scope : option ScopeId;
  generics : list TypeId;
  genericPacks : list TypePackId;
  argTypes : option TypePackId;
  argNames : list (option Name);
  retTypes : option TypePackId;
  definition : option nat;
  hasSelf : bool;
  fn_tags : Tags;
  hasNoFreeOrGenericTypes : bool }.

Record TableType := mkTableType {
  props : gmap Name Property;
  indexer : option TableIndexer;
  state : TableState;
  tt_level : TypeLevel;
  boundTo : option TypeId;
  instantiatedTypeParams : list TypeId;
  instantiatedTypePackParams : list TypePackId;
  definitionModuleName : string;
  definitionLocation : Location;
  tt_tags : Tags }.

Record ClassType := mkClassType {
  ct_name : Name;
  ct_props : gmap Name Property;
  parent : option TypeId;
  ct_metatable : option TypeId;
  ct_tags : Tags;
  userData : nat;
  ct_definitionModuleName : string;
  ct_indexer : option TableIndexer }.

(** The alternatives of [TypeVariant]. *)
Inductive TypeVariant :=
  | FreeType (scope : option ScopeId) (lvl : TypeLevel)
  | GenericType (name : Name) (scope : option ScopeId)
  | BoundType (boundTo : TypeId)
  | ErrorType
  | BlockedType (index : nat)
  | PendingExpansionType (prefix : option Name) (name : Name)
      (typeArguments : list TypeId) (packArguments : list TypePackId)
  | PrimitiveType (kind : PrimitiveKind)
  | SingletonType (variant : SingletonVariant)
  | FunctionTypeV (ftv : FunctionType)
  | TableTypeV (ttv : TableType)
  | MetatableType (table : option TypeId) (metatable : option TypeId)
  | ClassTypeV (ctv : ClassType)
  | AnyType
  | UnionType (options : list TypeId)
  | IntersectionType (parts : list TypeId)
  | LazyType (thunk : nat) (unwrapped : option TypeId)
  | UnknownType
  | NeverType
  | NegationType (ty : TypeId)
  | TypeFamilyInstanceType (family : nat)
      (typeArguments : list TypeId) (packArguments : list TypePackId).

(** The alternatives of [TypePackVariant]. *)
Inductive TypePackVariant :=
  | FreeTypePack (scope : option ScopeId) (lvl : TypeLevel)
  | GenericTypePack (name : Name) (scope : option ScopeId)
  | BoundTypePack (boundTo : TypePackId)
  | ErrorTypePack
  | BlockedTypePack (index : nat)
  | VariadicTypePack (ty : TypeId) (hidden : bool)
  | TypePack (head : list TypeId) (tail : option TypePackId)
  | TypeFamilyInstanceTypePack (family : nat)
      (typeArguments : list TypeId) (packArguments : list TypePackId).

(** [struct Type]: the variant and the per-node attributes. *)
Record Type_ := mkType {
  ty : TypeVariant;
  persistent : bool;
  documentationSymbol : option string;
  owningArena : option ArenaId }.

Record TypePackVar := mkTypePackVar {
  tp_ty : TypePackVariant;
  tp_persistent : bool;
  tp_owningArena : option ArenaId }.

(** All nodes of all arenas, by address. *)
Record Memory := mkMemory {
  types : list Type_;
  typePacks : list TypePackVar }.

End TypeGraph.

(* ===================================================================== *)
(** ** Clone.cpp                                                         *)
(* ===================================================================== *)

Module Clone.
Import TypeGraph.

(** The fast flags and the fast int read by Clone.cpp. *)
Record FFlags := mkFFlags {
  DebugLuauCopyBeforeNormalizing : bool;
  DebugLuauReadWriteProperties : bool;
  LuauTypecheckClassTypeIndexers : bool;
  LuauCloneCyclicUnions : bool;
  LuauTypeCloneRecursionLimit : nat }.

(** [LUAU_FASTINTVARIABLE(LuauTypeCloneRecursionLimit, 300)] and
    [LUAU_FASTFLAGVARIABLE(LuauCloneCyclicUnions, false)]; the other three
    flags are declared elsewhere and are taken unset. *)
Definition defaultFlags : FFlags :=
  {| DebugLuauCopyBeforeNormalizing := false;
     DebugLuauReadWriteProperties := false;
     LuauTypecheckClassTypeIndexers := false;
     LuauCloneCyclicUnions := false;
     LuauTypeCloneRecursionLimit := 300 |}.

(** [struct CloneState] (Clone.h): the two seen maps, keyed by source
    identity, and the recursion counter.  A key that maps to [nullptr]
    and an absent key answer [operator[]] alike, so both are [None]. *)
Record CloneState := mkCloneState {
  seenTypes : gmap TypeId TypeId;
  seenTypePacks : gmap TypePackId TypePackId;
  recursionCount : nat }.

(** What a call of [clone] can read and write: the memory and the
    [CloneState&] it is handed. *)
Record World := mkWorld {
  mem : Memory;
  cloneState : CloneState }.

(** How a call ends.  [LimitExceeded]: a [RecursionLimiter] constructed
    at the entry of [clone] refused to go deeper, and control left every
    enclosing [clone] without a result (Clone.cpp has no handler).
    [Undefined]: a null or dangling pointer was dereferenced or a
    [LUAU_ASSERT] failed. *)
Inductive Outcome (A : Type) : Type :=
  | Returned (a : A) (w : World)
  | LimitExceeded (w : World)
  | Undefined.
Arguments Returned {A} a w.
Arguments LimitExceeded {A} w.
Arguments Undefined {A}.

Definition M (A : Type) : Type := World -> Outcome A.

Definition ret {A} (a : A) : M A := fun w => Returned a w.

Definition bind {A B} (m : M A) (k : A -> M B) : M B :=
  fun w =>
    match m w with
    | Returned a w' => k a w'
    | LimitExceeded w' => LimitExceeded w'
    | Undefined => Undefined
    end.

(** Modelled from the spec: [RecursionLimiter] (RecursionCounter.h) is
    not under src/.  "A recursion limit (default 300) terminates runaway
    traversal": the limiter, a local object constructed at the entry of
    [clone], counts the nesting of the calls in
    [cloneState.recursionCount] and refuses the call that would nest
    deeper than the (positive) limit.  The constructor of a local object
    cannot make [clone] return a value: a refusal leaves [clone], and
    every enclosing [clone], without a result. *)
Definition throwLimit {A} : M A := fun w => LimitExceeded w.
Definition undefined {A} : M A := fun _ => Undefined.

Notation "x <- m ;; k" := (bind m (fun x => k))
  (at level 100, m at next level, right associativity).
Notation "m ;;; k" := (bind m (fun _ => k))
  (at level 100, right associativity).

(** [for (x : xs) body(x);] *)
Fixpoint forEach {A} (xs : list A) (body : A -> M unit) : M unit :=
  match xs with
  | [] => ret tt
  | x :: rest => body x ;;; forEach rest body
  end.

(** *** Memory and [CloneState] primitives *)

(** [*typeId] *)
Definition getType (typeId : TypeId) : M Type_ :=
  fun w =>
    match types (mem w) !! typeId with
    | Some node => Returned node w
    | None => Undefined
    end.

Definition getTypePack (tp : TypePackId) : M TypePackVar :=
  fun w =>
    match typePacks (mem w) !! tp with
    | Some node => Returned node w
    | None => Undefined
    end.

Definition setTypes (ts : list Type_) (w : World) : World :=
  {| mem := {| types := ts; typePacks := typePacks (mem w) |};
     cloneState := cloneState w |}.

Definition setTypePacks (ps : list TypePackVar) (w : World) : World :=
  {| mem := {| types := types (mem w); typePacks := ps |};
     cloneState := cloneState w |}.

(** Modelled from the spec: [TypeArena::addType] (TypeArena.cpp) is not
    under src/.  "Arena owns node storage; identities are stable for the
    arena's lifetime": a new node at a fresh address, owned by the arena,
    not persistent, without documentation symbol. *)
Definition addType (dest : ArenaId) (tv : TypeVariant) : M TypeId :=
  fun w =>
    let node := {| ty := tv; persistent := false;
                   documentationSymbol := None; owningArena := Some dest |} in
    Returned (length (types (mem w))) (setTypes (types (mem w) ++ [node]) w).

Definition addTypePack (dest : ArenaId) (tv : TypePackVariant) : M TypePackId :=
  fun w =>
    let node := {| tp_ty := tv; tp_persistent := false;
                   tp_owningArena := Some dest |} in
    Returned (length (typePacks (mem w)))
             (setTypePacks (typePacks (mem w) ++ [node]) w).

(** A write through [asMutable(id)] / [getMutable<T>(id)]. *)
Definition modifyType (id : TypeId) (f : Type_ -> Type_) : M unit :=
  fun w =>
    match types (mem w) !! id with
    | Some node => Returned tt (setTypes (<[id := f node]> (types (mem w))) w)
    | None => Undefined
    end.

Definition modifyTypePack (id : TypePackId) (f : TypePackVar -> TypePackVar) : M unit :=
  fun w =>
    match typePacks (mem w) !! id with
    | Some node =>
        Returned tt (setTypePacks (<[id := f node]> (typePacks (mem w))) w)
    | None => Undefined
    end.

Definition setTy (tv : TypeVariant) (node : Type_) : Type_ :=
  {| ty := tv; persistent := persistent node;
     documentationSymbol := documentationSymbol node;
     owningArena := owningArena node |}.

Definition setDocumentationSymbol (d : option string) (node : Type_) : Type_ :=
  {| ty := ty node; persistent := persistent node;
     documentationSymbol := d; owningArena := owningArena node |}.

Definition setTpTy (tv : TypePackVariant) (node : TypePackVar) : TypePackVar :=
  {| tp_ty := tv; tp_persistent := tp_persistent node;
     tp_owningArena := tp_owningArena node |}.

(** Writes through a [T*] obtained from [getMutable<T>]. *)
Definition onFunction (f : FunctionType -> FunctionType) (node : Type_) : Type_ :=
  match ty node with
  | FunctionTypeV ftv => setTy (FunctionTypeV (f ftv)) node
  | _ => node
  end.

Definition onTable (f : TableType -> TableType) (node : Type_) : Type_ :=
  match ty node with
  | TableTypeV ttv => setTy (TableTypeV (f ttv)) node
  | _ => node
  end.

Definition onClass (f : ClassType -> ClassType) (node : Type_) : Type_ :=
  match ty node with
  | ClassTypeV ctv => setTy (ClassTypeV (f ctv)) node
  | _ => node
  end.

Definition onVariant (f : TypeVariant -> TypeVariant) (node : Type_) : Type_ :=
  setTy (f (ty node)) node.

Definition onPackVariant (f : TypePackVariant -> TypePackVariant)
    (node : TypePackVar) : TypePackVar :=
  setTpTy (f (tp_ty node)) node.

(** [seenTypes[typeId]] read, and [seenTypes[typeId] = cloned]. *)
Definition lookupSeenType (typeId : TypeId) : M (option TypeId) :=
  fun w => Returned (seenTypes (cloneState w) !! typeId) w.

Definition lookupSeenTypePack (tp : TypePackId) : M (option TypePackId) :=
  fun w => Returned (seenTypePacks (cloneState w) !! tp) w.

Definition setSeenType (typeId cloned : TypeId) : M unit :=
  fun w =>
    Returned tt
      {| mem := mem w;
         cloneState :=
           {| seenTypes := <[typeId := cloned]> (seenTypes (cloneState w));
              seenTypePacks := seenTypePacks (cloneState w);
              recursionCount := recursionCount (cloneState w) |} |}.

Definition setSeenTypePack (tp cloned : TypePackId) : M unit :=
  fun w =>
    Returned tt
      {| mem := mem w;
         cloneState :=
           {| seenTypes := seenTypes (cloneState w);
              seenTypePacks := <[tp := cloned]> (seenTypePacks (cloneState w));
              recursionCount := recursionCount (cloneState w) |} |}.

(** *** Field writes used by the cloners *)

Definition push_generic (c : TypeId) (f : FunctionType) : FunctionType :=
  mkFunctionType (fn_level f) (fn_scope f) (generics f ++ [c]) (genericPacks f)
    (argTypes f) (argNames f) (retTypes f) (definition f) (hasSelf f)
    (fn_tags f) (hasNoFreeOrGenericTypes f).

Definition push_genericPack (c : TypePackId) (f : FunctionType) : FunctionType :=
  mkFunctionType (fn_level f) (fn_scope f) (generics f) (genericPacks f ++ [c])
    (argTypes f) (argNames f) (retTypes f) (definition f) (hasSelf f)
    (fn_tags f) (hasNoFreeOrGenericTypes f).

Definition set_fn_tags (t : Tags) (f : FunctionType) : FunctionType :=
  mkFunctionType (fn_level f) (fn_scope f) (generics f) (genericPacks f)
    (argTypes f) (argNames f) (retTypes f) (definition f) (hasSelf f)
    t (hasNoFreeOrGenericTypes f).

Definition set_argTypes (c : TypePackId) (f : FunctionType) : FunctionType :=
  mkFunctionType (fn_level f) (fn_scope f) (generics f) (genericPacks f)
    (Some c) (argNames f) (retTypes f) (definition f) (hasSelf f)
    (fn_tags f) (hasNoFreeOrGenericTypes f).

Definition set_argNames (n : list (option Name)) (f : FunctionType) : FunctionType :=
  mkFunctionType (fn_level f) (fn_scope f) (generics f) (genericPacks f)
    (argTypes f) n (retTypes f) (definition f) (hasSelf f)
    (fn_tags f) (hasNoFreeOrGenericTypes f).

Definition set_retTypes (c : TypePackId) (f : FunctionType) : FunctionType :=
  mkFunctionType (fn_level f) (fn_scope f) (generics f) (genericPacks f)
    (argTypes f) (argNames f) (Some c) (definition f) (hasSelf f)
    (fn_tags f) (hasNoFreeOrGenericTypes f).

Definition set_hasNoFreeOrGenericTypes (b : bool) (f : FunctionType) : FunctionType :=
  mkFunctionType (fn_level f) (fn_scope f) (generics f) (genericPacks f)
    (argTypes f) (argNames f) (retTypes f) (definition f) (hasSelf f)
    (fn_tags f) b.

Definition set_tt_level (l : TypeLevel) (t : TableType) : TableType :=
  mkTableType (props t) (indexer t) (state t) l (boundTo t)
    (instantiatedTypeParams t) (instantiatedTypePackParams t)
    (definitionModuleName t) (definitionLocation t) (tt_tags t).

Definition set_boundTo (b : option TypeId) (t : TableType) : TableType :=
  mkTableType (props t) (indexer t) (state t) (tt_level t) b
    (instantiatedTypeParams t) (instantiatedTypePackParams t)
    (definitionModuleName t) (definitionLocation t) (tt_tags t).

Definition set_prop (name : Name) (p : Property) (t : TableType) : TableType :=
  mkTableType (<[name := p]> (props t)) (indexer t) (state t) (tt_level t)
    (boundTo t) (instantiatedTypeParams t) (instantiatedTypePackParams t)
    (definitionModuleName t) (definitionLocation t) (tt_tags t).

Definition set_indexer (i : TableIndexer) (t : TableType) : TableType :=
  mkTableType (props t) (Some i) (state t) (tt_level t) (boundTo t)
    (instantiatedTypeParams t) (instantiatedTypePackParams t)
    (definitionModuleName t) (definitionLocation t) (tt_tags t).

Definition set_typeParam (i : nat) (c : TypeId) (t : TableType) : TableType :=
  mkTableType (props t) (indexer t) (state t) (tt_level t) (boundTo t)
    (<[i := c]> (instantiatedTypeParams t)) (instantiatedTypePackParams t)
    (definitionModuleName t) (definitionLocation t) (tt_tags t).

Definition set_typePackParam (i : nat) (c : TypePackId) (t : TableType) : TableType :=
  mkTableType (props t) (indexer t) (state t) (tt_level t) (boundTo t)
    (instantiatedTypeParams t) (<[i := c]> (instantiatedTypePackParams t))
    (definitionModuleName t) (definitionLocation t) (tt_tags t).

Definition set_definition (m : string) (l : Location) (tg : Tags)
    (t : TableType) : TableType :=
  mkTableType (props t) (indexer t) (state t) (tt_level t) (boundTo t)
    (instantiatedTypeParams t) (instantiatedTypePackParams t) m l tg.

Definition set_ct_prop (name : Name) (p : Property) (c : ClassType) : ClassType :=
  mkClassType (ct_name c) (<[name := p]> (ct_props c)) (parent c)
    (ct_metatable c) (ct_tags c) (userData c) (ct_definitionModuleName c)
    (ct_indexer c).

Definition set_parent (p : TypeId) (c : ClassType) : ClassType :=
  mkClassType (ct_name c) (ct_props c) (Some p) (ct_metatable c) (ct_tags c)
    (userData c) (ct_definitionModuleName c) (ct_indexer c).

Definition set_ct_metatable (m : TypeId) (c : ClassType) : ClassType :=
  mkClassType (ct_name c) (ct_props c) (parent c) (Some m) (ct_tags c)
    (userData c) (ct_definitionModuleName c) (ct_indexer c).

Definition set_ct_indexer (i : TableIndexer) (c : ClassType) : ClassType :=
  mkClassType (ct_name c) (ct_props c) (parent c) (ct_metatable c) (ct_tags c)
    (userData c) (ct_definitionModuleName c) (Some i).

Definition set_mt_table (c : TypeId) (v : TypeVariant) : TypeVariant :=
  match v with
  | MetatableType _ m => MetatableType (Some c) m
  | _ => v
  end.

Definition set_mt_metatable (c : TypeId) (v : TypeVariant) : TypeVariant :=
  match v with
  | MetatableType t _ => MetatableType t (Some c)
  | _ => v
  end.

Definition push_part (c : TypeId) (v : TypeVariant) : TypeVariant :=
  match v with
  | IntersectionType parts => IntersectionType (parts ++ [c])
  | _ => v
  end.

Definition push_typeArgument (c : TypeId) (v : TypeVariant) : TypeVariant :=
  match v with
  | TypeFamilyInstanceType f ts ps => TypeFamilyInstanceType f (ts ++ [c]) ps
  | _ => v
  end.

Definition push_packArgument (c : TypePackId) (v : TypeVariant) : TypeVariant :=
  match v with
  | TypeFamilyInstanceType f ts ps => TypeFamilyInstanceType f ts (ps ++ [c])
  | _ => v
  end.

Definition set_pet_arguments (ts : list TypeId) (ps : list TypePackId)
    (v : TypeVariant) : TypeVariant :=
  match v with
  | PendingExpansionType pre n _ _ => PendingExpansionType pre n ts ps
  | _ => v
  end.

Definition push_head (c : TypeId) (v : TypePackVariant) : TypePackVariant :=
  match v with
  | TypePack h t => TypePack (h ++ [c]) t
  | _ => v
  end.

Definition set_tail (c : TypePackId) (v : TypePackVariant) : TypePackVariant :=
  match v with
  | TypePack h _ => TypePack h (Some c)
  | _ => v
  end.

Definition push_tp_typeArgument (c : TypeId) (v : TypePackVariant) : TypePackVariant :=
  match v with
  | TypeFamilyInstanceTypePack f ts ps => TypeFamilyInstanceTypePack f (ts ++ [c]) ps
  | _ => v
  end.

Definition push_tp_packArgument (c : TypePackId) (v : TypePackVariant) : TypePackVariant :=
  match v with
  | TypeFamilyInstanceTypePack f ts ps => TypeFamilyInstanceTypePack f ts (ps ++ [c])
  | _ => v
  end.

(** Modelled from the spec: [Property::create] and the [Property]
    constructor (Type.cpp) are not under src/.  A property holds a read
    type, a write type, or both; the constructor from one type makes it
    the read and the write type. *)
Definition Property_create (read write : option TypeId) : option Property :=
  match read, write with
  | None, None => None
  | _, _ => Some (mkProperty read write false "" None [] None)
  end.

Definition Property_of_type (t : TypeId) (d : bool) (ds : string)
    (l : option Location) (tg : Tags) (doc : option string) : Property :=
  mkProperty (Some t) (Some t) d ds l tg doc.

Definition copy_metadata (src cloned : Property) : Property :=
  mkProperty (readTy cloned) (writeTy cloned) (deprecated src)
    (deprecatedSuggestion src) (location src) (tags src)
    (prop_documentationSymbol src).

(** [TableType{}]: a table without properties. *)
Definition emptyTableType : TableType :=
  mkTableType ∅ None Unsealed (mkTypeLevel 0 0) None [] [] ""
    (mkLocation (mkPosition 0 0) (mkPosition 0 0)) [].

(** *** The cloners

    [TypeCloner] and [TypePackCloner] deposit the clone of [typeId] in the
    seen map; [cloneTy] and [cloneTp] stand for the recursive calls of
    [clone(TypeId, ...)] and [clone(TypePackId, ...)]. *)

Section Cloners.
Context (flags : FFlags) (dest : ArenaId).
Context (cloneTy : TypeId -> M TypeId) (cloneTp : TypePackId -> M TypePackId).

Definition cloneOptionalType (o : option TypeId) : M (option TypeId) :=
  match o with
  | Some t => c <- cloneTy t ;; ret (Some c)
  | None => ret None
  end.

(** [clone(const Property&, ...)] *)
Definition clone_Property (prop : Property) : M Property :=
  if DebugLuauReadWriteProperties flags then
    cloneReadTy <- cloneOptionalType (readTy prop) ;;
    cloneWriteTy <- cloneOptionalType (writeTy prop) ;;
    match Property_create cloneReadTy cloneWriteTy with
    | Some cloned => ret (copy_metadata prop cloned)
    | None => undefined
    end
  else
    match readTy prop with
    | Some t =>
        c <- cloneTy t ;;
        ret (Property_of_type c (deprecated prop) (deprecatedSuggestion prop)
               (location prop) (tags prop) (prop_documentationSymbol prop))
    | None => undefined
    end.

(** [clone(const TableIndexer&, ...)] *)
Definition clone_TableIndexer (ix : TableIndexer) : M TableIndexer :=
  if LuauTypecheckClassTypeIndexers flags then
    a <- cloneTy (indexType ix) ;;
    b <- cloneTy (indexResultType ix) ;;
    ret (mkTableIndexer a b)
  else undefined.

(** [for (TypeId ty : xs) acc.push_back(clone(ty, ...))] into a local
    vector. *)
Fixpoint cloneInto {A} (cl : A -> M A) (xs : list A) (acc : list A) : M (list A) :=
  match xs with
  | [] => ret acc
  | x :: rest => c <- cl x ;; cloneInto cl rest (acc ++ [c])
  end.

Section TypePackCloner.
Context (typePackId : TypePackId).

Definition tp_defaultClone (t : TypePackVariant) : M unit :=
  cloned <- addTypePack dest t ;;
  setSeenTypePack typePackId cloned.

Definition TypePackCloner (t : TypePackVariant) : M unit :=
  match t with
  | FreeTypePack _ _ => tp_defaultClone t
  | GenericTypePack _ _ => tp_defaultClone t
  | ErrorTypePack => tp_defaultClone t
  | BlockedTypePack _ => tp_defaultClone t
  | BoundTypePack boundTo =>
      cloned <- cloneTp boundTo ;;
      cloned <- (if DebugLuauCopyBeforeNormalizing flags
                 then addTypePack dest (BoundTypePack cloned)
                 else ret cloned) ;;
      setSeenTypePack typePackId cloned
  | VariadicTypePack ty hidden =>
      c <- cloneTy ty ;;
      cloned <- addTypePack dest (VariadicTypePack c hidden) ;;
      setSeenTypePack typePackId cloned
  | TypePack head tail =>
      cloned <- addTypePack dest (TypePack [] None) ;;
      setSeenTypePack typePackId cloned ;;;
      forEach head (fun ty =>
        c <- cloneTy ty ;;
        modifyTypePack cloned (onPackVariant (push_head c))) ;;;
      match tail with
      | Some tl =>
          c <- cloneTp tl ;;
          modifyTypePack cloned (onPackVariant (set_tail c))
      | None => ret tt
      end
  | TypeFamilyInstanceTypePack family typeArguments packArguments =>
      cloned <- addTypePack dest (TypeFamilyInstanceTypePack family [] []) ;;
      setSeenTypePack typePackId cloned ;;;
      forEach typeArguments (fun ty =>
        c <- cloneTy ty ;;
        modifyTypePack cloned (onPackVariant (push_tp_typeArgument c))) ;;;
      forEach packArguments (fun tp =>
        c <- cloneTp tp ;;
        modifyTypePack cloned (onPackVariant (push_tp_packArgument c)))
  end.

End TypePackCloner.

Section TypeCloner.
Context (typeId : TypeId).

Definition defaultClone (t : TypeVariant) : M unit :=
  cloned <- addType dest t ;;
  setSeenType typeId cloned.

Definition clone_FunctionType (t : FunctionType) : M unit :=
  result <- addType dest
    (FunctionTypeV (mkFunctionType (mkTypeLevel 0 0) None [] [] None []
                      None (definition t) (hasSelf t) [] false)) ;;
  setSeenType typeId result ;;;
  forEach (generics t) (fun generic =>
    c <- cloneTy generic ;;
    modifyType result (onFunction (push_generic c))) ;;;
  forEach (genericPacks t) (fun genericPack =>
    c <- cloneTp genericPack ;;
    modifyType result (onFunction (push_genericPack c))) ;;;
  modifyType result (onFunction (set_fn_tags (fn_tags t))) ;;;
  match argTypes t with
  | Some a =>
      c <- cloneTp a ;;
      modifyType result (onFunction (set_argTypes c))
  | None => undefined
  end ;;;
  modifyType result (onFunction (set_argNames (argNames t))) ;;;
  match retTypes t with
  | Some r =>
      c <- cloneTp r ;;
      modifyType result (onFunction (set_retTypes c))
  | None => undefined
  end ;;;
  modifyType result
    (onFunction (set_hasNoFreeOrGenericTypes (hasNoFreeOrGenericTypes t))).

(** [for (TypeId& arg : ttv->instantiatedTypeParams) arg = clone(arg, ...)]:
    element [i] of the destination's own vector is read, cloned and
    overwritten. *)
Definition cloneTypeParamAt (result : TypeId) (i : nat) : M unit :=
  node <- getType result ;;
  match ty node with
  | TableTypeV ttv =>
      match instantiatedTypeParams ttv !! i with
      | Some arg =>
          c <- cloneTy arg ;;
          modifyType result (onTable (set_typeParam i c))
      | None => undefined
      end
  | _ => undefined
  end.

Definition cloneTypePackParamAt (result : TypeId) (i : nat) : M unit :=
  node <- getType result ;;
  match ty node with
  | TableTypeV ttv =>
      match instantiatedTypePackParams ttv !! i with
      | Some arg =>
          c <- cloneTp arg ;;
          modifyType result (onTable (set_typePackParam i c))
      | None => undefined
      end
  | _ => undefined
  end.

Definition clone_TableType (t : TableType) : M unit :=
  match negb (DebugLuauCopyBeforeNormalizing flags), boundTo t with
  | true, Some b =>
      (* the table is bound to another one: its content is ignored *)
      boundTo' <- cloneTy b ;;
      setSeenType typeId boundTo'
  | _, _ =>
      result <- addType dest (TableTypeV emptyTableType) ;;
      modifyType result (setTy (TableTypeV t)) ;;;
      setSeenType typeId result ;;;
      modifyType result (onTable (set_tt_level (mkTypeLevel 0 0))) ;;;
      match DebugLuauCopyBeforeNormalizing flags, boundTo t with
      | true, Some b =>
          c <- cloneTy b ;;
          modifyType result (onTable (set_boundTo (Some c)))
      | _, _ => ret tt
      end ;;;
      forEach (map_to_list (props t)) (fun '(name, prop) =>
        c <- clone_Property prop ;;
        modifyType result (onTable (set_prop name c))) ;;;
      match indexer t with
      | Some ix =>
          if LuauTypecheckClassTypeIndexers flags then
            c <- clone_TableIndexer ix ;;
            modifyType result (onTable (set_indexer c))
          else
            a <- cloneTy (indexType ix) ;;
            b <- cloneTy (indexResultType ix) ;;
            modifyType result (onTable (set_indexer (mkTableIndexer a b)))
      | None => ret tt
      end ;;;
      forEach (seq 0 (length (instantiatedTypeParams t)))
        (cloneTypeParamAt result) ;;;
      forEach (seq 0 (length (instantiatedTypePackParams t)))
        (cloneTypePackParamAt result) ;;;
      modifyType result
        (onTable (set_definition (definitionModuleName t)
                    (definitionLocation t) (tt_tags t)))
  end.

Definition clone_MetatableType (table metatable : option TypeId) : M unit :=
  result <- addType dest (MetatableType None None) ;;
  setSeenType typeId result ;;;
  match table with
  | Some t =>
      c <- cloneTy t ;;
      modifyType result (onVariant (set_mt_table c))
  | None => undefined
  end ;;;
  match metatable with
  | Some m =>
      c <- cloneTy m ;;
      modifyType result (onVariant (set_mt_metatable c))
  | None => undefined
  end.

Definition clone_ClassType (t : ClassType) : M unit :=
  result <- addType dest
    (ClassTypeV (mkClassType (ct_name t) ∅ None None (ct_tags t) (userData t)
                   (ct_definitionModuleName t) None)) ;;
  setSeenType typeId result ;;;
  forEach (map_to_list (ct_props t)) (fun '(name, prop) =>
    c <- clone_Property prop ;;
    modifyType result (onClass (set_ct_prop name c))) ;;;
  match parent t with
  | Some p =>
      c <- cloneTy p ;;
      modifyType result (onClass (set_parent c))
  | None => ret tt
  end ;;;
  match ct_metatable t with
  | Some m =>
      c <- cloneTy m ;;
      modifyType result (onClass (set_ct_metatable c))
  | None => ret tt
  end ;;;
  if LuauTypecheckClassTypeIndexers flags then
    match ct_indexer t with
    | Some ix =>
        c <- clone_TableIndexer ix ;;
        modifyType result (onClass (set_ct_indexer c))
    | None => ret tt
    end
  else ret tt.

Definition clone_UnionType (options : list TypeId) : M unit :=
  if LuauCloneCyclicUnions flags then
    result <- addType dest (FreeType None (mkTypeLevel 0 0)) ;;
    setSeenType typeId result ;;;
    options' <- cloneInto cloneTy options [] ;;
    modifyType result (setTy (UnionType options'))
  else
    options' <- cloneInto cloneTy options [] ;;
    result <- addType dest (UnionType options') ;;
    setSeenType typeId result.

Definition TypeCloner (t : TypeVariant) : M unit :=
  match t with
  | FreeType _ _ => defaultClone t
  | GenericType _ _ => defaultClone t
  | BoundType boundTo =>
      boundTo' <- cloneTy boundTo ;;
      boundTo' <- (if DebugLuauCopyBeforeNormalizing flags
                   then addType dest (BoundType boundTo')
                   else ret boundTo') ;;
      setSeenType typeId boundTo'
  | ErrorType => defaultClone t
  | BlockedType _ => defaultClone t
  | PendingExpansionType prefix name typeArguments packArguments =>
      res <- addType dest
        (PendingExpansionType prefix name typeArguments packArguments) ;;
      setSeenType typeId res ;;;
      typeArguments' <- cloneInto cloneTy typeArguments [] ;;
      packArguments' <- cloneInto cloneTp packArguments [] ;;
      modifyType res (onVariant (set_pet_arguments typeArguments' packArguments'))
  | PrimitiveType _ => defaultClone t
  | SingletonType _ => defaultClone t
  | FunctionTypeV ftv => clone_FunctionType ftv
  | TableTypeV ttv => clone_TableType ttv
  | MetatableType table metatable => clone_MetatableType table metatable
  | ClassTypeV ctv => clone_ClassType ctv
  | AnyType => defaultClone t
  | UnionType options => clone_UnionType options
  | IntersectionType parts =>
      result <- addType dest (IntersectionType []) ;;
      setSeenType typeId result ;;;
      forEach parts (fun ty =>
        c <- cloneTy ty ;;
        modifyType result (onVariant (push_part c)))
  | LazyType _ unwrapped =>
      match unwrapped with
      | Some u =>
          c <- cloneTy u ;;
          setSeenType typeId c
      | None => defaultClone t
      end
  | UnknownType => defaultClone t
  | NeverType => defaultClone t
  | NegationType ty =>
      result <- addType dest AnyType ;;
      setSeenType typeId result ;;;
      c <- cloneTy ty ;;
      modifyType result (setTy (NegationType c))
  | TypeFamilyInstanceType family typeArguments packArguments =>
      result <- addType dest (TypeFamilyInstanceType family [] []) ;;
      setSeenType typeId result ;;;
      forEach typeArguments (fun p =>
        c <- cloneTy p ;;
        modifyType result (onVariant (push_typeArgument c))) ;;;
      forEach packArguments (fun p =>
        c <- cloneTp p ;;
        modifyType result (onVariant (push_packArgument c)))
  end.

End TypeCloner.
End Cloners.

(** What [clone(TypeId, ...)] does once its [RecursionLimiter] has let it
    pass: [res = seenTypes[typeId]]; an unseen type is handed to the
    [TypeCloner], which deposits the clone in [res]. *)
Definition clone_TypeId_admitted (flags : FFlags) (dest : ArenaId)
    (cloneTy : TypeId -> M TypeId) (cloneTp : TypePackId -> M TypePackId)
    (typeId : TypeId) (node : Type_) : M TypeId :=
  res <- lookupSeenType typeId ;;
  match res with
  | Some r => ret r
  | None =>
      TypeCloner flags dest cloneTy cloneTp typeId (ty node) ;;;
      res <- lookupSeenType typeId ;;
      match res with
      | Some r =>
          rnode <- getType r ;;
          (* persistent types are not cloned; the original may be read-only *)
          (if persistent rnode then ret tt
           else
             src <- getType typeId ;;
             modifyType r (setDocumentationSymbol (documentationSymbol src))) ;;;
          ret r
      | None => undefined
      end
  end.

Definition clone_TypePackId_admitted (flags : FFlags) (dest : ArenaId)
    (cloneTy : TypeId -> M TypeId) (cloneTp : TypePackId -> M TypePackId)
    (tp : TypePackId) (node : TypePackVar) : M TypePackId :=
  res <- lookupSeenTypePack tp ;;
  match res with
  | Some r => ret r
  | None =>
      TypePackCloner flags dest cloneTy cloneTp tp (tp_ty node) ;;;
      res <- lookupSeenTypePack tp ;;
      match res with
      | Some r => ret r
      | None => undefined
      end
  end.

(** [clone(TypeId, ...)] and [clone(TypePackId, ...)].

    [budget] is [LuauTypeCloneRecursionLimit - cloneState.recursionCount]
    at the entry of the call: the [RecursionLimiter] counts one level up
    for the extent of the call and refuses when the count would pass the
    limit, so every nested call runs with one less.  The counter is back
    at its old value when the call ends, also when it ends by the
    limiter.  The limit is taken to be positive. *)
Fixpoint clone_rec (flags : FFlags) (dest : ArenaId) (budget : nat)
    (typeId : TypeId) {struct budget} : M TypeId :=
  node <- getType typeId ;;
  if persistent node then ret typeId
  else
    match budget with
    | 0 => throwLimit
    | S budget' =>
        clone_TypeId_admitted flags dest (clone_rec flags dest budget')
          (clone_pack_rec flags dest budget') typeId node
    end
with clone_pack_rec (flags : FFlags) (dest : ArenaId) (budget : nat)
    (tp : TypePackId) {struct budget} : M TypePackId :=
  node <- getTypePack tp ;;
  if tp_persistent node then ret tp
  else
    match budget with
    | 0 => throwLimit
    | S budget' =>
        clone_TypePackId_admitted flags dest (clone_rec flags dest budget')
          (clone_pack_rec flags dest budget') tp node
    end.

Definition budgetOf (flags : FFlags) (w : World) : nat :=
  LuauTypeCloneRecursionLimit flags - recursionCount (cloneState w).

(** [TypeId clone(TypeId typeId, TypeArena& dest, CloneState& cloneState)] *)
Definition clone (flags : FFlags) (typeId : TypeId) (dest : ArenaId) : M TypeId :=
  fun w => clone_rec flags dest (budgetOf flags w) typeId w.

(** [TypePackId clone(TypePackId tp, TypeArena& dest, CloneState& cloneState)] *)
Definition clone_pack (flags : FFlags) (tp : TypePackId) (dest : ArenaId) : M TypePackId :=
  fun w => clone_pack_rec flags dest (budgetOf flags w) tp w.

End Clone.

(* ===================================================================== *)
(** ** What a faithful clone is                                          *)
(* ===================================================================== *)

Module CloneSpec.
Import TypeGraph Clone.

(** [m'] returns whatever [m] returns. *)
Definition refines {A} (m m' : M A) : Prop :=
  forall w a w', m w = Returned a w' -> m' w = Returned a w'.

Definition withLimit (limit : nat) (flags : FFlags) : FFlags :=
  mkFFlags (DebugLuauCopyBeforeNormalizing flags)
    (DebugLuauReadWriteProperties flags)
    (LuauTypecheckClassTypeIndexers flags)
    (LuauCloneCyclicUnions flags) limit.

Section Copy.
(** [R x c] and [S x c]: the type [c] stands for the type [x], the pack
    [c] for the pack [x]. *)
Context (R : TypeId -> TypeId -> Prop) (S : TypePackId -> TypePackId -> Prop).

Definition copy_Property (p p' : Property) : Prop :=
  option_Forall2 R (readTy p) (readTy p')
  /\ option_Forall2 R (writeTy p) (writeTy p')
  /\ deprecated p' = deprecated p
  /\ deprecatedSuggestion p' = deprecatedSuggestion p
  /\ location p' = location p
  /\ tags p' = tags p
  /\ prop_documentationSymbol p' = prop_documentationSymbol p.

Definition copy_TableIndexer (ix ix' : TableIndexer) : Prop :=
  R (indexType ix) (indexType ix')
  /\ R (indexResultType ix) (indexResultType ix').

Definition copy_props (ps ps' : gmap Name Property) : Prop :=
  forall name, option_Forall2 copy_Property (ps !! name) (ps' !! name).

Definition copy_FunctionType (f f' : FunctionType) : Prop :=
  fn_level f' = mkTypeLevel 0 0
  /\ fn_scope f' = None
  /\ Forall2 R (generics f) (generics f')
  /\ Forall2 S (genericPacks f) (genericPacks f')
  /\ option_Forall2 S (argTypes f) (argTypes f')
  /\ argNames f' = argNames f
  /\ option_Forall2 S (retTypes f) (retTypes f')
  /\ definition f' = definition f
  /\ hasSelf f' = hasSelf f
  /\ fn_tags f' = fn_tags f
  /\ hasNoFreeOrGenericTypes f' = hasNoFreeOrGenericTypes f.

Definition copy_TableType (t t' : TableType) : Prop :=
  copy_props (props t) (props t')
  /\ option_Forall2 copy_TableIndexer (indexer t) (indexer t')
  /\ state t' = state t
  /\ tt_level t' = mkTypeLevel 0 0
  /\ option_Forall2 R (boundTo t) (boundTo t')
  /\ Forall2 R (instantiatedTypeParams t) (instantiatedTypeParams t')
  /\ Forall2 S (instantiatedTypePackParams t) (instantiatedTypePackParams t')
  /\ definitionModuleName t' = definitionModuleName t
  /\ definitionLocation t' = definitionLocation t
  /\ tt_tags t' = tt_tags t.

Definition copy_ClassType (c c' : ClassType) : Prop :=
  ct_name c' = ct_name c
  /\ copy_props (ct_props c) (ct_props c')
  /\ option_Forall2 R (parent c) (parent c')
  /\ option_Forall2 R (ct_metatable c) (ct_metatable c')
  /\ ct_tags c' = ct_tags c
  /\ userData c' = userData c
  /\ ct_definitionModuleName c' = ct_definitionModuleName c
  /\ option_Forall2 copy_TableIndexer (ct_indexer c) (ct_indexer c').

(** [v'] is [v] with every edge redirected along [R] and [S]; the level
    and the scope of functions and tables are reset, as the cloner does. *)
Definition copy_variant (v v' : TypeVariant) : Prop :=
  match v with
  | BoundType _ => False
  | LazyType _ (Some _) => False
  | PendingExpansionType prefix name ts ps =>
      exists ts' ps', v' = PendingExpansionType prefix name ts' ps'
                      /\ Forall2 R ts ts' /\ Forall2 S ps ps'
  | FunctionTypeV f => exists f', v' = FunctionTypeV f' /\ copy_FunctionType f f'
  | TableTypeV t => exists t', v' = TableTypeV t' /\ copy_TableType t t'
  | MetatableType t m =>
      exists t' m', v' = MetatableType t' m'
                    /\ option_Forall2 R t t' /\ option_Forall2 R m m'
  | ClassTypeV c => exists c', v' = ClassTypeV c' /\ copy_ClassType c c'
  | UnionType options =>
      exists options', v' = UnionType options' /\ Forall2 R options options'
  | IntersectionType parts =>
      exists parts', v' = IntersectionType parts' /\ Forall2 R parts parts'
  | NegationType t => exists t', v' = NegationType t' /\ R t t'
  | TypeFamilyInstanceType family ts ps =>
      exists ts' ps', v' = TypeFamilyInstanceType family ts' ps'
                      /\ Forall2 R ts ts' /\ Forall2 S ps ps'
  | _ => v' = v
  end.

Definition copy_pack_variant (v v' : TypePackVariant) : Prop :=
  match v with
  | BoundTypePack _ => False
  | VariadicTypePack t hidden =>
      exists t', v' = VariadicTypePack t' hidden /\ R t t'
  | TypePack head tail =>
      exists head' tail', v' = TypePack head' tail'
                          /\ Forall2 R head head' /\ option_Forall2 S tail tail'
  | TypeFamilyInstanceTypePack family ts ps =>
      exists ts' ps', v' = TypeFamilyInstanceTypePack family ts' ps'
                      /\ Forall2 R ts ts' /\ Forall2 S ps ps'
  | _ => v' = v
  end.

End Copy.

Section Closed.
(** Every edge of a node ends in a type that satisfies [P] or a pack that
    satisfies [Q]. *)
Context (P : TypeId -> Prop) (Q : TypePackId -> Prop).

Definition closed_Property (p : Property) : Prop :=
  option_Forall P (readTy p) /\ option_Forall P (writeTy p).

Definition closed_TableIndexer (ix : TableIndexer) : Prop :=
  P (indexType ix) /\ P (indexResultType ix).

Definition closed_props (ps : gmap Name Property) : Prop :=
  map_Forall (fun _ p => closed_Property p) ps.

Definition closed_variant (v : TypeVariant) : Prop :=
  match v with
  | BoundType t => P t
  | LazyType _ u => option_Forall P u
  | PendingExpansionType _ _ ts ps => Forall P ts /\ Forall Q ps
  | FunctionTypeV f =>
      Forall P (generics f) /\ Forall Q (genericPacks f)
      /\ option_Forall Q (argTypes f) /\ option_Forall Q (retTypes f)
  | TableTypeV t =>
      closed_props (props t) /\ option_Forall closed_TableIndexer (indexer t)
      /\ option_Forall P (boundTo t)
      /\ Forall P (instantiatedTypeParams t)
      /\ Forall Q (instantiatedTypePackParams t)
  | MetatableType t m => option_Forall P t /\ option_Forall P m
  | ClassTypeV c =>
      closed_props (ct_props c) /\ option_Forall P (parent c)
      /\ option_Forall P (ct_metatable c)
      /\ option_Forall closed_TableIndexer (ct_indexer c)
  | UnionType options => Forall P options
  | IntersectionType parts => Forall P parts
  | NegationType t => P t
  | TypeFamilyInstanceType _ ts ps => Forall P ts /\ Forall Q ps
  | _ => True
  end.

Definition closed_pack_variant (v : TypePackVariant) : Prop :=
  match v with
  | BoundTypePack t => Q t
  | VariadicTypePack t _ => P t
  | TypePack head tail => Forall P head /\ option_Forall Q tail
  | TypeFamilyInstanceTypePack _ ts ps => Forall P ts /\ Forall Q ps
  | _ => True
  end.

End Closed.

(** The nodes whose clone is registered in the seen map before the cloner
    descends into them, with the fields that the cloner dereferences
    present. *)
Definition cloneable_Property (flags : FFlags) (p : Property) : Prop :=
  if DebugLuauReadWriteProperties flags
  then is_Some (readTy p) \/ is_Some (writeTy p)
  else exists t, readTy p = Some t /\ writeTy p = Some t.

Definition cloneable_props (flags : FFlags) (ps : gmap Name Property) : Prop :=
  map_Forall (fun _ p => cloneable_Property flags p) ps.

Definition cloneable (flags : FFlags) (v : TypeVariant) : Prop :=
  match v with
  | BoundType _ => False
  | LazyType _ u => u = None
  | FunctionTypeV f => is_Some (argTypes f) /\ is_Some (retTypes f)
  | TableTypeV t =>
      (DebugLuauCopyBeforeNormalizing flags = false -> boundTo t = None)
      /\ cloneable_props flags (props t)
  | MetatableType t m => is_Some t /\ is_Some m
  | ClassTypeV c =>
      cloneable_props flags (ct_props c)
      /\ (LuauTypecheckClassTypeIndexers flags = false -> ct_indexer c = None)
  | UnionType _ => LuauCloneCyclicUnions flags = true
  | _ => True
  end.

Definition cloneable_pack (v : TypePackVariant) : Prop :=
  match v with
  | BoundTypePack _ => False
  | VariadicTypePack _ _ => False
  | _ => True
  end.

(** A set of source nodes that contains, with every node, the nodes its
    edges lead to. *)
Definition closed_set (base : Memory) (ST : gset TypeId) (SP : gset TypePackId)
    : Prop :=
  (forall x, x ∈ ST ->
     exists node, types base !! x = Some node
       /\ closed_variant (fun t => t ∈ ST) (fun p => p ∈ SP) (ty node))
  /\ (forall x, x ∈ SP ->
        exists node, typePacks base !! x = Some node
          /\ closed_pack_variant (fun t => t ∈ ST) (fun p => p ∈ SP) (tp_ty node)).

(** The node [x] with content [v] lies on no cycle: its edges lead into
    a closed set that does not contain it. *)
Definition off_cycle_t (base : Memory) (x : TypeId) (v : TypeVariant) : Prop :=
  exists ST SP,
    closed_set base ST SP
    /\ closed_variant (fun t => t ∈ ST) (fun p => p ∈ SP) v
    /\ x ∉ ST.

Definition off_cycle_p (base : Memory) (x : TypePackId) (v : TypePackVariant)
    : Prop :=
  exists ST SP,
    closed_set base ST SP
    /\ closed_pack_variant (fun t => t ∈ ST) (fun p => p ∈ SP) v
    /\ x ∉ SP.

(** What the cloner clones faithfully: the nodes it registers before it
    descends into them, and, off the cycles of the graph, the unions
    (when [LuauCloneCyclicUnions] is not set) and the variadic packs,
    which it registers afterwards. *)
Definition cloneable_at (flags : FFlags) (base : Memory) (x : TypeId)
    (v : TypeVariant) : Prop :=
  cloneable flags v
  \/ (exists options, v = UnionType options
        /\ LuauCloneCyclicUnions flags = false /\ off_cycle_t base x v).

Definition cloneable_pack_at (base : Memory) (x : TypePackId)
    (v : TypePackVariant) : Prop :=
  cloneable_pack v
  \/ (exists t hidden, v = VariadicTypePack t hidden /\ off_cycle_p base x v).

(** A source graph: no node is persistent, every node is cloneable and
    every edge stays inside the graph. *)
Record wf_graph (flags : FFlags) (base : Memory) : Prop := mk_wf_graph {
  wf_types : forall x node,
    types base !! x = Some node ->
    persistent node = false
    /\ cloneable_at flags base x (ty node)
    /\ closed_variant (fun t => t < length (types base))
         (fun p => p < length (typePacks base)) (ty node);
  wf_packs : forall x node,
    typePacks base !! x = Some node ->
    tp_persistent node = false
    /\ cloneable_pack_at base x (tp_ty node)
    /\ closed_pack_variant (fun t => t < length (types base))
         (fun p => p < length (typePacks base)) (tp_ty node) }.

(** The clone [c] of the source type [x] is complete in [w]. *)
Definition typeDone (dest : ArenaId) (base : Memory) (w : World)
    (x c : TypeId) : Prop :=
  exists node v',
    types base !! x = Some node
    /\ types (mem w) !! c
       = Some (mkType v' false (documentationSymbol node) (Some dest))
    /\ copy_variant (fun a b => seenTypes (cloneState w) !! a = Some b)
         (fun a b => seenTypePacks (cloneState w) !! a = Some b)
         (ty node) v'.

Definition packDone (dest : ArenaId) (base : Memory) (w : World)
    (x c : TypePackId) : Prop :=
  exists node v',
    typePacks base !! x = Some node
    /\ typePacks (mem w) !! c = Some (mkTypePackVar v' false (Some dest))
    /\ copy_pack_variant (fun a b => seenTypes (cloneState w) !! a = Some b)
         (fun a b => seenTypePacks (cloneState w) !! a = Some b)
         (tp_ty node) v'.


(** The instantiated parameters of a table replaced as a whole: what the
    in-place loops of the table cloner amount to. *)
Definition with_typeParams (cs : list TypeId) (t : TableType) : TableType :=
  mkTableType (props t) (indexer t) (state t) (tt_level t) (boundTo t)
    cs (instantiatedTypePackParams t)
    (definitionModuleName t) (definitionLocation t) (tt_tags t).

Definition with_typePackParams (cs : list TypePackId) (t : TableType) : TableType :=
  mkTableType (props t) (indexer t) (state t) (tt_level t) (boundTo t)
    (instantiatedTypeParams t) cs
    (definitionModuleName t) (definitionLocation t) (tt_tags t).

(** The properties after a loop of [props[name] = clone]. *)
Definition insert_props (init : gmap Name Property)
    (l : list (Name * Property * Property)) : gmap Name Property :=
  foldl (fun m ic => <[ic.1.1 := ic.2]> m) init l.

(** A [CloneState] as its owner constructs it: nothing seen yet. *)
Definition startWorld (base : Memory) (count : nat) : World :=
  mkWorld base (mkCloneState ∅ ∅ count).

(** The seen maps of [w] are an isomorphism from the part of the source
    graph [base] they cover onto its clones: the source is untouched,
    every registered source node has a complete clone among the new
    nodes (so every edge of the source has its image), and two source
    nodes never share a clone. *)
Definition faithful (dest : ArenaId) (base : Memory) (w : World) : Prop :=
  (forall i, i < length (types base) -> types (mem w) !! i = types base !! i)
  /\ (forall i, i < length (typePacks base) ->
        typePacks (mem w) !! i = typePacks base !! i)
  /\ (forall x c, seenTypes (cloneState w) !! x = Some c ->
        length (types base) <= c /\ typeDone dest base w x c)
  /\ (forall x c, seenTypePacks (cloneState w) !! x = Some c ->
        length (typePacks base) <= c /\ packDone dest base w x c)
  /\ (forall x y c, seenTypes (cloneState w) !! x = Some c ->
        seenTypes (cloneState w) !! y = Some c -> x = y)
  /\ (forall x y c, seenTypePacks (cloneState w) !! x = Some c ->
        seenTypePacks (cloneState w) !! y = Some c -> x = y).

(** *** The invariant of a traversal *)

Section Invariants.
Context (dest : ArenaId) (base : Memory).
(** The part of the source graph that a traversal stays in. *)
Context (ST : gset TypeId) (SP : gset TypePackId).

Local Abbreviation N0 := (length (types base)).
Local Abbreviation M0 := (length (typePacks base)).
Local Abbreviation tys w := (types (mem w)).
Local Abbreviation tps w := (typePacks (mem w)).
Local Abbreviation sT w := (seenTypes (cloneState w)).
Local Abbreviation sP w := (seenTypePacks (cloneState w)).

(** The source graph is untouched, the seen maps go from source nodes to
    allocated nodes and never send two sources to one clone. *)
Record Inv (w : World) : Prop := mkInv {
  inv_len_t : N0 <= length (tys w);
  inv_len_p : M0 <= length (tps w);
  inv_base_t : forall i, i < N0 -> tys w !! i = types base !! i;
  inv_base_p : forall i, i < M0 -> tps w !! i = typePacks base !! i;
  inv_seen_t : forall x c, sT w !! x = Some c -> x < N0 /\ c < length (tys w);
  inv_seen_p : forall x c, sP w !! x = Some c -> x < M0 /\ c < length (tps w);
  inv_inj_t : forall x y c, sT w !! x = Some c -> sT w !! y = Some c -> x = y;
  inv_inj_p : forall x y c, sP w !! x = Some c -> sP w !! y = Some c -> x = y }.

(** [w'] comes after [w]: the seen maps and the memory only grow, memory
    that existed is unchanged except at the destination node under
    construction ([rt] or [rp]), and every source node registered in
    between has a complete clone and lies in the part of the graph that
    the traversal stays in. *)
Record Ext (rt : option TypeId) (rp : option TypePackId) (w w' : World) : Prop := mkExt {
  ext_seen_t : sT w ⊆ sT w';
  ext_seen_p : sP w ⊆ sP w';
  ext_count : recursionCount (cloneState w') = recursionCount (cloneState w);
  ext_len_t : length (tys w) <= length (tys w');
  ext_len_p : length (tps w) <= length (tps w');
  ext_rt : forall r, rt = Some r -> r < length (tys w);
  ext_rp : forall r, rp = Some r -> r < length (tps w);
  ext_mem_t : forall i, i < length (tys w) -> rt <> Some i -> tys w' !! i = tys w !! i;
  ext_mem_p : forall i, i < length (tps w) -> rp <> Some i -> tps w' !! i = tps w !! i;
  ext_new_t : forall x c, sT w !! x = None -> sT w' !! x = Some c ->
                length (tys w) <= c /\ typeDone dest base w' x c;
  ext_new_p : forall x c, sP w !! x = None -> sP w' !! x = Some c ->
                length (tps w) <= c /\ packDone dest base w' x c;
  ext_in_t : forall x c, sT w !! x = None -> sT w' !! x = Some c -> x ∈ ST;
  ext_in_p : forall x c, sP w !! x = None -> sP w' !! x = Some c -> x ∈ SP }.

(** The traversal can only run into the limit when the budget does not
    cover the part of the graph that is still unseen. *)
Definition EX (b : nat) (w : World) : Prop :=
  b <= size (ST ∖ dom (sT w)) + size (SP ∖ dom (sP w)).

(** What is known after a part of the traversal that started in [w]. *)
Definition post {A} (rt : option TypeId) (rp : option TypePackId) (b : nat)
    (w : World) (o : Outcome A) (Q : A -> World -> Prop) : Prop :=
  match o with
  | Returned a w' => Inv w' /\ Ext rt rp w w' /\ Q a w'
  | LimitExceeded _ => EX b w
  | Undefined => False
  end.

(** The state after [result = dest.addType(v0); seenTypes[x] = result]. *)
Definition opened_t (w : World) (x : TypeId) (v0 : TypeVariant) : World :=
  {| mem := {| types := tys w ++ [mkType v0 false None (Some dest)];
               typePacks := tps w |};
     cloneState := {| seenTypes := <[x := length (tys w)]> (sT w);
                      seenTypePacks := sP w;
                      recursionCount := recursionCount (cloneState w) |} |}.

Definition opened_p (w : World) (x : TypePackId) (v0 : TypePackVariant) : World :=
  {| mem := {| types := tys w;
               typePacks := tps w ++ [mkTypePackVar v0 false (Some dest)] |};
     cloneState := {| seenTypes := sT w;
                      seenTypePacks := <[x := length (tps w)]> (sP w);
                      recursionCount := recursionCount (cloneState w) |} |}.

(** What a [TypeCloner] or [TypePackCloner] leaves behind for the source
    node [x] with content [v], under nested calls of budget [b]: the
    clone stands, complete but for its documentation symbol, at the
    address that was fresh in [w]. *)
Definition visited_t (b : nat) (x : TypeId) (v : TypeVariant) (w : World)
    (o : Outcome unit) : Prop :=
  match o with
  | Returned _ w2 =>
      exists v0 v',
        Inv w2
        /\ Ext (Some (length (tys w))) None (opened_t w x v0) w2
        /\ tys w2 !! length (tys w) = Some (mkType v' false None (Some dest))
        /\ copy_variant (fun a c => sT w2 !! a = Some c)
             (fun a c => sP w2 !! a = Some c) v v'
  | LimitExceeded _ => EX (S b) w
  | Undefined => False
  end.

Definition visited_p (b : nat) (x : TypePackId) (v : TypePackVariant) (w : World)
    (o : Outcome unit) : Prop :=
  match o with
  | Returned _ w2 =>
      exists v0 v',
        Inv w2
        /\ Ext None (Some (length (tps w))) (opened_p w x v0) w2
        /\ tps w2 !! length (tps w) = Some (mkTypePackVar v' false (Some dest))
        /\ copy_pack_variant (fun a c => sT w2 !! a = Some c)
             (fun a c => sP w2 !! a = Some c) v v'
  | LimitExceeded _ => EX (S b) w
  | Undefined => False
  end.

(** A fact that stays true when the seen maps grow. *)
Definition seen_mono {Nd} (T : World -> Nd -> Nd -> Prop) : Prop :=
  forall w w' n n', sT w ⊆ sT w' -> sP w ⊆ sP w' -> T w n n' -> T w' n n'.

(** A part of a cloner that works on the node under construction, read
    by [look]: started on a node that satisfies [P], it leaves a node
    related to it by [T]. *)
Definition step_on {Nd} (rt : option TypeId) (rp : option TypePackId)
    (look : World -> option Nd) (b : nat) (P : Nd -> Prop) (m : M unit)
    (T : World -> Nd -> Nd -> Prop) : Prop :=
  seen_mono T
  /\ forall w node, Inv w -> look w = Some node -> P node ->
       post rt rp b w (m w)
         (fun _ w' => exists node', look w' = Some node' /\ T w' node node').

(** The contract of the recursive calls with budget [b]. *)
Definition clones_types (b : nat) (cT : TypeId -> M TypeId) : Prop :=
  forall x w, Inv w -> x ∈ ST ->
    post None None b w (cT x w) (fun c w' => sT w' !! x = Some c).

Definition clones_packs (b : nat) (cP : TypePackId -> M TypePackId) : Prop :=
  forall x w, Inv w -> x ∈ SP ->
    post None None b w (cP x w) (fun c w' => sP w' !! x = Some c).

End Invariants.

Arguments inv_len_t {base w}.
Arguments inv_len_p {base w}.
Arguments inv_base_t {base w}.
Arguments inv_base_p {base w}.
Arguments inv_seen_t {base w}.
Arguments inv_seen_p {base w}.
Arguments inv_inj_t {base w}.
Arguments inv_inj_p {base w}.
Arguments ext_seen_t {dest base ST SP rt rp w w'}.
Arguments ext_seen_p {dest base ST SP rt rp w w'}.
Arguments ext_count {dest base ST SP rt rp w w'}.
Arguments ext_len_t {dest base ST SP rt rp w w'}.
Arguments ext_len_p {dest base ST SP rt rp w w'}.
Arguments ext_rt {dest base ST SP rt rp w w'}.
Arguments ext_rp {dest base ST SP rt rp w w'}.
Arguments ext_mem_t {dest base ST SP rt rp w w'}.
Arguments ext_mem_p {dest base ST SP rt rp w w'}.
Arguments ext_new_t {dest base ST SP rt rp w w'}.
Arguments ext_new_p {dest base ST SP rt rp w w'}.
Arguments ext_in_t {dest base ST SP rt rp w w'}.
Arguments ext_in_p {dest base ST SP rt rp w w'}.

End CloneSpec.

(* ===================================================================== *)
(** ** Sample type graphs                                                *)
(* ===================================================================== *)

Module CloneSamples.
Import TypeGraph Clone CloneSpec.

(** Nodes owned by arena [0]; the destination arena of the samples is
    arena [1]. *)
Definition sampleNode (v : TypeVariant) : Type_ := mkType v false None (Some 0).
Definition samplePack (v : TypePackVariant) : TypePackVar :=
  mkTypePackVar v false (Some 0).
Definition freshState : CloneState := mkCloneState ∅ ∅ 0.
Definition sampleWorld (ts : list Type_) (ps : list TypePackVar) : World :=
  mkWorld (mkMemory ts ps) freshState.

(** A chain [0 -> 1 -> ... -> depth] of negations ending in [any]. *)
Definition negationChain (depth : nat) : World :=
  sampleWorld (map (fun i => sampleNode (NegationType (S i))) (seq 0 depth)
               ++ [sampleNode AnyType]) [].

Definition hasErrorNode (w : World) : bool :=
  existsb (fun n => match ty n with ErrorType => true | _ => false end)
    (types (mem w))
  || existsb (fun n => match tp_ty n with ErrorTypePack => true | _ => false end)
       (typePacks (mem w)).

(** The builtin [number]: a persistent node of the global arena. *)
Definition builtinWorld : World :=
  mkWorld (mkMemory [mkType (PrimitiveType Number) true None None]
             [mkTypePackVar (TypePack [0] None) true None])
    freshState.

(** [type T = T | T]: a union that is its own option. *)
Definition cyclicUnionWorld : World :=
  sampleWorld [sampleNode (UnionType [0; 0])] [].

(** [type T = { next: T } | nil]: the union 0 of the table 1 and of
    [nil]; the property [next] of the table is the union again. *)
Definition listTable : TableType :=
  mkTableType {[ "next" := mkProperty (Some 0) (Some 0) false "" None [] None ]}
    None Sealed (mkTypeLevel 0 0) None [] [] "Main"
    (mkLocation (mkPosition 1 0) (mkPosition 1 9)) [].

Definition listWorld : World :=
  sampleWorld [sampleNode (UnionType [1; 2]); sampleNode (TableTypeV listTable);
               sampleNode (PrimitiveType NilType)] [].

(** The type of the property [next] of the table at [t]. *)
Definition nextOf (w : World) (t : TypeId) : option TypeId :=
  match ty <$> types (mem w) !! t with
  | Some (TableTypeV ttv) => props ttv !! "next" ≫= readTy
  | _ => None
  end.

(** A bound type and the type it is bound to. *)
Definition boundWorld : World :=
  sampleWorld [sampleNode (BoundType 1); sampleNode (PrimitiveType Number)] [].

(** [(...f) -> ()] where [f] is that function type: a cycle through a
    variadic pack. *)
Definition variadicFunction : FunctionType :=
  mkFunctionType (mkTypeLevel 0 0) None [] [] (Some 0) [] (Some 1) None false []
    true.
Definition variadicWorld : World :=
  sampleWorld [sampleNode (FunctionTypeV variadicFunction)]
    [samplePack (VariadicTypePack 0 false); samplePack (TypePack [] None)].

(** A graph with sharing and with cycles through a union, a table, a
    function and a type pack:
    - type 0 is [T1 | T2],
    - type 1 is a table with a property [next : T0], instantiated with [T0]
      and with pack [P0],
    - type 2 is a function [P0 -> P1],
    - type 3 is [number],
    - pack 0 is [(T0, T2, ...number)], pack 1 is [...number]. *)
Definition cyclicFlags : FFlags :=
  mkFFlags false false false true 300.

Definition nextProperty : Property :=
  mkProperty (Some 0) (Some 0) false "" None [] None.

Definition cyclicTable : TableType :=
  mkTableType {[ "next" := nextProperty ]} None Sealed (mkTypeLevel 2 1) None
    [0] [0] "Main" (mkLocation (mkPosition 1 0) (mkPosition 1 9)) [].

Definition cyclicFunction : FunctionType :=
  mkFunctionType (mkTypeLevel 1 0) None [] [] (Some 0) [] (Some 1) None false []
    true.

Definition cyclicGraph : Memory :=
  mkMemory
    [sampleNode (UnionType [1; 2]);
     sampleNode (TableTypeV cyclicTable);
     sampleNode (FunctionTypeV cyclicFunction);
     sampleNode (PrimitiveType Number)]
    [samplePack (TypePack [0; 2] (Some 1));
     samplePack (VariadicTypePack 3 false)].

End CloneSamples.

(* ===================================================================== *)
(** ** TypeChecker2.cpp                                                  *)
(* ===================================================================== *)

Module TypeChecker2.
Import TypeGraph.

(** *** The syntax tree, as far as the modelled visitors look at it *)

Definition AstId := nat.
Definition ModuleName := string.

(** [AstExprBinary::Op] *)
Inductive Op :=
  | Add | Sub | Mul | Div | Mod | Pow | Concat
  | CompareNe | CompareEq | CompareLt | CompareLe | CompareGt | CompareGe
  | And | Or.

Global Instance Op_eq_dec : EqDecision Op.
Proof. solve_decision. Defined.

Inductive ValueContext := LValue | RValue.

Global Instance ValueContext_eq_dec : EqDecision ValueContext.
Proof. solve_decision. Defined.

#[local] Set Warnings "-register-all".
Inductive AstType :=
  | AstTypeReference (id : AstId) (location : Location) (name : string)
      (parameters : list (option AstType))
  | AstTypeOther (id : AstId) (location : Location).

Inductive AstExpr :=
  | AstExprGroup (id : AstId) (location : Location) (expr : AstExpr)
  | AstExprConstantNil (id : AstId) (location : Location)
  | AstExprConstantBool (id : AstId) (location : Location) (value : bool)
  | AstExprConstantNumber (id : AstId) (location : Location) (value : Z)
  | AstExprConstantString (id : AstId) (location : Location) (value : string)
  | AstExprLocal (id : AstId) (location : Location) (name : string)
  | AstExprGlobal (id : AstId) (location : Location) (name : string)
  | AstExprIndexName (id : AstId) (location : Location) (expr : AstExpr)
      (index : string)
  | AstExprIndexExpr (id : AstId) (location : Location) (expr index : AstExpr)
  | AstExprBinary (id : AstId) (location : Location) (op : Op)
      (left right : AstExpr)
  | AstExprTypeAssertion (id : AstId) (location : Location) (expr : AstExpr)
      (annotation : AstType)
  | AstExprOther (id : AstId) (location : Location).

Definition exprId (e : AstExpr) : AstId :=
  match e with
  | AstExprGroup i _ _ | AstExprConstantNil i _ | AstExprConstantBool i _ _
  | AstExprConstantNumber i _ _ | AstExprConstantString i _ _
  | AstExprLocal i _ _ | AstExprGlobal i _ _ | AstExprIndexName i _ _ _
  | AstExprIndexExpr i _ _ _ | AstExprBinary i _ _ _ _
  | AstExprTypeAssertion i _ _ _ | AstExprOther i _ => i
  end.

Definition exprLocation (e : AstExpr) : Location :=
  match e with
  | AstExprGroup _ l _ | AstExprConstantNil _ l | AstExprConstantBool _ l _
  | AstExprConstantNumber _ l _ | AstExprConstantString _ l _
  | AstExprLocal _ l _ | AstExprGlobal _ l _ | AstExprIndexName _ l _ _
  | AstExprIndexExpr _ l _ _ | AstExprBinary _ l _ _ _
  | AstExprTypeAssertion _ l _ _ | AstExprOther _ l => l
  end.

Definition typeId_ (t : AstType) : AstId :=
  match t with AstTypeReference i _ _ _ | AstTypeOther i _ => i end.

Definition typeLocation (t : AstType) : Location :=
  match t with AstTypeReference _ l _ _ | AstTypeOther _ l => l end.

(** [getIdentifierOfBaseVar] *)
Fixpoint getIdentifierOfBaseVar (node : AstExpr) : option string :=
  match node with
  | AstExprGlobal _ _ name => Some name
  | AstExprLocal _ _ name => Some name
  | AstExprIndexExpr _ _ expr _ => getIdentifierOfBaseVar expr
  | AstExprIndexName _ _ expr _ => getIdentifierOfBaseVar expr
  | _ => None
  end.

(** *** Diagnostics (Error.h, as listed in the error handling design) *)

Inductive OpKind := Operation | Comparison.
Inductive CannotExtendTableContext := Property_ | Indexer | Metatable.

Inductive TypeErrorData :=
  | TypesAreUnrelated (left right : TypeId)
  | MissingUnionProperty (type : TypeId) (missing : list TypeId) (key : Name)
  | CannotExtendTable (tableType : TypeId) (context : CannotExtendTableContext)
      (prop : Name)
  | UnknownProperty (table : TypeId) (key : Name)
  | UnknownPropButFoundLikeProp (table : TypeId) (key : Name)
      (candidates : gset Name)
  | GenericError (message : string)
  | CannotInferBinaryOperation (op : Op) (suggestedToAnnotate : option string)
      (kind : OpKind)
  | CannotCallNonFunction (ty : TypeId)
  | NormalizationTooComplex
  | WhereClauseNeeded (ty : TypeId)
  | PackWhereClauseNeeded (tp : TypePackId)
  | OtherError (code : nat).

Record TypeError := mkTypeError {
  err_location : Location;
  err_moduleName : ModuleName;
  err_data : TypeErrorData }.

Definition ErrorVec := list TypeError.

(** *** Collaborators that are not under src/

    [BuiltinTypes], the normalizer, the unifier and the helpers of
    Type.cpp, TypeUtils.cpp, TypeFamily.cpp, ToString.cpp and Ast.h are
    taken as given.  Each reads the memory it is handed. *)

Record BuiltinTypes := mkBuiltinTypes {
  nilType : TypeId;
  booleanType : TypeId;
  numberType : TypeId;
  stringType : TypeId;
  functionType : TypeId;
  anyType : TypeId;
  errorRecoveryType : TypeId;
  anyTypePack : TypePackId }.

(** [struct NormalizedType], the components that [checkIndexTypeFromType]
    and the relational operators read. *)
Inductive NormalizedType := mkNormalizedType {
  tops : TypeId;
  booleans : TypeId;
  classes : list TypeId;
  errors_ : TypeId;
  nils : TypeId;
  numbers : TypeId;
  strings_isNever : bool;
  threads : TypeId;
  tables : list TypeId;
  functions_isTop : bool;
  functions_isNever : bool;
  functions_parts : list TypeId;
  tyvars : list (TypeId * NormalizedType);
  (** [norm->isExactlyNumber()], [norm->isSubtypeOfString()] *)
  isExactlyNumber : bool;
  isSubtypeOfString : bool }.

Record Externals := mkExternals {
  builtinTypes : BuiltinTypes;
  (** the enumerator values of [AstExprBinary::Op] (Ast.h) *)
  opValue : Op -> Z;
  kBinaryOpMetamethods : Op -> option string;
  toString_op : Op -> string;
  toString_type : Memory -> TypeId -> string;
  follow : Memory -> TypeId -> TypeId;
  follow_pack : Memory -> TypePackId -> TypePackId;
  (** the options that [UnionTypeIterator] yields for a union *)
  unionOptions : Memory -> list TypeId -> list TypeId;
  first : Memory -> TypePackId -> option TypeId;
  finite : Memory -> TypePackId -> bool;
  size : Memory -> TypePackId -> nat;
  isString : Memory -> TypeId -> bool;
  isBoolean : Memory -> TypeId -> bool;
  isPrim : Memory -> TypeId -> PrimitiveKind -> bool;
  stripNil : Memory -> TypeId -> TypeId * Memory;
  getMetatable : Memory -> TypeId -> option TypeId;
  getTableType : Memory -> TypeId -> option TableType;
  findMetatableEntry : Memory -> TypeId -> string -> Location ->
                       option TypeId * ErrorVec;
  findTablePropertyRespectingMeta : Memory -> TypeId -> Name -> Location ->
                                    option TypeId * ErrorVec;
  lookupClassProp : Memory -> ClassType -> Name -> option Property;
  (** [Unifier::tryUnify]: the errors, and whether the log stayed empty *)
  unify : Memory -> ScopeId -> Location -> bool -> TypeId -> TypeId ->
          ErrorVec * bool;
  normalize : Memory -> TypeId -> option NormalizedType;
  isInhabited : Memory -> TypeId -> bool;
  isIntersectionInhabited : Memory -> TypeId -> TypeId -> bool;
  typeFromNormal : Memory -> NormalizedType -> TypeId * Memory;
  reduceFamilies : Memory -> TypeId -> Location -> ScopeId -> ErrorVec;
  (** what [InternalFamilyFinder::traverse] collects *)
  internalFamilies : Memory -> list TypeId -> TypeId ->
                     list TypeId * list TypePackId;
  DebugLuauMagicTypes : bool }.

(** Modelled from the spec: [equalsLower] (StringUtils.cpp) is not under
    src/.  "Suggest close misspellings by case-insensitive equality
    against known property names." *)
Definition toLower (c : ascii) : ascii :=
  let n := nat_of_ascii c in
  if (65 <=? n)%nat && (n <=? 90)%nat then ascii_of_nat (n + 32) else c.

Fixpoint equalsLower (a b : string) : bool :=
  match a, b with
  | EmptyString, EmptyString => true
  | String x a', String y b' =>
      Ascii.eqb (toLower x) (toLower y) && equalsLower a' b'
  | _, _ => false
  end.

(** A name with its upper-case letters lowered. *)
Fixpoint lowercase (a : string) : string :=
  match a with
  | EmptyString => EmptyString
  | String c a' => String (toLower c) (lowercase a')
  end.

(** *** The checker's state *)

(** The tables of [Module] that the inference engine filled in. *)
Record Module := mkModule {
  name : ModuleName;
  astTypes : gmap AstId TypeId;
  astTypePacks : gmap AstId TypePackId;
  astResolvedTypes : gmap AstId TypeId;
  astOverloadResolvedTypes : gmap AstId TypeId;
  astScopes : gmap AstId ScopeId }.

Record Checker := mkChecker {
  errors : ErrorVec;               (* module->errors *)
  mem : Memory;                    (* every arena, testArena included *)
  stack : list ScopeId;
  functionDeclStack : list TypeId;
  noTypeFamilyErrors : gset TypeId;
  printed : list string }.         (* lines given to luauPrintLine *)

(** The arena that [testArena.addType] allocates in. *)
Definition testArena : ArenaId := 0.

Inductive Abort :=
  | AssertionFailed
  | InternalCompilerError
  | BadPointer
  | FuelExhausted.

Inductive Result (A : Type) : Type :=
  | Ok (a : A) (s : Checker)
  | Stop (why : Abort).
Arguments Ok {A} a s.
Arguments Stop {A} why.

Definition TC (A : Type) : Type := Checker -> Result A.

Definition ret {A} (a : A) : TC A := fun s => Ok a s.
Definition bind {A B} (m : TC A) (k : A -> TC B) : TC B :=
  fun s => match m s with Ok a s' => k a s' | Stop why => Stop why end.
Definition stop {A} (why : Abort) : TC A := fun _ => Stop why.

Notation "x <- m ;; k" := (bind m (fun x => k))
  (at level 100, m at next level, right associativity).
Notation "m ;;; k" := (bind m (fun _ => k))
  (at level 100, right associativity).

Definition LUAU_ASSERT (b : bool) : TC unit :=
  if b then ret tt else stop AssertionFailed.

Fixpoint forEach {A} (xs : list A) (body : A -> TC unit) : TC unit :=
  match xs with
  | [] => ret tt
  | x :: rest => body x ;;; forEach rest body
  end.

Definition getMem : TC Memory := fun s => Ok (mem s) s.

Definition setMem (m : Memory) : TC unit :=
  fun s => Ok tt (mkChecker (errors s) m (stack s) (functionDeclStack s)
                    (noTypeFamilyErrors s) (printed s)).

(** [module->errors] extended at the end. *)
Definition withErrors (es : ErrorVec) (s : Checker) : Checker :=
  mkChecker (errors s ++ es)%list (mem s) (stack s) (functionDeclStack s)
    (noTypeFamilyErrors s) (printed s).

Definition pushErrors (es : ErrorVec) : TC unit :=
  fun s => Ok tt (withErrors es s).

(** [get<T>(ty)]: the variant stored at [ty]. *)
Definition get (ty : TypeId) : TC TypeVariant :=
  fun s => match types (mem s) !! ty with
           | Some node => Ok (TypeGraph.ty node) s
           | None => Stop BadPointer
           end.

Definition getPack (tp : TypePackId) : TC TypePackVariant :=
  fun s => match typePacks (mem s) !! tp with
           | Some node => Ok (tp_ty node) s
           | None => Stop BadPointer
           end.

(** [testArena.addType], [testArena.addTypePack] *)
Definition addType (tv : TypeVariant) : TC TypeId :=
  fun s =>
    let m := mem s in
    Ok (length (types m))
       (mkChecker (errors s)
          (mkMemory (types m ++ [mkType tv false None (Some testArena)])
                    (typePacks m))
          (stack s) (functionDeclStack s) (noTypeFamilyErrors s) (printed s)).

Definition addTypePack (tv : TypePackVariant) : TC TypePackId :=
  fun s =>
    let m := mem s in
    Ok (length (typePacks m))
       (mkChecker (errors s)
          (mkMemory (types m)
                    (typePacks m ++ [mkTypePackVar tv false (Some testArena)]))
          (stack s) (functionDeclStack s) (noTypeFamilyErrors s) (printed s)).

(** [stack.back()] *)
Definition stackBack : TC ScopeId :=
  fun s => match last (stack s) with
           | Some sc => Ok sc s
           | None => Stop BadPointer
           end.

Section Checker.
Context (ext : Externals) (module : Module).

Let builtins := builtinTypes ext.

(** [diagnoseMissingTableKey]: the names that differ from the key and
    equal it without regard to case, over the table's properties or over
    the class and its parents.  [fuel] bounds the walk up the parents. *)
Definition accumulate (sv : Name) (ps : gmap Name Property)
    (candidates : gset Name) : gset Name :=
  candidates ∪
  filter (fun n => sv <> n /\ equalsLower sv n = true) (dom ps).

Fixpoint classCandidates (fuel : nat) (m : Memory) (sv : Name)
    (ctv : ClassType) (candidates : gset Name) : Abort + gset Name :=
  match fuel with
  | 0 => inl FuelExhausted
  | S fuel' =>
      let candidates := accumulate sv (ct_props ctv) candidates in
      match parent ctv with
      | None => inr candidates
      | Some p =>
          match types m !! p with
          | Some node =>
              match TypeGraph.ty node with
              | ClassTypeV ctv' => classCandidates fuel' m sv ctv' candidates
              | _ => inl AssertionFailed
              end
          | None => inl BadPointer
          end
      end
  end.

Definition diagnoseMissingTableKey (table : TypeId) (key : Name)
    (data : TypeErrorData) : TC TypeErrorData :=
  fun s =>
    let m := mem s in
    let finish (candidates : gset Name) :=
      if decide (candidates = ∅) then Ok data s
      else Ok (UnknownPropButFoundLikeProp table key candidates) s in
    match getTableType ext m table with
    | Some ttv => finish (accumulate key (props ttv) ∅)
    | None =>
        match types m !! follow ext m table with
        | Some node =>
            match TypeGraph.ty node with
            | ClassTypeV ctv =>
                match classCandidates (S (length (types m))) m key ctv ∅ with
                | inr candidates => finish candidates
                | inl why => Stop why
                end
            | _ => finish ∅
            end
        | None => Stop BadPointer
        end
    end.

(** [reportError(TypeErrorData, const Location&)] *)
Definition reportError (data : TypeErrorData) (location : Location) : TC unit :=
  data' <- (match data with
            | UnknownProperty table key => diagnoseMissingTableKey table key data
            | _ => ret data
            end) ;;
  pushErrors [mkTypeError location (name module) data'].

(** [reportErrors(ErrorVec)] *)
Definition reportErrors (es : ErrorVec) : TC unit :=
  forEach es (fun e => reportError (err_data e) (err_location e)).

(** [isSubtype(subTy, superTy, scope, genericsOkay)] *)
Definition isSubtypeIn (m : Memory) (subTy superTy : TypeId) (scope : ScopeId)
    (genericsOkay : bool) : bool :=
  let u := unify ext m scope (mkLocation (mkPosition 0 0) (mkPosition 0 0))
             genericsOkay subTy superTy in
  (* ok = u.errors.empty() && u.log.empty() *)
  bool_decide (fst u = []) && snd u.

Definition isSubtype (subTy superTy : TypeId) (scope : ScopeId)
    (genericsOkay : bool) : TC bool :=
  m <- getMem ;;
  ret (isSubtypeIn m subTy superTy scope genericsOkay).

(** [tryUnify(scope, location, subTy, superTy)] *)
Definition tryUnify (scope : ScopeId) (location : Location)
    (subTy superTy : TypeId) : TC ErrorVec :=
  m <- getMem ;;
  ret (fst (unify ext m scope location false subTy superTy)).

(** [checkForInternalFamily] *)
Definition checkForInternalFamily (ty : TypeId) (location : Location) : TC unit :=
  fun s =>
    let '(tys, tps) := internalFamilies ext (mem s) (functionDeclStack s) ty in
    (forEach tys (fun i => reportError (WhereClauseNeeded i) location) ;;;
     forEach tps (fun i => reportError (PackWhereClauseNeeded i) location)) s.

(** [checkForFamilyInhabitance] *)
Definition checkForFamilyInhabitance (instance : TypeId) (location : Location)
    : TC TypeId :=
  fun s =>
    if decide (instance ∈ noTypeFamilyErrors s) then Ok instance s
    else
      match last (stack s) with
      | None => Stop BadPointer
      | Some scope =>
          let errs := reduceFamilies ext (mem s) instance location scope in
          let s' :=
            if decide (errs = []) then
              mkChecker (errors s) (mem s) (stack s) (functionDeclStack s)
                ({[instance]} ∪ noTypeFamilyErrors s) (printed s)
            else s in
          (reportErrors errs ;;; ret instance) s'
      end.

(** [flattenPack] *)
Definition flattenPack (pack : TypePackId) : TC TypeId :=
  m <- getMem ;;
  let pack := follow_pack ext m pack in
  match first ext m pack with
  | Some fst => ret fst
  | None =>
      v <- getPack pack ;;
      match v with
      | FreeTypePack scope _ =>
          result <- addType (FreeType scope (mkTypeLevel 0 0)) ;;
          freeTail <- addTypePack (FreeTypePack scope (mkTypeLevel 0 0)) ;;
          (fun s =>
             match typePacks (mem s) !! pack with
             | Some node =>
                 Ok tt (mkChecker (errors s)
                          (mkMemory (types (mem s))
                             (<[pack := mkTypePackVar (TypePack [result] (Some freeTail))
                                          (tp_persistent node) (tp_owningArena node)]>
                                (typePacks (mem s))))
                          (stack s) (functionDeclStack s) (noTypeFamilyErrors s)
                          (printed s))
             | None => Stop BadPointer
             end) ;;;
          ret result
      | ErrorTypePack => ret (errorRecoveryType builtins)
      | _ =>
          if finite ext m pack && (size ext m pack =? 0)%nat
          then ret (nilType builtins)
          else stop InternalCompilerError
      end
  end.

(** [lookupType] *)
Definition lookupType (expr : AstExpr) : TC TypeId :=
  match astTypes module !! exprId expr with
  | Some ty =>
      m <- getMem ;;
      checkForFamilyInhabitance (follow ext m ty) (exprLocation expr)
  | None =>
      match astTypePacks module !! exprId expr with
      | Some tp =>
          t <- flattenPack tp ;;
          checkForFamilyInhabitance t (exprLocation expr)
      | None => ret (anyType builtins)
      end
  end.

(** [format("_luau_print (%d, %d): %s\n", line, column, text)]; the line
    and the column are [unsigned int]s that an [int] holds. *)
Definition formatLuauPrint (l : Location) (text : string) : string :=
  String.append "_luau_print ("
    (String.append (pretty (line (begin_ l)))
       (String.append ", "
          (String.append (pretty (column (begin_ l)))
             (String.append "): "
                (String.append text (String (ascii_of_nat 10) EmptyString)))))).

(** [lookupAnnotation] *)
Fixpoint lookupAnnotation (annotation : AstType) : TC TypeId :=
  let plain :=
    match astResolvedTypes module !! typeId_ annotation with
    | Some ty =>
        m <- getMem ;;
        checkForFamilyInhabitance (follow ext m ty) (typeLocation annotation)
    | None => stop AssertionFailed
    end in
  if DebugLuauMagicTypes ext then
    match annotation with
    | AstTypeReference _ loc refName (Some ann :: _) =>
        if String.eqb refName "_luau_print" then
          argTy <- lookupAnnotation ann ;;
          m <- getMem ;;
          (fun s =>
             Ok tt (mkChecker (errors s) (mem s) (stack s) (functionDeclStack s)
                      (noTypeFamilyErrors s)
                      (printed s ++ [formatLuauPrint loc (toString_type ext m argTy)])%list)) ;;;
          ret (follow ext m argTy)
        else plain
    | _ => plain
    end
  else plain.

(** *** Constants *)

Definition visit_AstExprConstant (expr : AstExpr) (expectedType : TypeId) : TC unit :=
  scope <- stackBack ;;
  actualType <- lookupType expr ;;
  ok <- isSubtype actualType expectedType scope false ;;
  LUAU_ASSERT ok.

Definition visit_AstExprConstantNil (expr : AstExpr) : TC unit :=
  visit_AstExprConstant expr (nilType builtins).
Definition visit_AstExprConstantBool (expr : AstExpr) : TC unit :=
  visit_AstExprConstant expr (booleanType builtins).
Definition visit_AstExprConstantNumber (expr : AstExpr) : TC unit :=
  visit_AstExprConstant expr (numberType builtins).
Definition visit_AstExprConstantString (expr : AstExpr) : TC unit :=
  visit_AstExprConstant expr (stringType builtins).


(** *** Binary operators: [TypeId visit(AstExprBinary* expr, AstNode* overrideKey)] *)

Definition isTypeFamilyInstance (v : TypeVariant) : bool :=
  match v with TypeFamilyInstanceType _ _ _ => true | _ => false end.
(** [get<AnyType>(t) || get<ErrorType>(t) || get<NeverType>(t)] *)
Definition isAnyErrorNever (v : TypeVariant) : bool :=
  match v with AnyType | ErrorType | NeverType => true | _ => false end.
(** [get<BlockedType>(t) || get<FreeType>(t) || get<GenericType>(t)] *)
Definition isBlockedFreeGeneric (v : TypeVariant) : bool :=
  match v with BlockedType _ | FreeType _ _ | GenericType _ _ => true | _ => false end.
Definition isTableType (v : TypeVariant) : bool :=
  match v with TableTypeV _ => true | _ => false end.
Definition isClassType (v : TypeVariant) : bool :=
  match v with ClassTypeV _ => true | _ => false end.

Definition isEquality (op : Op) : bool :=
  bool_decide (op = CompareEq) || bool_decide (op = CompareNe).
(** [expr->op >= CompareEq && expr->op <= CompareGe], on the enumerator values *)
Definition isComparison (op : Op) : bool :=
  (opValue ext CompareEq <=? opValue ext op)%Z
  && (opValue ext op <=? opValue ext CompareGe)%Z.
Definition isLogical (op : Op) : bool :=
  bool_decide (op = And) || bool_decide (op = Or).

Definition concat_strings (parts : list string) : string :=
  fold_right String.append "" parts.

(** [FunctionType(argTypes, retTypes)] *)
Definition FunctionType_of (argTypes retTypes : TypePackId) : FunctionType :=
  mkFunctionType (mkTypeLevel 0 0) None [] [] (Some argTypes) []
    (Some retTypes) None false [] false.

(** The operand order of the expected function type (lines 1676-1686):
    for [>=] and [>] the metamethod is invoked with swapped arguments. *)
Definition expectedArgTypes (op : Op) (leftType rightType : TypeId) : list TypeId :=
  if bool_decide (op = CompareGe) || bool_decide (op = CompareGt)
  then [rightType; leftType]
  else [leftType; rightType].

(** Whether the expected function type returns [boolean] (lines 1688-1697). *)
Definition expectsBooleanResult (op : Op) : bool :=
  bool_decide (op = CompareEq) || bool_decide (op = CompareNe)
  || bool_decide (op = CompareGe) || bool_decide (op = CompareGt)
  || bool_decide (op = CompareLe) || bool_decide (op = CompareLt).

(** Lines 1676-1699: the function type the metamethod is unified with. *)
Definition synthesizeExpectedTy (op : Op) (scope : ScopeId)
    (leftType rightType : TypeId) : TC TypeId :=
  expectedArgs <- addTypePack (TypePack (expectedArgTypes op leftType rightType) None) ;;
  expectedRets <-
    (if expectsBooleanResult op
     then addTypePack (TypePack [booleanType builtins] None)
     else
       fresh <- addType (FreeType (Some scope) (mkTypeLevel 0 0)) ;;
       addTypePack (TypePack [fresh] None)) ;;
  addType (FunctionTypeV (FunctionType_of expectedArgs expectedRets)).

(** Lines 1660-1740: a metamethod [mm] was found for the operator. *)
Definition checkMetamethodCall (location : Location) (op : Op) (mmName : string)
    (key : AstId) (scope : ScopeId) (mm leftType rightType expectedResult : TypeId)
    : TC TypeId :=
  match astOverloadResolvedTypes module !! key with
  | None => ret expectedResult        (* was handled by a type family *)
  | Some instantiatedMm =>
      m <- getMem ;;
      v <- get (follow ext m instantiatedMm) ;;
      match v with
      | FunctionTypeV ftv =>
          expectedTy <- synthesizeExpectedTy op scope leftType rightType ;;
          m <- getMem ;;
          errs <- tryUnify scope location (follow ext m mm) expectedTy ;;
          reportErrors errs ;;;
          m <- getMem ;;
          match retTypes ftv with
          | None => stop BadPointer
          | Some rets =>
              match first ext m rets with
              | Some r =>
                  if isComparison op then
                    (if isBoolean ext m (follow ext m r) then ret tt
                     else reportError
                            (GenericError (concat_strings
                               ["Metamethod '"; mmName; "' must return a boolean"]))
                            location) ;;;
                    ret (booleanType builtins)
                  else ret (follow ext m r)
              | None =>
                  (if isComparison op then
                     reportError
                       (GenericError (concat_strings
                          ["Metamethod '"; mmName; "' must return a boolean"]))
                       location
                   else
                     reportError
                       (GenericError (concat_strings
                          ["Metamethod '"; mmName; "' must return a value"]))
                       location) ;;;
                  ret (errorRecoveryType builtins)
              end
          end
      | _ =>
          reportError (CannotCallNonFunction mm) location ;;;
          ret (errorRecoveryType builtins)
      end
  end.

(** [testUnion]: some option of the union has the other side's metatable. *)
Definition testUnion (m : Memory) (options : list TypeId)
    (otherMt : option TypeId) : bool :=
  existsb (fun option =>
             bool_decide (getMetatable ext m (follow ext m option) = otherMt))
          (unionOptions ext m options).

(** Lines 1609-1643: [matches], the verdict on the metatables of the two
    operands before a metamethod is looked for. *)
Definition metatablesMatch (m : Memory) (op : Op) (vl vr : TypeVariant)
    (leftType rightType : TypeId) (typesHaveIntersection : bool) : bool :=
  let leftMt := getMetatable ext m leftType in
  let rightMt := getMetatable ext m rightType in
  let matches := bool_decide (leftMt = rightMt) in
  if isEquality op && negb matches then
    let matches :=
      match vl, rightMt with
      | UnionType options, Some _ => matches || testUnion m options rightMt
      | _, _ => matches
      end in
    let matches :=
      match vr, leftMt with
      | UnionType options, Some _ =>
          if matches then matches else testUnion m options leftMt
      | _, _ => matches
      end in
    match leftMt, rightMt with
    | Some _, Some _ => matches
    | _, _ => matches || typesHaveIntersection
    end
  else matches.

(** The enumerators of [AstExprBinary::Op] (Ast.h) are numbered in the
    order of their declaration, [CompareNe] before [CompareEq]. *)
Definition declaredInOrder : Prop :=
  (opValue ext CompareNe < opValue ext CompareEq
   /\ opValue ext CompareEq < opValue ext CompareLt
   /\ opValue ext CompareLt < opValue ext CompareLe
   /\ opValue ext CompareLe < opValue ext CompareGt
   /\ opValue ext CompareGt < opValue ext CompareGe)%Z.

(** Lines 1603-1782: the operator has an entry in [kBinaryOpMetamethods].
    [Some ty]: the visitor returns [ty]; [None]: control falls through to
    the primitive behaviour. *)
Definition checkMetamethods (self : AstId) (location : Location) (op : Op)
    (left right : AstExpr) (overrideKey : option AstId) (mmName : string)
    (scope : ScopeId) (leftType rightType expectedResult : TypeId)
    (isStringOperation typesHaveIntersection : bool) : TC (option TypeId) :=
  m <- getMem ;;
  vl <- get leftType ;;
  vr <- get rightType ;;
  let leftMt := getMetatable ext m leftType in
  let rightMt := getMetatable ext m rightType in
  let matches := bool_decide (leftMt = rightMt) in
  let matches :=
    if isEquality op && negb matches then
      let matches :=
        match vl, rightMt with
        | UnionType options, Some _ => matches || testUnion m options rightMt
        | _, _ => matches
        end in
      let matches :=
        match vr, leftMt with
        | UnionType options, Some _ =>
            if matches then matches else testUnion m options leftMt
        | _, _ => matches
        end in
      match leftMt, rightMt with
      | Some _, Some _ => matches
      | _, _ => matches || typesHaveIntersection
      end
    else matches in
  if negb matches && isComparison op then
    reportError
      (GenericError (concat_strings
         ["Types "; toString_type ext m leftType; " and ";
          toString_type ext m rightType; " cannot be compared with ";
          toString_op ext op; " because they do not have the same metatable"]))
      location ;;;
    ret (Some (errorRecoveryType builtins))
  else
    let '(leftMm, leftErrs) :=
      findMetatableEntry ext m leftType mmName (exprLocation left) in
    pushErrors leftErrs ;;;
    found <-
      (match leftMm with
       | Some mm => ret (Some (mm, leftType, rightType))
       | None =>
           let '(rightMm, rightErrs) :=
             findMetatableEntry ext m rightType mmName (exprLocation right) in
           pushErrors rightErrs ;;;
           match rightMm with
           | Some mm => ret (Some (mm, rightType, leftType))   (* std::swap *)
           | None => ret None
           end
       end) ;;
    match found with
    | Some (mm, leftType', rightType') =>
        let key := match overrideKey with Some k => k | None => self end in
        r <- checkMetamethodCall location op mmName key scope mm
               leftType' rightType' expectedResult ;;
        ret (Some r)
    | None =>
        if negb (isEquality op)
           && negb (isStringOperation
                    && (bool_decide (op = Concat) || isComparison op))
        then
          if (bool_decide (leftMt <> None) && negb (isString ext m leftType))
             || (bool_decide (rightMt <> None) && negb (isString ext m rightType))
          then
            (if isComparison op then
               reportError
                 (GenericError (concat_strings
                    ["Types '"; toString_type ext m leftType; "' and '";
                     toString_type ext m rightType; "' cannot be compared with ";
                     toString_op ext op;
                     " because neither type's metatable has a '"; mmName;
                     "' metamethod"]))
                 location
             else
               reportError
                 (GenericError (concat_strings
                    ["Operator "; toString_op ext op; " is not applicable for '";
                     toString_type ext m leftType; "' and '";
                     toString_type ext m rightType;
                     "' because neither type's metatable has a '"; mmName;
                     "' metamethod"]))
                 location) ;;;
            ret (Some (errorRecoveryType builtins))
          else if bool_decide (leftMt = None) && bool_decide (rightMt = None)
                  && (isTableType vl || isTableType vr)
          then
            (if isComparison op then
               reportError
                 (GenericError (concat_strings
                    ["Types '"; toString_type ext m leftType; "' and '";
                     toString_type ext m rightType; "' cannot be compared with ";
                     toString_op ext op; " because neither type has a metatable"]))
                 location
             else
               reportError
                 (GenericError (concat_strings
                    ["Operator "; toString_op ext op; " is not applicable for '";
                     toString_type ext m leftType; "' and '";
                     toString_type ext m rightType;
                     "' because neither type has a metatable"]))
                 location) ;;;
            ret (Some (errorRecoveryType builtins))
          else ret None
        else ret None
    end.

(** Lines 1784-1837: the [switch (expr->op)] on the primitive operators. *)
Definition checkPrimitiveOperator (location : Location) (op : Op)
    (left right : AstExpr) (scope : ScopeId) (leftType rightType : TypeId)
    : TC TypeId :=
  match op with
  | Add | Sub | Mul | Div | Pow | Mod =>
      e1 <- tryUnify scope (exprLocation left) leftType (numberType builtins) ;;
      reportErrors e1 ;;;
      e2 <- tryUnify scope (exprLocation right) rightType (numberType builtins) ;;
      reportErrors e2 ;;;
      ret (numberType builtins)
  | Concat =>
      e1 <- tryUnify scope (exprLocation left) leftType (stringType builtins) ;;
      reportErrors e1 ;;;
      e2 <- tryUnify scope (exprLocation right) rightType (stringType builtins) ;;
      reportErrors e2 ;;;
      ret (stringType builtins)
  | CompareGe | CompareGt | CompareLe | CompareLt =>
      m <- getMem ;;
      let leftTyNorm := normalize ext m leftType in
      match leftTyNorm with
      | Some norm =>
          if isExactlyNumber norm then
            e <- tryUnify scope (exprLocation right) rightType (numberType builtins) ;;
            reportErrors e ;;;
            ret (numberType builtins)
          else if isSubtypeOfString norm then
            e <- tryUnify scope (exprLocation right) rightType (stringType builtins) ;;
            reportErrors e ;;;
            ret (stringType builtins)
          else
            reportError
              (GenericError (concat_strings
                 ["Types '"; toString_type ext m leftType; "' and '";
                  toString_type ext m rightType;
                  "' cannot be compared with relational operator ";
                  toString_op ext op]))
              location ;;;
            ret (errorRecoveryType builtins)
      | None =>
          reportError
            (GenericError (concat_strings
               ["Types '"; toString_type ext m leftType; "' and '";
                toString_type ext m rightType;
                "' cannot be compared with relational operator ";
                toString_op ext op]))
            location ;;;
          ret (errorRecoveryType builtins)
      end
  | And | Or | CompareEq | CompareNe => ret (anyType builtins)
  end.

(** The dispatchers [visit] over [AstExpr] (with a [ValueContext]) and
    over [AstType] reach every kind of node; the visitors below take them
    as given for their children. *)
Context (visitExpr : AstExpr -> ValueContext -> TC unit).
Context (visitType : AstType -> TC unit).

Definition visit_AstExprBinary (self : AstId) (location : Location) (op : Op)
    (left right : AstExpr) (overrideKey : option AstId) : TC TypeId :=
  visitExpr left LValue ;;;
  visitExpr right LValue ;;;
  scope <- stackBack ;;
  leftType <- lookupType left ;;
  rightType <- lookupType right ;;
  expectedResult <- lookupType (AstExprBinary self location op left right) ;;
  vExpected <- get expectedResult ;;
  if isTypeFamilyInstance vExpected then
    checkForInternalFamily expectedResult location ;;;
    ret expectedResult
  else
    leftType <-
      (if bool_decide (op = Or) then
         m <- getMem ;;
         let '(t, m') := stripNil ext m leftType in
         setMem m' ;;; ret t
       else ret leftType) ;;
    m <- getMem ;;
    let isStringOperation := isString ext m leftType && isString ext m rightType in
    vl <- get leftType ;;
    vr <- get rightType ;;
    if isAnyErrorNever vl then ret leftType
    else if isAnyErrorNever vr then ret rightType
    else if isBlockedFreeGeneric vl && negb (isEquality op) && negb (isLogical op) then
      reportError
        (CannotInferBinaryOperation op (getIdentifierOfBaseVar left)
           (if isComparison op then Comparison else Operation))
        location ;;;
      ret leftType
    else
      let typesHaveIntersection := isIntersectionInhabited ext m leftType rightType in
      early <-
        (match kBinaryOpMetamethods ext op with
         | Some mmName =>
             checkMetamethods self location op left right overrideKey mmName
               scope leftType rightType expectedResult isStringOperation
               typesHaveIntersection
         | None => ret None
         end) ;;
      match early with
      | Some result => ret result
      | None => checkPrimitiveOperator location op left right scope leftType rightType
      end.

(** Lines 1848-1855: the two subtype tests of a type assertion. *)
Definition checkTypeAssertion (location : Location)
    (annotationType computedType : TypeId) : TC unit :=
  scope <- stackBack ;;
  (* the more likely direction is tried first *)
  sub1 <- isSubtype annotationType computedType scope true ;;
  if sub1 then ret tt
  else
    scope <- stackBack ;;
    sub2 <- isSubtype computedType annotationType scope true ;;
    if sub2 then ret tt
    else reportError (TypesAreUnrelated computedType annotationType) location.

(** [void visit(AstExprTypeAssertion* expr)] *)
Definition visit_AstExprTypeAssertion (location : Location) (expr : AstExpr)
    (annotation : AstType) : TC unit :=
  visitExpr expr RValue ;;;
  visitType annotation ;;;
  annotationType <- lookupAnnotation annotation ;;
  computedType <- lookupType expr ;;
  checkTypeAssertion location annotationType computedType.

(** *** Property lookup *)

(** [std::all_of] / [std::any_of] over parts, with the [seen] set handed on. *)
Fixpoint allOf (f : TypeId -> gset TypeId -> TC (bool * gset TypeId))
    (parts : list TypeId) (seen : gset TypeId) : TC (bool * gset TypeId) :=
  match parts with
  | [] => ret (true, seen)
  | p :: rest =>
      r <- f p seen ;;
      if fst r then allOf f rest (snd r) else ret (false, snd r)
  end.

Fixpoint anyOf (f : TypeId -> gset TypeId -> TC (bool * gset TypeId))
    (parts : list TypeId) (seen : gset TypeId) : TC (bool * gset TypeId) :=
  match parts with
  | [] => ret (false, seen)
  | p :: rest =>
      r <- f p seen ;;
      if fst r then ret (true, snd r) else anyOf f rest (snd r)
  end.

(** [hasIndexTypeFromType]; [fuel] bounds the depth of the descent into
    unions and intersections. *)
Fixpoint hasIndexTypeFromType (fuel : nat) (prop : Name) (location : Location)
    (astIndexExprType : TypeId) (ty : TypeId) (seen : gset TypeId)
    {struct fuel} : TC (bool * gset TypeId) :=
  match fuel with
  | 0 => stop FuelExhausted
  | S fuel' =>
      (* a type met before is left to the code path that met it first *)
      if decide (ty ∈ seen) then ret (true, seen)
      else
        let seen := {[ty]} ∪ seen in
        v <- get ty ;;
        if isAnyErrorNever v then ret (true, seen)
        else
          m <- getMem ;;
          ty <-
            (if isString ext m ty then
               let '(mtIndex, errs) :=
                 findMetatableEntry ext m (stringType builtins) "__index" location in
               pushErrors errs ;;;
               match mtIndex with
               | Some t => ret t
               | None => stop AssertionFailed
               end
             else ret ty) ;;
          match getTableType ext m ty with
          | Some tbl =>
              let '(found, errs) :=
                findTablePropertyRespectingMeta ext m ty prop location in
              pushErrors errs ;;;
              match found with
              | Some _ => ret (true, seen)
              | None =>
                  match indexer tbl with
                  | Some ix =>
                      let indexType := follow ext m (indexType ix) in
                      if isPrim ext m indexType String_ then ret (true, seen)
                      else
                        vi <- get indexType ;;
                        match vi with
                        | AnyType | UnknownType => ret (true, seen)
                        | _ => ret (false, seen)
                        end
                  | None => ret (false, seen)
                  end
              end
          | None =>
              v <- get ty ;;
              match v with
              | ClassTypeV cls =>
                  match lookupClassProp ext m cls prop with
                  | Some _ => ret (true, seen)
                  | None =>
                      match ct_indexer cls with
                      | Some ix =>
                          inhabitatedTestType <-
                            addType (IntersectionType [indexType ix; astIndexExprType]) ;;
                          m' <- getMem ;;
                          ret (isInhabited ext m' inhabitatedTestType, seen)
                      | None => ret (false, seen)
                      end
                  end
              | UnionType options =>
                  allOf (hasIndexTypeFromType fuel' prop location astIndexExprType)
                    (unionOptions ext m options) seen
              | IntersectionType parts =>
                  anyOf (hasIndexTypeFromType fuel' prop location astIndexExprType)
                    parts seen
              | _ => ret (false, seen)
              end
          end
  end.

(** The two accumulators of [checkIndexTypeFromType]. *)
Record Found := mkFound {
  foundOneProp : bool;
  typesMissingTheProp : list TypeId }.

(** The lambda [fetch]. *)
Definition fetch (fuel : nat) (prop : Name) (location : Location)
    (astIndexExprType : TypeId) (ty : TypeId) (acc : Found) : TC Found :=
  m <- getMem ;;
  if negb (isInhabited ext m ty) then ret acc
  else
    r <- hasIndexTypeFromType fuel prop location astIndexExprType ty ∅ ;;
    let found := fst r in
    ret (mkFound (foundOneProp acc || found)
           (if found then typesMissingTheProp acc
            else (typesMissingTheProp acc ++ [ty])%list)).

Fixpoint fetchEach (xs : list TypeId) (f : TypeId -> Found -> TC Found)
    (acc : Found) : TC Found :=
  match xs with
  | [] => ret acc
  | x :: rest => acc' <- f x acc ;; fetchEach rest f acc'
  end.

(** Lines 2264-2301: [fetch] on every component of the normalized type. *)
Definition fetchComponents (fuel : nat) (norm : NormalizedType) (prop : Name)
    (location : Location) (astIndexExprType : TypeId) : TC Found :=
  let fetch := fetch fuel prop location astIndexExprType in
  acc <- fetch (tops norm) (mkFound false []) ;;
  acc <- fetch (booleans norm) acc ;;
  acc <- fetchEach (classes norm) fetch acc ;;
  acc <- fetch (errors_ norm) acc ;;
  acc <- fetch (nils norm) acc ;;
  acc <- fetch (numbers norm) acc ;;
  acc <- (if negb (strings_isNever norm) then fetch (stringType builtins) acc
          else ret acc) ;;
  acc <- fetch (threads norm) acc ;;
  acc <- fetchEach (tables norm) fetch acc ;;
  acc <-
    (if functions_isTop norm then fetch (functionType builtins) acc
     else if negb (functions_isNever norm) then
       match functions_parts norm with
       | [part] => fetch part acc
       | parts =>
           t <- addType (IntersectionType parts) ;;
           fetch t acc
       end
     else ret acc) ;;
  (fix tyvarLoop (tvs : list (TypeId * NormalizedType)) (acc : Found) : TC Found :=
     match tvs with
     | [] => ret acc
     | (tyvar, intersect) :: rest =>
         vt <- get (tops intersect) ;;
         acc' <-
           (match vt with
            | NeverType =>
                m <- getMem ;;
                let '(t, m') := typeFromNormal ext m intersect in
                setMem m' ;;;
                i <- addType (IntersectionType [tyvar; t]) ;;
                fetch i acc
            | _ => fetch tyvar acc
            end) ;;
         tyvarLoop rest acc'
     end) (tyvars norm) acc.

(** Lines 2303-2315: what is reported once the components are known. *)
Definition reportMissingProperty (tableTy : TypeId) (prop : Name)
    (location : Location) (context : ValueContext) (acc : Found) : TC unit :=
  match typesMissingTheProp acc with
  | [] => ret tt
  | _ :: _ =>
      if foundOneProp acc then
        reportError (MissingUnionProperty tableTy (typesMissingTheProp acc) prop)
          location
      else
        v <- get tableTy ;;
        (* class LValues report the unknown property, not an extension *)
        if bool_decide (context = LValue) && negb (isClassType v) then
          reportError (CannotExtendTable tableTy Property_ prop) location
        else
          reportError (UnknownProperty tableTy prop) location
  end.

(** [checkIndexTypeFromType] *)
Definition checkIndexTypeFromType (fuel : nat) (tableTy : TypeId) (prop : Name)
    (location : Location) (context : ValueContext) (astIndexExprType : TypeId)
    : TC unit :=
  m <- getMem ;;
  match normalize ext m tableTy with
  | None => reportError NormalizationTooComplex location
  | Some norm =>
      acc <- fetchComponents fuel norm prop location astIndexExprType ;;
      reportMissingProperty tableTy prop location context acc
  end.

(** The message of the error for operands that cannot be compared. *)
Definition cannotBeCompared (m : Memory) (op : Op) (leftType rightType : TypeId)
    : TypeErrorData :=
  GenericError (concat_strings
    ["Types '"; toString_type ext m leftType; "' and '";
     toString_type ext m rightType;
     "' cannot be compared with relational operator "; toString_op ext op]).

End Checker.
End TypeChecker2.

(** * Sample inputs *)
Module Samples.
Import TypeGraph TypeChecker2.

Definition noLocation : Location := mkLocation (mkPosition 0 0) (mkPosition 0 0).
Definition at_ (l c : nat) : Location := mkLocation (mkPosition l c) (mkPosition l (c + 1)).

Definition builtin (v : TypeVariant) : Type_ := mkType v true None None.

Definition sampleBuiltins : BuiltinTypes :=
  mkBuiltinTypes 0 1 2 3 4 5 6 0.

(** Addresses 0-8 hold the built-in types; 9: the singleton [true];
    10: a table with the property ["Name"]; 11: a metatable whose [__lt]
    is the function 12 that returns nothing; 12: that function; 13: the
    table 10 dressed with the metatable 11. *)
Definition sampleProperty (t : TypeId) : Property :=
  mkProperty (Some t) (Some t) false "" None [] None.

Definition sampleTable (ps : list (Name * Property)) : TableType :=
  mkTableType (list_to_map ps) None Sealed (mkTypeLevel 0 0) None [] [] ""
    noLocation [].

Definition sampleTypes : list Type_ :=
  [ builtin (PrimitiveType NilType);
    builtin (PrimitiveType Boolean);
    builtin (PrimitiveType Number);
    builtin (PrimitiveType String_);
    builtin (PrimitiveType Function);
    builtin AnyType;
    builtin ErrorType;
    builtin NeverType;
    builtin UnknownType;
    mkType (SingletonType (BooleanSingleton true)) false None (Some 1);
    mkType (TableTypeV (sampleTable [("Name", sampleProperty 3)])) false None (Some 1);
    mkType (TableTypeV (sampleTable [("__lt", sampleProperty 12)])) false None (Some 1);
    mkType (FunctionTypeV (FunctionType_of 1 2)) false None (Some 1);
    mkType (MetatableType (Some 10) (Some 11)) false None (Some 1) ].

(** Packs: 0: [...any]; 1: the pair (13, 13); 2: the empty pack. *)
Definition samplePacks : list TypePackVar :=
  [ mkTypePackVar (VariadicTypePack 5 false) true None;
    mkTypePackVar (TypePack [13; 13] None) false (Some 1);
    mkTypePackVar (TypePack [] None) false (Some 1) ].

Definition sampleMemory : Memory := mkMemory sampleTypes samplePacks.

Definition variantAt (m : Memory) (t : TypeId) : option TypeVariant :=
  ty <$> types m !! t.

(** A small unifier in the spirit of the subtyping contract: reflexive,
    [never] below and [any], [unknown] above everything, the boolean
    singletons below [boolean]. *)
Definition sampleUnify (m : Memory) (scope : ScopeId) (l : Location)
    (genericsOkay : bool) (sub sup : TypeId) : ErrorVec * bool :=
  let ok :=
    bool_decide (sub = sup)
    || match variantAt m sub, variantAt m sup with
       | Some NeverType, _ => true
       | Some AnyType, _ => true
       | _, Some AnyType => true
       | _, Some UnknownType => true
       | Some (SingletonType (BooleanSingleton _)), Some (PrimitiveType Boolean) => true
       | _, _ => false
       end in
  if ok then ([], true) else ([mkTypeError l "" (OtherError 0)], true).

Definition sampleOpValue (op : Op) : Z :=
  match op with
  | Add => 0 | Sub => 1 | Mul => 2 | Div => 3 | Mod => 4 | Pow => 5
  | Concat => 6 | CompareNe => 7 | CompareEq => 8 | CompareLt => 9
  | CompareLe => 10 | CompareGt => 11 | CompareGe => 12 | And => 13 | Or => 14
  end%Z.

Definition sampleMetamethods (op : Op) : option string :=
  match op with
  | CompareEq | CompareNe => Some "__eq"
  | CompareLt | CompareGe => Some "__lt"
  | CompareLe | CompareGt => Some "__le"
  | Add => Some "__add" | Sub => Some "__sub" | Mul => Some "__mul"
  | Div => Some "__div" | Mod => Some "__mod" | Pow => Some "__pow"
  | Concat => Some "__concat"
  | And | Or => None
  end.

Definition sampleGetMetatable (m : Memory) (t : TypeId) : option TypeId :=
  match variantAt m t with
  | Some (MetatableType _ mt) => mt
  | _ => None
  end.

Definition sampleGetTableType (m : Memory) (t : TypeId) : option TableType :=
  match variantAt m t with
  | Some (TableTypeV ttv) => Some ttv
  | Some (MetatableType (Some tbl) _) =>
      match variantAt m tbl with
      | Some (TableTypeV ttv) => Some ttv
      | _ => None
      end
  | _ => None
  end.

Definition sampleFindMetatableEntry (m : Memory) (t : TypeId) (entry : string)
    (l : Location) : option TypeId * ErrorVec :=
  match sampleGetMetatable m t with
  | Some mt =>
      match variantAt m mt with
      | Some (TableTypeV ttv) => (props ttv !! entry ≫= readTy, [])
      | _ => (None, [])
      end
  | None => (None, [])
  end.

Definition sampleFindProperty (m : Memory) (t : TypeId) (n : Name)
    (l : Location) : option TypeId * ErrorVec :=
  match sampleGetTableType m t with
  | Some ttv => (props ttv !! n ≫= readTy, [])
  | None => (None, [])
  end.

Definition sampleFirst (m : Memory) (tp : TypePackId) : option TypeId :=
  match tp_ty <$> typePacks m !! tp with
  | Some (TypePack (h :: _) _) => Some h
  | Some (VariadicTypePack t _) => Some t
  | _ => None
  end.

Definition isPrimitive (k : PrimitiveKind) (v : option TypeVariant) : bool :=
  match v, k with
  | Some (PrimitiveType NilType), NilType => true
  | Some (PrimitiveType Boolean), Boolean => true
  | Some (PrimitiveType Number), Number => true
  | Some (PrimitiveType String_), String_ => true
  | Some (PrimitiveType Thread), Thread => true
  | Some (PrimitiveType Function), Function => true
  | Some (PrimitiveType Table), Table => true
  | _, _ => false
  end.

(** The normal form of a type that is one built-in primitive, one table
    or [never]; nothing else is normalized. *)
Definition sampleNormalize (m : Memory) (t : TypeId) : option NormalizedType :=
  let v := variantAt m t in
  let never := 7 in
  let pick (k : PrimitiveKind) := if isPrimitive k v then t else never in
  Some (mkNormalizedType never (pick Boolean) [] never (pick NilType) (pick Number)
          (negb (isPrimitive String_ v)) (pick Thread)
          (match sampleGetTableType m t with Some _ => [t] | None => [] end)
          false true [] []
          (isPrimitive Number v) (isPrimitive String_ v)).

Definition sampleIsInhabited (m : Memory) (t : TypeId) : bool :=
  match variantAt m t with
  | Some NeverType | None => false
  | _ => true
  end.

Definition sampleExt : Externals :=
  {| builtinTypes := sampleBuiltins;
     opValue := sampleOpValue;
     kBinaryOpMetamethods := sampleMetamethods;
     toString_op := fun _ => "op";
     toString_type := fun _ _ => "t";
     follow := fun _ t => t;
     follow_pack := fun _ t => t;
     unionOptions := fun _ options => options;
     first := sampleFirst;
     finite := fun _ _ => true;
     size := fun m tp => match tp_ty <$> typePacks m !! tp with
                         | Some (TypePack h _) => length h
                         | _ => 0
                         end;
     isString := fun m t => isPrimitive String_ (variantAt m t);
     isBoolean := fun m t => isPrimitive Boolean (variantAt m t);
     isPrim := fun m t k => isPrimitive k (variantAt m t);
     stripNil := fun m t => (t, m);
     getMetatable := sampleGetMetatable;
     getTableType := sampleGetTableType;
     findMetatableEntry := sampleFindMetatableEntry;
     findTablePropertyRespectingMeta := sampleFindProperty;
     lookupClassProp := fun _ cls n => ct_props cls !! n;
     unify := sampleUnify;
     normalize := sampleNormalize;
     isInhabited := sampleIsInhabited;
     isIntersectionInhabited := fun _ a b => bool_decide (a = b);
     typeFromNormal := fun m _ => (7, m);
     reduceFamilies := fun _ _ _ _ => [];
     internalFamilies := fun _ _ _ => ([], []);
     DebugLuauMagicTypes := false |}.

(** Expressions: 20 is typed [any], 21 [number], 22 and 23 the value with
    the metatable, 24 the comparison [22 < 23], 25 the literal [true]
    typed by its singleton, 26 the comparison [20 < 21]. *)
Definition exprAny : AstExpr := AstExprLocal 20 (at_ 1 1) "a".
Definition exprNumber : AstExpr := AstExprConstantNumber 21 (at_ 1 5) 1.
Definition exprObjA : AstExpr := AstExprLocal 22 (at_ 2 1) "x".
Definition exprObjB : AstExpr := AstExprLocal 23 (at_ 2 5) "y".
Definition exprTrue : AstExpr := AstExprConstantBool 25 (at_ 3 1) true.

Definition sampleModule : Module :=
  {| name := "main";
     astTypes := list_to_map
       [(20, 5); (21, 2); (22, 13); (23, 13); (24, 1); (25, 9); (26, 1)];
     astTypePacks := ∅;
     astResolvedTypes := list_to_map [(30, 2); (31, 3)];
     astOverloadResolvedTypes := list_to_map [(24, 12)];
     astScopes := ∅ |}.

Definition sampleChecker : Checker :=
  mkChecker [] sampleMemory [7] [] ∅ [].

(** A second memory: after the sample types, 14: a metatable whose [__le]
    is the function 15 that returns a boolean and whose [__eq] is the
    function 16 that returns a number; 15 and 16: those functions; 17: the
    table 10 dressed with the metatable 14.  After the sample packs, 3:
    (boolean); 4: (number); 5: the pair (17, 17). *)
Definition comparableMemory : Memory :=
  mkMemory
    (sampleTypes ++
     [mkType (TableTypeV (sampleTable [("__le", sampleProperty 15);
                                       ("__eq", sampleProperty 16)]))
        false None (Some 1);
      mkType (FunctionTypeV (FunctionType_of 5 3)) false None (Some 1);
      mkType (FunctionTypeV (FunctionType_of 5 4)) false None (Some 1);
      mkType (MetatableType (Some 10) (Some 14)) false None (Some 1)])
    (samplePacks ++
     [mkTypePackVar (TypePack [1] None) false (Some 1);
      mkTypePackVar (TypePack [2] None) false (Some 1);
      mkTypePackVar (TypePack [17; 17] None) false (Some 1)]).

(** Expressions: 40 and 41 are typed by the type 17; 42 is the comparison
    [40 > 41], resolved to the function 15; 43 is [40 ~= 41], resolved to
    the function 16. *)
Definition exprP : AstExpr := AstExprLocal 40 (at_ 4 1) "p".
Definition exprQ : AstExpr := AstExprLocal 41 (at_ 4 5) "q".

Definition comparableModule : Module :=
  {| name := "main";
     astTypes := list_to_map [(40, 17); (41, 17); (42, 1); (43, 1)];
     astTypePacks := ∅;
     astResolvedTypes := ∅;
     astOverloadResolvedTypes := list_to_map [(42, 15); (43, 16)];
     astScopes := ∅ |}.

Definition comparableChecker : Checker :=
  mkChecker [] comparableMemory [7] [] ∅ [].

Definition noVisit : AstExpr -> ValueContext -> TC unit := fun _ _ => ret tt.
Definition noVisitType : AstType -> TC unit := fun _ => ret tt.

Definition outcome {A} (r : Result A) : option (A * ErrorVec) :=
  match r with Ok a s => Some (a, errors s) | Stop _ => None end.

End Samples.

(* ===================================================================== *)
(** ** Clone.cpp : type functions, and what a traversal leaves alone     *)
(* ===================================================================== *)

Module CloneTypeFun.
Import TypeGraph Clone.

(** [GenericTypeDefinition], [GenericTypePackDefinition] and [TypeFun]
    (Type.h), as [clone(const TypeFun&, ...)] reads and builds them. *)
Record GenericTypeDefinition := mkGenericTypeDefinition {
  gtd_ty : TypeId;
  gtd_defaultValue : option TypeId }.

Record GenericTypePackDefinition := mkGenericTypePackDefinition {
  gtpd_tp : TypePackId;
  gtpd_defaultValue : option TypePackId }.

Record TypeFun := mkTypeFun {
  typeParams : list GenericTypeDefinition;
  typePackParams : list GenericTypePackDefinition;
  tf_type : TypeId }.

Section CloneTypeFun.
Context (flags : FFlags) (dest : ArenaId).

(** The body of the loop over [typeFun.typeParams]. *)
Definition clone_typeParam (param : GenericTypeDefinition) : M GenericTypeDefinition :=
  ty <- clone flags (gtd_ty param) dest ;;
  defaultValue <-
    (match gtd_defaultValue param with
     | Some d => c <- clone flags d dest ;; ret (Some c)
     | None => ret None
     end) ;;
  ret (mkGenericTypeDefinition ty defaultValue).

(** The body of the loop over [typeFun.typePackParams]. *)
Definition clone_typePackParam (param : GenericTypePackDefinition)
    : M GenericTypePackDefinition :=
  tp <- clone_pack flags (gtpd_tp param) dest ;;
  defaultValue <-
    (match gtpd_defaultValue param with
     | Some d => c <- clone_pack flags d dest ;; ret (Some c)
     | None => ret None
     end) ;;
  ret (mkGenericTypePackDefinition tp defaultValue).

(** [TypeFun clone(const TypeFun& typeFun, TypeArena& dest, CloneState& cloneState)] *)
Definition clone_TypeFun (typeFun : TypeFun) : M TypeFun :=
  typeParams' <- cloneInto clone_typeParam (typeParams typeFun) [] ;;
  typePackParams' <- cloneInto clone_typePackParam (typePackParams typeFun) [] ;;
  type' <- clone flags (tf_type typeFun) dest ;;
  ret (mkTypeFun typeParams' typePackParams' type').

End CloneTypeFun.

(** The clone of a type function, read off the seen maps. *)
Definition image_typeParam (w : World) (p p' : GenericTypeDefinition) : Prop :=
  seenTypes (cloneState w) !! gtd_ty p = Some (gtd_ty p')
  /\ match gtd_defaultValue p, gtd_defaultValue p' with
     | Some d, Some d' => seenTypes (cloneState w) !! d = Some d'
     | None, None => True
     | _, _ => False
     end.

Definition image_typePackParam (w : World) (p p' : GenericTypePackDefinition) : Prop :=
  seenTypePacks (cloneState w) !! gtpd_tp p = Some (gtpd_tp p')
  /\ match gtpd_defaultValue p, gtpd_defaultValue p' with
     | Some d, Some d' => seenTypePacks (cloneState w) !! d = Some d'
     | None, None => True
     | _, _ => False
     end.

Definition image_TypeFun (w : World) (f f' : TypeFun) : Prop :=
  Forall2 (image_typeParam w) (typeParams f) (typeParams f')
  /\ Forall2 (image_typePackParam w) (typePackParams f) (typePackParams f')
  /\ seenTypes (cloneState w) !! tf_type f = Some (tf_type f').

(** Every type and pack that a type function mentions is a node of [base]. *)
Definition closed_TypeFun (base : Memory) (f : TypeFun) : Prop :=
  Forall (fun p => gtd_ty p < length (types base)
                   /\ option_Forall (fun d => d < length (types base))
                        (gtd_defaultValue p)) (typeParams f)
  /\ Forall (fun p => gtpd_tp p < length (typePacks base)
                      /\ option_Forall (fun d => d < length (typePacks base))
                           (gtpd_defaultValue p)) (typePackParams f)
  /\ tf_type f < length (types base).

(** A type function over a graph with four types and two packs: the
    type 3 is a parameter and its own default. *)
Definition sampleTypeFun : TypeFun :=
  mkTypeFun
    [mkGenericTypeDefinition 3 (Some 3); mkGenericTypeDefinition 1 None]
    [mkGenericTypePackDefinition 1 None; mkGenericTypePackDefinition 0 (Some 1)]
    0.

End CloneTypeFun.

Module CloneFrame.
Import TypeGraph Clone.

(** The world a call of [clone] ended in, if it ended by a value or by
    the limiter. *)
Definition finalWorld {A} (o : Outcome A) : option World :=
  match o with
  | Returned _ w | LimitExceeded w => Some w
  | Undefined => None
  end.

(** A memory that holds no error node, neither a type nor a pack. *)
Definition errorFree (w : World) : Prop :=
  (forall i node, types (mem w) !! i = Some node -> ty node <> ErrorType)
  /\ (forall i node, typePacks (mem w) !! i = Some node ->
        tp_ty node <> ErrorTypePack).

(** A part of a traversal that puts no error node into a memory that has
    none, however it ends, and whose result satisfies [Q]. *)
Definition addsNoError {A} (m : M A) (Q : A -> Prop) : Prop :=
  forall w, errorFree w ->
    match m w with
    | Returned a w' => errorFree w' /\ Q a
    | LimitExceeded w' => errorFree w'
    | Undefined => True
    end.

(** A write that makes no error node of another node. *)
Definition makesNoError (f : Type_ -> Type_) : Prop :=
  forall node, ty node <> ErrorType -> ty (f node) <> ErrorType.

Definition makesNoErrorPack (f : TypePackVar -> TypePackVar) : Prop :=
  forall node, tp_ty node <> ErrorTypePack -> tp_ty (f node) <> ErrorTypePack.

(** Memory that existed in [w] is still what it was in [w']: a type
    keeps its variant, its persistence and its arena, a persistent type
    and every pack keep everything. *)
Definition preserved (w w' : World) : Prop :=
  (forall i node, types (mem w) !! i = Some node ->
     exists node', types (mem w') !! i = Some node'
       /\ ty node' = ty node
       /\ persistent node' = persistent node
       /\ owningArena node' = owningArena node
       /\ (persistent node = true -> node' = node))
  /\ (forall i node, typePacks (mem w) !! i = Some node ->
        typePacks (mem w') !! i = Some node).

(** Memory only grew from [w] to [w'], by nodes of the arena [dest] that
    are not persistent. *)
Definition allocated_in (dest : ArenaId) (w w' : World) : Prop :=
  length (types (mem w)) <= length (types (mem w'))
  /\ length (typePacks (mem w)) <= length (typePacks (mem w'))
  /\ (forall i node, length (types (mem w)) <= i ->
        types (mem w') !! i = Some node ->
        persistent node = false /\ owningArena node = Some dest)
  /\ (forall i node, length (typePacks (mem w)) <= i ->
        typePacks (mem w') !! i = Some node ->
        tp_persistent node = false /\ tp_owningArena node = Some dest).

(** A write that leaves the persistence and the arena of a node alone. *)
Definition keepsFlags (f : Type_ -> Type_) : Prop :=
  forall node, persistent (f node) = persistent node
               /\ owningArena (f node) = owningArena node.

Definition keepsPackFlags (f : TypePackVar -> TypePackVar) : Prop :=
  forall node, tp_persistent (f node) = tp_persistent node
               /\ tp_owningArena (f node) = tp_owningArena node.

Section Frame.
Context (dest : ArenaId).
(** The sizes of the memory at the start of the outermost call. *)
Context (nT nP : nat).

(** What a part of a traversal may do between [w] and [w']. *)
Record keeps (w w' : World) : Prop := mkKeeps {
  k_len_t : length (types (mem w)) <= length (types (mem w'));
  k_len_p : length (typePacks (mem w)) <= length (typePacks (mem w'));
  k_old_t : forall i node, i < nT -> types (mem w) !! i = Some node ->
     exists node', types (mem w') !! i = Some node'
       /\ ty node' = ty node
       /\ persistent node' = persistent node
       /\ owningArena node' = owningArena node
       /\ (persistent node = true -> node' = node);
  k_old_p : forall i node, i < nP -> typePacks (mem w) !! i = Some node ->
     typePacks (mem w') !! i = Some node;
  k_seen_t : dom (seenTypes (cloneState w)) ⊆ dom (seenTypes (cloneState w'));
  k_seen_p : dom (seenTypePacks (cloneState w))
             ⊆ dom (seenTypePacks (cloneState w'));
  k_count : recursionCount (cloneState w') = recursionCount (cloneState w) }.

(** The nodes allocated since the start are the traversal's own. *)
Record fresh_ok (w : World) : Prop := mkFreshOk {
  f_len_t : nT <= length (types (mem w));
  f_len_p : nP <= length (typePacks (mem w));
  f_new_t : forall i node, nT <= i -> types (mem w) !! i = Some node ->
     persistent node = false /\ owningArena node = Some dest;
  f_new_p : forall i node, nP <= i -> typePacks (mem w) !! i = Some node ->
     tp_persistent node = false /\ tp_owningArena node = Some dest }.

(** A part of a traversal that respects both, and whose result
    satisfies [Q]. *)
Definition ok {A} (m : M A) (Q : A -> Prop) : Prop :=
  forall w, fresh_ok w ->
    match m w with
    | Returned a w' => fresh_ok w' /\ keeps w w' /\ Q a
    | LimitExceeded w' => fresh_ok w' /\ keeps w w'
    | Undefined => True
    end.

End Frame.

End CloneFrame.

(* ===================================================================== *)
(** ** Compile.cpp : the command line and the compilation of one file    *)
(* ===================================================================== *)

Module CompileMain.
Import TypeGraph Compile.

(** The line feed that the source writes as a backslash followed by n. *)
Definition LF : string := String (ascii_of_nat 10) EmptyString.

(** [argv[i] + n]: the argument without its first [n] characters. *)
Fixpoint skip (n : nat) (s : string) : string :=
  match n, s with
  | S n', String _ s' => skip n' s'
  | _, _ => s
  end.

(** [strncmp(s, p, strlen(p)) == 0]: [s] starts with [p]. *)
Definition strncmp_eq0 (s p : string) : bool := String.prefix p s.

(** [struct GlobalOptions], both levels initialised to 1. *)
Record GlobalOptions := mkGlobalOptions {
  optimizationLevel : Z;
  debugLevel : Z }.

Definition initialGlobalOptions : GlobalOptions := mkGlobalOptions 1 1.

(** [Luau::CompileOptions], the two members that [copts] assigns. *)
Record CompileOptions := mkCompileOptions {
  co_optimizationLevel : Z;
  co_debugLevel : Z }.

(** [copts()] *)
Definition copts (globalOptions : GlobalOptions) : CompileOptions :=
  mkCompileOptions (optimizationLevel globalOptions) (debugLevel globalOptions).

Section Program.

(** The [double]s of the timers, the fast flags other than
    [DebugLuauTimeTracing], and the bytecode builder with what the parser
    and the compiler made of a source are taken as given. *)
Context {Double Others Bcb ParseResult : Type}.

(** What is handed to [printf], [fprintf(stderr, ...)] and [fwrite]:
    the format with its arguments.  Formatting is the C library's. *)
Inductive Arg :=
  | ArgStr (s : string)
  | ArgInt (z : Z)
  | ArgDouble (d : Double).

Inductive Event :=
  | Printf (format : string) (args : list Arg)
  | FprintfStderr (format : string) (args : list Arg)
  | FwriteStdout (data : string).

Definition toStdout (e : Event) : bool :=
  match e with
  | Printf _ _ | FwriteStdout _ => true
  | FprintfStderr _ _ => false
  end.

(** [Luau::CodeGen::AssemblyOptions], the members that [compileFile]
    assigns. *)
Record AssemblyOptions := mkAssemblyOptions {
  outputBinary : bool;
  includeAssembly : bool;
  includeIr : bool;
  includeOutlinedCode : bool }.

Definition CompileFormat_eqb (a b : CompileFormat) : bool :=
  match a, b with
  | Text, Text | Binary, Binary | Remarks, Remarks | Codegen, Codegen
  | CodegenAsm, CodegenAsm | CodegenIr, CodegenIr
  | CodegenVerbose, CodegenVerbose | CodegenNull, CodegenNull
  | Null, Null => true
  | _, _ => false
  end.

(** Lines 152-160: the assembly options for a format, starting from the
    default-constructed [options]. *)
Definition assemblyOptions (options : AssemblyOptions) (format : CompileFormat)
    : AssemblyOptions :=
  let outputBinary := CompileFormat_eqb format CodegenNull in
  if negb outputBinary then
    mkAssemblyOptions outputBinary
      (negb (CompileFormat_eqb format CodegenIr))
      (negb (CompileFormat_eqb format CodegenAsm))
      (CompileFormat_eqb format CodegenVerbose)
  else
    mkAssemblyOptions outputBinary (includeAssembly options) (includeIr options)
      (includeOutlinedCode options).

(** [BytecodeBuilder::DumpFlags] *)
Inductive DumpFlag := Dump_Code | Dump_Lines | Dump_Source | Dump_Locals | Dump_Remarks.

(** Lines 165-182: the dump flags that [compileFile] sets on the bytecode
    builder, [None] where it does not call [setDumpFlags]; the source is
    given to [setDumpSource] exactly where flags are set. *)
Definition dumpFlags (format : CompileFormat) : option (list DumpFlag) :=
  match format with
  | Text => Some [Dump_Code; Dump_Source; Dump_Locals; Dump_Remarks]
  | Remarks => Some [Dump_Source; Dump_Remarks]
  | Codegen | CodegenAsm | CodegenIr | CodegenVerbose =>
      Some [Dump_Code; Dump_Source; Dump_Locals; Dump_Remarks]
  | _ => None
  end.

(** [Luau::ParseError], [Luau::CompileError]: a location and a message. *)
Record SourceError := mkSourceError {
  se_location : Location;
  se_what : string }.

(** [unsigned int + 1], as handed to a [%d]. *)
Definition plus1 (n : nat) : Z := (Z.of_nat n + 1) mod 2 ^ 32.

(** [report] *)
Definition report (name : string) (location : Location) (type message : string)
    : Event :=
  FprintfStderr ("%s(%d,%d): %s: %s" ++ LF)
    [ArgStr name; ArgInt (plus1 (line (begin_ location)));
     ArgInt (plus1 (column (begin_ location))); ArgStr type; ArgStr message].

(** [reportError(name, const ParseError&)] and
    [reportError(name, const CompileError&)] *)
Definition reportParseError (name : string) (error : SourceError) : Event :=
  report name (se_location error) "SyntaxError" (se_what error).

Definition reportCompileError (name : string) (error : SourceError) : Event :=
  report name (se_location error) "CompileError" (se_what error).

(** [size_t] arithmetic of a 64-bit target. *)
Definition size_add (a b : Z) : Z := (a + b) mod 2 ^ 64.

(** [int(x)] of a [size_t], two's complement. *)
Definition to_int (z : Z) : Z := (z + 2 ^ 31) mod 2 ^ 32 - 2 ^ 31.

Record FastFlags := mkFastFlags {
  DebugLuauTimeTracing : bool;
  others : Others }.

Record CompileStats := mkCompileStats {
  st_lines : Z;
  st_bytecode : Z;
  st_codegen : Z;
  readTime : Double;
  miscTime : Double;
  parseTime : Double;
  compileTime : Double;
  codegenTime : Double }.

Record Collaborators := mkCollaborators {
  dadd : Double -> Double -> Double;
  dsub : Double -> Double -> Double;
  (** the successive readings of [Luau::TimeTrace::getClock()] *)
  getClock : nat -> Double;
  readFile : string -> option string;
  newBcb : Bcb;
  setDumpFlags : list DumpFlag -> Bcb -> Bcb;
  setDumpSource : string -> Bcb -> Bcb;
  (** [Luau::Parser::parse]: the errors, the number of lines, the tree *)
  parse : FastFlags -> string -> list SourceError * Z * ParseResult;
  (** [Luau::compileOrThrow]: a [CompileError], or the builder filled in *)
  compileOrThrow : FastFlags -> Bcb -> ParseResult -> CompileOptions ->
                   SourceError + Bcb;
  getBytecode : Bcb -> string;
  dumpEverything : Bcb -> string;
  dumpSourceRemarks : Bcb -> string;
  luau_load : string -> string -> Z;
  getAssembly : string -> string -> AssemblyOptions -> Bcb -> string;
  defaultAssemblyOptions : AssemblyOptions }.

Context (ext : Collaborators).

(** The part of the process state that [compileFile] works on: the
    statistics, how often the clock has been read, and what has been
    written. *)
Record Process := mkProcess {
  stats : CompileStats;
  clockReads : nat;
  written : list Event }.

Definition write (e : Event) (p : Process) : Process :=
  mkProcess (stats p) (clockReads p) (written p ++ [e])%list.

(** [getCodegenAssembly] *)
Definition getCodegenAssembly (name bytecode : string) (options : AssemblyOptions)
    (bcb : Bcb) (p : Process) : string * Process :=
  if (luau_load ext name bytecode =? 0)%Z then
    (getAssembly ext name bytecode options bcb, p)
  else
    ("", write (FprintfStderr ("Error loading bytecode %s" ++ LF) [ArgStr name]) p).

(** [recordDeltaTime(timer)]: the time since [timer], which becomes now. *)
Definition recordDeltaTime (timer : Double) (p : Process)
    : Double * Double * Process :=
  let now := getClock ext (clockReads p) in
  (dsub ext now timer, now, mkProcess (stats p) (S (clockReads p)) (written p)).

Definition onStats (f : CompileStats -> CompileStats) (p : Process) : Process :=
  mkProcess (f (stats p)) (clockReads p) (written p).

Definition add_readTime (d : Double) (s : CompileStats) : CompileStats :=
  mkCompileStats (st_lines s) (st_bytecode s) (st_codegen s)
    (dadd ext (readTime s) d) (miscTime s) (parseTime s) (compileTime s)
    (codegenTime s).
Definition add_miscTime (d : Double) (s : CompileStats) : CompileStats :=
  mkCompileStats (st_lines s) (st_bytecode s) (st_codegen s)
    (readTime s) (dadd ext (miscTime s) d) (parseTime s) (compileTime s)
    (codegenTime s).
Definition add_parseTime (d : Double) (s : CompileStats) : CompileStats :=
  mkCompileStats (st_lines s) (st_bytecode s) (st_codegen s)
    (readTime s) (miscTime s) (dadd ext (parseTime s) d) (compileTime s)
    (codegenTime s).
Definition add_compileTime (d : Double) (s : CompileStats) : CompileStats :=
  mkCompileStats (st_lines s) (st_bytecode s) (st_codegen s)
    (readTime s) (miscTime s) (parseTime s) (dadd ext (compileTime s) d)
    (codegenTime s).
Definition add_codegenTime (d : Double) (s : CompileStats) : CompileStats :=
  mkCompileStats (st_lines s) (st_bytecode s) (st_codegen s)
    (readTime s) (miscTime s) (parseTime s) (compileTime s)
    (dadd ext (codegenTime s) d).
Definition add_lines (n : Z) (s : CompileStats) : CompileStats :=
  mkCompileStats (size_add (st_lines s) n) (st_bytecode s) (st_codegen s)
    (readTime s) (miscTime s) (parseTime s) (compileTime s) (codegenTime s).
Definition add_bytecode (n : Z) (s : CompileStats) : CompileStats :=
  mkCompileStats (st_lines s) (size_add (st_bytecode s) n) (st_codegen s)
    (readTime s) (miscTime s) (parseTime s) (compileTime s) (codegenTime s).
Definition add_codegen (n : Z) (s : CompileStats) : CompileStats :=
  mkCompileStats (st_lines s) (st_bytecode s) (size_add (st_codegen s) n)
    (readTime s) (miscTime s) (parseTime s) (compileTime s) (codegenTime s).

Definition strlen (s : string) : Z := Z.of_nat (String.length s).

(** Lines 200-223: what is written for a compiled file. *)
Definition emit (name : string) (format : CompileFormat)
    (options : AssemblyOptions) (bcb : Bcb) (currts : Double) (p : Process)
    : Process :=
  match format with
  | Text => write (Printf "%s" [ArgStr (dumpEverything ext bcb)]) p
  | Remarks => write (Printf "%s" [ArgStr (dumpSourceRemarks ext bcb)]) p
  | Binary => write (FwriteStdout (getBytecode ext bcb)) p
  | Codegen | CodegenAsm | CodegenIr | CodegenVerbose =>
      let '(text, p) := getCodegenAssembly name (getBytecode ext bcb) options bcb p in
      write (Printf "%s" [ArgStr text]) p
  | CodegenNull =>
      let '(text, p) := getCodegenAssembly name (getBytecode ext bcb) options bcb p in
      let p := onStats (add_codegen (strlen text)) p in
      let '(d, _, p) := recordDeltaTime currts p in
      onStats (add_codegenTime d) p
  | Null => p
  end.

(** [compileFile]: the [try] block ends by a value, by [ParseErrors] or
    by a [CompileError]; the two handlers report and return [false]. *)
Definition compileFile (flags : FastFlags) (globalOptions : GlobalOptions)
    (name : string) (format : CompileFormat) (p : Process) : bool * Process :=
  let currts := getClock ext (clockReads p) in
  let p := mkProcess (stats p) (S (clockReads p)) (written p) in
  match readFile ext name with
  | None => (false, write (FprintfStderr ("Error opening %s" ++ LF) [ArgStr name]) p)
  | Some source =>
      let '(d, currts, p) := recordDeltaTime currts p in
      let p := onStats (add_readTime d) p in
      let bcb := newBcb ext in
      let options := assemblyOptions (defaultAssemblyOptions ext) format in
      let bcb :=
        match dumpFlags format with
        | Some fl => setDumpSource ext source (setDumpFlags ext fl bcb)
        | None => bcb
        end in
      let '(d, currts, p) := recordDeltaTime currts p in
      let p := onStats (add_miscTime d) p in
      let '(errors, lines, result) := parse ext flags source in
      match errors with
      | _ :: _ =>
          (false, foldl (fun p error => write (reportParseError name error) p) p errors)
      | [] =>
          let p := onStats (add_lines lines) p in
          let '(d, currts, p) := recordDeltaTime currts p in
          let p := onStats (add_parseTime d) p in
          match compileOrThrow ext flags bcb result (copts globalOptions) with
          | inl e => (false, write (reportCompileError name e) p)
          | inr bcb =>
              let p := onStats (add_bytecode (strlen (getBytecode ext bcb))) p in
              let '(d, currts, p) := recordDeltaTime currts p in
              let p := onStats (add_compileTime d) p in
              (true, emit name format options bcb currts p)
          end
      end
  end.

(** *** [main] *)

(** [atoi] of the C library; [setLuauFlagsDefault], [setLuauFlags]
    (Flags.cpp) and [getSourceFiles] (FileUtils.cpp) are not under src/.
    [LUAU_ENABLE_TIME_TRACE] is the build's. *)
Context (atoi : string -> Z).
Context (setLuauFlagsDefault : FastFlags -> FastFlags).
Context (setLuauFlags : string -> FastFlags -> FastFlags).
Context (getSourceFiles : string -> list string -> list string).
Context (LUAU_ENABLE_TIME_TRACE : bool).
Context (zero : Double) (ofSize : Z -> Double) (ddiv : Double -> Double -> Double).

(** [displayHelp] *)
Definition displayHelp (argv0 : string) : list Event :=
  [Printf ("Usage: %s [--mode] [options] [file list]" ++ LF) [ArgStr argv0];
   Printf LF [];
   Printf ("Available modes:" ++ LF) [];
   Printf ("   binary, text, remarks, codegen" ++ LF) [];
   Printf LF [];
   Printf ("Available options:" ++ LF) [];
   Printf ("  -h, --help: Display this usage message." ++ LF) [];
   Printf ("  -O<n>: compile with optimization level n (default 1, n should be between 0 and 2)." ++ LF) [];
   Printf ("  -g<n>: compile with debug level n (default 1, n should be between 0 and 2)." ++ LF) [];
   Printf ("  --timetrace: record compiler time tracing information into trace.json" ++ LF) []].

(** What the option loop of [main] has set so far. *)
Record Settings := mkSettings {
  globalOptions : GlobalOptions;
  flags : FastFlags;
  compileFormat : CompileFormat;
  printed : list Event }.

(** The loop goes on with the next argument, or [main] returns. *)
Inductive Parsed :=
  | Proceed (s : Settings)
  | Return (code : Z) (s : Settings).

Definition print (es : list Event) (s : Settings) : Settings :=
  mkSettings (globalOptions s) (flags s) (compileFormat s) (printed s ++ es)%list.

(** The body of the loop over [argv[1..argc-1]] (lines 270-312). *)
Definition parseArg (argv0 arg : string) (s : Settings) : Parsed :=
  if strcmp_eq0 arg "-h" || strcmp_eq0 arg "--help" then
    Return 0 (print (displayHelp argv0) s)
  else if strncmp_eq0 arg "-O" then
    let level := atoi (skip 2 arg) in
    if (level <? 0)%Z || (2 <? level)%Z then
      Return 1 (print [FprintfStderr
        ("Error: Optimization level must be between 0 and 2 inclusive." ++ LF) []] s)
    else
      Proceed (mkSettings (mkGlobalOptions level (debugLevel (globalOptions s)))
                 (flags s) (compileFormat s) (printed s))
  else if strncmp_eq0 arg "-g" then
    let level := atoi (skip 2 arg) in
    if (level <? 0)%Z || (2 <? level)%Z then
      Return 1 (print [FprintfStderr
        ("Error: Debug level must be between 0 and 2 inclusive." ++ LF) []] s)
    else
      Proceed (mkSettings (mkGlobalOptions (optimizationLevel (globalOptions s)) level)
                 (flags s) (compileFormat s) (printed s))
  else if strcmp_eq0 arg "--timetrace" then
    Proceed (mkSettings (globalOptions s)
               (mkFastFlags true (others (flags s))) (compileFormat s) (printed s))
  else if strncmp_eq0 arg "--fflags=" then
    Proceed (mkSettings (globalOptions s) (setLuauFlags (skip 9 arg) (flags s))
               (compileFormat s) (printed s))
  else
    match (if strncmp_eq0 arg "--" then getCompileFormat (skip 2 arg) else None) with
    | Some format =>
        Proceed (mkSettings (globalOptions s) (flags s) format (printed s))
    | None =>
        if strncmp_eq0 arg "-" then
          Return 1 (print
            (FprintfStderr ("Error: Unrecognized option '%s'." ++ LF ++ LF) [ArgStr arg]
             :: displayHelp argv0) s)
        else Proceed s
    end.

Fixpoint parseArgs (argv0 : string) (args : list string) (s : Settings) : Parsed :=
  match args with
  | [] => Proceed s
  | arg :: rest =>
      match parseArg argv0 arg s with
      | Proceed s' => parseArgs argv0 rest s'
      | Return code s' => Return code s'
      end
  end.

Definition emptyStats : CompileStats :=
  mkCompileStats 0 0 0 zero zero zero zero zero.

(** [for (path : files) failed += !compileFile(path, compileFormat, stats);] *)
Fixpoint compileFiles (s : Settings) (files : list string) (failed : Z)
    (p : Process) : Z * Process :=
  match files with
  | [] => (failed, p)
  | path :: rest =>
      let '(ok, p) := compileFile (flags s) (globalOptions s) path
                        (compileFormat s) p in
      compileFiles s rest (failed + (if ok then 0 else 1))%Z p
  end.

(** Lines 336-343: the closing line of the two measuring formats. *)
Definition summary (format : CompileFormat) (st : CompileStats) : list Event :=
  match format with
  | Null =>
      [Printf ("Compiled %d KLOC into %d KB bytecode (read %.2fs, parse %.2fs, compile %.2fs)" ++ LF)
         [ArgInt (to_int (st_lines st / 1000)); ArgInt (to_int (st_bytecode st / 1024));
          ArgDouble (readTime st); ArgDouble (parseTime st);
          ArgDouble (compileTime st)]]
  | CodegenNull =>
      [Printf ("Compiled %d KLOC into %d KB bytecode => %d KB native code (%.2fx) (read %.2fs, parse %.2fs, compile %.2fs, codegen %.2fs)" ++ LF)
         [ArgInt (to_int (st_lines st / 1000)); ArgInt (to_int (st_bytecode st / 1024));
          ArgInt (to_int (st_codegen st / 1024));
          ArgDouble (if (st_bytecode st =? 0)%Z then zero
                     else ddiv (ofSize (st_codegen st)) (ofSize (st_bytecode st)));
          ArgDouble (readTime st); ArgDouble (parseTime st);
          ArgDouble (compileTime st); ArgDouble (codegenTime st)]]
  | _ => []
  end.

(** [main]: the exit code, the settings the options left, and everything
    written, in order. *)
Definition main (initialFlags : FastFlags) (argv0 : string)
    (args : list string) : Z * Settings * list Event :=
  let s := mkSettings initialGlobalOptions (setLuauFlagsDefault initialFlags) Text [] in
  match parseArgs argv0 args s with
  | Return code s => (code, s, printed s)
  | Proceed s =>
      if negb LUAU_ENABLE_TIME_TRACE && DebugLuauTimeTracing (flags s) then
        (1%Z, s,
         (printed s ++
          [FprintfStderr
             ("To run with --timetrace, Luau has to be built with LUAU_ENABLE_TIME_TRACE enabled" ++ LF)
             []])%list)
      else
        let files := getSourceFiles argv0 args in
        let '(failed, p) :=
          compileFiles s files 0 (mkProcess emptyStats 0 (printed s)) in
        ((if (failed =? 0)%Z then 0 else 1)%Z, s,
         (written p ++ summary (compileFormat s) (stats p))%list)
  end.

End Program.

Arguments Arg : clear implicits.
Arguments Event : clear implicits.
Arguments FastFlags : clear implicits.
Arguments CompileStats : clear implicits.
Arguments Collaborators : clear implicits.
Arguments Process : clear implicits.
Arguments Settings : clear implicits.
Arguments Parsed : clear implicits.

End CompileMain.

(** ** A sample command line environment *)

Module CompileSamples.
Import TypeGraph Compile CompileMain.

(** What the options are applied to: an argument is a format selector
    when it is two dashes followed by a format name. *)
Definition formatOption (arg : string) : option CompileFormat :=
  if strncmp_eq0 arg "--" then getCompileFormat (skip 2 arg) else None.

Definition lastFormat (start : CompileFormat) (args : list string) : CompileFormat :=
  foldl (fun f arg => default f (formatOption arg)) start args.

Definition levelsInRange (g : GlobalOptions) : Prop :=
  (0 <= optimizationLevel g <= 2)%Z /\ (0 <= debugLevel g <= 2)%Z.

(** Whether a file gets through [compileFile]: it can be read, parses
    without errors and compiles. *)
Definition compiles {Double Others Bcb ParseResult : Type}
    (ext : Collaborators Double Others Bcb ParseResult)
    (flags : FastFlags Others) (globalOptions : GlobalOptions)
    (format : CompileFormat) (name : string) : bool :=
  match readFile ext name with
  | None => false
  | Some source =>
      let bcb :=
        match dumpFlags format with
        | Some fl => setDumpSource ext source (setDumpFlags ext fl (newBcb ext))
        | None => newBcb ext
        end in
      match parse ext flags source with
      | ([], _, result) =>
          match compileOrThrow ext flags bcb result (copts globalOptions) with
          | inr _ => true
          | inl _ => false
          end
      | _ => false
      end
  end.

(** Decimal digits at the front of a string, as [atoi] reads them. *)
Fixpoint digits (acc : Z) (s : string) : Z :=
  match s with
  | String c rest =>
      let n := nat_of_ascii c in
      if (48 <=? n)%nat && (n <=? 57)%nat
      then digits (10 * acc + Z.of_nat (n - 48)) rest
      else acc
  | EmptyString => acc
  end.

Definition sampleAtoi (s : string) : Z :=
  match s with
  | String "-" rest => - digits 0 rest
  | _ => digits 0 s
  end.

(** A file system with one good file, one that does not parse and one
    that does not compile; sources are their own bytecode. *)
Definition sampleFiles (name : string) : option string :=
  if String.eqb name "good.luau" then Some "return 1"
  else if String.eqb name "bad.luau" then Some "return return"
  else if String.eqb name "big.luau" then Some "too many locals"
  else None.

Definition sampleCollaborators : Collaborators Z unit string string :=
  {| dadd := Z.add;
     dsub := Z.sub;
     getClock := fun n => Z.of_nat n;
     readFile := sampleFiles;
     newBcb := "";
     setDumpFlags := fun _ bcb => bcb;
     setDumpSource := fun _ bcb => bcb;
     parse := fun _ source =>
       if String.eqb source "return return"
       then ([mkSourceError (mkLocation (mkPosition 0 7) (mkPosition 0 13))
                "Expected expression"], 1%Z, source)
       else ([], 1%Z, source);
     compileOrThrow := fun _ _ result _ =>
       if String.eqb result "too many locals"
       then inl (mkSourceError (mkLocation (mkPosition 0 0) (mkPosition 0 3))
                   "Out of registers")
       else inr result;
     getBytecode := fun bcb => bcb;
     dumpEverything := fun bcb => bcb;
     dumpSourceRemarks := fun bcb => bcb;
     luau_load := fun _ _ => 0%Z;
     getAssembly := fun _ bytecode _ _ => bytecode;
     defaultAssemblyOptions := mkAssemblyOptions false false false false |}.

Definition sampleFlags : FastFlags unit := mkFastFlags false tt.

(** The arguments that do not start with a dash name the files. *)
Definition sampleSourceFiles (argv0 : string) (args : list string) : list string :=
  filter (fun arg => strncmp_eq0 arg "-" = false) args.

Definition sampleMain (args : list string)
    : Z * Settings Z unit * list (Event Z) :=
  main sampleCollaborators sampleAtoi (fun f => f) (fun _ f => f)
    sampleSourceFiles false 0%Z (fun z => z) Z.div sampleFlags "luau-compile" args.

Definition sampleSettings : Settings Z unit :=
  mkSettings initialGlobalOptions sampleFlags Text [].

Definition sampleProcess : Process Z :=
  mkProcess (mkCompileStats 0 0 0 0 0 0 0 0)%Z 0 [].

End CompileSamples.

(* ===================================================================== *)
(** ** TypeChecker2.cpp : type family instances, optional receivers      *)
(* ===================================================================== *)

Module TypeFamilies.
Import TypeGraph TypeChecker2.

(** What [areEquivalent] reads of a [TypeFamilyInstanceType] or of a
    [TypeFamilyInstanceTypePack]: the family and the two argument lists. *)
Record FamilyInstance := mkFamilyInstance {
  family : nat;
  typeArguments : list TypeId;
  packArguments : list TypePackId }.

Section Families.
Context (ext : Externals) (m : Memory).

(** [for (i = 0; i < a.size(); ++i) if (follow(a[i]) != follow(b[i])) return false;]
    over two vectors of one size. *)
Fixpoint sameFollowed {A} (followed : A -> nat) (a b : list A) : bool :=
  match a, b with
  | x :: a', y :: b' =>
      if negb (followed x =? followed y)%nat then false else sameFollowed followed a' b'
  | _, _ => true
  end.

(** [areEquivalent] *)
Definition areEquivalent (a b : FamilyInstance) : bool :=
  if negb (family a =? family b)%nat then false
  else if negb (length (typeArguments a) =? length (typeArguments b))%nat
          || negb (length (packArguments a) =? length (packArguments b))%nat
  then false
  else if negb (sameFollowed (follow ext m) (typeArguments a) (typeArguments b))
  then false
  else if negb (sameFollowed (follow_pack ext m) (packArguments a) (packArguments b))
  then false
  else true.

Definition isGenericType (v : TypeVariant) : bool :=
  match v with GenericType _ _ => true | _ => false end.

Definition isGenericTypePack (v : TypePackVariant) : bool :=
  match v with GenericTypePack _ _ => true | _ => false end.

(** The two loops that set [hasGeneric] and [break]; [None]: a followed
    argument is not in memory. *)
Fixpoint anyGenericType (ps : list TypeId) : option bool :=
  match ps with
  | [] => Some false
  | p :: rest =>
      match types m !! follow ext m p with
      | Some node =>
          if isGenericType (ty node) then Some true else anyGenericType rest
      | None => None
      end
  end.

Fixpoint anyGenericTypePack (ps : list TypePackId) : option bool :=
  match ps with
  | [] => Some false
  | p :: rest =>
      match typePacks m !! follow_pack ext m p with
      | Some node =>
          if isGenericTypePack (tp_ty node) then Some true
          else anyGenericTypePack rest
      | None => None
      end
  end.

Definition hasGeneric (tfit : FamilyInstance) : option bool :=
  match anyGenericType (typeArguments tfit) with
  | Some a =>
      match anyGenericTypePack (packArguments tfit) with
      | Some b => Some (a || b)
      | None => None
      end
  | None => None
  end.

(** [get<TypeFamilyInstanceType>(mentioned)] *)
Definition getFamilyInstance (t : TypeId) : option FamilyInstance :=
  match types m !! t with
  | Some node =>
      match ty node with
      | TypeFamilyInstanceType f ts ps => Some (mkFamilyInstance f ts ps)
      | _ => None
      end
  | None => None
  end.

(** The loop over [mentionedFamilies], in the order the set yields them;
    [None]: the [LUAU_ASSERT(mentionedTfit)] fails. *)
Fixpoint mentionsEquivalent (tfit : FamilyInstance) (mentioned : list TypeId)
    : option bool :=
  match mentioned with
  | [] => Some false
  | t :: rest =>
      match getFamilyInstance t with
      | Some mentionedTfit =>
          if areEquivalent tfit mentionedTfit then Some true
          else mentionsEquivalent tfit rest
      | None => None
      end
  end.

(** [InternalFamilyFinder::visit(TypeId ty, const TypeFamilyInstanceType& tfit)]:
    the set [internalFamilies] after the visit. *)
Definition visitFamilyInstance (mentionedFamilies : list TypeId) (ty : TypeId)
    (tfit : FamilyInstance) (internalFamilies : gset TypeId)
    : option (gset TypeId) :=
  match hasGeneric tfit with
  | Some true =>
      match mentionsEquivalent tfit mentionedFamilies with
      | Some true => Some internalFamilies
      | Some false => Some ({[ty]} ∪ internalFamilies)
      | None => None
      end
  | Some false => Some internalFamilies
  | None => None
  end.

End Families.

(** A memory in which 14 is bound to [number], 15 is a generic and 16 is
    bound to it, with a [follow] that goes one step along a binding. *)
Definition familyMemory : Memory :=
  mkMemory
    (Samples.sampleTypes ++
     [mkType (BoundType 2) false None (Some 1);
      mkType (GenericType "T" None) false None (Some 1);
      mkType (BoundType 15) false None (Some 1)])
    Samples.samplePacks.

Definition followOnce (m : Memory) (t : TypeId) : TypeId :=
  match Samples.variantAt m t with
  | Some (BoundType b) => b
  | _ => t
  end.

Definition familyExt : Externals :=
  let e := Samples.sampleExt in
  mkExternals (builtinTypes e) (opValue e) (kBinaryOpMetamethods e)
    (toString_op e) (toString_type e) followOnce (follow_pack e)
    (unionOptions e) (first e) (finite e) (size e) (isString e) (isBoolean e)
    (isPrim e) (stripNil e) (getMetatable e) (getTableType e)
    (findMetatableEntry e) (findTablePropertyRespectingMeta e)
    (lookupClassProp e) (unify e) (normalize e) (isInhabited e)
    (isIntersectionInhabited e) (typeFromNormal e) (reduceFamilies e)
    (internalFamilies e) (DebugLuauMagicTypes e).

End TypeFamilies.

Module Diagnostics.
Import TypeGraph TypeChecker2.

(** From [s] to [s'] the validator has only added to what it reported:
    the errors and the printed lines of [s] are still there, in front and
    in their order, the scope stack and the stack of function
    declarations are as they were, and no type has left the set of
    instances known to be free of errors. *)
Definition appends (s s' : Checker) : Prop :=
  errors s `prefix_of` errors s'
  /\ stack s' = stack s
  /\ functionDeclStack s' = functionDeclStack s
  /\ noTypeFamilyErrors s ⊆ noTypeFamilyErrors s'
  /\ printed s `prefix_of` printed s'.

Definition orderly {A} (m : TC A) : Prop :=
  forall s a s', m s = Ok a s' -> appends s s'.

(** A name that the key is a misspelling of, as far as case goes. *)
Definition nearMiss (key n : Name) : Prop := key <> n /\ equalsLower key n = true.

(** The names among [names] that are near misses of the key. *)
Definition nearMisses (key : Name) (names : gset Name) : gset Name :=
  filter (fun n => key <> n /\ equalsLower key n = true) names.

(** The error that goes out in place of an unknown property, given the
    candidates that were found. *)
Definition suggestion (table : TypeId) (key : Name) (data : TypeErrorData)
    (candidates : gset Name) : TypeErrorData :=
  if decide (candidates = ∅) then data
  else UnknownPropButFoundLikeProp table key candidates.

(** The class and its ancestors, the class first: the classes that the
    loop of [diagnoseMissingTableKey] goes through, from [parent] to
    [parent], until one has none. *)
Inductive ancestry (m : Memory) : ClassType -> list ClassType -> Prop :=
  | ancestry_top ctv :
      parent ctv = None -> ancestry m ctv [ctv]
  | ancestry_parent ctv p node ctv' chain :
      parent ctv = Some p ->
      types m !! p = Some node ->
      TypeGraph.ty node = ClassTypeV ctv' ->
      ancestry m ctv' chain ->
      ancestry m ctv (ctv :: chain).

(** The names of the properties of the classes of a line of ancestors. *)
Definition propertyNames (chain : list ClassType) : gset Name :=
  ⋃ (map (fun cls => dom (ct_props cls)) chain).

(** What [reportErrors] makes of one incoming error. *)
Definition relayed (moduleName : ModuleName) (e e' : TypeError) : Prop :=
  err_location e' = err_location e
  /\ err_moduleName e' = moduleName
  /\ (err_data e' = err_data e
      \/ exists table key candidates,
           err_data e = UnknownProperty table key
           /\ err_data e' = UnknownPropButFoundLikeProp table key candidates).

(** A memory with two classes after the sample types: 14 is [Base] with
    the properties ["Size"] and ["size"], 15 is [Derived], a child of
    [Base], with the properties ["SIZE"] and ["value"]. *)
Definition sampleClass (n : Name) (ps : list (Name * Property))
    (p : option TypeId) : ClassType :=
  mkClassType n (list_to_map ps) p None [] 0 "main" None.

Definition baseClass : ClassType :=
  sampleClass "Base" [("Size", Samples.sampleProperty 2);
                      ("size", Samples.sampleProperty 2)] None.

Definition derivedClass : ClassType :=
  sampleClass "Derived" [("SIZE", Samples.sampleProperty 2);
                         ("value", Samples.sampleProperty 3)] (Some 14).

Definition classMemory : Memory :=
  mkMemory
    (Samples.sampleTypes ++
     [mkType (ClassTypeV baseClass) false None (Some 1);
      mkType (ClassTypeV derivedClass) false None (Some 1)])
    Samples.samplePacks.

Definition classChecker : Checker :=
  mkChecker [] classMemory [7] [] ∅ [].

End Diagnostics.

Module PropertyLookup.
Import TypeGraph TypeChecker2 Diagnostics.

Section Lookup.
Context (ext : Externals) (prop : Name) (location : Location).
Context (astIndexExprType : TypeId).

(** The type whose shape answers for [t], with the errors that finding
    it brings: for a string, the entry [__index] of the metatable of
    [string]; otherwise [t] itself.  [None]: a string without that
    entry. *)
Definition subjectOf (m : Memory) (t : TypeId) : option (TypeId * ErrorVec) :=
  if isString ext m t then
    match findMetatableEntry ext m (stringType (builtinTypes ext)) "__index"
            location with
    | (Some mtIndex, errs) => Some (mtIndex, errs)
    | (None, _) => None
    end
  else Some (t, []).

(** Whether the indexer of a table lets a property name through: its key
    type is [string], [any] or [unknown].  [None]: the key type is not
    in the memory. *)
Definition indexerAccepts (m : Memory) (tbl : TableType) : option bool :=
  match indexer tbl with
  | None => Some false
  | Some ix =>
      let indexType := follow ext m (indexType ix) in
      if isPrim ext m indexType String_ then Some true
      else
        match types m !! indexType with
        | Some node =>
            Some (match ty node with
                  | AnyType | UnknownType => true
                  | _ => false
                  end)
        | None => None
        end
  end.

(** The memory after [testArena.addType(v)]. *)
Definition allocated (v : TypeVariant) (s : Checker) : Checker :=
  mkChecker (errors s)
    (mkMemory (types (mem s) ++ [mkType v false None (Some testArena)])
       (typePacks (mem s)))
    (stack s) (functionDeclStack s) (noTypeFamilyErrors s) (printed s).

(** What the lookup is asked: whether one type carries the property,
    whether every type of a list does, whether some type of a list
    does. *)
Inductive Question :=
  | One (t : TypeId)
  | Every (ts : list TypeId)
  | Some_ (ts : list TypeId).

(** [carries seen q s b seen' s']: asked [q] in the state [s], with the
    types of [seen] met before, the lookup answers [b] and leaves the
    types [seen'] met and the state [s'].
    - A type met before counts as carrying the property.
    - [any], [error] and [never] carry every property.
    - A table carries the property when it is found on it, its
      metatable respected, or when its indexer takes a name.
    - A class carries it when it or an ancestor has it, or when the key
      type of its indexer and the type of the index expression have an
      inhabited intersection.
    - A union carries it when every option does, an intersection when
      some part does; the options and parts are asked in their order,
      until the answer is known.
    - Nothing else carries a property. *)
Inductive carries :
    gset TypeId -> Question -> Checker -> bool -> gset TypeId -> Checker -> Prop :=
  | carries_seen seen t s :
      t ∈ seen ->
      carries seen (One t) s true seen s
  | carries_top seen t s node :
      t ∉ seen ->
      types (mem s) !! t = Some node ->
      isAnyErrorNever (ty node) = true ->
      carries seen (One t) s true ({[t]} ∪ seen) s
  | carries_table seen t s node subject errs tbl found errs' b :
      t ∉ seen ->
      types (mem s) !! t = Some node ->
      isAnyErrorNever (ty node) = false ->
      subjectOf (mem s) t = Some (subject, errs) ->
      getTableType ext (mem s) subject = Some tbl ->
      findTablePropertyRespectingMeta ext (mem s) subject prop location
      = (found, errs') ->
      match found with
      | Some _ => b = true
      | None => indexerAccepts (mem s) tbl = Some b
      end ->
      carries seen (One t) s b ({[t]} ∪ seen)
        (withErrors errs' (withErrors errs s))
  | carries_class_property seen t s node subject errs snode cls p :
      t ∉ seen ->
      types (mem s) !! t = Some node ->
      isAnyErrorNever (ty node) = false ->
      subjectOf (mem s) t = Some (subject, errs) ->
      getTableType ext (mem s) subject = None ->
      types (mem s) !! subject = Some snode ->
      ty snode = ClassTypeV cls ->
      lookupClassProp ext (mem s) cls prop = Some p ->
      carries seen (One t) s true ({[t]} ∪ seen) (withErrors errs s)
  | carries_class_indexer seen t s node subject errs snode cls ix :
      t ∉ seen ->
      types (mem s) !! t = Some node ->
      isAnyErrorNever (ty node) = false ->
      subjectOf (mem s) t = Some (subject, errs) ->
      getTableType ext (mem s) subject = None ->
      types (mem s) !! subject = Some snode ->
      ty snode = ClassTypeV cls ->
      lookupClassProp ext (mem s) cls prop = None ->
      ct_indexer cls = Some ix ->
      let s' :=
        allocated (IntersectionType [indexType ix; astIndexExprType])
          (withErrors errs s) in
      carries seen (One t) s
        (isInhabited ext (mem s') (length (types (mem s))))
        ({[t]} ∪ seen) s'
  | carries_class_nothing seen t s node subject errs snode cls :
      t ∉ seen ->
      types (mem s) !! t = Some node ->
      isAnyErrorNever (ty node) = false ->
      subjectOf (mem s) t = Some (subject, errs) ->
      getTableType ext (mem s) subject = None ->
      types (mem s) !! subject = Some snode ->
      ty snode = ClassTypeV cls ->
      lookupClassProp ext (mem s) cls prop = None ->
      ct_indexer cls = None ->
      carries seen (One t) s false ({[t]} ∪ seen) (withErrors errs s)
  | carries_union seen t s node subject errs snode options b seen' s' :
      t ∉ seen ->
      types (mem s) !! t = Some node ->
      isAnyErrorNever (ty node) = false ->
      subjectOf (mem s) t = Some (subject, errs) ->
      getTableType ext (mem s) subject = None ->
      types (mem s) !! subject = Some snode ->
      ty snode = UnionType options ->
      carries ({[t]} ∪ seen) (Every (unionOptions ext (mem s) options))
        (withErrors errs s) b seen' s' ->
      carries seen (One t) s b seen' s'
  | carries_intersection seen t s node subject errs snode parts b seen' s' :
      t ∉ seen ->
      types (mem s) !! t = Some node ->
      isAnyErrorNever (ty node) = false ->
      subjectOf (mem s) t = Some (subject, errs) ->
      getTableType ext (mem s) subject = None ->
      types (mem s) !! subject = Some snode ->
      ty snode = IntersectionType parts ->
      carries ({[t]} ∪ seen) (Some_ parts) (withErrors errs s) b seen' s' ->
      carries seen (One t) s b seen' s'
  | carries_nothing seen t s node subject errs snode :
      t ∉ seen ->
      types (mem s) !! t = Some node ->
      isAnyErrorNever (ty node) = false ->
      subjectOf (mem s) t = Some (subject, errs) ->
      getTableType ext (mem s) subject = None ->
      types (mem s) !! subject = Some snode ->
      match ty snode with
      | ClassTypeV _ | UnionType _ | IntersectionType _ => False
      | _ => True
      end ->
      carries seen (One t) s false ({[t]} ∪ seen) (withErrors errs s)
  | carries_every_nil seen s :
      carries seen (Every []) s true seen s
  | carries_every_more seen t ts s seen1 s1 b seen' s' :
      carries seen (One t) s true seen1 s1 ->
      carries seen1 (Every ts) s1 b seen' s' ->
      carries seen (Every (t :: ts)) s b seen' s'
  | carries_every_stop seen t ts s seen' s' :
      carries seen (One t) s false seen' s' ->
      carries seen (Every (t :: ts)) s false seen' s'
  | carries_some_nil seen s :
      carries seen (Some_ []) s false seen s
  | carries_some_stop seen t ts s seen' s' :
      carries seen (One t) s true seen' s' ->
      carries seen (Some_ (t :: ts)) s true seen' s'
  | carries_some_more seen t ts s seen1 s1 b seen' s' :
      carries seen (One t) s false seen1 s1 ->
      carries seen1 (Some_ ts) s1 b seen' s' ->
      carries seen (Some_ (t :: ts)) s b seen' s'.

(** What [fetch] is called on: a type that is there, a type that is put
    into the test arena for the call, or what stands for a type variable
    of the normal form. *)
Inductive Component :=
  | Plain (t : TypeId)
  | Fresh (v : TypeVariant)
  | Tyvar (tyvar : TypeId) (intersect : NormalizedType).

(** The argument of [fetch] for a component. *)
Definition present (c : Component) : TC TypeId :=
  match c with
  | Plain t => ret t
  | Fresh v => addType v
  | Tyvar tyvar intersect =>
      vt <- get (tops intersect) ;;
      match vt with
      | NeverType =>
          m <- getMem ;;
          let '(t, m') := typeFromNormal ext m intersect in
          setMem m' ;;;
          addType (IntersectionType [tyvar; t])
      | _ => ret tyvar
      end
  end.

(** The components of a normal form, in the order in which
    [checkIndexTypeFromType] goes through them. *)
Definition componentsOf (norm : NormalizedType) : list Component :=
  ([Plain (tops norm); Plain (booleans norm)]
   ++ map Plain (classes norm)
   ++ [Plain (errors_ norm); Plain (nils norm); Plain (numbers norm)]
   ++ (if negb (strings_isNever norm)
       then [Plain (stringType (builtinTypes ext))] else [])
   ++ [Plain (threads norm)]
   ++ map Plain (tables norm)
   ++ (if functions_isTop norm then [Plain (functionType (builtinTypes ext))]
       else if negb (functions_isNever norm) then
         match functions_parts norm with
         | [part] => [Plain part]
         | parts => [Fresh (IntersectionType parts)]
         end
       else [])
   ++ map (fun tv => Tyvar (fst tv) (snd tv)) (tyvars norm))%list.

(** [scanned cs s verdicts s']: going through the components [cs] from
    the state [s], the lookup skips the uninhabited ones and finds for
    the inhabited ones, in their order, the answers [verdicts]; it ends
    in the state [s']. *)
Inductive scanned :
    list Component -> Checker -> list (TypeId * bool) -> Checker -> Prop :=
  | scanned_nil s :
      scanned [] s [] s
  | scanned_uninhabited c cs s t s0 verdicts s' :
      present c s = Ok t s0 ->
      isInhabited ext (mem s0) t = false ->
      scanned cs s0 verdicts s' ->
      scanned (c :: cs) s verdicts s'
  | scanned_inhabited c cs s t s0 b seen' s1 verdicts s' :
      present c s = Ok t s0 ->
      isInhabited ext (mem s0) t = true ->
      carries ∅ (One t) s0 b seen' s1 ->
      scanned cs s1 verdicts s' ->
      scanned (c :: cs) s ((t, b) :: verdicts) s'.

(** The second half of [hasIndexTypeFromType]: what the type that
    answers for a type says, the types of unions and intersections
    being asked with [fuel]. *)
Definition answer (fuel : nat) (m : Memory) (subject : TypeId)
    (seen : gset TypeId) : TC (bool * gset TypeId) :=
  match getTableType ext m subject with
  | Some tbl =>
      let '(found, errs) :=
        findTablePropertyRespectingMeta ext m subject prop location in
      pushErrors errs ;;;
      match found with
      | Some _ => ret (true, seen)
      | None =>
          match indexer tbl with
          | Some ix =>
              let indexType := follow ext m (indexType ix) in
              if isPrim ext m indexType String_ then ret (true, seen)
              else
                vi <- get indexType ;;
                match vi with
                | AnyType | UnknownType => ret (true, seen)
                | _ => ret (false, seen)
                end
          | None => ret (false, seen)
          end
      end
  | None =>
      v <- get subject ;;
      match v with
      | ClassTypeV cls =>
          match lookupClassProp ext m cls prop with
          | Some _ => ret (true, seen)
          | None =>
              match ct_indexer cls with
              | Some ix =>
                  inhabitatedTestType <-
                    addType (IntersectionType [indexType ix; astIndexExprType]) ;;
                  m' <- getMem ;;
                  ret (isInhabited ext m' inhabitatedTestType, seen)
              | None => ret (false, seen)
              end
          end
      | UnionType options =>
          allOf (hasIndexTypeFromType ext fuel prop location astIndexExprType)
            (unionOptions ext m options) seen
      | IntersectionType parts =>
          anyOf (hasIndexTypeFromType ext fuel prop location astIndexExprType)
            parts seen
      | _ => ret (false, seen)
      end
  end.

(** The code that answers a question. *)
Definition ask (fuel : nat) (q : Question) (seen : gset TypeId)
    : TC (bool * gset TypeId) :=
  match q with
  | One t => hasIndexTypeFromType ext fuel prop location astIndexExprType t seen
  | Every ts =>
      allOf (hasIndexTypeFromType ext fuel prop location astIndexExprType) ts seen
  | Some_ ts =>
      anyOf (hasIndexTypeFromType ext fuel prop location astIndexExprType) ts seen
  end.

(** [fetch] on every component of a list. *)
Fixpoint scan (fuel : nat) (cs : list Component) (acc : Found) : TC Found :=
  match cs with
  | [] => ret acc
  | c :: rest =>
      t <- present c ;;
      acc' <- fetch ext fuel prop location astIndexExprType t acc ;;
      scan fuel rest acc'
  end.

(** The components that do not carry the property, and whether one
    does. *)
Definition missingOf (verdicts : list (TypeId * bool)) : list TypeId :=
  map fst (List.filter (fun v => negb (snd v)) verdicts).

Definition foundOf (verdicts : list (TypeId * bool)) : bool :=
  existsb snd verdicts.

End Lookup.

(** The names that a receiver offers in place of an unknown one: the near
    misses among the properties of a table, or of a class and its
    ancestors. *)
Inductive offers (ext : Externals) (m : Memory) (table : TypeId) (key : Name)
    : gset Name -> Prop :=
  | offers_table ttv :
      getTableType ext m table = Some ttv ->
      offers ext m table key (nearMisses key (dom (props ttv)))
  | offers_class node ctv chain :
      getTableType ext m table = None ->
      types m !! follow ext m table = Some node ->
      ty node = ClassTypeV ctv ->
      ancestry m ctv chain ->
      offers ext m table key (nearMisses key (propertyNames chain))
  | offers_nothing node :
      getTableType ext m table = None ->
      types m !! follow ext m table = Some node ->
      isClassType (ty node) = false ->
      offers ext m table key ∅.

(** The diagnosis as the specification words it, from the answers of the
    inhabited components: nothing when none lacks the property;
    [MissingUnionProperty] when some carry it and some do not;
    [CannotExtendTable] of kind [Property] when none carries it in
    [LValue] context on a receiver that is not a class, whose node is
    [node]; [UnknownProperty] otherwise, turned into a suggestion when
    the receiver offers [candidates].  It is compared with
    [checkIndexTypeFromType] below. *)
Definition diagnosis (tableTy : TypeId) (prop : Name) (context : ValueContext)
    (node : Type_) (candidates : gset Name) (verdicts : list (TypeId * bool))
    : option TypeErrorData :=
  match missingOf verdicts with
  | [] => None
  | missing =>
      Some (if foundOf verdicts then MissingUnionProperty tableTy missing prop
            else if bool_decide (context = LValue) && negb (isClassType (ty node))
                 then CannotExtendTable tableTy Property_ prop
                 else suggestion tableTy prop (UnknownProperty tableTy prop)
                        candidates)
  end.

(** For the samples, a normal form that knows unions of tables and
    classes: the options of a union are its tables, a class is its only
    class, and the rest is as [Samples.sampleNormalize] has it. *)
Definition lookupNormalize (m : Memory) (t : TypeId) : option NormalizedType :=
  let never := 7 in
  match Samples.variantAt m t with
  | Some (UnionType options) =>
      Some (mkNormalizedType never never [] never never never true never
              options false true [] [] false false)
  | Some (ClassTypeV _) =>
      Some (mkNormalizedType never never [t] never never never true never
              [] false true [] [] false false)
  | _ => Samples.sampleNormalize m t
  end.

Definition withNormalize (n : Memory -> TypeId -> option NormalizedType)
    (e : Externals) : Externals :=
  {| builtinTypes := builtinTypes e;
     opValue := opValue e;
     kBinaryOpMetamethods := kBinaryOpMetamethods e;
     toString_op := toString_op e;
     toString_type := toString_type e;
     follow := follow e;
     follow_pack := follow_pack e;
     unionOptions := unionOptions e;
     first := first e;
     finite := finite e;
     size := size e;
     isString := isString e;
     isBoolean := isBoolean e;
     isPrim := isPrim e;
     stripNil := stripNil e;
     getMetatable := getMetatable e;
     getTableType := getTableType e;
     findMetatableEntry := findMetatableEntry e;
     findTablePropertyRespectingMeta := findTablePropertyRespectingMeta e;
     lookupClassProp := lookupClassProp e;
     unify := unify e;
     normalize := n;
     isInhabited := isInhabited e;
     isIntersectionInhabited := isIntersectionInhabited e;
     typeFromNormal := typeFromNormal e;
     reduceFamilies := reduceFamilies e;
     internalFamilies := internalFamilies e;
     DebugLuauMagicTypes := DebugLuauMagicTypes e |}.

Definition lookupExt : Externals := withNormalize lookupNormalize Samples.sampleExt.

(** The memory of the classes with one more type, 16: the union of the
    tables 10 and 11. *)
Definition lookupMemory : Memory :=
  mkMemory
    (types classMemory ++ [mkType (UnionType [10; 11]) false None (Some 1)])
    Samples.samplePacks.

Definition lookupChecker : Checker :=
  mkChecker [] lookupMemory [7] [] ∅ [].

End PropertyLookup.

(* ===================================================================== *)
(** ** TypeChecker2.cpp : scopes by location, optional values, generics  *)
(* ===================================================================== *)

Module Scopes.
Import TypeGraph TypeChecker2.

Section FindInnermostScope.

(** [Position::operator>], [Position::operator<] and [Location::encloses]
    are those of Location.h, [module->getModuleScope()] is that of
    Module.cpp; none is under src/. *)
Context (pos_gt pos_lt : Position -> Position -> bool).
Context (encloses : Location -> Location -> bool).
Context (moduleScope : ScopeId).

(** [scopeBounds.begin > bestLocation.begin || scopeBounds.end < bestLocation.end] *)
Definition tighter (scopeBounds bestLocation : Location) : bool :=
  pos_gt (begin_ scopeBounds) (begin_ bestLocation)
  || pos_lt (end_ scopeBounds) (end_ bestLocation).

(** One turn of the loop, on the pair [(bestScope, bestLocation)]. *)
Definition consider (location : Location) (best : ScopeId * Location)
    (entry : Location * ScopeId) : ScopeId * Location :=
  let '(scopeBounds, scope) := entry in
  if encloses scopeBounds location then
    if tighter scopeBounds (snd best) then (scope, scopeBounds) else best
  else best.

(** The loop of [findInnermostScope] over [module->scopes], with the two
    variables it ends on.  [None]: [module->scopes[0]] of an empty
    vector. *)
Definition innermost (scopes : list (Location * ScopeId)) (location : Location)
    : option (ScopeId * Location) :=
  match scopes with
  | [] => None
  | (first, _) :: _ =>
      Some (fold_left (consider location) scopes (moduleScope, first))
  end.

(** [Scope* findInnermostScope(Location location)] *)
Definition findInnermostScope (scopes : list (Location * ScopeId))
    (location : Location) : option ScopeId :=
  fst <$> innermost scopes location.

End FindInnermostScope.

(** Positions in reading order, and the spans of a chunk, of a function
    in it, of a block in the function and of a second function. *)
Definition samplePosLt (a b : Position) : bool :=
  (line a <? line b)%nat || ((line a =? line b)%nat && (column a <? column b)%nat).
Definition samplePosGt (a b : Position) : bool := samplePosLt b a.
Definition sampleEncloses (outer inner : Location) : bool :=
  negb (samplePosGt (begin_ outer) (begin_ inner))
  && negb (samplePosLt (end_ outer) (end_ inner)).

Definition span (l1 c1 l2 c2 : nat) : Location :=
  mkLocation (mkPosition l1 c1) (mkPosition l2 c2).

Definition sampleScopes : list (Location * ScopeId) :=
  [ (span 0 0 20 0, 0); (span 2 0 9 3, 1); (span 4 4 6 7, 2); (span 11 0 15 3, 3) ].

End Scopes.

Module OptionalAccess.
Import TypeGraph TypeChecker2.

Section Strip.
Context (ext : Externals) (module : Module).

(** [isNil] is that of Type.cpp; [internalTypes] is the arena
    [module->internalTypes]; [OptionalValueAccess] is the alternative of
    [TypeErrorData] of that name (Error.h). *)
Context (isNil : Memory -> TypeId -> bool).
Context (internalTypes : ArenaId).
Context (OptionalValueAccess : TypeId -> TypeErrorData).

(** [module->internalTypes.addType] *)
Definition addInternalType (tv : TypeVariant) : TC TypeId :=
  fun s =>
    let m := mem s in
    Ok (length (types m))
       (mkChecker (errors s)
          (mkMemory (types m ++ [mkType tv false None (Some internalTypes)])
                    (typePacks m))
          (stack s) (functionDeclStack s) (noTypeFamilyErrors s) (printed s)).

(** [std::any_of(begin(utv), end(utv), isNil)] *)
Definition anyNil (m : Memory) (options : list TypeId) : bool :=
  existsb (isNil m) (unionOptions ext m options).

(** [for (TypeId option : utv) if (!isNil(option)) result.push_back(option);] *)
Definition nonNil (m : Memory) (options : list TypeId) : list TypeId :=
  List.filter (fun option => negb (isNil m option)) (unionOptions ext m options).

(** [std::optional<TypeId> tryStripUnionFromNil(TypeId ty)] *)
Definition tryStripUnionFromNil (ty : TypeId) : TC (option TypeId) :=
  v <- get ty ;;
  match v with
  | UnionType options =>
      m <- getMem ;;
      if negb (anyNil m options) then ret (Some ty)
      else
        let result := nonNil m options in
        match result with
        | [] => ret None
        | [single] => ret (Some single)
        | _ => t <- addInternalType (UnionType result) ;; ret (Some t)
        end
  | _ => ret None
  end.

(** [TypeId stripFromNilAndReport(TypeId ty, const Location& location)] *)
Definition stripFromNilAndReport (ty : TypeId) (location : Location) : TC TypeId :=
  m <- getMem ;;
  let ty := follow ext m ty in
  v <- get ty ;;
  if match v with
     | UnionType options => negb (anyNil m options)
     | _ => false
     end
  then ret ty
  else
    strippedUnion <- tryStripUnionFromNil ty ;;
    match strippedUnion with
    | Some stripped =>
        reportError ext module (OptionalValueAccess ty) location ;;;
        m' <- getMem ;;
        ret (follow ext m' stripped)
    | None => ret ty
    end.

End Strip.

(** A memory that holds, after the sample types, 14: [nil | number],
    15: [nil | nil], 16: [nil | number | string] and 17: [number | string]. *)
Definition optionalMemory : Memory :=
  mkMemory
    (Samples.sampleTypes ++
     [mkType (UnionType [0; 2]) false None (Some 1);
      mkType (UnionType [0; 0]) false None (Some 1);
      mkType (UnionType [0; 2; 3]) false None (Some 1);
      mkType (UnionType [2; 3]) false None (Some 1)])
    Samples.samplePacks.

Definition optionalChecker : Checker :=
  mkChecker [] optionalMemory [7] [] ∅ [].

Definition sampleIsNil (m : Memory) (t : TypeId) : bool :=
  Samples.isPrimitive NilType (Samples.variantAt m t).

(** An alternative of [TypeErrorData] that is none of those spelled out. *)
Definition sampleOptionalValueAccess (t : TypeId) : TypeErrorData :=
  OtherError (100 + t).

End OptionalAccess.

Module Generics.
Import TypeGraph TypeChecker2.

(** [AstGenericType] and [AstGenericTypePack] (Ast.h): a name, that is an
    interned string, a location, and a default value that may be absent. *)
Record AstGeneric (Default : Type) := mkAstGeneric {
  g_name : string;
  g_location : Location;
  g_defaultValue : option Default }.
Arguments mkAstGeneric {Default} _ _ _.
Arguments g_name {Default} _.
Arguments g_location {Default} _.
Arguments g_defaultValue {Default} _.

Section VisitGenerics.
Context (ext : Externals) (module : Module).

(** The syntax of type packs is that of Ast.h; [visitType] and
    [visitTypePack] are the dispatchers [visit] of the validator over
    [AstType] and [AstTypePack] nodes;
    [DuplicateGenericParameter] is the alternative of [TypeErrorData] of
    that name (Error.h). *)
Context {AstTypePack : Type}.
Context (visitType : AstType -> TC unit).
Context (visitTypePack : AstTypePack -> TC unit).
Context (DuplicateGenericParameter : string -> TypeErrorData).

Definition AstGenericType := AstGeneric AstType.
Definition AstGenericTypePack := AstGeneric AstTypePack.

(** Either loop of [visitGenerics]; the two differ in the type of the
    default value only.  The set [seen] goes in and comes out. *)
Fixpoint visitGenericList {Default : Type} (visitDefault : Default -> TC unit)
    (generics : list (AstGeneric Default)) (seen : gset string)
    : TC (gset string) :=
  match generics with
  | [] => ret seen
  | g :: rest =>
      seen <-
        (if bool_decide (g_name g ∈ seen) then
           reportError ext module (DuplicateGenericParameter (g_name g))
             (g_location g) ;;;
           ret seen
         else ret ({[g_name g]} ∪ seen)) ;;
      (match g_defaultValue g with
       | Some defaultValue => visitDefault defaultValue
       | None => ret tt
       end) ;;;
      visitGenericList visitDefault rest seen
  end.

(** [void visitGenerics(AstArray<AstGenericType> generics,
                        AstArray<AstGenericTypePack> genericPacks)] *)
Definition visitGenerics (generics : list AstGenericType)
    (genericPacks : list AstGenericTypePack) : TC unit :=
  seen <- visitGenericList visitType generics ∅ ;;
  visitGenericList visitTypePack genericPacks seen ;;;
  ret tt.

(** The name and the location of every parameter, in the order the two
    loops come to them. *)
Definition parameters (generics : list AstGenericType)
    (genericPacks : list AstGenericTypePack) : list (string * Location) :=
  (map (fun g => (g_name g, g_location g)) generics
   ++ map (fun g => (g_name g, g_location g)) genericPacks)%list.

End VisitGenerics.

(** The parameters [<T, U, T, V..., T...>], none with a default value. *)
Definition sampleGenerics : list (AstGeneric AstType) :=
  [ mkAstGeneric "T" (Samples.at_ 1 10) None;
    mkAstGeneric "U" (Samples.at_ 1 13) None;
    mkAstGeneric "T" (Samples.at_ 1 16) None ].

Definition sampleGenericPacks : list (AstGeneric unit) :=
  [ mkAstGeneric "V" (Samples.at_ 1 19) None;
    mkAstGeneric "T" (Samples.at_ 1 25) None ].

(** An alternative of [TypeErrorData] that is none of those spelled out. *)
Definition sampleDuplicateGenericParameter (n : string) : TypeErrorData :=
  OtherError (200 + String.length n).

End Generics.

(* ===================================================================== *)
(** * Theorems                                                            *)
(* ===================================================================== *)

Lemma MTAScriptType_eqb_eq (a b : Frontend.MTAScriptType) :
  Frontend.MTAScriptType_eqb a b = true <-> a = b.
Proof. destruct a, b; cbv; split; congruence. Qed.

(** C10. [IsMTAScriptTypeMatched] is commutative, and it answers [true]
    exactly when one of the two script types is [Shared] or the two are
    equal. *)
Theorem IsMTAScriptTypeMatched_comm_char (a b : Frontend.MTAScriptType) :
  Frontend.IsMTAScriptTypeMatched a b = Frontend.IsMTAScriptTypeMatched b a
  /\ (Frontend.IsMTAScriptTypeMatched a b = true
      <-> a = Frontend.Shared \/ b = Frontend.Shared \/ a = b).
Proof.
  split.
  - destruct a, b; reflexivity.
  - unfold Frontend.IsMTAScriptTypeMatched.
    rewrite !orb_true_iff, !MTAScriptType_eqb_eq. tauto.
Qed.

(** C9. [getCompileFormat] tests the name ["text"] twice with the same
    result, and removing the second test changes nothing: on every name
    the source chain and the folded chain return the same optional
    format. *)
Theorem getCompileFormat_folded_equiv (name : string) :
  Compile.getCompileFormat name = Compile.getCompileFormat_folded name.
Proof.
  unfold Compile.getCompileFormat, Compile.getCompileFormat_folded.
  destruct (Compile.strcmp_eq0 name "text") eqn:Htext; [reflexivity|].
  destruct (Compile.strcmp_eq0 name "binary"); reflexivity.
Qed.

Import TypeGraph.


(** ** The validator *)

Section ValidatorFacts.
Import TypeChecker2.
Context (ext : Externals) (module : Module).

Lemma tc_bind_Ok {A B} (m : TC A) (k : A -> TC B) s a s1 :
  m s = Ok a s1 -> bind m k s = k a s1.
Proof. intros H. unfold bind. now rewrite H. Qed.

Lemma stackBack_Ok s scope :
  last (stack s) = Some scope -> stackBack s = Ok scope s.
Proof. intros H. unfold stackBack. now rewrite H. Qed.

(** An error whose data is not [UnknownProperty] is stored as it is. *)
Lemma reportError_plain data location s :
  (forall table key, data <> UnknownProperty table key) ->
  reportError ext module data location s
  = Ok tt (withErrors [mkTypeError location (name module) data] s).
Proof.
  intros Hd. unfold reportError.
  destruct data; try reflexivity. now destruct (Hd table key).
Qed.

Lemma checkTypeAssertion_spec location annotationType computedType s scope :
  last (stack s) = Some scope ->
  checkTypeAssertion ext module location annotationType computedType s
  = Ok tt
      (if isSubtypeIn ext (mem s) annotationType computedType scope true
          || isSubtypeIn ext (mem s) computedType annotationType scope true
       then s
       else withErrors
              [mkTypeError location (name module)
                 (TypesAreUnrelated computedType annotationType)] s).
Proof.
  intros Hs. unfold checkTypeAssertion.
  rewrite (tc_bind_Ok _ _ _ _ _ (stackBack_Ok _ _ Hs)).
  unfold isSubtype at 1. unfold bind at 1. unfold getMem at 1. cbn beta iota.
  unfold bind at 1, ret at 1.
  destruct (isSubtypeIn ext (mem s) annotationType computedType scope true);
    [reflexivity|].
  rewrite (tc_bind_Ok _ _ _ _ _ (stackBack_Ok _ _ Hs)).
  unfold isSubtype, bind, getMem, ret. cbn beta iota.
  destruct (isSubtypeIn ext (mem s) computedType annotationType scope true);
    [reflexivity|].
  cbn [orb]. now rewrite reportError_plain.
Qed.

End ValidatorFacts.

(** C4. A type assertion [expr :: T]: once the children are visited and
    the two types are looked up, nothing is reported when the annotation
    type is a subtype of the computed type or the other way round, and
    otherwise exactly one [TypesAreUnrelated] error, carrying the computed
    and the annotation type, is added at the location of the assertion. *)
Theorem typeAssertion_unrelated_iff
    (ext : TypeChecker2.Externals) (module : TypeChecker2.Module)
    (visitExpr : TypeChecker2.AstExpr -> TypeChecker2.ValueContext -> TypeChecker2.TC unit)
    (visitType : TypeChecker2.AstType -> TypeChecker2.TC unit)
    (location : Location) (expr : TypeChecker2.AstExpr)
    (annotation : TypeChecker2.AstType)
    (s s1 s2 s3 s4 : TypeChecker2.Checker)
    (annotationType computedType : TypeId) (scope : ScopeId) :
  visitExpr expr TypeChecker2.RValue s = TypeChecker2.Ok tt s1 ->
  visitType annotation s1 = TypeChecker2.Ok tt s2 ->
  TypeChecker2.lookupAnnotation ext module annotation s2
    = TypeChecker2.Ok annotationType s3 ->
  TypeChecker2.lookupType ext module expr s3 = TypeChecker2.Ok computedType s4 ->
  last (TypeChecker2.stack s4) = Some scope ->
  let related :=
    TypeChecker2.isSubtypeIn ext (TypeChecker2.mem s4) annotationType computedType scope true
    || TypeChecker2.isSubtypeIn ext (TypeChecker2.mem s4) computedType annotationType scope true in
  exists s5,
    TypeChecker2.visit_AstExprTypeAssertion ext module visitExpr visitType
      location expr annotation s = TypeChecker2.Ok tt s5
    /\ TypeChecker2.mem s5 = TypeChecker2.mem s4
    /\ TypeChecker2.errors s5
       = (TypeChecker2.errors s4
          ++ if related then []
             else [TypeChecker2.mkTypeError location (TypeChecker2.name module)
                     (TypeChecker2.TypesAreUnrelated computedType annotationType)])%list.
Proof.
  intros H1 H2 H3 H4 Hs related.
  unfold TypeChecker2.visit_AstExprTypeAssertion.
  rewrite (tc_bind_Ok _ _ _ _ _ H1), (tc_bind_Ok _ _ _ _ _ H2),
    (tc_bind_Ok _ _ _ _ _ H3), (tc_bind_Ok _ _ _ _ _ H4).
  rewrite (checkTypeAssertion_spec _ _ _ _ _ _ _ Hs).
  eexists; split; [reflexivity|]. fold related.
  destruct related; cbn; split; auto using app_nil_r.
  now rewrite app_nil_r.
Qed.

Lemma typeAssertion_unrelated_iff_witness :
  exists s5,
    TypeChecker2.visit_AstExprTypeAssertion Samples.sampleExt Samples.sampleModule
      Samples.noVisit Samples.noVisitType (Samples.at_ 5 1) Samples.exprTrue
      (TypeChecker2.AstTypeOther 31 (Samples.at_ 5 9)) Samples.sampleChecker
    = TypeChecker2.Ok tt s5
    /\ TypeChecker2.errors s5
       = [TypeChecker2.mkTypeError (Samples.at_ 5 1) "main"
            (TypeChecker2.TypesAreUnrelated 9 3)].
Proof.
  destruct (typeAssertion_unrelated_iff Samples.sampleExt Samples.sampleModule
              Samples.noVisit Samples.noVisitType (Samples.at_ 5 1) Samples.exprTrue
              (TypeChecker2.AstTypeOther 31 (Samples.at_ 5 9))
              Samples.sampleChecker Samples.sampleChecker Samples.sampleChecker
              (TypeChecker2.mkChecker [] Samples.sampleMemory [7] [] {[3]} [])
              (TypeChecker2.mkChecker [] Samples.sampleMemory [7] [] {[9; 3]} [])
              3 9 7)
    as (s5 & Hrun & _ & Herr);
    [reflexivity | reflexivity | reflexivity | reflexivity | reflexivity |].
  exists s5. split; [exact Hrun | exact Herr].
Defined.

Section ValidatorFacts2.
Import TypeChecker2.
Context (ext : Externals) (module : Module).

Lemma visit_AstExprConstant_spec expr expected s scope actualType s1 :
  last (stack s) = Some scope ->
  lookupType ext module expr s = Ok actualType s1 ->
  visit_AstExprConstant ext module expr expected s
  = if isSubtypeIn ext (mem s1) actualType expected scope false
    then Ok tt s1 else Stop AssertionFailed.
Proof.
  intros Hs Hl. unfold visit_AstExprConstant.
  rewrite (tc_bind_Ok _ _ _ _ _ (stackBack_Ok _ _ Hs)).
  rewrite (tc_bind_Ok _ _ _ _ _ Hl).
  unfold isSubtype, bind, getMem, ret, LUAU_ASSERT.
  now destruct (isSubtypeIn ext (mem s1) actualType expected scope false).
Qed.

(** The function type that a metamethod is unified with. *)
Lemma synthesizeExpectedTy_spec op scope leftType rightType s :
  exists expectedTy s' expectedArgs expectedRets,
    synthesizeExpectedTy ext op scope leftType rightType s = Ok expectedTy s'
    /\ errors s' = errors s
    /\ types (mem s') !! expectedTy
       = Some (mkType (FunctionTypeV (FunctionType_of expectedArgs expectedRets))
                 false None (Some testArena))
    /\ typePacks (mem s') !! expectedArgs
       = Some (mkTypePackVar
                 (TypePack (expectedArgTypes op leftType rightType) None)
                 false (Some testArena))
    /\ (expectsBooleanResult op = true ->
        typePacks (mem s') !! expectedRets
        = Some (mkTypePackVar (TypePack [booleanType (builtinTypes ext)] None)
                  false (Some testArena))).
Proof.
  unfold synthesizeExpectedTy, bind, addTypePack, addType, ret.
  destruct (expectsBooleanResult op); cbn.
  - do 4 eexists. split; [reflexivity|]. cbn. split; [reflexivity|].
    split; [|split].
    + now rewrite list_lookup_middle.
    + rewrite lookup_app_l by (rewrite length_app; cbn; lia).
      now rewrite list_lookup_middle.
    + intros _. now rewrite list_lookup_middle by (rewrite length_app; cbn; lia).
  - do 4 eexists. split; [reflexivity|]. cbn. split; [reflexivity|].
    split; [|split].
    + now rewrite list_lookup_middle by (rewrite length_app; cbn; lia).
    + rewrite lookup_app_l by (rewrite length_app; cbn; lia).
      now rewrite list_lookup_middle.
    + discriminate.
Qed.

Lemma get_Ok s t node :
  types (mem s) !! t = Some node -> get t s = Ok (ty node) s.
Proof. intros H. unfold get. now rewrite H. Qed.

End ValidatorFacts2.

(** C8 (as amended). For a constant literal the validator asserts that
    the type looked up for the expression is accepted by [isSubtype]
    against the primitive of the literal ([nil], [boolean], [number],
    [string]): the visit ends normally exactly when the unifier accepts
    that pair and stops with a failed assertion otherwise; so the
    assertion never fails when the inference engine stored a type that is
    a subtype of the primitive. *)
Theorem constant_asserts_subtype
    (ext : TypeChecker2.Externals) (module : TypeChecker2.Module)
    (expr : TypeChecker2.AstExpr) (s s1 : TypeChecker2.Checker)
    (scope : ScopeId) (actualType : TypeId) :
  last (TypeChecker2.stack s) = Some scope ->
  TypeChecker2.lookupType ext module expr s = TypeChecker2.Ok actualType s1 ->
  let asserted (primitive : TypeId) : TypeChecker2.Result unit :=
    if TypeChecker2.isSubtypeIn ext (TypeChecker2.mem s1) actualType primitive scope false
    then TypeChecker2.Ok tt s1
    else TypeChecker2.Stop TypeChecker2.AssertionFailed in
  let b := TypeChecker2.builtinTypes ext in
  TypeChecker2.visit_AstExprConstantNil ext module expr s
    = asserted (TypeChecker2.nilType b)
  /\ TypeChecker2.visit_AstExprConstantBool ext module expr s
    = asserted (TypeChecker2.booleanType b)
  /\ TypeChecker2.visit_AstExprConstantNumber ext module expr s
    = asserted (TypeChecker2.numberType b)
  /\ TypeChecker2.visit_AstExprConstantString ext module expr s
    = asserted (TypeChecker2.stringType b).
Proof.
  intros Hs Hl asserted b.
  unfold TypeChecker2.visit_AstExprConstantNil, TypeChecker2.visit_AstExprConstantBool,
    TypeChecker2.visit_AstExprConstantNumber, TypeChecker2.visit_AstExprConstantString.
  repeat split; apply visit_AstExprConstant_spec; assumption.
Qed.

Lemma constant_asserts_subtype_witness :
  TypeChecker2.visit_AstExprConstantNumber Samples.sampleExt Samples.sampleModule
    Samples.exprNumber Samples.sampleChecker
  = TypeChecker2.Ok tt (TypeChecker2.mkChecker [] Samples.sampleMemory [7] [] {[2]} []).
Proof.
  exact (proj1 (proj2 (proj2
    (constant_asserts_subtype Samples.sampleExt Samples.sampleModule
       Samples.exprNumber Samples.sampleChecker
       (TypeChecker2.mkChecker [] Samples.sampleMemory [7] [] {[2]} [])
       7 2 eq_refl eq_refl)))).
Defined.

(** C8, counterexample.  The literal [true] whose stored type is the
    singleton [true] (not the primitive [boolean]) and a [nil] literal
    without a stored type (looked up as [any]) both pass the assertion. *)
Lemma constant_assertion_is_not_equality :
  TypeChecker2.astTypes Samples.sampleModule !! TypeChecker2.exprId Samples.exprTrue
    = Some 9
  /\ 9 <> TypeChecker2.booleanType (TypeChecker2.builtinTypes Samples.sampleExt)
  /\ Samples.outcome
       (TypeChecker2.visit_AstExprConstantBool Samples.sampleExt Samples.sampleModule
          Samples.exprTrue Samples.sampleChecker) = Some (tt, [])
  /\ Samples.outcome
       (TypeChecker2.lookupType Samples.sampleExt Samples.sampleModule
          (TypeChecker2.AstExprConstantNil 77 (Samples.at_ 9 9)) Samples.sampleChecker)
     = Some (TypeChecker2.anyType (TypeChecker2.builtinTypes Samples.sampleExt), [])
  /\ TypeChecker2.anyType (TypeChecker2.builtinTypes Samples.sampleExt)
     <> TypeChecker2.nilType (TypeChecker2.builtinTypes Samples.sampleExt)
  /\ Samples.outcome
       (TypeChecker2.visit_AstExprConstantNil Samples.sampleExt Samples.sampleModule
          (TypeChecker2.AstExprConstantNil 77 (Samples.at_ 9 9)) Samples.sampleChecker)
     = Some (tt, []).
Proof. repeat split; try reflexivity; discriminate. Qed.

Section ValidatorFacts3.
Import TypeChecker2.
Context (ext : Externals) (module : Module).
Context (visitExpr : AstExpr -> ValueContext -> TC unit).
Local Open Scope list_scope.

(** Once the operands are visited and the three types are looked up, an
    operator other than [or] whose stored type is not a type family
    instance, whose operands are not [any], [error] or [never] and whose
    left operand does not stop the inference goes on to the metamethods
    and from there, when they do not settle it, to the primitive
    operators. *)
Lemma visit_AstExprBinary_after_lookups
    self location op left right overrideKey
    s sa sb sc sd se scope leftType rightType expectedResult ne nl nr :
  op <> Or ->
  visitExpr left LValue s = Ok tt sa ->
  visitExpr right LValue sa = Ok tt sb ->
  last (stack sb) = Some scope ->
  lookupType ext module left sb = Ok leftType sc ->
  lookupType ext module right sc = Ok rightType sd ->
  lookupType ext module (AstExprBinary self location op left right) sd
    = Ok expectedResult se ->
  types (mem se) !! expectedResult = Some ne ->
  types (mem se) !! leftType = Some nl ->
  types (mem se) !! rightType = Some nr ->
  isTypeFamilyInstance (ty ne) = false ->
  isAnyErrorNever (ty nl) = false ->
  isAnyErrorNever (ty nr) = false ->
  isBlockedFreeGeneric (ty nl) && negb (isEquality op) && negb (isLogical op)
  = false ->
  visit_AstExprBinary ext module visitExpr self location op left right overrideKey s
  = bind
      (match kBinaryOpMetamethods ext op with
       | Some mmName =>
           checkMetamethods ext module self location op left right overrideKey
             mmName scope leftType rightType expectedResult
             (isString ext (mem se) leftType && isString ext (mem se) rightType)
             (isIntersectionInhabited ext (mem se) leftType rightType)
       | None => ret None
       end)
      (fun early =>
         match early with
         | Some result => ret result
         | None =>
             checkPrimitiveOperator ext module location op left right scope
               leftType rightType
         end) se.
Proof.
  intros Hop H1 H2 Hs H3 H4 H5 Hne Hnl Hnr Hfam Hl Hr Hbfg.
  unfold visit_AstExprBinary.
  rewrite (tc_bind_Ok _ _ _ _ _ H1), (tc_bind_Ok _ _ _ _ _ H2).
  rewrite (tc_bind_Ok _ _ _ _ _ (stackBack_Ok _ _ Hs)).
  rewrite (tc_bind_Ok _ _ _ _ _ H3), (tc_bind_Ok _ _ _ _ _ H4),
    (tc_bind_Ok _ _ _ _ _ H5).
  rewrite (tc_bind_Ok _ _ _ _ _ (get_Ok _ _ _ Hne)). rewrite Hfam.
  rewrite bool_decide_eq_false_2 by exact Hop.
  unfold bind at 1, ret at 1. unfold bind at 1, getMem at 1.
  rewrite (tc_bind_Ok _ _ _ _ _ (get_Ok _ _ _ Hnl)).
  rewrite (tc_bind_Ok _ _ _ _ _ (get_Ok _ _ _ Hnr)).
  rewrite Hl, Hr, Hbfg. reflexivity.
Qed.

(** With the enumerators in the order of their declaration, [==], [<],
    [<=], [>] and [>=] are what the validator takes for comparisons;
    [~=] is not. *)
Lemma isComparison_declared op :
  declaredInOrder ext ->
  op = CompareEq \/ op = CompareLt \/ op = CompareLe
  \/ op = CompareGt \/ op = CompareGe ->
  isComparison ext op = true.
Proof.
  unfold declaredInOrder, isComparison. intros H Hop.
  apply andb_true_iff. rewrite !Z.leb_le.
  destruct Hop as [-> | [-> | [-> | [-> | ->]]]]; lia.
Qed.

Lemma isComparison_CompareNe :
  declaredInOrder ext -> isComparison ext CompareNe = false.
Proof.
  unfold declaredInOrder, isComparison. intros H.
  apply andb_false_iff. left. apply Z.leb_gt. lia.
Qed.

Lemma withErrors_app es1 es2 s :
  withErrors es2 (withErrors es1 s) = withErrors (es1 ++ es2) s.
Proof. unfold withErrors. cbn. now rewrite app_assoc. Qed.

Lemma withErrors_nil s : withErrors [] s = s.
Proof. destruct s. unfold withErrors. cbn. now rewrite app_nil_r. Qed.

(** What [checkMetamethods] first decides is [metatablesMatch]. *)
Lemma checkMetamethods_refused self location op left right overrideKey mmName
    scope leftType rightType expectedResult isStringOperation
    typesHaveIntersection s nl nr :
  types (mem s) !! leftType = Some nl ->
  types (mem s) !! rightType = Some nr ->
  metatablesMatch ext (mem s) op (ty nl) (ty nr) leftType rightType
    typesHaveIntersection = false ->
  isComparison ext op = true ->
  checkMetamethods ext module self location op left right overrideKey mmName
    scope leftType rightType expectedResult isStringOperation
    typesHaveIntersection s
  = Ok (Some (errorRecoveryType (builtinTypes ext)))
      (withErrors
         [mkTypeError location (name module)
            (GenericError (concat_strings
               ["Types "; toString_type ext (mem s) leftType; " and ";
                toString_type ext (mem s) rightType; " cannot be compared with ";
                toString_op ext op;
                " because they do not have the same metatable"]))] s).
Proof.
  intros Hnl Hnr Hm Hc. unfold checkMetamethods.
  unfold bind at 1, getMem at 1.
  rewrite (tc_bind_Ok _ _ _ _ _ (get_Ok _ _ _ Hnl)).
  rewrite (tc_bind_Ok _ _ _ _ _ (get_Ok _ _ _ Hnr)).
  unfold metatablesMatch in Hm. cbv zeta in Hm |- *. rewrite Hm, Hc. cbn [negb andb].
  unfold bind. rewrite reportError_plain by (intros; discriminate). reflexivity.
Qed.

(** With matching metatables, [checkMetamethods] looks for the
    metamethod on the left operand and then on the right one. *)
Lemma checkMetamethods_lookup self location op left right overrideKey mmName
    scope leftType rightType expectedResult isStringOperation
    typesHaveIntersection s nl nr leftMm leftErrs rightMm rightErrs :
  types (mem s) !! leftType = Some nl ->
  types (mem s) !! rightType = Some nr ->
  metatablesMatch ext (mem s) op (ty nl) (ty nr) leftType rightType
    typesHaveIntersection = true ->
  findMetatableEntry ext (mem s) leftType mmName (exprLocation left)
    = (leftMm, leftErrs) ->
  findMetatableEntry ext (mem s) rightType mmName (exprLocation right)
    = (rightMm, rightErrs) ->
  checkMetamethods ext module self location op left right overrideKey mmName
    scope leftType rightType expectedResult isStringOperation
    typesHaveIntersection s
  = let key := match overrideKey with Some k => k | None => self end in
    match leftMm, rightMm with
    | Some mm, _ =>
        bind (checkMetamethodCall ext module location op mmName key scope mm
                leftType rightType expectedResult)
          (fun r => ret (Some r)) (withErrors leftErrs s)
    | None, Some mm =>
        bind (checkMetamethodCall ext module location op mmName key scope mm
                rightType leftType expectedResult)
          (fun r => ret (Some r)) (withErrors (leftErrs ++ rightErrs) s)
    | None, None =>
        let m := mem s in
        let leftMt := getMetatable ext m leftType in
        let rightMt := getMetatable ext m rightType in
        let s' := withErrors (leftErrs ++ rightErrs) s in
        if negb (isEquality op)
           && negb (isStringOperation
                    && (bool_decide (op = Concat) || isComparison ext op))
        then
          if (bool_decide (leftMt <> None) && negb (isString ext m leftType))
             || (bool_decide (rightMt <> None) && negb (isString ext m rightType))
          then
            bind
              (if isComparison ext op then
                 reportError ext module
                   (GenericError (concat_strings
                      ["Types '"; toString_type ext m leftType; "' and '";
                       toString_type ext m rightType; "' cannot be compared with ";
                       toString_op ext op;
                       " because neither type's metatable has a '"; mmName;
                       "' metamethod"]))
                   location
               else
                 reportError ext module
                   (GenericError (concat_strings
                      ["Operator "; toString_op ext op; " is not applicable for '";
                       toString_type ext m leftType; "' and '";
                       toString_type ext m rightType;
                       "' because neither type's metatable has a '"; mmName;
                       "' metamethod"]))
                   location)
              (fun _ => ret (Some (errorRecoveryType (builtinTypes ext)))) s'
          else if bool_decide (leftMt = None) && bool_decide (rightMt = None)
                  && (isTableType (ty nl) || isTableType (ty nr))
          then
            bind
              (if isComparison ext op then
                 reportError ext module
                   (GenericError (concat_strings
                      ["Types '"; toString_type ext m leftType; "' and '";
                       toString_type ext m rightType; "' cannot be compared with ";
                       toString_op ext op; " because neither type has a metatable"]))
                   location
               else
                 reportError ext module
                   (GenericError (concat_strings
                      ["Operator "; toString_op ext op; " is not applicable for '";
                       toString_type ext m leftType; "' and '";
                       toString_type ext m rightType;
                       "' because neither type has a metatable"]))
                   location)
              (fun _ => ret (Some (errorRecoveryType (builtinTypes ext)))) s'
          else Ok None s'
        else Ok None s'
    end.
Proof.
  intros Hnl Hnr Hm Hl Hr. unfold checkMetamethods.
  unfold bind at 1, getMem at 1.
  rewrite (tc_bind_Ok _ _ _ _ _ (get_Ok _ _ _ Hnl)).
  rewrite (tc_bind_Ok _ _ _ _ _ (get_Ok _ _ _ Hnr)).
  unfold metatablesMatch in Hm. cbv zeta in Hm |- *. rewrite Hm. cbn [negb andb].
  rewrite Hl. unfold bind at 1, pushErrors at 1.
  destruct leftMm as [mm|].
  - unfold bind at 1, ret at 1. reflexivity.
  - rewrite Hr. unfold bind at 1. unfold bind at 1, pushErrors at 1.
    rewrite withErrors_app.
    destruct rightMm as [mm|]; unfold ret at 1.
    + reflexivity.
    + assert (Hmem : mem (withErrors (leftErrs ++ rightErrs) s) = mem s)
        by reflexivity.
      repeat match goal with
             | |- context [if ?b then _ else _] => destruct b
             end; reflexivity.
Qed.

(** The function type that a comparison metamethod is unified with,
    where it is put, and what the call comes to. *)
Lemma checkMetamethodCall_comparison location op mmName key scope
    mm leftType rightType expectedResult instantiatedMm node ftv rets s :
  isComparison ext op = true ->
  expectsBooleanResult op = true ->
  astOverloadResolvedTypes module !! key = Some instantiatedMm ->
  types (mem s) !! follow ext (mem s) instantiatedMm = Some node ->
  ty node = FunctionTypeV ftv ->
  retTypes ftv = Some rets ->
  let b := builtinTypes ext in
  let m := mem s in
  let args := length (typePacks m) in
  let fn := length (types m) in
  let m2 :=
    mkMemory
      (types m ++ [mkType (FunctionTypeV (FunctionType_of args (S args)))
                     false None (Some testArena)])
      (typePacks m
       ++ [mkTypePackVar (TypePack (expectedArgTypes op leftType rightType) None)
             false (Some testArena);
           mkTypePackVar (TypePack [booleanType b] None)
             false (Some testArena)]) in
  let mustReturnBoolean :=
    mkTypeError location (name module)
      (GenericError (concat_strings
         ["Metamethod '"; mmName; "' must return a boolean"])) in
  checkMetamethodCall ext module location op mmName key scope mm
    leftType rightType expectedResult s
  = bind
      (reportErrors ext module
         (fst (unify ext m2 scope location false (follow ext m2 mm) fn)))
      (fun _ s2 =>
         match first ext (mem s2) rets with
         | Some r =>
             Ok (booleanType b)
               (if isBoolean ext (mem s2) (follow ext (mem s2) r)
                then s2 else withErrors [mustReturnBoolean] s2)
         | None =>
             Ok (errorRecoveryType b) (withErrors [mustReturnBoolean] s2)
         end)
      (mkChecker (errors s) m2 (stack s) (functionDeclStack s)
         (noTypeFamilyErrors s) (printed s)).
Proof.
  intros Hcmp Hbool Hres Hnode Hty Hrets b m args fn m2 mustReturnBoolean.
  unfold checkMetamethodCall. rewrite Hres.
  unfold bind at 1, getMem at 1.
  rewrite (tc_bind_Ok _ _ _ _ _ (get_Ok _ _ _ Hnode)). rewrite Hty.
  unfold bind at 1.
  assert (Hsyn : synthesizeExpectedTy ext op scope leftType rightType s
                 = Ok fn (mkChecker (errors s) m2 (stack s) (functionDeclStack s)
                            (noTypeFamilyErrors s) (printed s))).
  { unfold synthesizeExpectedTy, bind, addTypePack, addType, ret.
    rewrite Hbool. cbn. unfold m2, args, fn, m. cbn.
    rewrite length_app. cbn. rewrite Nat.add_1_r.
    rewrite <- app_assoc. reflexivity. }
  rewrite Hsyn.
  unfold bind at 1, getMem at 1. unfold bind at 1. unfold tryUnify at 1.
  unfold bind at 1, getMem at 1, ret at 1. cbn [mem].
  match goal with
  | |- _ = bind (reportErrors ext module ?es) _ ?st =>
      destruct (reportErrors ext module es st) as [[] s2|e] eqn:Hrun
  end.
  2: { unfold bind. now rewrite Hrun. }
  rewrite !(tc_bind_Ok _ _ _ _ _ Hrun).
  unfold bind at 1, getMem at 1.
  rewrite Hrets, Hcmp.
  destruct (first ext (mem s2) rets) as [r|].
  - destruct (isBoolean ext (mem s2) (follow ext (mem s2) r)).
    + reflexivity.
    + unfold bind. rewrite reportError_plain by (intros; discriminate).
      reflexivity.
  - unfold bind. rewrite reportError_plain by (intros; discriminate).
    reflexivity.
Qed.

(** The relational operators at the primitive stage. *)
Lemma checkPrimitiveOperator_relational location op left right scope
    leftType rightType s :
  op = CompareLt \/ op = CompareLe \/ op = CompareGt \/ op = CompareGe ->
  checkPrimitiveOperator ext module location op left right scope
    leftType rightType s
  = let m := mem s in
    let b := builtinTypes ext in
    let unifyRight (primitive : TypeId) : Result TypeId :=
      bind
        (reportErrors ext module
           (fst (unify ext m scope (exprLocation right) false rightType primitive)))
        (fun _ => ret primitive) s in
    let refuse : Result TypeId :=
      Ok (errorRecoveryType b)
        (withErrors
           [mkTypeError location (name module)
              (cannotBeCompared ext m op leftType rightType)] s) in
    match normalize ext m leftType with
    | Some norm =>
        if isExactlyNumber norm then unifyRight (numberType b)
        else if isSubtypeOfString norm then unifyRight (stringType b)
             else refuse
    | None => refuse
    end.
Proof.
  intros Hop. cbv zeta.
  assert (Hrefuse :
    bind
      (reportError ext module
         (cannotBeCompared ext (mem s) op leftType rightType) location)
      (fun _ => ret (errorRecoveryType (builtinTypes ext))) s
    = Ok (errorRecoveryType (builtinTypes ext))
        (withErrors
           [mkTypeError location (name module)
              (cannotBeCompared ext (mem s) op leftType rightType)] s)).
  { unfold bind. rewrite reportError_plain by (intros; discriminate).
    reflexivity. }
  destruct Hop as [-> | [-> | [-> | ->]]];
    unfold checkPrimitiveOperator;
    unfold bind at 1, getMem at 1;
    (destruct (normalize ext (mem s) leftType) as [norm|]; [|exact Hrefuse]);
    (destruct (isExactlyNumber norm); [reflexivity|]);
    (destruct (isSubtypeOfString norm); [reflexivity|]);
    exact Hrefuse.
Qed.

End ValidatorFacts3.




(** C7 (as amended). A comparison [==], [<], [<=], [>] or [>=] that
    resolves to a metamethod: once the operands are visited and the
    types are looked up (the stored type of the comparison is not a type
    family instance, no operand is [any], [error] or [never], and for
    the relational operators the left operand is not blocked, free or
    generic), the metatables of the operands match, the metamethod that
    [kBinaryOpMetamethods] names for the operator is found on the left
    operand or else on the right one, and the overload recorded for the
    comparison is a function.  Then a function type is put into the
    memory whose arguments are the operand that carries the metamethod
    and the other one, in this order, and for [>] and [>=] in the
    opposite order, and whose result is [boolean]; the metamethod is
    unified with it and the errors of that are reported.  After that,
    when the recorded function has a first return type, the result of
    the comparison is [boolean], and one [GenericError] saying that the
    metamethod must return a boolean is added at the location of the
    comparison exactly when that return type is not boolean; when it
    returns no value, the same error is added and the result is the
    error recovery type. *)
Theorem metamethod_comparison_contract
    (ext : TypeChecker2.Externals) (module : TypeChecker2.Module)
    (visitExpr : TypeChecker2.AstExpr -> TypeChecker2.ValueContext -> TypeChecker2.TC unit)
    (self : TypeChecker2.AstId) (location : Location) (op : TypeChecker2.Op)
    (left right : TypeChecker2.AstExpr) (overrideKey : option TypeChecker2.AstId)
    (s sa sb sc sd se : TypeChecker2.Checker) (scope : ScopeId)
    (leftType rightType expectedResult : TypeId) (ne nl nr : Type_)
    (mmName : string) (mm carrier other : TypeId)
    (searched : TypeChecker2.ErrorVec)
    (instantiatedMm : TypeId) (node : Type_) (ftv : FunctionType)
    (rets : TypePackId) :
  op = TypeChecker2.CompareEq \/ op = TypeChecker2.CompareLt
  \/ op = TypeChecker2.CompareLe \/ op = TypeChecker2.CompareGt
  \/ op = TypeChecker2.CompareGe ->
  TypeChecker2.declaredInOrder ext ->
  visitExpr left TypeChecker2.LValue s = TypeChecker2.Ok tt sa ->
  visitExpr right TypeChecker2.LValue sa = TypeChecker2.Ok tt sb ->
  last (TypeChecker2.stack sb) = Some scope ->
  TypeChecker2.lookupType ext module left sb = TypeChecker2.Ok leftType sc ->
  TypeChecker2.lookupType ext module right sc = TypeChecker2.Ok rightType sd ->
  TypeChecker2.lookupType ext module
    (TypeChecker2.AstExprBinary self location op left right) sd
    = TypeChecker2.Ok expectedResult se ->
  let m := TypeChecker2.mem se in
  types m !! expectedResult = Some ne ->
  types m !! leftType = Some nl ->
  types m !! rightType = Some nr ->
  TypeChecker2.isTypeFamilyInstance (ty ne) = false ->
  TypeChecker2.isAnyErrorNever (ty nl) = false ->
  TypeChecker2.isAnyErrorNever (ty nr) = false ->
  op = TypeChecker2.CompareEq \/ TypeChecker2.isBlockedFreeGeneric (ty nl) = false ->
  TypeChecker2.kBinaryOpMetamethods ext op = Some mmName ->
  TypeChecker2.metatablesMatch ext m op (ty nl) (ty nr) leftType rightType
    (TypeChecker2.isIntersectionInhabited ext m leftType rightType) = true ->
  let onLeft :=
    TypeChecker2.findMetatableEntry ext m leftType mmName
      (TypeChecker2.exprLocation left) in
  let onRight :=
    TypeChecker2.findMetatableEntry ext m rightType mmName
      (TypeChecker2.exprLocation right) in
  (fst onLeft = Some mm /\ carrier = leftType /\ other = rightType
   /\ searched = snd onLeft)
  \/ (fst onLeft = None /\ fst onRight = Some mm
      /\ carrier = rightType /\ other = leftType
      /\ searched = (snd onLeft ++ snd onRight)%list) ->
  TypeChecker2.astOverloadResolvedTypes module
    !! (match overrideKey with Some k => k | None => self end)
  = Some instantiatedMm ->
  types m !! TypeChecker2.follow ext m instantiatedMm = Some node ->
  ty node = FunctionTypeV ftv ->
  retTypes ftv = Some rets ->
  let b := TypeChecker2.builtinTypes ext in
  let args := length (typePacks m) in
  let fn := length (types m) in
  let swapped :=
    bool_decide (op = TypeChecker2.CompareGe)
    || bool_decide (op = TypeChecker2.CompareGt) in
  let m2 :=
    mkMemory
      (types m
       ++ [mkType (FunctionTypeV (TypeChecker2.FunctionType_of args (S args)))
             false None (Some TypeChecker2.testArena)])
      (typePacks m
       ++ [mkTypePackVar
             (TypePack (if swapped then [other; carrier] else [carrier; other]) None)
             false (Some TypeChecker2.testArena);
           mkTypePackVar (TypePack [TypeChecker2.booleanType b] None)
             false (Some TypeChecker2.testArena)]) in
  let s1 :=
    TypeChecker2.mkChecker (TypeChecker2.errors se ++ searched)%list m2
      (TypeChecker2.stack se) (TypeChecker2.functionDeclStack se)
      (TypeChecker2.noTypeFamilyErrors se) (TypeChecker2.printed se) in
  let mustReturnBoolean :=
    TypeChecker2.mkTypeError location (TypeChecker2.name module)
      (TypeChecker2.GenericError
         (TypeChecker2.concat_strings
            ["Metamethod '"; mmName; "' must return a boolean"])) in
  TypeChecker2.visit_AstExprBinary ext module visitExpr self location op
    left right overrideKey s
  = TypeChecker2.bind
      (TypeChecker2.reportErrors ext module
         (fst (TypeChecker2.unify ext m2 scope location false
                 (TypeChecker2.follow ext m2 mm) fn)))
      (fun _ s2 =>
         match TypeChecker2.first ext (TypeChecker2.mem s2) rets with
         | Some r =>
             TypeChecker2.Ok (TypeChecker2.booleanType b)
               (if TypeChecker2.isBoolean ext (TypeChecker2.mem s2)
                     (TypeChecker2.follow ext (TypeChecker2.mem s2) r)
                then s2
                else TypeChecker2.withErrors [mustReturnBoolean] s2)
         | None =>
             TypeChecker2.Ok (TypeChecker2.errorRecoveryType b)
               (TypeChecker2.withErrors [mustReturnBoolean] s2)
         end) s1.
Proof.
  intros Hop Hord H1 H2 Hs H3 H4 H5 m Hne Hnl Hnr Hfam Hl Hr Hbfg Hmm Hmatch
    onLeft onRight Hfound Hres Hnode Hty Hrets b args fn swapped m2 s1
    mustReturnBoolean.
  assert (Hnor : op <> TypeChecker2.Or)
    by (destruct Hop as [-> | [-> | [-> | [-> | ->]]]]; discriminate).
  assert (Hcmp : TypeChecker2.isComparison ext op = true)
    by (apply isComparison_declared; assumption).
  assert (Hbool : TypeChecker2.expectsBooleanResult op = true)
    by (destruct Hop as [-> | [-> | [-> | [-> | ->]]]]; reflexivity).
  rewrite (visit_AstExprBinary_after_lookups ext module visitExpr self location op
             left right overrideKey s sa sb sc sd se scope leftType rightType
             expectedResult ne nl nr Hnor H1 H2 Hs H3 H4 H5 Hne Hnl Hnr Hfam Hl Hr).
  2: { destruct Hbfg as [-> | ->]; [|reflexivity].
       now destruct (TypeChecker2.isBlockedFreeGeneric (ty nl)). }
  rewrite Hmm. unfold TypeChecker2.bind at 1.
  fold m.
  destruct onLeft as [leftMm leftErrs] eqn:HonL.
  destruct onRight as [rightMm rightErrs] eqn:HonR.
  rewrite (checkMetamethods_lookup ext module self location op left right
             overrideKey mmName scope leftType rightType expectedResult _ _ se
             nl nr leftMm leftErrs rightMm rightErrs Hnl Hnr Hmatch HonL HonR).
  cbv zeta. cbn [fst snd] in Hfound.
  assert (Hcall : forall first_ second es,
    carrier = first_ -> other = second -> searched = es ->
    TypeChecker2.bind
      (TypeChecker2.bind
         (TypeChecker2.checkMetamethodCall ext module location op mmName
            (match overrideKey with Some k => k | None => self end)
            scope mm first_ second expectedResult)
         (fun r => TypeChecker2.ret (Some r)))
      (fun early =>
         match early with
         | Some result => TypeChecker2.ret result
         | None =>
             TypeChecker2.checkPrimitiveOperator ext module location op left right
               scope leftType rightType
         end) (TypeChecker2.withErrors es se)
    = TypeChecker2.bind
        (TypeChecker2.reportErrors ext module
           (fst (TypeChecker2.unify ext m2 scope location false
                   (TypeChecker2.follow ext m2 mm) fn)))
        (fun _ s2 =>
           match TypeChecker2.first ext (TypeChecker2.mem s2) rets with
           | Some r =>
               TypeChecker2.Ok (TypeChecker2.booleanType b)
                 (if TypeChecker2.isBoolean ext (TypeChecker2.mem s2)
                       (TypeChecker2.follow ext (TypeChecker2.mem s2) r)
                  then s2
                  else TypeChecker2.withErrors [mustReturnBoolean] s2)
           | None =>
               TypeChecker2.Ok (TypeChecker2.errorRecoveryType b)
                 (TypeChecker2.withErrors [mustReturnBoolean] s2)
           end) s1).
  { intros first_ second es <- <- <-.
    unfold TypeChecker2.bind at 1. unfold TypeChecker2.bind at 1.
    rewrite (checkMetamethodCall_comparison ext module location op mmName _ scope
               mm carrier other expectedResult instantiatedMm node ftv rets
               (TypeChecker2.withErrors searched se) Hcmp Hbool Hres Hnode Hty Hrets).
    cbv zeta. unfold TypeChecker2.expectedArgTypes. fold swapped.
    change (TypeChecker2.mem (TypeChecker2.withErrors searched se)) with m.
    fold args fn b. fold m2.
    change (TypeChecker2.mkChecker
              (TypeChecker2.errors (TypeChecker2.withErrors searched se)) m2
              (TypeChecker2.stack (TypeChecker2.withErrors searched se))
              (TypeChecker2.functionDeclStack (TypeChecker2.withErrors searched se))
              (TypeChecker2.noTypeFamilyErrors (TypeChecker2.withErrors searched se))
              (TypeChecker2.printed (TypeChecker2.withErrors searched se)))
      with s1.
    unfold TypeChecker2.bind.
    destruct (TypeChecker2.reportErrors ext module _ s1) as [[] s2|e];
      [|reflexivity].
    destruct (TypeChecker2.first ext (TypeChecker2.mem s2) rets); reflexivity. }
  destruct Hfound as [(-> & Hc & Ho & Hse) | (-> & -> & Hc & Ho & Hse)].
  - now apply Hcall.
  - now apply Hcall.
Qed.

Lemma metamethod_comparison_contract_witness :
  Samples.outcome
    (TypeChecker2.visit_AstExprBinary Samples.sampleExt Samples.comparableModule
       Samples.noVisit 42 (Samples.at_ 4 3) TypeChecker2.CompareGt
       Samples.exprP Samples.exprQ None Samples.comparableChecker)
  = Some (1, [TypeChecker2.mkTypeError (Samples.at_ 4 3) "main"
                (TypeChecker2.OtherError 0)]).
Proof.
  rewrite (metamethod_comparison_contract Samples.sampleExt Samples.comparableModule
             Samples.noVisit 42 (Samples.at_ 4 3) TypeChecker2.CompareGt
             Samples.exprP Samples.exprQ None
             Samples.comparableChecker Samples.comparableChecker
             Samples.comparableChecker
             (TypeChecker2.mkChecker [] Samples.comparableMemory [7] [] {[17]} [])
             (TypeChecker2.mkChecker [] Samples.comparableMemory [7] [] {[17]} [])
             (TypeChecker2.mkChecker [] Samples.comparableMemory [7] [] {[1; 17]} [])
             7 17 17 1
             (Samples.builtin (PrimitiveType Boolean))
             (mkType (MetatableType (Some 10) (Some 14)) false None (Some 1))
             (mkType (MetatableType (Some 10) (Some 14)) false None (Some 1))
             "__le" 15 17 17 [] 15
             (mkType (FunctionTypeV (TypeChecker2.FunctionType_of 5 3)) false None (Some 1))
             (TypeChecker2.FunctionType_of 5 3) 3
             (or_intror (or_intror (or_intror (or_introl eq_refl))))).
  - reflexivity.
  - vm_compute. repeat split.
  - reflexivity.
  - reflexivity.
  - reflexivity.
  - reflexivity.
  - reflexivity.
  - reflexivity.
  - reflexivity.
  - reflexivity.
  - reflexivity.
  - reflexivity.
  - reflexivity.
  - reflexivity.
  - right. reflexivity.
  - reflexivity.
  - reflexivity.
  - left. repeat split.
  - reflexivity.
  - reflexivity.
  - reflexivity.
  - reflexivity.
Defined.

(** C7, counterexample.  [x < y] where both operands have the metatable
    whose [__lt] is a function without return values: the comparison is
    resolved to the metamethod, and its result is the error recovery type
    and not [boolean].  And [p ~= q] where both operands have the
    metatable whose [__eq] is a function that returns a number: the
    comparison is resolved to the metamethod, its result is [number], and
    nothing is said about the return type of the metamethod. *)
Lemma metamethod_without_result_is_not_boolean :
  fst (TypeChecker2.findMetatableEntry Samples.sampleExt Samples.sampleMemory 13
         "__lt" (Samples.at_ 2 1)) = Some 12
  /\ TypeChecker2.astOverloadResolvedTypes Samples.sampleModule !! 24 = Some 12
  /\ (fst <$> Samples.outcome
        (TypeChecker2.visit_AstExprBinary Samples.sampleExt Samples.sampleModule
           Samples.noVisit 24 (Samples.at_ 2 3) TypeChecker2.CompareLt
           Samples.exprObjA Samples.exprObjB None Samples.sampleChecker))
     = Some (TypeChecker2.errorRecoveryType
               (TypeChecker2.builtinTypes Samples.sampleExt))
  /\ TypeChecker2.errorRecoveryType (TypeChecker2.builtinTypes Samples.sampleExt)
     <> TypeChecker2.booleanType (TypeChecker2.builtinTypes Samples.sampleExt)
  /\ TypeChecker2.declaredInOrder Samples.sampleExt
  /\ fst (TypeChecker2.findMetatableEntry Samples.sampleExt Samples.comparableMemory
            17 "__eq" (Samples.at_ 4 1)) = Some 16
  /\ TypeChecker2.astOverloadResolvedTypes Samples.comparableModule !! 43 = Some 16
  /\ Samples.outcome
       (TypeChecker2.visit_AstExprBinary Samples.sampleExt Samples.comparableModule
          Samples.noVisit 43 (Samples.at_ 4 3) TypeChecker2.CompareNe
          Samples.exprP Samples.exprQ None Samples.comparableChecker)
     = Some (TypeChecker2.numberType (TypeChecker2.builtinTypes Samples.sampleExt),
             [TypeChecker2.mkTypeError (Samples.at_ 4 3) "main"
                (TypeChecker2.OtherError 0)]).
Proof.
  repeat split; try reflexivity; try discriminate; vm_compute; congruence.
Qed.

Section SuggestionFacts.
Import TypeChecker2 Diagnostics.
Context (ext : Externals).
Local Open Scope list_scope.

Lemma accumulate_nearMisses key ps candidates :
  accumulate key ps candidates = candidates ∪ nearMisses key (dom ps).
Proof. reflexivity. Qed.

Lemma elem_of_nearMisses key names n :
  n ∈ nearMisses key names <-> nearMiss key n /\ n ∈ names.
Proof. unfold nearMisses. now rewrite elem_of_filter. Qed.

(** A class has one line of ancestors. *)
Lemma ancestry_functional m ctv chain1 chain2 :
  ancestry m ctv chain1 -> ancestry m ctv chain2 -> chain1 = chain2.
Proof.
  intros H. revert chain2.
  induction H as [ctv Hp | ctv p node ctv' chain Hp Hn Hc H IH]; intros chain2 H2.
  - inversion H2; subst; [reflexivity | congruence].
  - inversion H2 as [? Hp2 | ? p2 node2 ctv2 chain' Hp2 Hn2 Hc2 H2']; subst;
      [congruence|].
    rewrite Hp in Hp2. injection Hp2 as <-.
    rewrite Hn in Hn2. injection Hn2 as <-.
    rewrite Hc in Hc2. injection Hc2 as <-.
    f_equal. now apply IH.
Qed.

(** The addresses that the walk goes through are different from one
    another, and each of them holds a class whose own line of ancestors
    is shorter. *)
Lemma ancestry_addresses m ctv chain :
  ancestry m ctv chain ->
  exists ps : list TypeId,
    length chain = S (length ps)
    /\ NoDup ps
    /\ Forall (fun q =>
         exists node c suffix,
           types m !! q = Some node /\ TypeGraph.ty node = ClassTypeV c
           /\ ancestry m c suffix /\ length suffix < length chain) ps.
Proof.
  induction 1 as [ctv Hp | ctv p node ctv' chain Hp Hn Hc H (ps & Hlen & Hnd & Hall)].
  - exists []. split; [reflexivity|]. split; constructor.
  - exists (p :: ps). split; [cbn; now rewrite Hlen|]. split.
    + constructor; [|exact Hnd]. intros Hin.
      rewrite Forall_forall in Hall.
      destruct (Hall _ Hin) as (node' & c & suffix & Hn' & Hc' & Ha & Hlt).
      rewrite Hn in Hn'. injection Hn' as <-.
      rewrite Hc in Hc'. injection Hc' as <-.
      rewrite (ancestry_functional _ _ _ _ Ha H) in Hlt. lia.
    + constructor.
      * exists node, ctv', chain. cbn. repeat split; auto; lia.
      * eapply Forall_impl; [exact Hall|]. cbn.
        intros q (node' & c & suffix & ? & ? & ? & ?).
        exists node', c, suffix. repeat split; auto.
Qed.

(** So the walk is over after at most as many steps as the memory has
    nodes. *)
Lemma ancestry_length m ctv chain :
  ancestry m ctv chain -> length chain <= S (length (types m)).
Proof.
  intros H. destruct (ancestry_addresses _ _ _ H) as (ps & Hlen & Hnd & Hall).
  rewrite Hlen. apply le_n_S.
  transitivity (length (seq 0 (length (types m)))); [|now rewrite length_seq].
  apply submseteq_length, NoDup_submseteq; [exact Hnd|].
  intros q Hq. rewrite Forall_forall in Hall.
  destruct (Hall _ Hq) as (node & _ & _ & Hn & _).
  apply elem_of_seq. apply lookup_lt_Some in Hn. lia.
Qed.

Lemma classCandidates_ancestry fuel m key ctv chain candidates :
  ancestry m ctv chain ->
  length chain <= fuel ->
  classCandidates fuel m key ctv candidates
  = inr (fold_left (fun c cls => accumulate key (ct_props cls) c) chain candidates).
Proof.
  intros H. revert fuel candidates.
  induction H as [ctv Hp | ctv p node ctv' chain Hp Hn Hc H IH];
    intros fuel candidates Hf; (destruct fuel as [|fuel]; [cbn in Hf; lia|]); cbn.
  - now rewrite Hp.
  - rewrite Hp, Hn, Hc. apply IH. cbn in Hf. lia.
Qed.

Lemma elem_of_candidates key chain candidates n :
  n ∈ fold_left (fun c cls => accumulate key (ct_props cls) c) chain candidates
  <-> n ∈ candidates
      \/ (nearMiss key n /\ exists cls, cls ∈ chain /\ n ∈ dom (ct_props cls)).
Proof.
  revert candidates. induction chain as [|c chain IH]; intros candidates; cbn.
  - split; [auto|]. intros [H | (_ & cls & Hin & _)]; [exact H|].
    now apply elem_of_nil in Hin.
  - rewrite IH, accumulate_nearMisses, elem_of_union, elem_of_nearMisses.
    split.
    + intros [[H | [H1 H2]] | (H1 & cls & Hin & H2)]; [now left | right..].
      * split; [exact H1|]. exists c. split; [apply list_elem_of_here | exact H2].
      * split; [exact H1|]. exists cls.
        split; [now apply list_elem_of_further | exact H2].
    + intros [H | (H1 & cls & Hin & H2)]; [now left; left|].
      apply elem_of_cons in Hin as [-> | Hin]; [left; right; auto|].
      right. split; [exact H1|]. now exists cls.
Qed.

Lemma candidates_nearMisses key chain :
  fold_left (fun c cls => accumulate key (ct_props cls) c) chain ∅
  = nearMisses key (propertyNames chain).
Proof.
  apply set_eq. intros n.
  rewrite elem_of_candidates, elem_of_nearMisses. unfold propertyNames.
  rewrite elem_of_union_list. split.
  - intros [H | (H1 & cls & Hin & H2)]; [now apply elem_of_empty in H|].
    split; [exact H1|]. exists (dom (ct_props cls)). split; [|exact H2].
    apply list_elem_of_fmap. now exists cls.
  - intros (H1 & X & HX & H2). right. split; [exact H1|].
    apply list_elem_of_fmap in HX as (cls & -> & Hin). now exists cls.
Qed.

(** [diagnoseMissingTableKey] on a table. *)
Lemma diagnoseMissingTableKey_table table key data s ttv :
  getTableType ext (mem s) table = Some ttv ->
  diagnoseMissingTableKey ext table key data s
  = Ok (suggestion table key data (nearMisses key (dom (props ttv)))) s.
Proof.
  intros H. unfold diagnoseMissingTableKey. rewrite H.
  rewrite accumulate_nearMisses, (left_id_L ∅ (∪)). cbn zeta.
  unfold suggestion. now destruct (decide _).
Qed.

(** [diagnoseMissingTableKey] on a class with a line of ancestors. *)
Lemma diagnoseMissingTableKey_class table key data s node ctv chain :
  getTableType ext (mem s) table = None ->
  types (mem s) !! follow ext (mem s) table = Some node ->
  TypeGraph.ty node = ClassTypeV ctv ->
  ancestry (mem s) ctv chain ->
  diagnoseMissingTableKey ext table key data s
  = Ok (suggestion table key data (nearMisses key (propertyNames chain))) s.
Proof.
  intros Ht Hn Hc Ha. unfold diagnoseMissingTableKey. rewrite Ht, Hn, Hc.
  rewrite (classCandidates_ancestry _ _ _ _ _ _ Ha (ancestry_length _ _ _ Ha)).
  rewrite candidates_nearMisses.
  cbn zeta. unfold suggestion. now destruct (decide _).
Qed.

(** [diagnoseMissingTableKey] on what is neither a table nor a class. *)
Lemma diagnoseMissingTableKey_other table key data s node :
  getTableType ext (mem s) table = None ->
  types (mem s) !! follow ext (mem s) table = Some node ->
  isClassType (TypeGraph.ty node) = false ->
  diagnoseMissingTableKey ext table key data s = Ok data s.
Proof.
  intros Ht Hn Hc. unfold diagnoseMissingTableKey. rewrite Ht, Hn.
  destruct (TypeGraph.ty node); try discriminate; reflexivity.
Qed.

End SuggestionFacts.

Section ValidatorFacts4.
Import TypeChecker2 Diagnostics PropertyLookup.
Context (ext : Externals) (module : Module).
Context (prop : Name) (location : Location) (astIndexExprType : TypeId).
Local Open Scope list_scope.

Local Abbreviation has fuel :=
  (hasIndexTypeFromType ext fuel prop location astIndexExprType).

Lemma has_seen fuel t seen s :
  t ∈ seen -> has (S fuel) t seen s = Ok (true, seen) s.
Proof. intros H. cbn. now rewrite decide_True. Qed.

Lemma has_top fuel t seen s node :
  t ∉ seen -> types (mem s) !! t = Some node ->
  isAnyErrorNever (ty node) = true ->
  has (S fuel) t seen s = Ok (true, {[t]} ∪ seen) s.
Proof.
  intros Hs Hn Ht. cbn. rewrite decide_False by exact Hs.
  rewrite (tc_bind_Ok _ _ _ _ _ (get_Ok _ _ _ Hn)). now rewrite Ht.
Qed.

Lemma has_subject fuel t seen s node subject errs :
  t ∉ seen -> types (mem s) !! t = Some node ->
  isAnyErrorNever (ty node) = false ->
  subjectOf ext location (mem s) t = Some (subject, errs) ->
  has (S fuel) t seen s
  = answer ext prop location astIndexExprType fuel (mem s) subject
      ({[t]} ∪ seen) (withErrors errs s).
Proof.
  intros Hs Hn Ht Hsub. cbn. rewrite decide_False by exact Hs.
  rewrite (tc_bind_Ok _ _ _ _ _ (get_Ok _ _ _ Hn)). rewrite Ht.
  unfold bind at 1, getMem at 1. unfold subjectOf in Hsub.
  destruct (isString ext (mem s) t).
  - destruct (findMetatableEntry ext (mem s) (stringType (builtinTypes ext))
                "__index" location) as [[mtIndex|] errs0]; [|discriminate].
    injection Hsub as <- <-. reflexivity.
  - injection Hsub as <- <-. rewrite withErrors_nil. reflexivity.
Qed.

(** The lookup answers what [carries] says, once it has fuel for the
    nesting of the unions and intersections. *)
Lemma carries_ask seen q s b seen' s' :
  carries ext prop location astIndexExprType seen q s b seen' s' ->
  exists fuel0, forall fuel, fuel0 <= fuel ->
    ask ext prop location astIndexExprType fuel q seen s = Ok (b, seen') s'.
Proof.
  induction 1 as
    [ seen t s Hin
    | seen t s node Hs Hn Ht
    | seen t s node subject errs tbl found errs' b Hs Hn Ht Hsub Htbl Hfind Hb
    | seen t s node subject errs snode cls p Hs Hn Ht Hsub Htbl Hsn Hc Hp
    | seen t s node subject errs snode cls ix Hs Hn Ht Hsub Htbl Hsn Hc Hp Hix
    | seen t s node subject errs snode cls Hs Hn Ht Hsub Htbl Hsn Hc Hp Hix
    | seen t s node subject errs snode options b seen' s' Hs Hn Ht Hsub Htbl Hsn Hc
        _ [f0 IH]
    | seen t s node subject errs snode parts b seen' s' Hs Hn Ht Hsub Htbl Hsn Hc
        _ [f0 IH]
    | seen t s node subject errs snode Hs Hn Ht Hsub Htbl Hsn Hc
    | seen s
    | seen t ts s seen1 s1 b seen' s' _ [f1 IH1] _ [f2 IH2]
    | seen t ts s seen' s' _ [f1 IH1]
    | seen s
    | seen t ts s seen' s' _ [f1 IH1]
    | seen t ts s seen1 s1 b seen' s' _ [f1 IH1] _ [f2 IH2] ].
  - exists 1. intros [|fuel] Hf; [lia|]. now apply has_seen.
  - exists 1. intros [|fuel] Hf; [lia|]. now apply (has_top _ _ _ _ node).
  - exists 1. intros [|fuel] Hf; [lia|]. cbn [ask].
    rewrite (has_subject _ _ _ _ node subject errs Hs Hn Ht Hsub).
    unfold answer. change (mem (withErrors errs s)) with (mem s) in *.
    rewrite Htbl, Hfind. unfold bind at 1, pushErrors at 1.
    destruct found as [p|]; [now subst b|].
    unfold indexerAccepts in Hb. destruct (indexer tbl) as [ix|].
    + cbv zeta in Hb.
      destruct (isPrim ext (mem s) (follow ext (mem s) (indexType ix)) String_).
      * now injection Hb as <-.
      * destruct (types (mem s) !! follow ext (mem s) (indexType ix))
          as [inode|] eqn:Hi; [|discriminate].
        injection Hb as <-.
        assert (Hi' : types (mem (withErrors errs' (withErrors errs s)))
                        !! follow ext (mem s) (indexType ix) = Some inode)
          by exact Hi.
        rewrite (tc_bind_Ok _ _ _ _ _ (get_Ok _ _ _ Hi')).
        now destruct (ty inode).
    + now injection Hb as <-.
  - exists 1. intros [|fuel] Hf; [lia|]. cbn [ask].
    rewrite (has_subject _ _ _ _ node subject errs Hs Hn Ht Hsub).
    unfold answer. rewrite Htbl.
    assert (Hsn' : types (mem (withErrors errs s)) !! subject = Some snode)
      by exact Hsn.
    rewrite (tc_bind_Ok _ _ _ _ _ (get_Ok _ _ _ Hsn')). rewrite Hc, Hp.
    reflexivity.
  - exists 1. intros [|fuel] Hf; [lia|]. cbn [ask].
    rewrite (has_subject _ _ _ _ node subject errs Hs Hn Ht Hsub).
    unfold answer. rewrite Htbl.
    assert (Hsn' : types (mem (withErrors errs s)) !! subject = Some snode)
      by exact Hsn.
    rewrite (tc_bind_Ok _ _ _ _ _ (get_Ok _ _ _ Hsn')). rewrite Hc, Hp, Hix.
    reflexivity.
  - exists 1. intros [|fuel] Hf; [lia|]. cbn [ask].
    rewrite (has_subject _ _ _ _ node subject errs Hs Hn Ht Hsub).
    unfold answer. rewrite Htbl.
    assert (Hsn' : types (mem (withErrors errs s)) !! subject = Some snode)
      by exact Hsn.
    rewrite (tc_bind_Ok _ _ _ _ _ (get_Ok _ _ _ Hsn')). rewrite Hc, Hp, Hix.
    reflexivity.
  - exists (S f0). intros [|fuel] Hf; [lia|]. cbn [ask].
    rewrite (has_subject _ _ _ _ node subject errs Hs Hn Ht Hsub).
    unfold answer. rewrite Htbl.
    assert (Hsn' : types (mem (withErrors errs s)) !! subject = Some snode)
      by exact Hsn.
    rewrite (tc_bind_Ok _ _ _ _ _ (get_Ok _ _ _ Hsn')). rewrite Hc.
    apply IH. lia.
  - exists (S f0). intros [|fuel] Hf; [lia|]. cbn [ask].
    rewrite (has_subject _ _ _ _ node subject errs Hs Hn Ht Hsub).
    unfold answer. rewrite Htbl.
    assert (Hsn' : types (mem (withErrors errs s)) !! subject = Some snode)
      by exact Hsn.
    rewrite (tc_bind_Ok _ _ _ _ _ (get_Ok _ _ _ Hsn')). rewrite Hc.
    apply IH. lia.
  - exists 1. intros [|fuel] Hf; [lia|]. cbn [ask].
    rewrite (has_subject _ _ _ _ node subject errs Hs Hn Ht Hsub).
    unfold answer. rewrite Htbl.
    assert (Hsn' : types (mem (withErrors errs s)) !! subject = Some snode)
      by exact Hsn.
    rewrite (tc_bind_Ok _ _ _ _ _ (get_Ok _ _ _ Hsn')).
    destruct (ty snode); try reflexivity; destruct Hc.
  - exists 0. intros fuel _. reflexivity.
  - exists (max f1 f2). intros fuel Hf. cbn [ask allOf].
    rewrite (tc_bind_Ok _ _ _ _ _ (IH1 fuel ltac:(lia))). cbn [fst snd].
    apply IH2. lia.
  - exists f1. intros fuel Hf. cbn [ask allOf].
    rewrite (tc_bind_Ok _ _ _ _ _ (IH1 fuel Hf)). reflexivity.
  - exists 0. intros fuel _. reflexivity.
  - exists f1. intros fuel Hf. cbn [ask anyOf].
    rewrite (tc_bind_Ok _ _ _ _ _ (IH1 fuel Hf)). reflexivity.
  - exists (max f1 f2). intros fuel Hf. cbn [ask anyOf].
    rewrite (tc_bind_Ok _ _ _ _ _ (IH1 fuel ltac:(lia))). cbn [fst snd].
    apply IH2. lia.
Qed.

Lemma tc_bind_ext {A B} (m : TC A) (k k' : A -> TC B) s :
  (forall a s', k a s' = k' a s') -> bind m k s = bind m k' s.
Proof. intros H. unfold bind. destruct (m s); auto. Qed.

Lemma tc_bind_assoc {A B C} (m : TC A) (k : A -> TC B) (k' : B -> TC C) s :
  bind (bind m k) k' s = bind m (fun a => bind (k a) k') s.
Proof. unfold bind. now destruct (m s). Qed.

Local Abbreviation scan_ fuel := (scan ext prop location astIndexExprType fuel).
Local Abbreviation fetch_ fuel := (fetch ext fuel prop location astIndexExprType).

Lemma scan_app fuel cs1 cs2 acc s :
  scan_ fuel (cs1 ++ cs2) acc s = bind (scan_ fuel cs1 acc) (scan_ fuel cs2) s.
Proof.
  revert acc s. induction cs1 as [|c cs1 IH]; intros acc s; [reflexivity|].
  cbn [app scan]. rewrite tc_bind_assoc. apply tc_bind_ext. intros t s1.
  rewrite tc_bind_assoc. apply tc_bind_ext. intros acc' s2. apply IH.
Qed.

Lemma scan_Plain fuel ts acc s :
  scan_ fuel (map Plain ts) acc s = fetchEach ts (fetch_ fuel) acc s.
Proof.
  revert acc s. induction ts as [|t ts IH]; intros acc s; [reflexivity|].
  cbn [map scan fetchEach present]. unfold bind at 1, ret at 1.
  apply tc_bind_ext. intros acc' s'. apply IH.
Qed.

Lemma scan_one fuel c acc s :
  scan_ fuel [c] acc s = bind (present ext c) (fun t => fetch_ fuel t acc) s.
Proof.
  cbn [scan]. apply tc_bind_ext. intros t s1. unfold bind.
  now destruct (fetch_ fuel t acc s1).
Qed.

Lemma tc_bind_ext_l {A B} (m m' : TC A) (k : A -> TC B) s :
  (forall s', m s' = m' s') -> bind m k s = bind m' k s.
Proof. intros H. unfold bind. now rewrite H. Qed.

Lemma scan_cons_Plain fuel t cs acc s :
  scan_ fuel (Plain t :: cs) acc s = bind (fetch_ fuel t acc) (scan_ fuel cs) s.
Proof. reflexivity. Qed.

Lemma scan_nil_l fuel cs acc s :
  bind (ret acc) (scan_ fuel cs) s = scan_ fuel cs acc s.
Proof. reflexivity. Qed.

(** [fetchComponents] is [fetch] on every component of the normal form. *)
Lemma fetchComponents_scan fuel norm s :
  fetchComponents ext fuel norm prop location astIndexExprType s
  = scan_ fuel (componentsOf ext norm) (mkFound false []) s.
Proof.
  unfold fetchComponents, componentsOf. cbn [app].
  rewrite scan_cons_Plain. apply tc_bind_ext. intros acc s1.
  rewrite scan_cons_Plain. apply tc_bind_ext. clear acc s1. intros acc s1.
  rewrite scan_app. etransitivity; [|apply tc_bind_ext_l; intros; symmetry; apply scan_Plain].
  apply tc_bind_ext. clear acc s1. intros acc s1. cbn [app].
  rewrite scan_cons_Plain. apply tc_bind_ext. clear acc s1. intros acc s1.
  rewrite scan_cons_Plain. apply tc_bind_ext. clear acc s1. intros acc s1.
  rewrite scan_cons_Plain. apply tc_bind_ext. clear acc s1. intros acc s1.
  rewrite scan_app.
  etransitivity.
  2: { apply tc_bind_ext_l. intros s'. symmetry.
       instantiate (1 := if negb (strings_isNever norm)
                         then fetch_ fuel (stringType (builtinTypes ext)) acc
                         else ret acc).
       destruct (negb (strings_isNever norm)); [|reflexivity].
       rewrite scan_one. reflexivity. }
  apply tc_bind_ext. clear acc s1. intros acc s1. cbn [app].
  rewrite scan_cons_Plain. apply tc_bind_ext. clear acc s1. intros acc s1.
  rewrite scan_app. etransitivity; [|apply tc_bind_ext_l; intros; symmetry; apply scan_Plain].
  apply tc_bind_ext. clear acc s1. intros acc s1.
  rewrite scan_app.
  etransitivity.
  2: { apply tc_bind_ext_l. intros s'. symmetry.
       instantiate (1 := if functions_isTop norm
                         then fetch_ fuel (functionType (builtinTypes ext)) acc
                         else if negb (functions_isNever norm)
                              then match functions_parts norm with
                                   | [part] => fetch_ fuel part acc
                                   | parts =>
                                       bind (addType (IntersectionType parts))
                                         (fun t => fetch_ fuel t acc)
                                   end
                              else ret acc).
       destruct (functions_isTop norm); [rewrite scan_one; reflexivity|].
       destruct (negb (functions_isNever norm)); [|reflexivity].
       destruct (functions_parts norm) as [|p [|p' ps]]; rewrite scan_one;
         reflexivity. }
  apply tc_bind_ext. clear acc s1. intros acc s1.
  generalize (tyvars norm). clear norm. intros tvs. revert acc s1.
  induction tvs as [|[tyvar intersect] tvs IH]; intros acc s1; [reflexivity|].
  cbn [map scan present fst snd].
  etransitivity; [|symmetry; apply tc_bind_assoc].
  apply tc_bind_ext. intros vt s2.
  lazymatch goal with
  | |- bind _ ?K _ = bind _ (fun t => bind _ ?K') _ =>
      assert (Hk : forall a s', K a s' = K' a s') by (intros; apply IH);
      generalize dependent K
  end.
  intros K Hk. unfold bind, getMem, setMem, addType, ret.
  destruct vt;
    try (destruct (fetch_ fuel tyvar acc s2); [apply Hk | reflexivity]).
  destruct (typeFromNormal ext (mem s2) intersect) as [t m'].
  match goal with
  | |- match ?x with _ => _ end = _ => destruct x; [apply Hk | reflexivity]
  end.
Qed.

Lemma scanned_scan cs s verdicts s' :
  scanned ext prop location astIndexExprType cs s verdicts s' ->
  exists fuel0, forall fuel, fuel0 <= fuel -> forall acc,
    scan_ fuel cs acc s
    = Ok (mkFound (foundOneProp acc || foundOf verdicts)
            (typesMissingTheProp acc ++ missingOf verdicts)) s'.
Proof.
  induction 1 as
    [ s
    | c cs s t s0 verdicts s' Hc Hi _ [f0 IH]
    | c cs s t s0 b seen' s1 verdicts s' Hc Hi Hb _ [f0 IH] ].
  - exists 0. intros fuel _ [found missing]. cbn.
    now rewrite orb_false_r, app_nil_r.
  - exists f0. intros fuel Hf acc. cbn [scan].
    rewrite (tc_bind_Ok _ _ _ _ _ Hc). unfold fetch at 1.
    unfold bind at 1, getMem at 1. unfold bind at 1. rewrite Hi. cbn [negb].
    unfold ret at 1. now apply IH.
  - destruct (carries_ask _ _ _ _ _ _ Hb) as [f1 Hask].
    exists (max f0 f1). intros fuel Hf acc. cbn [scan].
    rewrite (tc_bind_Ok _ _ _ _ _ Hc). unfold fetch at 1.
    unfold bind at 1, getMem at 1. unfold bind at 1. rewrite Hi. cbn [negb].
    specialize (Hask fuel ltac:(lia)). cbn [ask] in Hask.
    rewrite (tc_bind_Ok _ _ _ _ _ Hask). unfold ret at 1. cbn [fst].
    rewrite IH by lia. cbn [foundOneProp typesMissingTheProp].
    unfold foundOf, missingOf. cbn [existsb List.filter snd fst negb map].
    destruct b; cbn [negb map fst]; rewrite ?orb_true_r, ?orb_false_r;
      cbn [orb]; rewrite <- ?app_assoc; reflexivity.
Qed.

(** What [diagnoseMissingTableKey] makes of what the receiver offers. *)
Lemma offers_diagnose table key data s candidates :
  offers ext (mem s) table key candidates ->
  diagnoseMissingTableKey ext table key data s
  = Ok (suggestion table key data candidates) s.
Proof.
  intros [ttv Ht | node ctv chain Ht Hn Hc Ha | node Ht Hn Hc].
  - now apply diagnoseMissingTableKey_table.
  - now apply (diagnoseMissingTableKey_class ext table key data s node ctv chain).
  - rewrite (diagnoseMissingTableKey_other ext table key data s node Ht Hn Hc).
    reflexivity.
Qed.

End ValidatorFacts4.



Import TypeGraph Clone CloneSpec.

(** ** Raising the recursion budget *)

Lemma refines_refl {A} (m : M A) : refines m m.
Proof. intros w a w' H; exact H. Qed.

Lemma bind_Returned {A B} (m : M A) (k : A -> M B) w b w' :
  bind m k w = Returned b w' ->
  exists a w1, m w = Returned a w1 /\ k a w1 = Returned b w'.
Proof.
  unfold bind. destruct (m w) as [a w1| |]; try discriminate. eauto.
Qed.

Lemma refines_bind {A B} (m m' : M A) (k k' : A -> M B) :
  refines m m' -> (forall a, refines (k a) (k' a)) -> refines (bind m k) (bind m' k').
Proof.
  intros Hm Hk w b w' H. apply bind_Returned in H as (a & w1 & H1 & H2).
  unfold bind. rewrite (Hm _ _ _ H1). eapply Hk; eauto.
Qed.

Lemma refines_forEach {A} (xs : list A) (f f' : A -> M unit) :
  (forall x, refines (f x) (f' x)) -> refines (forEach xs f) (forEach xs f').
Proof.
  intros Hf. induction xs as [|x xs IH]; simpl.
  - apply refines_refl.
  - apply refines_bind; auto.
Qed.

Lemma refines_cloneInto {A} (cl cl' : A -> M A) (xs acc : list A) :
  (forall x, refines (cl x) (cl' x)) -> refines (cloneInto cl xs acc) (cloneInto cl' xs acc).
Proof.
  intros Hc. revert acc. induction xs as [|x xs IH]; intros acc; simpl.
  - apply refines_refl.
  - apply refines_bind; auto.
Qed.

Ltac refines_step :=
  first
    [ apply refines_refl
    | apply refines_bind; [| intros ?]
    | apply refines_forEach; intros ?
    | apply refines_cloneInto; intros ?
    | match goal with
      | |- refines (match ?x with _ => _ end) (match ?x with _ => _ end) => destruct x
      | |- refines (if ?x then _ else _) (if ?x then _ else _) => destruct x
      | |- refines (let '(_, _) := ?x in _) _ => destruct x
      end
    | solve [auto] ].

Section Monotone.
Context (flags : FFlags) (dest : ArenaId).
Context (cT cT' : TypeId -> M TypeId) (cP cP' : TypePackId -> M TypePackId).
Context (HT : forall x, refines (cT x) (cT' x)) (HP : forall x, refines (cP x) (cP' x)).

Lemma refines_clone_Property p :
  refines (clone_Property flags cT p) (clone_Property flags cT' p).
Proof using HT.
  unfold clone_Property, cloneOptionalType. repeat refines_step.
Qed.

Lemma refines_clone_TableIndexer ix :
  refines (clone_TableIndexer flags cT ix) (clone_TableIndexer flags cT' ix).
Proof using HT. unfold clone_TableIndexer. repeat refines_step. Qed.

Lemma refines_TypePackCloner tp v :
  refines (TypePackCloner flags dest cT cP tp v) (TypePackCloner flags dest cT' cP' tp v).
Proof using HT HP.
  unfold TypePackCloner, tp_defaultClone. repeat refines_step.
Qed.

Lemma refines_TypeCloner typeId v :
  refines (TypeCloner flags dest cT cP typeId v) (TypeCloner flags dest cT' cP' typeId v).
Proof using HT HP.
  pose proof refines_clone_Property. pose proof refines_clone_TableIndexer.
  unfold TypeCloner, defaultClone, clone_FunctionType, clone_TableType,
    clone_MetatableType, clone_ClassType, clone_UnionType,
    cloneTypeParamAt, cloneTypePackParamAt.
  repeat refines_step.
Qed.
End Monotone.

Lemma refines_clone_TypeId_admitted flags dest cT cT' cP cP' x node :
  (forall y, refines (cT y) (cT' y)) -> (forall y, refines (cP y) (cP' y)) ->
  refines (clone_TypeId_admitted flags dest cT cP x node)
          (clone_TypeId_admitted flags dest cT' cP' x node).
Proof.
  intros HT HP. unfold clone_TypeId_admitted.
  repeat refines_step. apply refines_TypeCloner; auto.
Qed.

Lemma refines_clone_TypePackId_admitted flags dest cT cT' cP cP' x node :
  (forall y, refines (cT y) (cT' y)) -> (forall y, refines (cP y) (cP' y)) ->
  refines (clone_TypePackId_admitted flags dest cT cP x node)
          (clone_TypePackId_admitted flags dest cT' cP' x node).
Proof.
  intros HT HP. unfold clone_TypePackId_admitted.
  repeat refines_step. apply refines_TypePackCloner; auto.
Qed.

Lemma clone_rec_mono flags dest b :
  (forall x, refines (clone_rec flags dest b x) (clone_rec flags dest (S b) x))
  /\ (forall x, refines (clone_pack_rec flags dest b x) (clone_pack_rec flags dest (S b) x)).
Proof.
  induction b as [|b [IHT IHP]].
  - split; intros x w a w' H; simpl in *.
    + apply bind_Returned in H as (n & w1 & H1 & H2).
      unfold bind. rewrite H1. destruct (persistent n); [exact H2 | discriminate].
    + apply bind_Returned in H as (n & w1 & H1 & H2).
      unfold bind. rewrite H1. destruct (tp_persistent n); [exact H2 | discriminate].
  - split; intros x.
    + change (refines
        (node <- getType x ;;
         if persistent node then ret x
         else clone_TypeId_admitted flags dest (clone_rec flags dest b)
                (clone_pack_rec flags dest b) x node)
        (node <- getType x ;;
         if persistent node then ret x
         else clone_TypeId_admitted flags dest (clone_rec flags dest (S b))
                (clone_pack_rec flags dest (S b)) x node)).
      apply refines_bind; [apply refines_refl|]. intros node.
      destruct (persistent node); [apply refines_refl|].
      apply refines_clone_TypeId_admitted; auto.
    + change (refines
        (node <- getTypePack x ;;
         if tp_persistent node then ret x
         else clone_TypePackId_admitted flags dest (clone_rec flags dest b)
                (clone_pack_rec flags dest b) x node)
        (node <- getTypePack x ;;
         if tp_persistent node then ret x
         else clone_TypePackId_admitted flags dest (clone_rec flags dest (S b))
                (clone_pack_rec flags dest (S b)) x node)).
      apply refines_bind; [apply refines_refl|]. intros node.
      destruct (tp_persistent node); [apply refines_refl|].
      apply refines_clone_TypePackId_admitted; auto.
Qed.

Lemma clone_rec_mono_le flags dest b b' :
  b <= b' ->
  (forall x, refines (clone_rec flags dest b x) (clone_rec flags dest b' x))
  /\ (forall x, refines (clone_pack_rec flags dest b x) (clone_pack_rec flags dest b' x)).
Proof.
  induction 1 as [|b' Hle [IHT IHP]].
  - split; intros; apply refines_refl.
  - destruct (clone_rec_mono flags dest b') as [HT HP].
    split; intros x w a w' H.
    + apply HT, IHT, H.
    + apply HP, IHP, H.
Qed.

(** ** The cloner: persistent nodes and the recursion limit *)

Lemma clone_rec_persistent flags dest b typeId w node :
  types (mem w) !! typeId = Some node -> persistent node = true ->
  clone_rec flags dest b typeId w = Returned typeId w.
Proof.
  intros Hn Hp. destruct b; simpl; unfold bind, getType; rewrite Hn, Hp; reflexivity.
Qed.

Lemma clone_pack_rec_persistent flags dest b tp w node :
  typePacks (mem w) !! tp = Some node -> tp_persistent node = true ->
  clone_pack_rec flags dest b tp w = Returned tp w.
Proof.
  intros Hn Hp. destruct b; simpl; unfold bind, getTypePack; rewrite Hn, Hp; reflexivity.
Qed.

Import TypeGraph Clone CloneSpec.

Set Default Proof Using "Type".

(** ** The cloner is faithful on graphs of cloneable nodes *)

Section Fidelity.
Context (flags : FFlags) (dest : ArenaId) (base : Memory).
(** The closed part of the graph that the traversal stays in. *)
Context (ST : gset TypeId) (SP : gset TypePackId).
Context (Hclosed : closed_set base ST SP).

Local Abbreviation N0 := (length (types base)).
Local Abbreviation M0 := (length (typePacks base)).
Local Abbreviation tys w := (types (mem w)).
Local Abbreviation tps w := (typePacks (mem w)).
Local Abbreviation sT w := (seenTypes (cloneState w)).
Local Abbreviation sP w := (seenTypePacks (cloneState w)).
Local Abbreviation RT w := (fun a b : TypeId => seenTypes (cloneState w) !! a = Some b).
Local Abbreviation RP w := (fun a b : TypePackId => seenTypePacks (cloneState w) !! a = Some b).

Local Abbreviation Inv := (CloneSpec.Inv base).
Local Abbreviation Ext := (CloneSpec.Ext dest base ST SP).
Local Abbreviation EX := (CloneSpec.EX ST SP).
Local Abbreviation post := (CloneSpec.post dest base ST SP).
Local Abbreviation opened_t := (CloneSpec.opened_t dest).
Local Abbreviation opened_p := (CloneSpec.opened_p dest).

Lemma ST_bound x : x ∈ ST -> x < N0.
Proof using Hclosed.
  intros H. destruct (proj1 Hclosed x H) as (node & Hb & _).
  eapply lookup_lt_Some; eauto.
Qed.

Lemma SP_bound x : x ∈ SP -> x < M0.
Proof using Hclosed.
  intros H. destruct (proj2 Hclosed x H) as (node & Hb & _).
  eapply lookup_lt_Some; eauto.
Qed.

(** *** Monotonicity of the copy relations *)

Lemma option_Forall2_mono {A B} (R R' : A -> B -> Prop) (a : option A) (b : option B) :
  (forall x y, R x y -> R' x y) -> option_Forall2 R a b -> option_Forall2 R' a b.
Proof. intros H [x y Hxy|]; constructor; auto. Qed.

Lemma copy_Property_mono (R R' : TypeId -> TypeId -> Prop) p p' :
  (forall a b, R a b -> R' a b) -> copy_Property R p p' -> copy_Property R' p p'.
Proof.
  intros HR (H1 & H2 & H3). repeat split; try tauto.
  - eapply option_Forall2_mono; eauto.
  - eapply option_Forall2_mono; eauto.
Qed.

Lemma copy_TableIndexer_mono (R R' : TypeId -> TypeId -> Prop) ix ix' :
  (forall a b, R a b -> R' a b) ->
  copy_TableIndexer R ix ix' -> copy_TableIndexer R' ix ix'.
Proof. intros HR [H1 H2]. split; auto. Qed.

Lemma copy_props_mono (R R' : TypeId -> TypeId -> Prop) ps ps' :
  (forall a b, R a b -> R' a b) -> copy_props R ps ps' -> copy_props R' ps ps'.
Proof.
  intros HR H name. eapply option_Forall2_mono; [|apply H].
  intros; eapply copy_Property_mono; eauto.
Qed.


Lemma copy_variant_mono (R R' : TypeId -> TypeId -> Prop)
    (S S' : TypePackId -> TypePackId -> Prop) v v' :
  (forall a b, R a b -> R' a b) -> (forall a b, S a b -> S' a b) ->
  copy_variant R S v v' -> copy_variant R' S' v v'.
Proof.
  intros HR HS.
  assert (HoR : forall a b, option_Forall2 R a b -> option_Forall2 R' a b)
    by (intros; eapply option_Forall2_mono; eauto).
  assert (HoS : forall a b, option_Forall2 S a b -> option_Forall2 S' a b)
    by (intros; eapply option_Forall2_mono; eauto).
  assert (HlR : forall a b, Forall2 R a b -> Forall2 R' a b)
    by (intros; eapply Forall2_impl; eauto).
  assert (HlS : forall a b, Forall2 S a b -> Forall2 S' a b)
    by (intros; eapply Forall2_impl; eauto).
  assert (Hix : forall a b, option_Forall2 (copy_TableIndexer R) a b ->
                            option_Forall2 (copy_TableIndexer R') a b).
  { intros a b H; eapply option_Forall2_mono; [|exact H].
    intros; eapply copy_TableIndexer_mono; eauto. }
  destruct v; cbn; try tauto; try (case_match; tauto).
  - intros (ts' & ps' & -> & H1 & H2). eauto 10.
  - intros (f' & -> & H). exists f'. split; [reflexivity|].
    unfold copy_FunctionType in *. intuition auto.
  - intros (t' & -> & H). exists t'. split; [reflexivity|].
    unfold copy_TableType in *. intuition eauto using copy_props_mono.
  - intros (t' & m' & -> & H1 & H2). eauto 10.
  - intros (c' & -> & H). exists c'. split; [reflexivity|].
    unfold copy_ClassType in *. intuition eauto using copy_props_mono.
  - intros (o' & -> & H). eauto.
  - intros (o' & -> & H). eauto.
  - intros (t' & -> & H). eauto.
  - intros (ts' & ps' & -> & H1 & H2). eauto 10.
Qed.

Lemma copy_pack_variant_mono (R R' : TypeId -> TypeId -> Prop)
    (S S' : TypePackId -> TypePackId -> Prop) v v' :
  (forall a b, R a b -> R' a b) -> (forall a b, S a b -> S' a b) ->
  copy_pack_variant R S v v' -> copy_pack_variant R' S' v v'.
Proof.
  intros HR HS. destruct v; cbn; try tauto.
  - intros (t' & -> & H). eauto.
  - intros (h' & t' & -> & H1 & H2). exists h', t'. split; [reflexivity|].
    split; [eapply Forall2_impl; eauto | eapply option_Forall2_mono; eauto].
  - intros (ts' & ps' & -> & H1 & H2). exists ts', ps'. split; [reflexivity|].
    split; eapply Forall2_impl; eauto.
Qed.

Lemma typeDone_stable w w' x c :
  sT w ⊆ sT w' -> sP w ⊆ sP w' -> tys w' !! c = tys w !! c ->
  typeDone dest base w x c -> typeDone dest base w' x c.
Proof.
  intros HT HP Hm (node & v' & H1 & H2 & H3).
  exists node, v'. split; [exact H1|]. split; [congruence|].
  eapply copy_variant_mono; [| |exact H3]; cbn; intros a b Hab.
  - eapply lookup_weaken; eauto.
  - eapply lookup_weaken; eauto.
Qed.

Lemma packDone_stable w w' x c :
  sT w ⊆ sT w' -> sP w ⊆ sP w' -> tps w' !! c = tps w !! c ->
  packDone dest base w x c -> packDone dest base w' x c.
Proof.
  intros HT HP Hm (node & v' & H1 & H2 & H3).
  exists node, v'. split; [exact H1|]. split; [congruence|].
  eapply copy_pack_variant_mono; [| |exact H3]; cbn; intros a b Hab.
  - eapply lookup_weaken; eauto.
  - eapply lookup_weaken; eauto.
Qed.

(** Registering an unseen node of the part uses up one unit of it. *)
Lemma size_unseen_insert (S : gset nat) (m : gmap nat nat) x c :
  x ∈ S -> m !! x = None ->
  size (S ∖ dom m) = 1 + size (S ∖ dom (<[x := c]> m)).
Proof.
  intros Hx Hn. rewrite dom_insert_L.
  assert (Heq : S ∖ dom m = {[x]} ∪ S ∖ ({[x]} ∪ dom m)).
  { apply set_eq. intros y. rewrite elem_of_union, !elem_of_difference,
      elem_of_union, elem_of_singleton.
    destruct (decide (y = x)) as [->|]; [|tauto].
    apply not_elem_of_dom in Hn. tauto. }
  rewrite Heq at 1. rewrite size_union.
  - now rewrite size_singleton.
  - intros y Hy1 Hy2. apply elem_of_difference in Hy2 as [_ Hy2].
    apply Hy2, elem_of_union. now left.
Qed.

Lemma size_unseen_mono (S : gset nat) (m m' : gmap nat nat) :
  m ⊆ m' -> size (S ∖ dom m') <= size (S ∖ dom m).
Proof.
  intros Hm. apply subseteq_size. intros y Hy.
  apply elem_of_difference in Hy as [H1 H2]. apply elem_of_difference.
  split; [exact H1|]. intros Hd. apply H2. revert Hd. now apply subseteq_dom.
Qed.

(** *** [Ext] is a preorder *)

Lemma Ext_refl rt rp w :
  (forall r, rt = Some r -> r < length (tys w)) ->
  (forall r, rp = Some r -> r < length (tps w)) ->
  Ext rt rp w w.
Proof.
  intros Hrt Hrp. constructor;
    [reflexivity | reflexivity | reflexivity | lia | lia | exact Hrt | exact Hrp
    | auto | auto
    | intros x c H1 H2; congruence
    | intros x c H1 H2; congruence
    | intros x c H1 H2; congruence
    | intros x c H1 H2; congruence].
Qed.

Lemma Ext_trans rt rp w1 w2 w3 :
  Ext rt rp w1 w2 -> Ext rt rp w2 w3 -> Ext rt rp w1 w3.
Proof.
  intros [a1 a2 a3 a4 a5 a6 a7 a8 a9 a10 a11 a12 a13]
         [b1 b2 b3 b4 b5 b6 b7 b8 b9 b10 b11 b12 b13].
  constructor; try (etrans; eassumption); auto; try lia.
  - intros i Hi Hne. rewrite b8 by (auto; lia). auto.
  - intros i Hi Hne. rewrite b9 by (auto; lia). auto.
  - intros x c Hn Hs.
    destruct (sT w2 !! x) as [c2|] eqn:H2.
    + assert (c = c2) by (apply (lookup_weaken _ _ _ _ H2) in b1; congruence).
      subst c2. destruct (a10 _ _ Hn H2) as [Hle Hd]. split; [exact Hle|].
      assert (Hc : c < length (tys w2)).
      { destruct Hd as (? & ? & _ & Hl & _). eapply lookup_lt_Some; eauto. }
      eapply typeDone_stable; eauto.
      apply b8; auto. intros ->. specialize (a6 _ eq_refl). lia.
    + destruct (b10 _ _ H2 Hs) as [Hle Hd]. split; [lia | exact Hd].
  - intros x c Hn Hs.
    destruct (sP w2 !! x) as [c2|] eqn:H2.
    + assert (c = c2) by (apply (lookup_weaken _ _ _ _ H2) in b2; congruence).
      subst c2. destruct (a11 _ _ Hn H2) as [Hle Hd]. split; [exact Hle|].
      assert (Hc : c < length (tps w2)).
      { destruct Hd as (? & ? & _ & Hl & _). eapply lookup_lt_Some; eauto. }
      eapply packDone_stable; eauto.
      apply b9; auto. intros ->. specialize (a7 _ eq_refl). lia.
    + destruct (b11 _ _ H2 Hs) as [Hle Hd]. split; [lia | exact Hd].
  - intros x c Hn Hs. destruct (sT w2 !! x) as [c2|] eqn:H2; eauto.
  - intros x c Hn Hs. destruct (sP w2 !! x) as [c2|] eqn:H2; eauto.
Qed.

(** A step that touches no destination node is a step for every
    destination node that already exists. *)
Lemma Ext_weaken rt rp w w' :
  (forall r, rt = Some r -> r < length (tys w)) ->
  (forall r, rp = Some r -> r < length (tps w)) ->
  Ext None None w w' -> Ext rt rp w w'.
Proof.
  intros Hrt Hrp [a1 a2 a3 a4 a5 a6 a7 a8 a9 a10 a11 a12 a13].
  constructor; auto.
Qed.

Lemma EX_mono b w w' : sT w ⊆ sT w' -> sP w ⊆ sP w' -> EX b w' -> EX b w.
Proof.
  intros HT HP. unfold CloneSpec.EX.
  pose proof (size_unseen_mono ST _ _ HT). pose proof (size_unseen_mono SP _ _ HP).
  lia.
Qed.

Lemma post_bind {A B} rt rp b w (m : M A) (k : A -> M B) (Q1 : A -> World -> Prop)
    (Q2 : B -> World -> Prop) :
  post rt rp b w (m w) Q1 ->
  (forall a w', Inv w' -> Ext rt rp w w' -> Q1 a w' -> post rt rp b w' (k a w') Q2) ->
  post rt rp b w (bind m k w) Q2.
Proof.
  unfold bind, post at 1. destruct (m w) as [a w'| |]; [|auto|auto].
  intros (Hi & He & Hq) Hk. specialize (Hk a w' Hi He Hq).
  unfold post in *. destruct (k a w') as [a2 w2| |]; auto.
  - destruct Hk as (Hi2 & He2 & Hq2). split; [auto|]. split; [|auto].
    eapply Ext_trans; eauto.
  - eapply EX_mono; [apply He|apply He|exact Hk].
Qed.

Lemma post_ret {A} rt rp b w (a : A) (Q : A -> World -> Prop) :
  Inv w -> (forall r, rt = Some r -> r < length (tys w)) ->
  (forall r, rp = Some r -> r < length (tps w)) ->
  Q a w -> post rt rp b w (ret a w) Q.
Proof. intros. cbn. auto using Ext_refl. Qed.

Lemma post_conseq {A} rt rp b w (o : Outcome A) (Q Q' : A -> World -> Prop) :
  post rt rp b w o Q ->
  (forall a w', Inv w' -> Ext rt rp w w' -> Q a w' -> Q' a w') ->
  post rt rp b w o Q'.
Proof. destruct o; cbn; intuition auto. Qed.

Lemma post_weaken {A} rt rp b w (o : Outcome A) (Q : A -> World -> Prop) :
  (forall r, rt = Some r -> r < length (tys w)) ->
  (forall r, rp = Some r -> r < length (tps w)) ->
  post None None b w o Q -> post rt rp b w o Q.
Proof.
  intros Hrt Hrp. destruct o; cbn; auto.
  intros (Hi & He & Hq). auto using Ext_weaken.
Qed.


(** *** The primitive steps *)

Lemma post_call {A} rt rp b w (o : Outcome A) (Q : A -> World -> Prop) :
  (forall r, rt = Some r -> r < length (tys w)) ->
  (forall r, rp = Some r -> r < length (tps w)) ->
  post None None b w o Q ->
  post rt rp b w o (fun a w' => Q a w' /\ Ext None None w w').
Proof.
  intros Hrt Hrp. destruct o; cbn; auto.
  intros (Hi & He & Hq). auto using Ext_weaken.
Qed.

Lemma Inv_setTypes w ts :
  Inv w -> length ts = length (tys w) ->
  (forall i, i < N0 -> ts !! i = tys w !! i) ->
  Inv (setTypes ts w).
Proof.
  intros [a1 a2 a3 a4 a5 a6 a7 a8] Hl Hb.
  constructor; cbn; auto; try lia.
  - intros i Hi. rewrite Hb by auto. auto.
  - intros x c Hs. rewrite Hl. auto.
Qed.

Lemma Inv_setTypePacks w ps :
  Inv w -> length ps = length (tps w) ->
  (forall i, i < M0 -> ps !! i = tps w !! i) ->
  Inv (setTypePacks ps w).
Proof.
  intros [a1 a2 a3 a4 a5 a6 a7 a8] Hl Hb.
  constructor; cbn; auto; try lia.
  - intros i Hi. rewrite Hb by auto. auto.
  - intros x c Hs. rewrite Hl. auto.
Qed.

Lemma post_modifyType rp b w r f node :
  Inv w -> tys w !! r = Some node -> N0 <= r ->
  (forall r', rp = Some r' -> r' < length (tps w)) ->
  post (Some r) rp b w (modifyType r f w)
    (fun _ w' => tys w' !! r = Some (f node) /\ tps w' = tps w
                 /\ cloneState w' = cloneState w).
Proof.
  intros Hi Hn Hr Hrp. unfold modifyType. rewrite Hn. cbn.
  assert (Hlt : r < length (tys w)) by (eapply lookup_lt_Some; eauto).
  split; [|split].
  - apply Inv_setTypes; auto using length_insert.
    intros i Hlt'. apply list_lookup_insert_ne. lia.
  - constructor; cbn; auto; try reflexivity.
    + rewrite length_insert. lia.
    + intros r' [= <-]. exact Hlt.
    + intros i Hlt' Hne. apply list_lookup_insert_ne. congruence.
    + intros x c H1 H2. congruence.
    + intros x c H1 H2. congruence.
    + intros x c H1 H2. congruence.
    + intros x c H1 H2. congruence.
  - split; [|auto]. now apply list_lookup_insert_eq.
Qed.

Lemma post_modifyTypePack rt b w r f node :
  Inv w -> tps w !! r = Some node -> M0 <= r ->
  (forall r', rt = Some r' -> r' < length (tys w)) ->
  post rt (Some r) b w (modifyTypePack r f w)
    (fun _ w' => tps w' !! r = Some (f node) /\ tys w' = tys w
                 /\ cloneState w' = cloneState w).
Proof.
  intros Hi Hn Hr Hrt. unfold modifyTypePack. rewrite Hn. cbn.
  assert (Hlt : r < length (tps w)) by (eapply lookup_lt_Some; eauto).
  split; [|split].
  - apply Inv_setTypePacks; auto using length_insert.
    intros i Hlt'. apply list_lookup_insert_ne. lia.
  - constructor; cbn; auto; try reflexivity.
    + rewrite length_insert. lia.
    + intros r' [= <-]. exact Hlt.
    + intros i Hlt' Hne. apply list_lookup_insert_ne. congruence.
    + intros x c H1 H2. congruence.
    + intros x c H1 H2. congruence.
    + intros x c H1 H2. congruence.
    + intros x c H1 H2. congruence.
  - split; [|auto]. now apply list_lookup_insert_eq.
Qed.


Lemma foldl_zip_snd {I X N} (g : X -> N -> N) (n : N) (items : list I) (cs : list X) :
  length items = length cs ->
  foldl (fun n (ic : I * X) => g ic.2 n) n (zip items cs)
  = foldl (fun n c => g c n) n cs.
Proof.
  revert n cs. induction items as [|i items IH]; intros n [|c cs]; cbn; try discriminate; auto.
Qed.

Lemma foldl_push {X N} (g : X -> N -> N) (mk : list X -> N) :
  (forall l c, g c (mk l) = mk (l ++ [c])%list) ->
  forall cs l, foldl (fun n c => g c n) (mk l) cs = mk (l ++ cs)%list.
Proof.
  intros Hg. induction cs as [|c cs IH]; intros l; cbn.
  - now rewrite app_nil_r.
  - rewrite Hg, IH. now rewrite <- app_assoc.
Qed.

(** The result of a loop of pushes. *)
Lemma pushes_spec {I X N} (g : X -> N -> N) (mk : list X -> N) (items : list I)
    (cs : list X) (P : I -> X -> Prop) :
  (forall l c, g c (mk l) = mk (l ++ [c])%list) ->
  Forall2 P items cs ->
  foldl (fun n (ic : I * X) => g ic.2 n) (mk []) (zip items cs) = mk cs.
Proof.
  intros Hg Hf. rewrite foldl_zip_snd by (eapply Forall2_length; eauto).
  now rewrite (foldl_push g mk Hg).
Qed.

(** *** What a loop of [push_back] leaves in the node *)

Lemma foldl_push_generic cs lvl sc g gp a an r d hs tg h p doc o :
  foldl (fun n c => onFunction (push_generic c) n)
    (mkType (FunctionTypeV (mkFunctionType lvl sc g gp a an r d hs tg h)) p doc o) cs
  = mkType (FunctionTypeV (mkFunctionType lvl sc (g ++ cs) gp a an r d hs tg h)) p doc o.
Proof.
  apply (foldl_push (fun c => onFunction (push_generic c))
           (fun l => mkType (FunctionTypeV (mkFunctionType lvl sc l gp a an r d hs tg h))
                       p doc o)).
  reflexivity.
Qed.

Lemma foldl_push_genericPack cs lvl sc g gp a an r d hs tg h p doc o :
  foldl (fun n c => onFunction (push_genericPack c) n)
    (mkType (FunctionTypeV (mkFunctionType lvl sc g gp a an r d hs tg h)) p doc o) cs
  = mkType (FunctionTypeV (mkFunctionType lvl sc g (gp ++ cs) a an r d hs tg h)) p doc o.
Proof.
  apply (foldl_push (fun c => onFunction (push_genericPack c))
           (fun l => mkType (FunctionTypeV (mkFunctionType lvl sc g l a an r d hs tg h))
                       p doc o)).
  reflexivity.
Qed.

Lemma foldl_push_part cs l p doc o :
  foldl (fun n c => onVariant (push_part c) n) (mkType (IntersectionType l) p doc o) cs
  = mkType (IntersectionType (l ++ cs)) p doc o.
Proof.
  apply (foldl_push (fun c => onVariant (push_part c))
           (fun l => mkType (IntersectionType l) p doc o)).
  reflexivity.
Qed.

Lemma foldl_push_typeArgument cs fam ts ps p doc o :
  foldl (fun n c => onVariant (push_typeArgument c) n)
    (mkType (TypeFamilyInstanceType fam ts ps) p doc o) cs
  = mkType (TypeFamilyInstanceType fam (ts ++ cs) ps) p doc o.
Proof.
  apply (foldl_push (fun c => onVariant (push_typeArgument c))
           (fun l => mkType (TypeFamilyInstanceType fam l ps) p doc o)).
  reflexivity.
Qed.

Lemma foldl_push_packArgument cs fam ts ps p doc o :
  foldl (fun n c => onVariant (push_packArgument c) n)
    (mkType (TypeFamilyInstanceType fam ts ps) p doc o) cs
  = mkType (TypeFamilyInstanceType fam ts (ps ++ cs)) p doc o.
Proof.
  apply (foldl_push (fun c => onVariant (push_packArgument c))
           (fun l => mkType (TypeFamilyInstanceType fam ts l) p doc o)).
  reflexivity.
Qed.

Lemma foldl_push_head cs hd tl p o :
  foldl (fun n c => onPackVariant (push_head c) n)
    (mkTypePackVar (TypePack hd tl) p o) cs
  = mkTypePackVar (TypePack (hd ++ cs) tl) p o.
Proof.
  apply (foldl_push (fun c => onPackVariant (push_head c))
           (fun l => mkTypePackVar (TypePack l tl) p o)).
  reflexivity.
Qed.

Lemma foldl_push_tp_typeArgument cs fam ts ps p o :
  foldl (fun n c => onPackVariant (push_tp_typeArgument c) n)
    (mkTypePackVar (TypeFamilyInstanceTypePack fam ts ps) p o) cs
  = mkTypePackVar (TypeFamilyInstanceTypePack fam (ts ++ cs) ps) p o.
Proof.
  apply (foldl_push (fun c => onPackVariant (push_tp_typeArgument c))
           (fun l => mkTypePackVar (TypeFamilyInstanceTypePack fam l ps) p o)).
  reflexivity.
Qed.

Lemma foldl_push_tp_packArgument cs fam ts ps p o :
  foldl (fun n c => onPackVariant (push_tp_packArgument c) n)
    (mkTypePackVar (TypeFamilyInstanceTypePack fam ts ps) p o) cs
  = mkTypePackVar (TypeFamilyInstanceTypePack fam ts (ps ++ cs)) p o.
Proof.
  apply (foldl_push (fun c => onPackVariant (push_tp_packArgument c))
           (fun l => mkTypePackVar (TypeFamilyInstanceTypePack fam ts l) p o)).
  reflexivity.
Qed.

Lemma forEach_ext {A} (f g : A -> M unit) items :
  (forall i, f i = g i) -> forEach items f = forEach items g.
Proof.
  intros H. induction items as [|i items IH]; cbn; [reflexivity|].
  now rewrite H, IH.
Qed.

Lemma foldl_set_ct_prop (l : list (Name * Property * Property))
    nm ps par mt tg ud dm ix p doc o :
  foldl (fun n ic => onClass (set_ct_prop ic.1.1 ic.2) n)
    (mkType (ClassTypeV (mkClassType nm ps par mt tg ud dm ix)) p doc o) l
  = mkType (ClassTypeV (mkClassType nm (insert_props ps l) par mt tg ud dm ix)) p doc o.
Proof.
  revert ps. induction l as [|ic l IH]; intros ps; cbn; [reflexivity|].
  unfold onClass, set_ct_prop. cbn. apply IH.
Qed.

Lemma foldl_set_prop (l : list (Name * Property * Property))
    ps ix st lv bt tp tpp dm dl tg p doc o :
  foldl (fun n ic => onTable (set_prop ic.1.1 ic.2) n)
    (mkType (TableTypeV (mkTableType ps ix st lv bt tp tpp dm dl tg)) p doc o) l
  = mkType (TableTypeV (mkTableType (insert_props ps l) ix st lv bt tp tpp dm dl tg))
      p doc o.
Proof.
  revert ps. induction l as [|ic l IH]; intros ps; cbn; [reflexivity|].
  unfold onTable, set_prop. cbn. apply IH.
Qed.

(** After a loop over properties with distinct names, every name of the
    loop holds its clone and the other names hold what they held. *)
Lemma insert_props_lookup (Rel : Property -> Property -> Prop)
    (items : list (Name * Property)) cs init name :
  NoDup items.*1 ->
  Forall2 (fun i c => Rel i.2 c) items cs ->
  (forall p, (name, p) ∈ items ->
     exists c, insert_props init (zip items cs) !! name = Some c /\ Rel p c)
  /\ (name ∉ items.*1 -> insert_props init (zip items cs) !! name = init !! name).
Proof.
  intros Hnd Hf. revert init Hnd.
  induction Hf as [|i c items cs Hic Hf IH]; intros init Hnd.
  - cbn. split; [intros p Hp; inversion Hp | reflexivity].
  - cbn in Hnd. apply NoDup_cons in Hnd as [Hi Hnd].
    change (insert_props init (zip (i :: items) (c :: cs)))
      with (insert_props (<[i.1 := c]> init) (zip items cs)).
    destruct (IH (<[i.1 := c]> init) Hnd) as [IH1 IH2]. split.
    + intros p Hp. apply elem_of_cons in Hp as [Hp|Hp].
      * subst i. cbn in *. exists c. split; [|exact Hic].
        rewrite IH2 by exact Hi. apply lookup_insert_eq.
      * apply IH1, Hp.
    + intros Hnot. cbn in Hnot. apply not_elem_of_cons in Hnot as [Hne Hnot].
      rewrite IH2 by exact Hnot. now apply lookup_insert_ne.
Qed.

Lemma copy_props_insert_props (Rel : Property -> Property -> Prop)
    (ps init : gmap Name Property) cs :
  (forall name, ps !! name = None -> init !! name = None) ->
  Forall2 (fun i c => Rel i.2 c) (map_to_list ps) cs ->
  forall name,
    option_Forall2 Rel (ps !! name)
      (insert_props init (zip (map_to_list ps) cs) !! name).
Proof.
  intros Hinit Hf name.
  destruct (insert_props_lookup Rel (map_to_list ps) cs init name
              (NoDup_fst_map_to_list ps) Hf) as [H1 H2].
  destruct (ps !! name) as [p|] eqn:Hp.
  - destruct (H1 p) as (c & -> & Hc); [now apply elem_of_map_to_list|].
    constructor. exact Hc.
  - rewrite H2, (Hinit name Hp); [constructor|].
    intros Hin. apply list_elem_of_fmap in Hin as ([n p] & -> & Hin).
    apply elem_of_map_to_list in Hin. cbn in Hp. congruence.
Qed.

(** *** Loops that clone an item and store the clone in the node under
    construction *)

Section Cell.
(** The node under construction: [look] reads it, [modify] writes it. *)
Context {Nd : Type} (rt : option TypeId) (rp : option TypePackId).
Context (look : World -> option Nd) (modify : (Nd -> Nd) -> M unit).
Context (Hmod : forall b w f node, Inv w -> look w = Some node ->
           post rt rp b w (modify f w) (fun _ w' => look w' = Some (f node))).
Context (Hkeep : forall w w' node, Ext None None w w' -> look w = Some node ->
           look w' = Some node).
Context (Hbt : forall w node, look w = Some node ->
           forall r, rt = Some r -> r < length (tys w)).
Context (Hbp : forall w node, look w = Some node ->
           forall r, rp = Some r -> r < length (tps w)).

Lemma cell_call_modify {X} b (call : X -> M X) (Rel : World -> X -> X -> Prop)
    (f : X -> Nd -> Nd) x w node :
  post None None b w (call x w) (fun c w' => Rel w' x c) ->
  (forall w w' x c, sT w ⊆ sT w' -> sP w ⊆ sP w' -> Rel w x c -> Rel w' x c) ->
  look w = Some node ->
  post rt rp b w (bind (call x) (fun c => modify (f c)) w)
    (fun _ w' => exists c, Rel w' x c /\ look w' = Some (f c node)).
Proof using Hmod Hkeep Hbt Hbp.
  intros Hcall Hmono Hl.
  eapply post_bind.
  - apply post_call; [eapply Hbt; eauto | eapply Hbp; eauto | exact Hcall].
  - intros c w1 Hi1 He1 [Hrel He0]. cbn beta.
    eapply post_conseq.
    + apply Hmod; [exact Hi1 | eapply Hkeep; eauto].
    + cbn. intros _ w2 Hi2 He2 Hl2. exists c. split; [|exact Hl2].
      eapply Hmono; [apply He2 | apply He2 | exact Hrel].
Qed.

Lemma forEach_cell {I X} b (arg : I -> X) (call : X -> M X) (valid : X -> Prop)
    (Rel : World -> X -> X -> Prop) (upd : I -> X -> Nd -> Nd) :
  (forall x w, Inv w -> valid x ->
     post None None b w (call x w) (fun c w' => Rel w' x c)) ->
  (forall w w' x c, sT w ⊆ sT w' -> sP w ⊆ sP w' -> Rel w x c -> Rel w' x c) ->
  forall items w node,
    Inv w -> Forall (fun i => valid (arg i)) items -> look w = Some node ->
    post rt rp b w
      (forEach items (fun i => bind (call (arg i)) (fun c => modify (upd i c))) w)
      (fun _ w' =>
         exists cs, Forall2 (fun i c => Rel w' (arg i) c) items cs
                    /\ look w' = Some (foldl (fun n ic => upd ic.1 ic.2 n) node
                                         (zip items cs))).
Proof using Hmod Hkeep Hbt Hbp.
  intros Hcall Hmono. induction items as [|i items IH]; intros w node Hi Hv Hl.
  - cbn. split; [exact Hi|]. split.
    + apply Ext_refl; [eapply Hbt; eauto | eapply Hbp; eauto].
    + exists []. split; [constructor | exact Hl].
  - cbn [forEach]. inversion Hv as [|? ? Hv1 Hv2]; subst.
    eapply post_bind.
    + apply (cell_call_modify b call Rel (upd i) (arg i) w node); auto.
    + intros _ w1 Hi1 He1 (c & Hrel & Hl1). cbn beta.
      eapply post_conseq; [apply (IH w1 _ Hi1 Hv2 Hl1)|].
      cbn. intros _ w2 Hi2 He2 (cs & Hcs & Hl2).
      exists (c :: cs). split; [|exact Hl2].
      constructor; [|exact Hcs].
      eapply Hmono; [apply He2 | apply He2 | exact Hrel].
Qed.


Local Abbreviation step := (CloneSpec.step_on dest base ST SP rt rp look).

Lemma step_run b (P : Nd -> Prop) m T w node :
  step b P m T -> Inv w -> look w = Some node -> P node ->
  post rt rp b w (m w)
    (fun _ w' => exists node', look w' = Some node' /\ T w' node node').
Proof using Type. intros [_ H]. apply H. Qed.

Lemma step_modify b (P : Nd -> Prop) f :
  step b P (modify f) (fun _ n n' => n' = f n).
Proof using Hmod Hkeep Hbt Hbp.
  split; [intros w w' n n' _ _ H; exact H|].
  intros w node Hi Hl _. eapply post_conseq; [apply Hmod; eauto|].
  cbn. intros _ w' _ _ Hl'. eauto.
Qed.

Lemma step_ret b (P : Nd -> Prop) :
  step b P (ret tt) (fun _ n n' => n' = n).
Proof using Hmod Hkeep Hbt Hbp.
  split; [intros w w' n n' _ _ H; exact H|].
  intros w node Hi Hl _.
  apply post_ret; [exact Hi | eapply Hbt; eauto | eapply Hbp; eauto | eauto].
Qed.

Lemma step_pre b (P P' : Nd -> Prop) m T :
  step b P m T -> (forall n, P' n -> P n) -> step b P' m T.
Proof using Type.
  intros [Hm H] HP. split; [exact Hm|]. intros w node Hi Hl Hp. apply H; auto.
Qed.

(** A call that does not touch the node, followed by steps that do. *)
Lemma step_call {A} b (P : Nd -> Prop) (m : M A) (Q : World -> A -> Prop)
    (k : A -> M unit) (T : A -> World -> Nd -> Nd -> Prop) :
  (forall w, Inv w -> post None None b w (m w) (fun a w' => Q w' a)) ->
  (forall w w' a, sT w ⊆ sT w' -> sP w ⊆ sP w' -> Q w a -> Q w' a) ->
  (forall a, step b P (k a) (T a)) ->
  step b P (bind m k) (fun w n n' => exists a, Q w a /\ T a w n n').
Proof using Hmod Hkeep Hbt Hbp.
  intros Hm Hmono Hk. split.
  { intros w w' n n' Hst Hsp (a & Hq & Ht). exists a. split.
    - eapply Hmono; eauto.
    - eapply (proj1 (Hk a)); eauto. }
  intros w node Hi Hl Hp.
  eapply post_bind.
  - apply post_call; [eapply Hbt; eauto | eapply Hbp; eauto | apply Hm, Hi].
  - intros a w1 Hi1 He1 [Hq He0]. cbn beta.
    eapply post_conseq.
    + apply (proj2 (Hk a)); [exact Hi1 | eapply Hkeep; eauto | exact Hp].
    + cbn. intros _ w2 Hi2 He2 (n' & Hl2 & Ht). exists n'. split; [exact Hl2|].
      exists a. split; [|exact Ht].
      eapply Hmono; [apply He2 | apply He2 | exact Hq].
Qed.

Lemma step_seq b (P1 P2 : Nd -> Prop) m1 m2 (T1 T2 : World -> Nd -> Nd -> Prop) :
  step b P1 m1 T1 -> step b P2 m2 T2 ->
  (forall w n n1, P1 n -> T1 w n n1 -> P2 n1) ->
  step b P1 (bind m1 (fun _ => m2))
    (fun w n n2 => exists n1, T1 w n n1 /\ T2 w n1 n2).
Proof using Type.
  intros [Hm1 H1] [Hm2 H2] HP. split.
  { intros w w' n n' Hst Hsp (n1 & Ht1 & Ht2). exists n1. split.
    - eapply Hm1; eauto.
    - eapply Hm2; eauto. }
  intros w node Hi Hl Hp.
  eapply post_bind; [apply H1; eauto|].
  intros _ w1 Hi1 He1 (n1 & Hl1 & Ht1). cbn beta.
  eapply post_conseq; [apply H2; eauto|].
  cbn. intros _ w2 Hi2 He2 (n2 & Hl2 & Ht2). exists n2. split; [exact Hl2|].
  exists n1. split; [|exact Ht2].
  eapply Hm1; [apply He2 | apply He2 | exact Ht1].
Qed.

(** A loop whose body clones an item and stores the clone. *)
Lemma step_loop {I X} b (P : Nd -> Prop) (arg : I -> X) (call : X -> M X)
    (valid : X -> Prop) (Rel : World -> X -> X -> Prop) (upd : I -> X -> Nd -> Nd)
    items :
  (forall x w, Inv w -> valid x ->
     post None None b w (call x w) (fun c w' => Rel w' x c)) ->
  (forall w w' x c, sT w ⊆ sT w' -> sP w ⊆ sP w' -> Rel w x c -> Rel w' x c) ->
  Forall (fun i => valid (arg i)) items ->
  step b P
    (forEach items (fun i => bind (call (arg i)) (fun c => modify (upd i c))))
    (fun w n n' =>
       exists cs, Forall2 (fun i c => Rel w (arg i) c) items cs
                  /\ n' = foldl (fun n ic => upd ic.1 ic.2 n) n (zip items cs)).
Proof using Hmod Hkeep Hbt Hbp.
  intros Hcall Hmono Hv. split.
  { intros w w' n n' Hst Hsp (cs & Hcs & ->). exists cs. split; [|reflexivity].
    eapply Forall2_impl; [exact Hcs|]. cbn. intros i c. apply Hmono; auto. }
  intros w node Hi Hl _.
  eapply post_conseq.
  - apply (forEach_cell b arg call valid Rel upd Hcall Hmono items w node Hi Hv Hl).
  - cbn. intros _ w' _ _ (cs & Hcs & Hl'). eauto.
Qed.

(** The same loop when the store does not depend on the item. *)
Lemma step_loop_push {X} b (P : Nd -> Prop) (call : X -> M X) (valid : X -> Prop)
    (Rel : World -> X -> X -> Prop) (g : X -> Nd -> Nd) items :
  (forall x w, Inv w -> valid x ->
     post None None b w (call x w) (fun c w' => Rel w' x c)) ->
  (forall w w' x c, sT w ⊆ sT w' -> sP w ⊆ sP w' -> Rel w x c -> Rel w' x c) ->
  Forall valid items ->
  step b P
    (forEach items (fun x => bind (call x) (fun c => modify (g c))))
    (fun w n n' =>
       exists cs, Forall2 (Rel w) items cs /\ n' = foldl (fun n c => g c n) n cs).
Proof using Hmod Hkeep Hbt Hbp.
  intros Hcall Hmono Hv. split.
  { intros w w' n n' Hst Hsp (cs & Hcs & ->). exists cs. split; [|reflexivity].
    eapply Forall2_impl; [exact Hcs|]. cbn. intros i c. apply Hmono; auto. }
  intros w node Hi Hl _.
  eapply post_conseq.
  - apply (forEach_cell b id call valid Rel (fun _ c => g c) Hcall Hmono items w node
             Hi Hv Hl).
  - cbn. intros _ w' _ _ (cs & Hcs & Hl'). exists (foldl (fun n c => g c n) node cs).
    split.
    + rewrite Hl'. f_equal. apply foldl_zip_snd. eapply Forall2_length; eauto.
    + eauto.
Qed.

End Cell.

(** Clones collected in a local vector. *)
Lemma cloneInto_spec {X} b (call : X -> M X) (valid : X -> Prop)
    (Rel : World -> X -> X -> Prop) :
  (forall x w, Inv w -> valid x ->
     post None None b w (call x w) (fun c w' => Rel w' x c)) ->
  (forall w w' x c, sT w ⊆ sT w' -> sP w ⊆ sP w' -> Rel w x c -> Rel w' x c) ->
  forall xs acc w,
    Inv w -> Forall valid xs ->
    post None None b w (cloneInto call xs acc w)
      (fun r w' => exists cs, r = (acc ++ cs)%list /\ Forall2 (Rel w') xs cs).
Proof.
  intros Hcall Hmono. induction xs as [|x xs IH]; intros acc w Hi Hv.
  - cbn. split; [exact Hi|]. split; [apply Ext_refl; discriminate|].
    exists []. split; [now rewrite app_nil_r | constructor].
  - cbn [cloneInto]. inversion Hv as [|? ? Hv1 Hv2]; subst.
    eapply post_bind; [apply Hcall; auto|].
    intros c w1 Hi1 He1 Hrel. cbn beta.
    eapply post_conseq; [apply (IH _ w1 Hi1 Hv2)|].
    cbn. intros r w2 Hi2 He2 (cs & -> & Hcs).
    exists (c :: cs). split; [now rewrite <- app_assoc|].
    constructor; [|exact Hcs].
    eapply Hmono; [apply He2 | apply He2 | exact Hrel].
Qed.


(** *** The node under construction *)

Lemma tcell_mod r :
  N0 <= r ->
  forall b w f node, Inv w -> tys w !! r = Some node ->
    post (Some r) None b w (modifyType r f w) (fun _ w' => tys w' !! r = Some (f node)).
Proof.
  intros Hr b w f node Hi Hl.
  eapply post_conseq; [apply post_modifyType; eauto; discriminate|].
  cbn. tauto.
Qed.

Lemma tcell_keep r w w' (node : Type_) :
  Ext None None w w' -> tys w !! r = Some node -> tys w' !! r = Some node.
Proof.
  intros He Hl. rewrite (ext_mem_t He); auto.
  eapply lookup_lt_Some; eauto.
Qed.

Lemma tcell_bt r w (node : Type_) :
  tys w !! r = Some node -> forall r', Some r = Some r' -> r' < length (tys w).
Proof. intros Hl r' [= <-]. eapply lookup_lt_Some; eauto. Qed.

Lemma pcell_mod r :
  M0 <= r ->
  forall b w f node, Inv w -> tps w !! r = Some node ->
    post None (Some r) b w (modifyTypePack r f w)
      (fun _ w' => tps w' !! r = Some (f node)).
Proof.
  intros Hr b w f node Hi Hl.
  eapply post_conseq; [apply post_modifyTypePack; eauto; discriminate|].
  cbn. tauto.
Qed.

Lemma pcell_keep r w w' (node : TypePackVar) :
  Ext None None w w' -> tps w !! r = Some node -> tps w' !! r = Some node.
Proof.
  intros He Hl. rewrite (ext_mem_p He); auto.
  eapply lookup_lt_Some; eauto.
Qed.

Lemma pcell_bp r w (node : TypePackVar) :
  tps w !! r = Some node -> forall r', Some r = Some r' -> r' < length (tps w).
Proof. intros Hl r' [= <-]. eapply lookup_lt_Some; eauto. Qed.

Lemma none_bound {w : World} {F : World -> nat} (node : nat) :
  forall r : nat, @None nat = Some r -> r < F w.
Proof. discriminate. Qed.

Lemma open_t {A} w x v0 (k : TypeId -> M A) :
  bind (addType dest v0) (fun result => bind (setSeenType x result) (fun _ => k result)) w
  = k (length (tys w)) (opened_t w x v0).
Proof. reflexivity. Qed.

Lemma open_p {A} w x v0 (k : TypePackId -> M A) :
  bind (addTypePack dest v0)
    (fun result => bind (setSeenTypePack x result) (fun _ => k result)) w
  = k (length (tps w)) (opened_p w x v0).
Proof. reflexivity. Qed.

Lemma Inv_opened_t w x v0 :
  Inv w -> x ∈ ST -> sT w !! x = None -> Inv (opened_t w x v0).
Proof using Hclosed.
  intros [a1 a2 a3 a4 a5 a6 a7 a8] Hx Hn. apply ST_bound in Hx.
  constructor; cbn; rewrite ?length_app; cbn; auto; try lia.
  - intros i Hi. rewrite lookup_app_l by lia. auto.
  - intros y c. rewrite lookup_insert. case_decide.
    + intros [= ?]. subst. lia.
    + intros H'. destruct (a5 _ _ H'). lia.
  - intros y z c. rewrite !lookup_insert. repeat case_decide; subst; auto.
    + intros [= ?] H'. subst. destruct (a5 _ _ H'). lia.
    + intros H' [= ?]. subst. destruct (a5 _ _ H'). lia.
    + eauto.
Qed.

Lemma Inv_opened_p w x v0 :
  Inv w -> x ∈ SP -> sP w !! x = None -> Inv (opened_p w x v0).
Proof using Hclosed.
  intros [a1 a2 a3 a4 a5 a6 a7 a8] Hx Hn. apply SP_bound in Hx.
  constructor; cbn; rewrite ?length_app; cbn; auto; try lia.
  - intros i Hi. rewrite lookup_app_l by lia. auto.
  - intros y c. rewrite lookup_insert. case_decide.
    + intros [= ?]. subst. lia.
    + intros H'. destruct (a6 _ _ H'). lia.
  - intros y z c. rewrite !lookup_insert. repeat case_decide; subst; auto.
    + intros [= ?] H'. subst. destruct (a6 _ _ H'). lia.
    + intros H' [= ?]. subst. destruct (a6 _ _ H'). lia.
    + eauto.
Qed.


(** *** Facts about the seen maps persist *)

Lemma RT_mono rt rp w w' x c :
  Ext rt rp w w' -> sT w !! x = Some c -> sT w' !! x = Some c.
Proof. intros He H. eapply lookup_weaken; [exact H | apply He]. Qed.

Lemma RP_mono rt rp w w' x c :
  Ext rt rp w w' -> sP w !! x = Some c -> sP w' !! x = Some c.
Proof. intros He H. eapply lookup_weaken; [exact H | apply He]. Qed.

Lemma RTs_mono rt rp w w' xs cs :
  Ext rt rp w w' -> Forall2 (RT w) xs cs -> Forall2 (RT w') xs cs.
Proof. intros He H. eapply Forall2_impl; [exact H|]. intros; eapply RT_mono; eauto. Qed.

Lemma RPs_mono rt rp w w' xs cs :
  Ext rt rp w w' -> Forall2 (RP w) xs cs -> Forall2 (RP w') xs cs.
Proof. intros He H. eapply Forall2_impl; [exact H|]. intros; eapply RP_mono; eauto. Qed.

Lemma RTo_mono rt rp w w' x c :
  Ext rt rp w w' -> option_Forall2 (RT w) x c -> option_Forall2 (RT w') x c.
Proof. intros He. apply option_Forall2_mono. intros; eapply RT_mono; eauto. Qed.

Lemma RPo_mono rt rp w w' x c :
  Ext rt rp w w' -> option_Forall2 (RP w) x c -> option_Forall2 (RP w') x c.
Proof. intros He. apply option_Forall2_mono. intros; eapply RP_mono; eauto. Qed.

Lemma RT_seen_mono w w' x c :
  sT w ⊆ sT w' -> sP w ⊆ sP w' -> sT w !! x = Some c -> sT w' !! x = Some c.
Proof. intros H1 _ H. eapply lookup_weaken; eauto. Qed.

Lemma RP_seen_mono w w' x c :
  sT w ⊆ sT w' -> sP w ⊆ sP w' -> sP w !! x = Some c -> sP w' !! x = Some c.
Proof. intros _ H1 H. eapply lookup_weaken; eauto. Qed.

Lemma copy_Property_seen_mono w w' p p' :
  sT w ⊆ sT w' -> sP w ⊆ sP w' ->
  copy_Property (RT w) p p' -> copy_Property (RT w') p p'.
Proof.
  intros H1 _. apply copy_Property_mono. intros; eapply lookup_weaken; eauto.
Qed.

Lemma copy_TableIndexer_seen_mono w w' p p' :
  sT w ⊆ sT w' -> sP w ⊆ sP w' ->
  copy_TableIndexer (RT w) p p' -> copy_TableIndexer (RT w') p p'.
Proof.
  intros H1 _. apply copy_TableIndexer_mono. intros; eapply lookup_weaken; eauto.
Qed.

Lemma copy_props_Ext rt rp w w' ps ps' :
  Ext rt rp w w' -> copy_props (RT w) ps ps' -> copy_props (RT w') ps ps'.
Proof. intros He. apply copy_props_mono. intros; eapply RT_mono; eauto. Qed.

Lemma copy_ix_Ext rt rp w w' (ix ix' : option TableIndexer) :
  Ext rt rp w w' ->
  option_Forall2 (copy_TableIndexer (RT w)) ix ix' ->
  option_Forall2 (copy_TableIndexer (RT w')) ix ix'.
Proof.
  intros He. apply option_Forall2_mono. intros ? ?.
  apply copy_TableIndexer_mono. intros; eapply RT_mono; eauto.
Qed.

(** *** The cloners, given faithful recursive calls *)

Lemma EX_0 w : EX 0 w.
Proof. unfold CloneSpec.EX. lia. Qed.

Lemma EX_insert_t b w w' x c :
  x ∈ ST -> sT w !! x = None ->
  sT w' = <[x := c]> (sT w) -> sP w' = sP w -> EX b w' -> EX (S b) w.
Proof.
  intros Hx Hn Ht Hp. unfold CloneSpec.EX. rewrite Ht, Hp.
  rewrite (size_unseen_insert ST (sT w) x c Hx Hn). lia.
Qed.

Lemma EX_insert_p b w w' x c :
  x ∈ SP -> sP w !! x = None ->
  sP w' = <[x := c]> (sP w) -> sT w' = sT w -> EX b w' -> EX (S b) w.
Proof.
  intros Hx Hn Hp Ht. unfold CloneSpec.EX. rewrite Ht, Hp.
  rewrite (size_unseen_insert SP (sP w) x c Hx Hn). lia.
Qed.

Section Visitors.
Context (b : nat) (cT : TypeId -> M TypeId) (cP : TypePackId -> M TypePackId).
Context (HT : clones_types dest base ST SP b cT).
Context (HP : clones_packs dest base ST SP b cP).

Local Abbreviation visited_t := (CloneSpec.visited_t dest base ST SP b).
Local Abbreviation visited_p := (CloneSpec.visited_p dest base ST SP b).

Set Default Proof Using "HT HP Hclosed".

Lemma body_to_visited_t x v v0 w (o : Outcome unit) :
  x ∈ ST -> sT w !! x = None ->
  post (Some (length (tys w))) None b (opened_t w x v0) o
    (fun _ w2 => exists v',
       tys w2 !! length (tys w) = Some (mkType v' false None (Some dest))
       /\ copy_variant (RT w2) (RP w2) v v') ->
  visited_t x v w o.
Proof.
  intros Hx Hn. destruct o as [[] w2| |]; cbn; auto.
  - intros (Hi & He & v' & Hl & Hc). exists v0, v'. auto.
  - now apply (EX_insert_t b w (opened_t w x v0) x (length (tys w))).
Qed.

Lemma body_to_visited_p x v v0 w (o : Outcome unit) :
  x ∈ SP -> sP w !! x = None ->
  post None (Some (length (tps w))) b (opened_p w x v0) o
    (fun _ w2 => exists v',
       tps w2 !! length (tps w) = Some (mkTypePackVar v' false (Some dest))
       /\ copy_pack_variant (RT w2) (RP w2) v v') ->
  visited_p x v w o.
Proof.
  intros Hx Hn. destruct o as [[] w2| |]; cbn; auto.
  - intros (Hi & He & v' & Hl & Hc). exists v0, v'. auto.
  - now apply (EX_insert_p b w (opened_p w x v0) x (length (tps w))).
Qed.

Lemma opened_t_lookup w x v0 :
  tys (opened_t w x v0) !! length (tys w) = Some (mkType v0 false None (Some dest)).
Proof using Type. cbn. now rewrite list_lookup_middle. Qed.

Lemma opened_p_lookup w x v0 :
  tps (opened_p w x v0) !! length (tps w) = Some (mkTypePackVar v0 false (Some dest)).
Proof using Type. cbn. now rewrite list_lookup_middle. Qed.

Lemma opened_t_bound w x v0 r :
  Some (length (tys w)) = Some r -> r < length (tys (opened_t w x v0)).
Proof using Type. intros [= <-]. cbn. rewrite length_app. cbn. lia. Qed.

Lemma opened_p_bound w x v0 r :
  Some (length (tps w)) = Some r -> r < length (tps (opened_p w x v0)).
Proof using Type. intros [= <-]. cbn. rewrite length_app. cbn. lia. Qed.

(** A node without edges: [defaultClone]. *)
Lemma defaultClone_spec x v w :
  Inv w -> x ∈ ST -> sT w !! x = None ->
  copy_variant (RT (opened_t w x v)) (RP (opened_t w x v)) v v ->
  visited_t x v w (defaultClone dest x v w).
Proof.
  intros Hi Hx Hn Hc.
  change (defaultClone dest x v w) with (ret tt (opened_t w x v)).
  apply (body_to_visited_t x v v); [exact Hx | exact Hn |].
  apply post_ret; [apply Inv_opened_t; auto | apply opened_t_bound | discriminate |].
  exists v. split; [apply opened_t_lookup | exact Hc].
Qed.

Lemma tp_defaultClone_spec x v w :
  Inv w -> x ∈ SP -> sP w !! x = None ->
  copy_pack_variant (RT (opened_p w x v)) (RP (opened_p w x v)) v v ->
  visited_p x v w (tp_defaultClone dest x v w).
Proof.
  intros Hi Hx Hn Hc.
  change (tp_defaultClone dest x v w) with (ret tt (opened_p w x v)).
  apply (body_to_visited_p x v v); [exact Hx | exact Hn |].
  apply post_ret; [apply Inv_opened_p; auto | discriminate | apply opened_p_bound |].
  exists v. split; [apply opened_p_lookup | exact Hc].
Qed.

(** The loops and the single steps on a type node under construction. *)
Lemma t_call {X} r (call : X -> M X) (Rel : World -> X -> X -> Prop)
    (f : X -> Type_ -> Type_) x w node :
  N0 <= r ->
  post None None b w (call x w) (fun c w' => Rel w' x c) ->
  (forall w w' x c, sT w ⊆ sT w' -> sP w ⊆ sP w' -> Rel w x c -> Rel w' x c) ->
  tys w !! r = Some node ->
  post (Some r) None b w (bind (call x) (fun c => modifyType r (f c)) w)
    (fun _ w' => exists c, Rel w' x c /\ tys w' !! r = Some (f c node)).
Proof.
  intros Hr. apply (cell_call_modify (Some r) None (fun w => tys w !! r) (modifyType r)).
  - apply tcell_mod, Hr.
  - apply tcell_keep.
  - apply tcell_bt.
  - discriminate.
Qed.

Lemma t_forEach {I X} r (arg : I -> X) (call : X -> M X) (valid : X -> Prop)
    (Rel : World -> X -> X -> Prop) (upd : I -> X -> Type_ -> Type_) items w node :
  N0 <= r ->
  (forall x w, Inv w -> valid x ->
     post None None b w (call x w) (fun c w' => Rel w' x c)) ->
  (forall w w' x c, sT w ⊆ sT w' -> sP w ⊆ sP w' -> Rel w x c -> Rel w' x c) ->
  Inv w -> Forall (fun i => valid (arg i)) items -> tys w !! r = Some node ->
  post (Some r) None b w
    (forEach items (fun i => bind (call (arg i)) (fun c => modifyType r (upd i c))) w)
    (fun _ w' =>
       exists cs, Forall2 (fun i c => Rel w' (arg i) c) items cs
                  /\ tys w' !! r = Some (foldl (fun n ic => upd ic.1 ic.2 n) node
                                           (zip items cs))).
Proof.
  intros Hr Hcall Hmono.
  apply (forEach_cell (Some r) None (fun w => tys w !! r) (modifyType r)
           (tcell_mod r Hr) (tcell_keep r) (tcell_bt r)
           ltac:(discriminate) b arg call valid Rel upd Hcall Hmono).
Qed.

Lemma p_call {X} r (call : X -> M X) (Rel : World -> X -> X -> Prop)
    (f : X -> TypePackVar -> TypePackVar) x w node :
  M0 <= r ->
  post None None b w (call x w) (fun c w' => Rel w' x c) ->
  (forall w w' x c, sT w ⊆ sT w' -> sP w ⊆ sP w' -> Rel w x c -> Rel w' x c) ->
  tps w !! r = Some node ->
  post None (Some r) b w (bind (call x) (fun c => modifyTypePack r (f c)) w)
    (fun _ w' => exists c, Rel w' x c /\ tps w' !! r = Some (f c node)).
Proof.
  intros Hr.
  apply (cell_call_modify None (Some r) (fun w => tps w !! r) (modifyTypePack r)).
  - apply pcell_mod, Hr.
  - apply pcell_keep.
  - discriminate.
  - apply pcell_bp.
Qed.

Lemma p_forEach {I X} r (arg : I -> X) (call : X -> M X) (valid : X -> Prop)
    (Rel : World -> X -> X -> Prop) (upd : I -> X -> TypePackVar -> TypePackVar)
    items w node :
  M0 <= r ->
  (forall x w, Inv w -> valid x ->
     post None None b w (call x w) (fun c w' => Rel w' x c)) ->
  (forall w w' x c, sT w ⊆ sT w' -> sP w ⊆ sP w' -> Rel w x c -> Rel w' x c) ->
  Inv w -> Forall (fun i => valid (arg i)) items -> tps w !! r = Some node ->
  post None (Some r) b w
    (forEach items
       (fun i => bind (call (arg i)) (fun c => modifyTypePack r (upd i c))) w)
    (fun _ w' =>
       exists cs, Forall2 (fun i c => Rel w' (arg i) c) items cs
                  /\ tps w' !! r = Some (foldl (fun n ic => upd ic.1 ic.2 n) node
                                           (zip items cs))).
Proof.
  intros Hr Hcall Hmono.
  apply (forEach_cell None (Some r) (fun w => tps w !! r) (modifyTypePack r)
           (pcell_mod r Hr) (pcell_keep r) ltac:(discriminate) (pcell_bp r)
           b arg call valid Rel upd Hcall Hmono).
Qed.


Lemma RT_valid x w :
  Inv w -> x ∈ ST -> post None None b w (cT x w) (fun c w' => RT w' x c).
Proof. intros. now apply HT. Qed.

Lemma RP_valid x w :
  Inv w -> x ∈ SP -> post None None b w (cP x w) (fun c w' => RP w' x c).
Proof. intros. now apply HP. Qed.

Lemma NegationType_spec x t w :
  Inv w -> x ∈ ST -> sT w !! x = None -> t ∈ ST ->
  visited_t x (NegationType t) w (TypeCloner flags dest cT cP x (NegationType t) w).
Proof.
  intros Hi Hx Hn Ht. cbn [TypeCloner]. rewrite open_t.
  eapply body_to_visited_t; [exact Hx | exact Hn |].
  eapply post_conseq.
  - apply (t_call (length (tys w)) cT (fun w x c => RT w x c)
             (fun c => setTy (NegationType c)) t).
    + apply Hi.
    + apply RT_valid; [apply Inv_opened_t; auto | exact Ht].
    + apply RT_seen_mono.
    + apply opened_t_lookup.
  - cbn. intros _ w2 Hi2 He2 (c & Hc & Hl).
    exists (NegationType c). split; [exact Hl|]. cbn. eauto.
Qed.

Lemma IntersectionType_spec x parts w :
  Inv w -> x ∈ ST -> sT w !! x = None -> Forall (fun t => t ∈ ST) parts ->
  visited_t x (IntersectionType parts) w
    (TypeCloner flags dest cT cP x (IntersectionType parts) w).
Proof.
  intros Hi Hx Hn Ht. cbn [TypeCloner]. rewrite open_t.
  eapply body_to_visited_t; [exact Hx | exact Hn |].
  eapply post_conseq.
  - apply (t_forEach (length (tys w)) id cT (fun t => t ∈ ST)
             (fun w x c => RT w x c) (fun _ c => onVariant (push_part c))).
    + apply Hi.
    + intros; now apply RT_valid.
    + apply RT_seen_mono.
    + apply Inv_opened_t; auto.
    + exact Ht.
    + apply opened_t_lookup.
  - cbn. intros _ w2 Hi2 He2 (cs & Hcs & Hl).
    exists (IntersectionType cs). split; [|cbn; eauto].
    rewrite Hl. f_equal.
    apply (pushes_spec (fun c => onVariant (push_part c))
             (fun l => mkType (IntersectionType l) false None (Some dest)) _ _ _
             ltac:(reflexivity) Hcs).
Qed.


(** *** Properties and indexers *)

Lemma cloneOptionalType_spec o w :
  Inv w -> option_Forall (fun t => t ∈ ST) o ->
  post None None b w (cloneOptionalType cT o w)
    (fun o' w' => option_Forall2 (RT w') o o').
Proof.
  intros Hi Ho. destruct o as [t|]; cbn [cloneOptionalType].
  - inversion Ho; subst. eapply post_bind; [apply RT_valid; eauto|].
    intros c w1 Hi1 He1 Hc. cbn beta.
    apply post_ret; [exact Hi1 | discriminate | discriminate |].
    constructor. exact Hc.
  - apply post_ret; [exact Hi | discriminate | discriminate | constructor].
Qed.

Lemma clone_Property_spec p w :
  Inv w -> cloneable_Property flags p -> closed_Property (fun t => t ∈ ST) p ->
  post None None b w (clone_Property flags cT p w)
    (fun p' w' => copy_Property (RT w') p p').
Proof.
  intros Hi Hc [Hr Hw]. unfold clone_Property, cloneable_Property in *.
  destruct (DebugLuauReadWriteProperties flags).
  - eapply post_bind; [apply cloneOptionalType_spec; eauto|].
    intros r1 w1 Hi1 He1 H1. cbn beta.
    eapply post_bind; [apply cloneOptionalType_spec; eauto|].
    intros r2 w2 Hi2 He2 H2. cbn beta.
    assert (H1' := RTo_mono _ _ _ _ _ _ He2 H1).
    assert (Hsome : is_Some r1 \/ is_Some r2).
    { destruct Hc as [[t Ht]|[t Ht]]; [left|right].
      - rewrite Ht in H1. inversion H1; eauto.
      - rewrite Ht in H2. inversion H2; eauto. }
    destruct r1 as [c1|], r2 as [c2|]; cbn;
      try (split; [exact Hi2|]; split; [apply Ext_refl; discriminate|];
           unfold copy_Property; cbn; tauto).
    destruct Hsome as [[? [=]]|[? [=]]].
  - destruct Hc as (t & Hrt & Hwt). rewrite Hrt in *. inversion Hr; subst.
    eapply post_bind; [apply RT_valid; eauto|].
    intros c w1 Hi1 He1 Hc1. cbn beta.
    apply post_ret; [exact Hi1 | discriminate | discriminate |].
    unfold copy_Property, Property_of_type. cbn. rewrite Hrt, Hwt.
    split; [constructor; exact Hc1|]. split; [constructor; exact Hc1|]. tauto.
Qed.

Lemma clone_TableIndexer_spec ix w :
  LuauTypecheckClassTypeIndexers flags = true ->
  Inv w -> closed_TableIndexer (fun t => t ∈ ST) ix ->
  post None None b w (clone_TableIndexer flags cT ix w)
    (fun ix' w' => copy_TableIndexer (RT w') ix ix').
Proof.
  intros Hf Hi [Ha Hb]. unfold clone_TableIndexer. rewrite Hf.
  eapply post_bind; [apply RT_valid; eauto|].
  intros c1 w1 Hi1 He1 H1. cbn beta.
  eapply post_bind; [apply RT_valid; eauto|].
  intros c2 w2 Hi2 He2 H2. cbn beta.
  apply post_ret; [exact Hi2 | discriminate | discriminate |].
  split; cbn; [eapply RT_mono; eauto | exact H2].
Qed.


(** *** Steps on a type node and on a pack node under construction *)

Local Abbreviation tstep r := (CloneSpec.step_on dest base ST SP (Some r) None
                                (fun w => tys w !! r) b).
Local Abbreviation pstep r := (CloneSpec.step_on dest base ST SP None (Some r)
                                (fun w => tps w !! r) b).

Ltac tcell Hr :=
  first [ exact (tcell_mod _ Hr) | exact (tcell_keep _) | exact (tcell_bt _)
        | (intros; discriminate) ].
Ltac pcell Hr :=
  first [ exact (pcell_mod _ Hr) | exact (pcell_keep _) | exact (pcell_bp _)
        | (intros; discriminate) ].

Lemma ts_modify r (P : Type_ -> Prop) f :
  N0 <= r -> tstep r P (modifyType r f) (fun _ n n' => n' = f n).
Proof. intros Hr. apply step_modify; tcell Hr. Qed.

Lemma ts_ret r (P : Type_ -> Prop) :
  N0 <= r -> tstep r P (ret tt) (fun _ n n' => n' = n).
Proof. intros Hr. apply (step_ret (Some r) None (fun w => tys w !! r) (modifyType r)); tcell Hr. Qed.

Lemma ts_cT r (P : Type_ -> Prop) x k T :
  N0 <= r -> x ∈ ST -> (forall c, tstep r P (k c) (T c)) ->
  tstep r P (bind (cT x) k) (fun w n n' => exists c, RT w x c /\ T c w n n').
Proof.
  intros Hr Hx Hk.
  eapply (step_call (Some r) None (fun w => tys w !! r) (modifyType r))
    with (Q := fun w c => RT w x c); try tcell Hr.
  - intros w Hi. now apply RT_valid.
  - intros w w' a. apply RT_seen_mono.
  - exact Hk.
Qed.

Lemma ts_cP r (P : Type_ -> Prop) x k T :
  N0 <= r -> x ∈ SP -> (forall c, tstep r P (k c) (T c)) ->
  tstep r P (bind (cP x) k) (fun w n n' => exists c, RP w x c /\ T c w n n').
Proof.
  intros Hr Hx Hk.
  eapply (step_call (Some r) None (fun w => tys w !! r) (modifyType r))
    with (Q := fun w c => RP w x c); try tcell Hr.
  - intros w Hi. now apply RP_valid.
  - intros w w' a. apply RP_seen_mono.
  - exact Hk.
Qed.

Lemma Forall2_RT_seen_mono w w' xs cs :
  sT w ⊆ sT w' -> sP w ⊆ sP w' -> Forall2 (RT w) xs cs -> Forall2 (RT w') xs cs.
Proof using Type.
  intros Hst Hsp H. eapply Forall2_impl; [exact H|]. cbn. intros x c.
  now apply RT_seen_mono.
Qed.

Lemma Forall2_RP_seen_mono w w' xs cs :
  sT w ⊆ sT w' -> sP w ⊆ sP w' -> Forall2 (RP w) xs cs -> Forall2 (RP w') xs cs.
Proof using Type.
  intros Hst Hsp H. eapply Forall2_impl; [exact H|]. cbn. intros x c.
  now apply RP_seen_mono.
Qed.

Lemma ts_intoT r (P : Type_ -> Prop) xs k T :
  N0 <= r -> Forall (fun x => x ∈ ST) xs -> (forall cs, tstep r P (k cs) (T cs)) ->
  tstep r P (bind (cloneInto cT xs []) k)
    (fun w n n' => exists cs, Forall2 (RT w) xs cs /\ T cs w n n').
Proof.
  intros Hr Hx Hk.
  eapply (step_call (Some r) None (fun w => tys w !! r) (modifyType r))
    with (Q := fun w cs => Forall2 (RT w) xs cs); try tcell Hr.
  - intros w Hi. eapply post_conseq.
    + apply (cloneInto_spec b cT (fun x => x ∈ ST) (fun w x c => RT w x c)).
      * intros; now apply RT_valid.
      * apply RT_seen_mono.
      * exact Hi.
      * exact Hx.
    + cbn. intros cs w' _ _ (cs' & -> & H). exact H.
  - intros w w' a. apply Forall2_RT_seen_mono.
  - exact Hk.
Qed.

Lemma ts_intoP r (P : Type_ -> Prop) xs k T :
  N0 <= r -> Forall (fun x => x ∈ SP) xs -> (forall cs, tstep r P (k cs) (T cs)) ->
  tstep r P (bind (cloneInto cP xs []) k)
    (fun w n n' => exists cs, Forall2 (RP w) xs cs /\ T cs w n n').
Proof.
  intros Hr Hx Hk.
  eapply (step_call (Some r) None (fun w => tys w !! r) (modifyType r))
    with (Q := fun w cs => Forall2 (RP w) xs cs); try tcell Hr.
  - intros w Hi. eapply post_conseq.
    + apply (cloneInto_spec b cP (fun x => x ∈ SP) (fun w x c => RP w x c)).
      * intros; now apply RP_valid.
      * apply RP_seen_mono.
      * exact Hi.
      * exact Hx.
    + cbn. intros cs w' _ _ (cs' & -> & H). exact H.
  - intros w w' a. apply Forall2_RP_seen_mono.
  - exact Hk.
Qed.

Lemma ts_prop r (P : Type_ -> Prop) p k T :
  N0 <= r -> cloneable_Property flags p -> closed_Property (fun t => t ∈ ST) p ->
  (forall c, tstep r P (k c) (T c)) ->
  tstep r P (bind (clone_Property flags cT p) k)
    (fun w n n' => exists c, copy_Property (RT w) p c /\ T c w n n').
Proof.
  intros Hr Hc Hx Hk.
  eapply (step_call (Some r) None (fun w => tys w !! r) (modifyType r))
    with (Q := fun w c => copy_Property (RT w) p c); try tcell Hr.
  - intros w Hi. now apply clone_Property_spec.
  - intros w w' a. apply copy_Property_seen_mono.
  - exact Hk.
Qed.

Lemma ts_ix r (P : Type_ -> Prop) ix k T :
  N0 <= r -> LuauTypecheckClassTypeIndexers flags = true ->
  closed_TableIndexer (fun t => t ∈ ST) ix ->
  (forall c, tstep r P (k c) (T c)) ->
  tstep r P (bind (clone_TableIndexer flags cT ix) k)
    (fun w n n' => exists c, copy_TableIndexer (RT w) ix c /\ T c w n n').
Proof.
  intros Hr Hf Hx Hk.
  eapply (step_call (Some r) None (fun w => tys w !! r) (modifyType r))
    with (Q := fun w c => copy_TableIndexer (RT w) ix c); try tcell Hr.
  - intros w Hi. now apply clone_TableIndexer_spec.
  - intros w w' a. apply copy_TableIndexer_seen_mono.
  - exact Hk.
Qed.

Lemma ts_loopT r (P : Type_ -> Prop) items g :
  N0 <= r -> Forall (fun x => x ∈ ST) items ->
  tstep r P (forEach items (fun x => bind (cT x) (fun c => modifyType r (g c))))
    (fun w n n' =>
       exists cs, Forall2 (RT w) items cs /\ n' = foldl (fun n c => g c n) n cs).
Proof.
  intros Hr Hx.
  eapply (step_loop_push (Some r) None (fun w => tys w !! r) (modifyType r))
    with (valid := fun x => x ∈ ST) (Rel := fun w x c => RT w x c); try tcell Hr.
  - intros; now apply RT_valid.
  - apply RT_seen_mono.
  - exact Hx.
Qed.

Lemma ts_loopP r (P : Type_ -> Prop) items g :
  N0 <= r -> Forall (fun x => x ∈ SP) items ->
  tstep r P (forEach items (fun x => bind (cP x) (fun c => modifyType r (g c))))
    (fun w n n' =>
       exists cs, Forall2 (RP w) items cs /\ n' = foldl (fun n c => g c n) n cs).
Proof.
  intros Hr Hx.
  eapply (step_loop_push (Some r) None (fun w => tys w !! r) (modifyType r))
    with (valid := fun x => x ∈ SP) (Rel := fun w x c => RP w x c); try tcell Hr.
  - intros; now apply RP_valid.
  - apply RP_seen_mono.
  - exact Hx.
Qed.

Lemma ps_modify r (P : TypePackVar -> Prop) f :
  M0 <= r -> pstep r P (modifyTypePack r f) (fun _ n n' => n' = f n).
Proof. intros Hr. apply step_modify; pcell Hr. Qed.

Lemma ps_ret r (P : TypePackVar -> Prop) :
  M0 <= r -> pstep r P (ret tt) (fun _ n n' => n' = n).
Proof. intros Hr. apply (step_ret None (Some r) (fun w => tps w !! r) (modifyTypePack r)); pcell Hr. Qed.

Lemma ps_cP r (P : TypePackVar -> Prop) x k T :
  M0 <= r -> x ∈ SP -> (forall c, pstep r P (k c) (T c)) ->
  pstep r P (bind (cP x) k) (fun w n n' => exists c, RP w x c /\ T c w n n').
Proof.
  intros Hr Hx Hk.
  eapply (step_call None (Some r) (fun w => tps w !! r) (modifyTypePack r))
    with (Q := fun w c => RP w x c); try pcell Hr.
  - intros w Hi. now apply RP_valid.
  - intros w w' a. apply RP_seen_mono.
  - exact Hk.
Qed.

Lemma ps_loopT r (P : TypePackVar -> Prop) items g :
  M0 <= r -> Forall (fun x => x ∈ ST) items ->
  pstep r P (forEach items (fun x => bind (cT x) (fun c => modifyTypePack r (g c))))
    (fun w n n' =>
       exists cs, Forall2 (RT w) items cs /\ n' = foldl (fun n c => g c n) n cs).
Proof.
  intros Hr Hx.
  eapply (step_loop_push None (Some r) (fun w => tps w !! r) (modifyTypePack r))
    with (valid := fun x => x ∈ ST) (Rel := fun w x c => RT w x c); try pcell Hr.
  - intros; now apply RT_valid.
  - apply RT_seen_mono.
  - exact Hx.
Qed.

Lemma ps_loopP r (P : TypePackVar -> Prop) items g :
  M0 <= r -> Forall (fun x => x ∈ SP) items ->
  pstep r P (forEach items (fun x => bind (cP x) (fun c => modifyTypePack r (g c))))
    (fun w n n' =>
       exists cs, Forall2 (RP w) items cs /\ n' = foldl (fun n c => g c n) n cs).
Proof.
  intros Hr Hx.
  eapply (step_loop_push None (Some r) (fun w => tps w !! r) (modifyTypePack r))
    with (valid := fun x => x ∈ SP) (Rel := fun w x c => RP w x c); try pcell Hr.
  - intros; now apply RP_valid.
  - apply RP_seen_mono.
  - exact Hx.
Qed.


Ltac ts Hr :=
  lazymatch goal with
  | |- CloneSpec.step_on _ _ _ _ _ _ _ _ _ (bind (cT _) _) _ =>
      eapply ts_cT; [exact Hr | eauto | intros ?; ts Hr]
  | |- CloneSpec.step_on _ _ _ _ _ _ _ _ _ (bind (cP _) _) _ =>
      eapply ts_cP; [exact Hr | eauto | intros ?; ts Hr]
  | |- CloneSpec.step_on _ _ _ _ _ _ _ _ _ (bind (cloneInto cT _ _) _) _ =>
      eapply ts_intoT; [exact Hr | eauto | intros ?; ts Hr]
  | |- CloneSpec.step_on _ _ _ _ _ _ _ _ _ (bind (cloneInto cP _ _) _) _ =>
      eapply ts_intoP; [exact Hr | eauto | intros ?; ts Hr]
  | |- CloneSpec.step_on _ _ _ _ _ _ _ _ _ (bind (clone_Property _ _ _) _) _ =>
      eapply ts_prop; [exact Hr | eauto | eauto | intros ?; ts Hr]
  | |- CloneSpec.step_on _ _ _ _ _ _ _ _ _ (bind (clone_TableIndexer _ _ _) _) _ =>
      eapply ts_ix; [exact Hr | eauto | eauto | intros ?; ts Hr]
  | |- CloneSpec.step_on _ _ _ _ _ _ _ _ _ (bind _ (fun _ => _)) _ =>
      eapply step_seq; [ts Hr | ts Hr | try (intros; exact I)]
  | |- CloneSpec.step_on _ _ _ _ _ _ _ _ _ (modifyType _ _) _ =>
      eapply ts_modify; exact Hr
  | |- CloneSpec.step_on _ _ _ _ _ _ _ _ _ (ret tt) _ =>
      eapply ts_ret; exact Hr
  | |- CloneSpec.step_on _ _ _ _ _ _ _ _ _ (forEach _ (fun _ => bind (cT _) _)) _ =>
      eapply ts_loopT; [exact Hr | eauto]
  | |- CloneSpec.step_on _ _ _ _ _ _ _ _ _ (forEach _ (fun _ => bind (cP _) _)) _ =>
      eapply ts_loopP; [exact Hr | eauto]
  | |- _ => idtac
  end.

Ltac ps Hr :=
  lazymatch goal with
  | |- CloneSpec.step_on _ _ _ _ _ _ _ _ _ (bind (cP _) _) _ =>
      eapply ps_cP; [exact Hr | eauto | intros ?; ps Hr]
  | |- CloneSpec.step_on _ _ _ _ _ _ _ _ _ (bind _ (fun _ => _)) _ =>
      eapply step_seq; [ps Hr | ps Hr | try (intros; exact I)]
  | |- CloneSpec.step_on _ _ _ _ _ _ _ _ _ (modifyTypePack _ _) _ =>
      eapply ps_modify; exact Hr
  | |- CloneSpec.step_on _ _ _ _ _ _ _ _ _ (ret tt) _ =>
      eapply ps_ret; exact Hr
  | |- CloneSpec.step_on _ _ _ _ _ _ _ _ _ (forEach _ (fun _ => bind (cT _) _)) _ =>
      eapply ps_loopT; [exact Hr | eauto]
  | |- CloneSpec.step_on _ _ _ _ _ _ _ _ _ (forEach _ (fun _ => bind (cP _) _)) _ =>
      eapply ps_loopP; [exact Hr | eauto]
  | |- _ => idtac
  end.

Ltac unpack :=
  repeat match goal with
         | H : exists _, _ |- _ => destruct H
         | H : _ /\ _ |- _ => destruct H
         end.

(** Runs the steps of a type cloner on the node it has just allocated. *)
Ltac run_t Hi Hx Hn Hr :=
  eapply body_to_visited_t; [exact Hx | exact Hn |];
  eapply post_conseq;
  [ eapply step_run with (P := fun _ => True);
    [ts Hr | apply Inv_opened_t; auto | apply opened_t_lookup | exact I]
  | cbn beta; intros _ ?w ?Hi ?He (?n & ?Hl & ?HTT); unpack; subst ].

Ltac run_p Hi Hx Hn Hr :=
  eapply body_to_visited_p; [exact Hx | exact Hn |];
  eapply post_conseq;
  [ eapply step_run with (P := fun _ => True);
    [ps Hr | apply Inv_opened_p; auto | apply opened_p_lookup | exact I]
  | cbn beta; intros _ ?w ?Hi ?He (?n & ?Hl & ?HTT); unpack; subst ].

Lemma FunctionType_spec x f w :
  Inv w -> x ∈ ST -> sT w !! x = None ->
  cloneable flags (FunctionTypeV f) ->
  closed_variant (fun t => t ∈ ST) (fun p => p ∈ SP) (FunctionTypeV f) ->
  visited_t x (FunctionTypeV f) w (TypeCloner flags dest cT cP x (FunctionTypeV f) w).
Proof.
  intros Hi Hx Hn [[a Ha] [rr Hrr]] (Hg & Hgp & Hca & Hcr).
  cbn [TypeCloner]. unfold clone_FunctionType. rewrite open_t.
  rewrite Ha, Hrr in *. inversion Hca; subst. inversion Hcr; subst.
  assert (Hr : N0 <= length (tys w)) by apply Hi.
  run_t Hi Hx Hn Hr.
  rewrite foldl_push_generic, foldl_push_genericPack in Hl. cbn in Hl.
  eexists. split; [exact Hl|]. cbn. eexists. split; [reflexivity|].
  unfold copy_FunctionType. cbn. rewrite Ha, Hrr.
  repeat split; auto; constructor; auto.
Qed.

Lemma MetatableType_spec x t m w :
  Inv w -> x ∈ ST -> sT w !! x = None ->
  cloneable flags (MetatableType t m) ->
  closed_variant (fun t => t ∈ ST) (fun p => p ∈ SP) (MetatableType t m) ->
  visited_t x (MetatableType t m) w
    (TypeCloner flags dest cT cP x (MetatableType t m) w).
Proof.
  intros Hi Hx Hn [[a ->] [rr ->]] (Hca & Hcr).
  cbn [TypeCloner]. unfold clone_MetatableType. rewrite open_t.
  inversion Hca; subst. inversion Hcr; subst.
  assert (Hr : N0 <= length (tys w)) by apply Hi.
  run_t Hi Hx Hn Hr.
  cbn in Hl. eexists. split; [exact Hl|]. cbn. do 2 eexists.
  split; [reflexivity|]. split; constructor; auto.
Qed.

Lemma PendingExpansionType_spec x pre name ts tps_ w :
  Inv w -> x ∈ ST -> sT w !! x = None ->
  closed_variant (fun t => t ∈ ST) (fun p => p ∈ SP)
    (PendingExpansionType pre name ts tps_) ->
  visited_t x (PendingExpansionType pre name ts tps_) w
    (TypeCloner flags dest cT cP x (PendingExpansionType pre name ts tps_) w).
Proof.
  intros Hi Hx Hn (Hca & Hcr).
  cbn [TypeCloner]. rewrite open_t.
  assert (Hr : N0 <= length (tys w)) by apply Hi.
  run_t Hi Hx Hn Hr.
  cbn in Hl. eexists. split; [exact Hl|]. cbn. do 2 eexists.
  split; [reflexivity|]. split; auto.
Qed.

Lemma TypeFamilyInstanceType_spec x fam ts tps_ w :
  Inv w -> x ∈ ST -> sT w !! x = None ->
  closed_variant (fun t => t ∈ ST) (fun p => p ∈ SP)
    (TypeFamilyInstanceType fam ts tps_) ->
  visited_t x (TypeFamilyInstanceType fam ts tps_) w
    (TypeCloner flags dest cT cP x (TypeFamilyInstanceType fam ts tps_) w).
Proof.
  intros Hi Hx Hn (Hca & Hcr).
  cbn [TypeCloner]. rewrite open_t.
  assert (Hr : N0 <= length (tys w)) by apply Hi.
  run_t Hi Hx Hn Hr.
  rewrite foldl_push_typeArgument, foldl_push_packArgument in Hl. cbn in Hl.
  eexists. split; [exact Hl|]. cbn. do 2 eexists.
  split; [reflexivity|]. split; auto.
Qed.

Lemma UnionType_spec x options w :
  Inv w -> x ∈ ST -> sT w !! x = None ->
  cloneable flags (UnionType options) ->
  closed_variant (fun t => t ∈ ST) (fun p => p ∈ SP) (UnionType options) ->
  visited_t x (UnionType options) w
    (TypeCloner flags dest cT cP x (UnionType options) w).
Proof.
  intros Hi Hx Hn Hf Hc. cbn in Hf, Hc.
  cbn [TypeCloner]. unfold clone_UnionType. rewrite Hf, open_t.
  assert (Hr : N0 <= length (tys w)) by apply Hi.
  run_t Hi Hx Hn Hr.
  cbn in Hl. eexists. split; [exact Hl|]. cbn. eexists.
  split; [reflexivity|]. auto.
Qed.

Lemma TypePack_spec x hd tl w :
  Inv w -> x ∈ SP -> sP w !! x = None ->
  closed_pack_variant (fun t => t ∈ ST) (fun p => p ∈ SP) (TypePack hd tl) ->
  visited_p x (TypePack hd tl) w
    (TypePackCloner flags dest cT cP x (TypePack hd tl) w).
Proof.
  intros Hi Hx Hn (Hca & Hcr).
  cbn [TypePackCloner]. rewrite open_p.
  assert (Hr : M0 <= length (tps w)) by apply Hi.
  destruct tl as [tl|]; [inversion Hcr; subst|].
  - run_p Hi Hx Hn Hr.
    rewrite foldl_push_head in Hl. cbn in Hl.
    eexists. split; [exact Hl|]. cbn. do 2 eexists.
    split; [reflexivity|]. split; [auto | constructor; auto].
  - run_p Hi Hx Hn Hr.
    rewrite foldl_push_head in Hl. cbn in Hl.
    eexists. split; [exact Hl|]. cbn. do 2 eexists.
    split; [reflexivity|]. split; [auto | constructor].
Qed.

Lemma TypeFamilyInstanceTypePack_spec x fam ts tps_ w :
  Inv w -> x ∈ SP -> sP w !! x = None ->
  closed_pack_variant (fun t => t ∈ ST) (fun p => p ∈ SP)
    (TypeFamilyInstanceTypePack fam ts tps_) ->
  visited_p x (TypeFamilyInstanceTypePack fam ts tps_) w
    (TypePackCloner flags dest cT cP x (TypeFamilyInstanceTypePack fam ts tps_) w).
Proof.
  intros Hi Hx Hn (Hca & Hcr).
  cbn [TypePackCloner]. rewrite open_p.
  assert (Hr : M0 <= length (tps w)) by apply Hi.
  run_p Hi Hx Hn Hr.
  rewrite foldl_push_tp_typeArgument, foldl_push_tp_packArgument in Hl. cbn in Hl.
  eexists. split; [exact Hl|]. cbn. do 2 eexists.
  split; [reflexivity|]. split; auto.
Qed.


(** The loop over the properties of a table or a class. *)
Lemma ts_loop_props r (P : Type_ -> Prop) (ps : gmap Name Property)
    (g : Name -> Property -> Type_ -> Type_) :
  N0 <= r -> cloneable_props flags ps -> closed_props (fun t => t ∈ ST) ps ->
  tstep r P
    (forEach (map_to_list ps) (fun '(name, prop) =>
       bind (clone_Property flags cT prop) (fun c => modifyType r (g name c))))
    (fun w n n' =>
       exists cs, Forall2 (fun i c => copy_Property (RT w) i.2 c) (map_to_list ps) cs
                  /\ n' = foldl (fun n ic => g ic.1.1 ic.2 n) n
                            (zip (map_to_list ps) cs)).
Proof.
  intros Hr Hc Hcl.
  rewrite (forEach_ext _
             (fun i => bind (clone_Property flags cT i.2)
                         (fun c => modifyType r (g i.1 c))))
    by (intros [name prop]; reflexivity).
  eapply (step_loop (Some r) None (fun w => tys w !! r) (modifyType r))
    with (arg := snd)
         (valid := fun p => cloneable_Property flags p
                            /\ closed_Property (fun t => t ∈ ST) p)
         (Rel := fun w p c => copy_Property (RT w) p c)
         (upd := fun i c => g i.1 c); try tcell Hr.
  - intros p w Hi [H1 H2]. now apply clone_Property_spec.
  - intros w w' p c. apply copy_Property_seen_mono.
  - apply Forall_forall. intros [name prop] Hin.
    apply elem_of_map_to_list in Hin. cbn. split.
    + exact (Hc name prop Hin).
    + exact (Hcl name prop Hin).
Qed.

Ltac ts' Hr :=
  lazymatch goal with
  | |- CloneSpec.step_on _ _ _ _ _ _ _ _ _ (bind (forEach (map_to_list _) _) (fun _ => _)) _ =>
      eapply step_seq;
      [eapply ts_loop_props; [exact Hr | eauto | eauto] | ts' Hr
      | try (intros; exact I)]
  | |- CloneSpec.step_on _ _ _ _ _ _ _ _ _ (bind (cT _) _) _ =>
      eapply ts_cT; [exact Hr | eauto | intros ?; ts' Hr]
  | |- CloneSpec.step_on _ _ _ _ _ _ _ _ _ (bind (clone_TableIndexer _ _ _) _) _ =>
      eapply ts_ix; [exact Hr | eauto | eauto | intros ?; ts' Hr]
  | |- CloneSpec.step_on _ _ _ _ _ _ _ _ _ (bind _ (fun _ => _)) _ =>
      eapply step_seq; [ts' Hr | ts' Hr | try (intros; exact I)]
  | |- _ => ts Hr
  end.

Ltac run_t' Hi Hx Hn Hr :=
  eapply body_to_visited_t; [exact Hx | exact Hn |];
  eapply post_conseq;
  [ eapply step_run with (P := fun _ => True);
    [ts' Hr | apply Inv_opened_t; auto | apply opened_t_lookup | exact I]
  | cbn beta; intros _ ?w ?Hi ?He (?n & ?Hl & ?HTT); unpack; subst ].

Lemma ClassType_spec x c w :
  Inv w -> x ∈ ST -> sT w !! x = None ->
  cloneable flags (ClassTypeV c) ->
  closed_variant (fun t => t ∈ ST) (fun p => p ∈ SP) (ClassTypeV c) ->
  visited_t x (ClassTypeV c) w (TypeCloner flags dest cT cP x (ClassTypeV c) w).
Proof.
  intros Hi Hx Hn [Hcp Hci] (Hp & Hpar & Hmt & Hix).
  cbn [TypeCloner]. unfold clone_ClassType. rewrite open_t.
  assert (Hr : N0 <= length (tys w)) by apply Hi.
  destruct c as [nm ps par mt tg ud dm ix]. cbn in *.
  assert (Hprops : forall w2 cs,
            Forall2 (fun i c => copy_Property (RT w2) i.2 c) (map_to_list ps) cs ->
            copy_props (RT w2) ps (insert_props ∅ (zip (map_to_list ps) cs))).
  { intros w2 cs Hcs name. apply copy_props_insert_props; [|exact Hcs].
    intros; apply lookup_empty. }
  destruct (LuauTypecheckClassTypeIndexers flags) eqn:Hflag;
    [|rewrite (Hci eq_refl) in *];
    destruct par as [par|]; destruct mt as [mt|];
    try (destruct ix as [ix|]);
    repeat match goal with
           | H : option_Forall _ (Some _) |- _ => inversion H; subst; clear H
           end;
    run_t' Hi Hx Hn Hr;
    rewrite foldl_set_ct_prop in Hl; cbn in Hl;
    (eexists; split; [exact Hl|]); cbn; (eexists; split; [reflexivity|]);
    unfold copy_ClassType; cbn;
    repeat split; auto; try constructor; auto.
Qed.


(** *** The table cloner *)

Lemma getType_bind {A} r node (k : Type_ -> M A) w :
  tys w !! r = Some node -> bind (getType r) k w = k node w.
Proof using Type. intros H. unfold bind, getType. now rewrite H. Qed.

Lemma table_open {A} w x t (k : TypeId -> M A) :
  bind (addType dest (TableTypeV emptyTableType))
    (fun result => bind (modifyType result (setTy (TableTypeV t)))
       (fun _ => bind (setSeenType x result) (fun _ => k result))) w
  = k (length (tys w)) (opened_t w x (TableTypeV t)).
Proof using Type.
  unfold bind, addType, modifyType. cbn.
  rewrite list_lookup_middle by reflexivity. cbn.
  rewrite insert_app_r_alt by lia. rewrite Nat.sub_diag. reflexivity.
Qed.

Lemma typeParams_loop r :
  N0 <= r -> forall rest i w node ttv,
  Inv w -> tys w !! r = Some node -> ty node = TableTypeV ttv ->
  drop i (instantiatedTypeParams ttv) = rest -> Forall (fun t => t ∈ ST) rest ->
  post (Some r) None b w (forEach (seq i (length rest)) (cloneTypeParamAt cT r) w)
    (fun _ w' =>
       exists cs, Forall2 (RT w') rest cs
         /\ tys w' !! r
            = Some (onTable (with_typeParams (take i (instantiatedTypeParams ttv) ++ cs)) node)).
Proof.
  intros Hr. induction rest as [|arg rest IH]; intros i w node ttv Hi Hl Hty Hd Hv.
  - cbn [length seq forEach].
    apply post_ret; [exact Hi | eapply tcell_bt; eauto | discriminate |].
    exists []. split; [constructor|]. rewrite Hl. f_equal.
    rewrite app_nil_r.
    assert (Ht : take i (instantiatedTypeParams ttv) = instantiatedTypeParams ttv).
    { rewrite <- (take_drop i (instantiatedTypeParams ttv)) at 2.
      now rewrite Hd, app_nil_r. }
    rewrite Ht. destruct node as [v p d o]. cbn in Hty. subst v.
    destruct ttv. reflexivity.
  - cbn [length seq forEach].
    assert (Hlk : instantiatedTypeParams ttv !! i = Some arg).
    { rewrite <- (Nat.add_0_r i), <- lookup_drop, Hd. reflexivity. }
    inversion Hv as [|? ? Harg Hrest]; subst.
    eapply post_bind.
    + unfold cloneTypeParamAt. rewrite (getType_bind _ _ _ _ Hl). cbn beta.
      rewrite Hty. cbn beta iota. rewrite Hlk.
      apply (t_call r cT (fun w x c => RT w x c)
               (fun c => onTable (set_typeParam i c)) arg w node Hr).
      * apply RT_valid; auto.
      * apply RT_seen_mono.
      * exact Hl.
    + intros _ w1 Hi1 He1 (c & Hc & Hl1). cbn beta.
      assert (Hty1 : ty (onTable (set_typeParam i c) node)
                     = TableTypeV (set_typeParam i c ttv)).
      { destruct node as [v p d o]. cbn in Hty. subst v. reflexivity. }
      assert (Hd1 : drop (S i) (instantiatedTypeParams (set_typeParam i c ttv)) = rest).
      { cbn. rewrite drop_insert_lt by lia.
        rewrite (drop_S _ _ _ Hlk) in Hd. now injection Hd. }
      eapply post_conseq; [apply (IH (S i) w1 _ _ Hi1 Hl1 Hty1 Hd1 Hrest)|].
      cbn beta. intros _ w2 Hi2 He2 (cs & Hcs & Hl2).
      exists (c :: cs). split.
      * constructor; [|exact Hcs]. eapply RT_mono; eauto.
      * rewrite Hl2. f_equal.
        destruct node as [v p d o]. cbn in Hty. subst v. cbn.
        unfold onTable, setTy. cbn. do 2 f_equal. unfold with_typeParams. cbn.
        f_equal.
        rewrite (take_S_r _ _ c)
          by (apply list_lookup_insert_eq; eapply lookup_lt_Some; eauto).
        rewrite take_insert_ge by lia. now rewrite <- app_assoc.
Qed.

Lemma ts_typeParams r ps :
  N0 <= r -> Forall (fun t => t ∈ ST) ps ->
  tstep r (fun n => exists ttv, ty n = TableTypeV ttv /\ instantiatedTypeParams ttv = ps)
    (forEach (seq 0 (length ps)) (cloneTypeParamAt cT r))
    (fun w n n' =>
       exists cs, Forall2 (RT w) ps cs /\ n' = onTable (with_typeParams cs) n).
Proof.
  intros Hr Hv. split.
  { intros w w' n n' Hst Hsp (cs & Hcs & ->). exists cs. split; [|reflexivity].
    eapply Forall2_RT_seen_mono; eauto. }
  intros w node Hi Hl (ttv & Hty & Hps).
  eapply post_conseq.
  - apply (typeParams_loop r Hr ps 0 w node ttv Hi Hl Hty); [|exact Hv].
    now rewrite drop_0.
  - cbn beta. intros _ w' _ _ (cs & Hcs & Hl'). eauto.
Qed.

Lemma typePackParams_loop r :
  N0 <= r -> forall rest i w node ttv,
  Inv w -> tys w !! r = Some node -> ty node = TableTypeV ttv ->
  drop i (instantiatedTypePackParams ttv) = rest -> Forall (fun t => t ∈ SP) rest ->
  post (Some r) None b w (forEach (seq i (length rest)) (cloneTypePackParamAt cP r) w)
    (fun _ w' =>
       exists cs, Forall2 (RP w') rest cs
         /\ tys w' !! r
            = Some (onTable (with_typePackParams (take i (instantiatedTypePackParams ttv) ++ cs)) node)).
Proof.
  intros Hr. induction rest as [|arg rest IH]; intros i w node ttv Hi Hl Hty Hd Hv.
  - cbn [length seq forEach].
    apply post_ret; [exact Hi | eapply tcell_bt; eauto | discriminate |].
    exists []. split; [constructor|]. rewrite Hl. f_equal.
    rewrite app_nil_r.
    assert (Ht : take i (instantiatedTypePackParams ttv) = instantiatedTypePackParams ttv).
    { rewrite <- (take_drop i (instantiatedTypePackParams ttv)) at 2.
      now rewrite Hd, app_nil_r. }
    rewrite Ht. destruct node as [v p d o]. cbn in Hty. subst v.
    destruct ttv. reflexivity.
  - cbn [length seq forEach].
    assert (Hlk : instantiatedTypePackParams ttv !! i = Some arg).
    { rewrite <- (Nat.add_0_r i), <- lookup_drop, Hd. reflexivity. }
    inversion Hv as [|? ? Harg Hrest]; subst.
    eapply post_bind.
    + unfold cloneTypePackParamAt. rewrite (getType_bind _ _ _ _ Hl). cbn beta.
      rewrite Hty. cbn beta iota. rewrite Hlk.
      apply (t_call r cP (fun w x c => RP w x c)
               (fun c => onTable (set_typePackParam i c)) arg w node Hr).
      * apply RP_valid; auto.
      * apply RP_seen_mono.
      * exact Hl.
    + intros _ w1 Hi1 He1 (c & Hc & Hl1). cbn beta.
      assert (Hty1 : ty (onTable (set_typePackParam i c) node)
                     = TableTypeV (set_typePackParam i c ttv)).
      { destruct node as [v p d o]. cbn in Hty. subst v. reflexivity. }
      assert (Hd1 : drop (S i) (instantiatedTypePackParams (set_typePackParam i c ttv)) = rest).
      { cbn. rewrite drop_insert_lt by lia.
        rewrite (drop_S _ _ _ Hlk) in Hd. now injection Hd. }
      eapply post_conseq; [apply (IH (S i) w1 _ _ Hi1 Hl1 Hty1 Hd1 Hrest)|].
      cbn beta. intros _ w2 Hi2 He2 (cs & Hcs & Hl2).
      exists (c :: cs). split.
      * constructor; [|exact Hcs]. eapply RP_mono; eauto.
      * rewrite Hl2. f_equal.
        destruct node as [v p d o]. cbn in Hty. subst v. cbn.
        unfold onTable, setTy. cbn. do 2 f_equal. unfold with_typePackParams. cbn.
        f_equal.
        rewrite (take_S_r _ _ c)
          by (apply list_lookup_insert_eq; eapply lookup_lt_Some; eauto).
        rewrite take_insert_ge by lia. now rewrite <- app_assoc.
Qed.

Lemma ts_typePackParams r ps :
  N0 <= r -> Forall (fun t => t ∈ SP) ps ->
  tstep r (fun n => exists ttv, ty n = TableTypeV ttv /\ instantiatedTypePackParams ttv = ps)
    (forEach (seq 0 (length ps)) (cloneTypePackParamAt cP r))
    (fun w n n' =>
       exists cs, Forall2 (RP w) ps cs /\ n' = onTable (with_typePackParams cs) n).
Proof.
  intros Hr Hv. split.
  { intros w w' n n' Hst Hsp (cs & Hcs & ->). exists cs. split; [|reflexivity].
    eapply Forall2_RP_seen_mono; eauto. }
  intros w node Hi Hl (ttv & Hty & Hps).
  eapply post_conseq.
  - apply (typePackParams_loop r Hr ps 0 w node ttv Hi Hl Hty); [|exact Hv].
    now rewrite drop_0.
  - cbn beta. intros _ w' _ _ (cs & Hcs & Hl'). eauto.
Qed.


Ltac preserve :=
  let ttv := fresh "ttv" in
  intros ? [? ? ? ?] ? (ttv & ? & ? & ?) ?; unpack; cbn in *; subst;
  destruct ttv; cbn in *;
  try rewrite foldl_set_prop; cbn;
  eexists; repeat split; reflexivity.

Lemma TableType_spec x t w :
  Inv w -> x ∈ ST -> sT w !! x = None ->
  cloneable flags (TableTypeV t) ->
  closed_variant (fun t => t ∈ ST) (fun p => p ∈ SP) (TableTypeV t) ->
  visited_t x (TableTypeV t) w (TypeCloner flags dest cT cP x (TableTypeV t) w).
Proof.
  intros Hi Hx Hn [Hcb Hcp] (Hp & Hix & Hbt & Htp & Htpp).
  cbn [TypeCloner]. unfold clone_TableType.
  assert (Hr : N0 <= length (tys w)) by apply Hi.
  destruct t as [ps ix st lv bt tp tpp dm dl tg]. cbn in *.
  assert (Hprops : forall w2 cs,
            Forall2 (fun i c => copy_Property (RT w2) i.2 c) (map_to_list ps) cs ->
            copy_props (RT w2) ps (insert_props ps (zip (map_to_list ps) cs))).
  { intros w2 cs Hcs name. apply copy_props_insert_props; [|exact Hcs]. auto. }
  set (Pa := fun n : Type_ =>
               exists ttv, ty n = TableTypeV ttv
                           /\ instantiatedTypeParams ttv = tp
                           /\ instantiatedTypePackParams ttv = tpp).
  set (Pb := fun n : Type_ =>
               exists ttv, ty n = TableTypeV ttv
                           /\ instantiatedTypePackParams ttv = tpp).
  assert (Hmain : forall m T,
            tstep (length (tys w)) Pa m T ->
            (forall w2 n',
               tys w2 !! length (tys w) = Some n' ->
               T w2 (mkType (TableTypeV (mkTableType ps ix st lv bt tp tpp dm dl tg))
                       false None (Some dest)) n' ->
               exists v',
                 tys w2 !! length (tys w) = Some (mkType v' false None (Some dest))
                 /\ copy_variant (RT w2) (RP w2)
                      (TableTypeV (mkTableType ps ix st lv bt tp tpp dm dl tg)) v') ->
            visited_t x (TableTypeV (mkTableType ps ix st lv bt tp tpp dm dl tg)) w
              (m (opened_t w x
                    (TableTypeV (mkTableType ps ix st lv bt tp tpp dm dl tg))))).
  { intros m T Hstep Hfin.
    eapply body_to_visited_t; [exact Hx | exact Hn |].
    eapply post_conseq.
    - eapply step_run; [exact Hstep | apply Inv_opened_t; auto
                        | apply opened_t_lookup |].
      eexists. repeat split; reflexivity.
    - cbn beta. intros _ w2 Hi2 He2 (n' & Hl & HTT). eauto. }
  destruct (DebugLuauCopyBeforeNormalizing flags) eqn:Hd;
    [|rewrite (Hcb eq_refl) in *]; cbn [negb];
    destruct bt as [bt|]; rewrite ?table_open;
    destruct ix as [ix|];
    try (destruct (LuauTypecheckClassTypeIndexers flags) eqn:Hflag);
    repeat match goal with
           | H : option_Forall _ (Some _) |- _ => inversion H; subst; clear H
           end;
    try match goal with
        | H : closed_TableIndexer _ _ |- _ => pose proof H as [? ?]
        end;
    (eapply Hmain;
     [ eapply step_seq with (P2 := Pa);
       [ eapply ts_modify; exact Hr | | preserve ];
       eapply step_seq with (P2 := Pa);
       [ ts Hr | | preserve ];
       eapply step_seq with (P2 := Pa);
       [ eapply ts_loop_props; [exact Hr | eauto | eauto] | | preserve ];
       eapply step_seq with (P2 := Pa);
       [ ts Hr | | preserve ];
       eapply step_seq with (P2 := Pb);
       [ eapply step_pre; [eapply ts_typeParams; [exact Hr | exact Htp]|];
         intros n (ttv & ? & ? & ?); eauto
       | | preserve ];
       eapply step_seq with (P2 := fun _ => True);
       [ eapply step_pre; [eapply ts_typePackParams; [exact Hr | exact Htpp]|];
         intros n (ttv & ? & ?); eauto
       | eapply ts_modify; exact Hr
       | intros; exact I ]
     | ]).
  all: cbn beta; intros w2 n' Hl HTT; unpack; subst.
  all: match type of Hl with
       | context [foldl ?f ?n ?l] =>
           let n' := eval cbv [setTy set_boundTo set_tt_level onTable ty persistent
                               documentationSymbol owningArena props indexer state
                               tt_level boundTo instantiatedTypeParams
                               instantiatedTypePackParams definitionModuleName
                               definitionLocation tt_tags] in n in
           change n with n' in Hl
       end.
  all: rewrite foldl_set_prop in Hl; cbn in Hl.
  all: eexists; split; [exact Hl|]; cbn; eexists; split; [reflexivity|].
  all: unfold copy_TableType; cbn.
  all: repeat split; auto; try constructor; auto.
  all: try (split; cbn; auto).
Qed.


(** *** The two visitors *)

Lemma TypeCloner_spec x v w :
  Inv w -> x ∈ ST -> sT w !! x = None ->
  cloneable flags v ->
  closed_variant (fun t => t ∈ ST) (fun p => p ∈ SP) v ->
  visited_t x v w (TypeCloner flags dest cT cP x v w).
Proof.
  intros Hi Hx Hn Hc Hcl. destruct v;
    try (apply defaultClone_spec; [assumption..|reflexivity]).
  - destruct Hc.
  - now apply PendingExpansionType_spec.
  - now apply FunctionType_spec.
  - now apply TableType_spec.
  - now apply MetatableType_spec.
  - now apply ClassType_spec.
  - now apply UnionType_spec.
  - now apply IntersectionType_spec.
  - cbn in Hc. subst. cbn [TypeCloner].
    apply defaultClone_spec; [assumption..|reflexivity].
  - now apply NegationType_spec.
  - now apply TypeFamilyInstanceType_spec.
Qed.

Lemma TypePackCloner_spec x v w :
  Inv w -> x ∈ SP -> sP w !! x = None ->
  cloneable_pack v ->
  closed_pack_variant (fun t => t ∈ ST) (fun p => p ∈ SP) v ->
  visited_p x v w (TypePackCloner flags dest cT cP x v w).
Proof.
  intros Hi Hx Hn Hc Hcl. destruct v;
    try (apply tp_defaultClone_spec; [assumption..|reflexivity]).
  - destruct Hc.
  - destruct Hc.
  - now apply TypePack_spec.
  - now apply TypeFamilyInstanceTypePack_spec.
Qed.


(** *** Closing a visit: the clone of [x] is registered and complete *)

Lemma lookupSeenType_bind {A} x (k : option TypeId -> M A) w :
  bind (lookupSeenType x) k w = k (sT w !! x) w.
Proof using Type. reflexivity. Qed.

Lemma lookupSeenTypePack_bind {A} x (k : option TypePackId -> M A) w :
  bind (lookupSeenTypePack x) k w = k (sP w !! x) w.
Proof using Type. reflexivity. Qed.

Lemma getTypePack_bind {A} r node (k : TypePackVar -> M A) w :
  tps w !! r = Some node -> bind (getTypePack r) k w = k node w.
Proof using Type. intros H. unfold bind, getTypePack. now rewrite H. Qed.

Lemma close_t w x v0 w2 node v' :
  Inv w -> x ∈ ST -> sT w !! x = None -> types base !! x = Some node ->
  Inv w2 -> Ext (Some (length (tys w))) None (opened_t w x v0) w2 ->
  tys w2 !! length (tys w) = Some (mkType v' false None (Some dest)) ->
  copy_variant (RT w2) (RP w2) (ty node) v' ->
  let w3 := setTypes (<[length (tys w) :=
                        mkType v' false (documentationSymbol node) (Some dest)]>
                        (tys w2)) w2 in
  Inv w3 /\ Ext None None w w3 /\ sT w3 !! x = Some (length (tys w)).
Proof using Type.
  intros Hi Hx Hn Hb Hi2 He2 Hl Hc w3.
  assert (Hsx : sT w2 !! x = Some (length (tys w))).
  { eapply lookup_weaken; [|apply (ext_seen_t He2)]. cbn. apply lookup_insert_eq. }
  assert (Hlen : length (tys w) < length (tys w2)).
  { eapply lookup_lt_Some; eauto. }
  assert (Hi3 : Inv w3).
  { apply Inv_setTypes; [exact Hi2 | apply length_insert |].
    intros i Hlt. apply list_lookup_insert_ne.
    pose proof (inv_len_t Hi). lia. }
  split; [exact Hi3|]. split; [|exact Hsx].
  assert (Hst : sT w ⊆ sT w2).
  { etrans; [|apply (ext_seen_t He2)]. cbn. now apply insert_subseteq. }
  assert (Hsp : sP w ⊆ sP w2) by apply (ext_seen_p He2).
  constructor.
  - exact Hst.
  - exact Hsp.
  - cbn. rewrite (ext_count He2). reflexivity.
  - cbn. rewrite length_insert. lia.
  - cbn. pose proof (ext_len_p He2) as H. cbn in H. exact H.
  - discriminate.
  - discriminate.
  - intros i Hlt _. cbn. rewrite list_lookup_insert_ne by lia.
    rewrite (ext_mem_t He2).
    + cbn. apply lookup_app_l. exact Hlt.
    + cbn. rewrite length_app. cbn. lia.
    + intros [= ?]. lia.
  - intros i Hlt _. cbn. rewrite (ext_mem_p He2); [reflexivity | exact Hlt | discriminate].
  - intros y c Hy Hyc. cbn in Hyc. destruct (decide (y = x)) as [->|Hne].
    + rewrite Hsx in Hyc. injection Hyc as <-. split; [lia|].
      exists node, v'. split; [exact Hb|]. split; [|exact Hc].
      cbn. apply list_lookup_insert_eq. exact Hlen.
    + destruct (ext_new_t He2 y c) as [Hge Hdone].
      * cbn. rewrite lookup_insert_ne by congruence. exact Hy.
      * exact Hyc.
      * cbn in Hge. rewrite length_app in Hge. cbn in Hge. split; [lia|].
        eapply typeDone_stable; [| | |exact Hdone]; try reflexivity.
        cbn. apply list_lookup_insert_ne. lia.
  - intros y c Hy Hyc. cbn in Hyc.
    destruct (ext_new_p He2 y c Hy Hyc) as [Hge Hdone]. split; [exact Hge|].
    eapply packDone_stable; [| | |exact Hdone]; reflexivity.
  - intros y c Hy Hyc. cbn in Hyc. destruct (decide (y = x)) as [->|Hne].
    + exact Hx.
    + apply (ext_in_t He2 y c); [|exact Hyc].
      cbn. rewrite lookup_insert_ne by congruence. exact Hy.
  - intros y c Hy Hyc. apply (ext_in_p He2 y c Hy Hyc).
Qed.

Lemma close_p w x v0 w2 node v' :
  Inv w -> x ∈ SP -> sP w !! x = None -> typePacks base !! x = Some node ->
  Inv w2 -> Ext None (Some (length (tps w))) (opened_p w x v0) w2 ->
  tps w2 !! length (tps w) = Some (mkTypePackVar v' false (Some dest)) ->
  copy_pack_variant (RT w2) (RP w2) (tp_ty node) v' ->
  Ext None None w w2 /\ sP w2 !! x = Some (length (tps w)).
Proof using Type.
  intros Hi Hx Hn Hb Hi2 He2 Hl Hc.
  assert (Hsx : sP w2 !! x = Some (length (tps w))).
  { eapply lookup_weaken; [|apply (ext_seen_p He2)]. cbn. apply lookup_insert_eq. }
  split; [|exact Hsx].
  assert (Hsp : sP w ⊆ sP w2).
  { etrans; [|apply (ext_seen_p He2)]. cbn. now apply insert_subseteq. }
  assert (Hst : sT w ⊆ sT w2) by apply (ext_seen_t He2).
  constructor.
  - exact Hst.
  - exact Hsp.
  - rewrite (ext_count He2). reflexivity.
  - pose proof (ext_len_t He2) as H. cbn in H. exact H.
  - pose proof (ext_len_p He2) as H. cbn in H. rewrite length_app in H. lia.
  - discriminate.
  - discriminate.
  - intros i Hlt _. rewrite (ext_mem_t He2); [reflexivity | exact Hlt | discriminate].
  - intros i Hlt _. rewrite (ext_mem_p He2).
    + cbn. apply lookup_app_l. exact Hlt.
    + cbn. rewrite length_app. cbn. lia.
    + intros [= ?]. lia.
  - intros y c Hy Hyc. apply (ext_new_t He2 y c Hy Hyc).
  - intros y c Hy Hyc. destruct (decide (y = x)) as [->|Hne].
    + rewrite Hsx in Hyc. injection Hyc as <-. split; [lia|].
      exists node, v'. split; [exact Hb|]. split; [exact Hl | exact Hc].
    + destruct (ext_new_p He2 y c) as [Hge Hdone].
      * cbn. rewrite lookup_insert_ne by congruence. exact Hy.
      * exact Hyc.
      * cbn in Hge. rewrite length_app in Hge. cbn in Hge. split; [lia|].
        exact Hdone.
  - intros y c Hy Hyc. apply (ext_in_t He2 y c Hy Hyc).
  - intros y c Hy Hyc. destruct (decide (y = x)) as [->|Hne].
    + exact Hx.
    + apply (ext_in_p He2 y c); [|exact Hyc].
      cbn. rewrite lookup_insert_ne by congruence. exact Hy.
Qed.

(** What [clone] does after a visitor that registered [x] at [r]. *)
Lemma clone_TypeId_admitted_tail x node w w2 r v' :
  sT w !! x = None ->
  TypeCloner flags dest cT cP x (ty node) w = Returned tt w2 ->
  sT w2 !! x = Some r ->
  tys w2 !! r = Some (mkType v' false None (Some dest)) ->
  tys w2 !! x = Some node ->
  clone_TypeId_admitted flags dest cT cP x node w
  = Returned r
      (setTypes (<[r := mkType v' false (documentationSymbol node) (Some dest)]>
                   (tys w2)) w2).
Proof using Type.
  intros Hs Hrun Hsx Hl Hx2. unfold clone_TypeId_admitted.
  rewrite lookupSeenType_bind, Hs. unfold bind at 1. rewrite Hrun.
  rewrite lookupSeenType_bind, Hsx.
  rewrite (getType_bind _ _ _ _ Hl). cbn [persistent].
  unfold bind at 1. rewrite (getType_bind _ _ _ _ Hx2).
  unfold modifyType. rewrite Hl. reflexivity.
Qed.

Lemma clone_TypePackId_admitted_tail x node w w2 r :
  sP w !! x = None ->
  TypePackCloner flags dest cT cP x (tp_ty node) w = Returned tt w2 ->
  sP w2 !! x = Some r ->
  clone_TypePackId_admitted flags dest cT cP x node w = Returned r w2.
Proof using Type.
  intros Hs Hrun Hsx. unfold clone_TypePackId_admitted.
  rewrite lookupSeenTypePack_bind, Hs. unfold bind at 1. rewrite Hrun.
  rewrite lookupSeenTypePack_bind, Hsx. reflexivity.
Qed.

(** [clone] on a node that is registered before the descent. *)
Lemma clone_TypeId_admitted_early x node w :
  Inv w -> x ∈ ST -> types base !! x = Some node ->
  cloneable flags (ty node) ->
  post None None (S b) w (clone_TypeId_admitted flags dest cT cP x node w)
    (fun c w' => sT w' !! x = Some c).
Proof.
  intros Hi Hx Hb Hc.
  destruct (sT w !! x) as [r|] eqn:Hs.
  - unfold clone_TypeId_admitted. rewrite lookupSeenType_bind, Hs.
    apply post_ret; [exact Hi | discriminate | discriminate | exact Hs].
  - destruct (proj1 Hclosed x Hx) as (node' & Hb' & Hcl).
    assert (node' = node) by congruence. subst node'.
    pose proof (TypeCloner_spec x (ty node) w Hi Hx Hs Hc Hcl) as Hv.
    destruct (TypeCloner flags dest cT cP x (ty node) w) as [[] w2|w2|] eqn:Hrun;
      cbn in Hv.
    + destruct Hv as (v0 & v' & Hi2 & He2 & Hl & Hcv).
      destruct (close_t w x v0 w2 node v' Hi Hx Hs Hb Hi2 He2 Hl Hcv)
        as (Hi3 & He3 & Hs3).
      assert (Hx2 : tys w2 !! x = Some node).
      { rewrite (inv_base_t Hi2) by (now apply ST_bound). exact Hb. }
      rewrite (clone_TypeId_admitted_tail x node w w2 _ v' Hs Hrun Hs3 Hl Hx2).
      cbn. auto.
    + unfold clone_TypeId_admitted. rewrite lookupSeenType_bind, Hs.
      unfold bind at 1. rewrite Hrun. exact Hv.
    + destruct Hv.
Qed.

Lemma clone_TypePackId_admitted_early x node w :
  Inv w -> x ∈ SP -> typePacks base !! x = Some node ->
  cloneable_pack (tp_ty node) ->
  post None None (S b) w (clone_TypePackId_admitted flags dest cT cP x node w)
    (fun c w' => sP w' !! x = Some c).
Proof.
  intros Hi Hx Hb Hc.
  destruct (sP w !! x) as [r|] eqn:Hs.
  - unfold clone_TypePackId_admitted. rewrite lookupSeenTypePack_bind, Hs.
    apply post_ret; [exact Hi | discriminate | discriminate | exact Hs].
  - destruct (proj2 Hclosed x Hx) as (node' & Hb' & Hcl).
    assert (node' = node) by congruence. subst node'.
    pose proof (TypePackCloner_spec x (tp_ty node) w Hi Hx Hs Hc Hcl) as Hv.
    destruct (TypePackCloner flags dest cT cP x (tp_ty node) w) as [[] w2|w2|] eqn:Hrun;
      cbn in Hv.
    + destruct Hv as (v0 & v' & Hi2 & He2 & Hl & Hcv).
      destruct (close_p w x v0 w2 node v' Hi Hx Hs Hb Hi2 He2 Hl Hcv) as (He3 & Hs3).
      rewrite (clone_TypePackId_admitted_tail x node w w2 _ Hs Hrun Hs3).
      cbn. auto.
    + unfold clone_TypePackId_admitted. rewrite lookupSeenTypePack_bind, Hs.
      unfold bind at 1. rewrite Hrun. exact Hv.
    + destruct Hv.
Qed.

End Visitors.

Set Default Proof Using "Type".

(** *** The recursion *)

Lemma clone_rec_unfold b x :
  clone_rec flags dest b x
  = bind (getType x) (fun node =>
      if persistent node then ret x
      else match b with
           | 0 => throwLimit
           | S b' => clone_TypeId_admitted flags dest (clone_rec flags dest b')
                       (clone_pack_rec flags dest b') x node
           end).
Proof. destruct b; reflexivity. Qed.

Lemma clone_pack_rec_unfold b x :
  clone_pack_rec flags dest b x
  = bind (getTypePack x) (fun node =>
      if tp_persistent node then ret x
      else match b with
           | 0 => throwLimit
           | S b' => clone_TypePackId_admitted flags dest (clone_rec flags dest b')
                       (clone_pack_rec flags dest b') x node
           end).
Proof. destruct b; reflexivity. Qed.

(** *** A traversal that stays in a smaller part *)

Lemma Ext_sub ST' SP' rt rp w w' :
  ST' ⊆ ST -> SP' ⊆ SP ->
  CloneSpec.Ext dest base ST' SP' rt rp w w' -> Ext rt rp w w'.
Proof.
  intros HT HP [a1 a2 a3 a4 a5 a6 a7 a8 a9 a10 a11 a12 a13].
  constructor; auto.
  - intros x c H1 H2. apply HT. eauto.
  - intros x c H1 H2. apply HP. eauto.
Qed.

Lemma EX_sub_t ST' SP' b w x :
  ST' ⊆ ST -> SP' ⊆ SP -> x ∈ ST -> x ∉ ST' -> sT w !! x = None ->
  CloneSpec.EX ST' SP' b w -> EX (S b) w.
Proof.
  intros HT HP Hx Hnot Hn. unfold CloneSpec.EX.
  assert (H1 : size ({[x]} ∪ ST' ∖ dom (sT w)) <= size (ST ∖ dom (sT w))).
  { apply subseteq_size. intros y Hy. apply elem_of_union in Hy as [Hy|Hy].
    - apply elem_of_singleton in Hy as ->. apply elem_of_difference.
      split; [exact Hx | now apply not_elem_of_dom].
    - apply elem_of_difference in Hy as [Hy1 Hy2]. apply elem_of_difference.
      split; [now apply HT | exact Hy2]. }
  rewrite size_union, size_singleton in H1.
  - assert (H2 : size (SP' ∖ dom (sP w)) <= size (SP ∖ dom (sP w))).
    { apply subseteq_size. intros y Hy.
      apply elem_of_difference in Hy as [Hy1 Hy2]. apply elem_of_difference.
      split; [now apply HP | exact Hy2]. }
    lia.
  - intros y Hy1 Hy2. apply elem_of_singleton in Hy1 as ->.
    apply elem_of_difference in Hy2 as [Hy2 _]. contradiction.
Qed.

Lemma EX_sub_p ST' SP' b w x :
  ST' ⊆ ST -> SP' ⊆ SP -> x ∈ SP -> x ∉ SP' -> sP w !! x = None ->
  CloneSpec.EX ST' SP' b w -> EX (S b) w.
Proof.
  intros HT HP Hx Hnot Hn. unfold CloneSpec.EX.
  assert (H1 : size ({[x]} ∪ SP' ∖ dom (sP w)) <= size (SP ∖ dom (sP w))).
  { apply subseteq_size. intros y Hy. apply elem_of_union in Hy as [Hy|Hy].
    - apply elem_of_singleton in Hy as ->. apply elem_of_difference.
      split; [exact Hx | now apply not_elem_of_dom].
    - apply elem_of_difference in Hy as [Hy1 Hy2]. apply elem_of_difference.
      split; [now apply HP | exact Hy2]. }
  rewrite size_union, size_singleton in H1.
  - assert (H2 : size (ST' ∖ dom (sT w)) <= size (ST ∖ dom (sT w))).
    { apply subseteq_size. intros y Hy.
      apply elem_of_difference in Hy as [Hy1 Hy2]. apply elem_of_difference.
      split; [now apply HT | exact Hy2]. }
    lia.
  - intros y Hy1 Hy2. apply elem_of_singleton in Hy1 as ->.
    apply elem_of_difference in Hy2 as [Hy2 _]. contradiction.
Qed.

Lemma Inv_startWorld count : Inv (startWorld base count).
Proof.
  constructor; cbn; auto; intros *; rewrite lookup_empty; discriminate.
Qed.

Lemma faithful_of_Ext count w' :
  Inv w' -> Ext None None (startWorld base count) w' -> faithful dest base w'.
Proof.
  intros Hi He. unfold faithful. split; [|split; [|split; [|split; [|split]]]].
  - apply (inv_base_t Hi).
  - apply (inv_base_p Hi).
  - intros x c H. apply (ext_new_t He); [apply lookup_empty | exact H].
  - intros x c H. apply (ext_new_p He); [apply lookup_empty | exact H].
  - apply (inv_inj_t Hi).
  - apply (inv_inj_p Hi).
Qed.

End Fidelity.

(** *** Closed parts of the graph *)

Lemma option_Forall_weaken {A} (P P' : A -> Prop) (o : option A) :
  (forall a, P a -> P' a) -> option_Forall P o -> option_Forall P' o.
Proof. intros H Ho. eapply option_Forall_impl; eauto. Qed.

Lemma option_Forall_both {A} (P P' : A -> Prop) (o : option A) :
  option_Forall P o -> option_Forall P' o ->
  option_Forall (fun a => P a /\ P' a) o.
Proof. intros H H'. apply option_Forall_and. auto. Qed.

Section ClosedFacts.
Context (P P' : TypeId -> Prop) (Q Q' : TypePackId -> Prop).

Lemma closed_props_impl ps :
  (forall t, P t -> P' t) -> closed_props P ps -> closed_props P' ps.
Proof.
  intros HP H name p Hp. destruct (H name p Hp) as [H1 H2].
  split; eapply option_Forall_weaken; eauto.
Qed.

Lemma closed_props_and ps :
  closed_props P ps -> closed_props P' ps ->
  closed_props (fun t => P t /\ P' t) ps.
Proof.
  intros H H' name p Hp.
  destruct (H name p Hp) as [H1 H2]. destruct (H' name p Hp) as [H1' H2'].
  split; apply option_Forall_both; auto.
Qed.

Lemma closed_ix_impl (ix : option TableIndexer) :
  (forall t, P t -> P' t) ->
  option_Forall (closed_TableIndexer P) ix ->
  option_Forall (closed_TableIndexer P') ix.
Proof.
  intros HP. apply option_Forall_weaken. intros a [H1 H2]. split; auto.
Qed.

Lemma closed_ix_and (ix : option TableIndexer) :
  option_Forall (closed_TableIndexer P) ix ->
  option_Forall (closed_TableIndexer P') ix ->
  option_Forall (closed_TableIndexer (fun t => P t /\ P' t)) ix.
Proof.
  intros H H'. eapply option_Forall_weaken;
    [|apply (option_Forall_both _ _ _ H H')].
  intros a [[H1 H2] [H3 H4]]. split; auto.
Qed.

Lemma Forall_and_2 {A} (R R' : A -> Prop) (l : list A) :
  Forall R l -> Forall R' l -> Forall (fun a => R a /\ R' a) l.
Proof. intros H H'. apply Forall_and. auto. Qed.

Lemma closed_variant_impl v :
  (forall t, P t -> P' t) -> (forall p, Q p -> Q' p) ->
  closed_variant P Q v -> closed_variant P' Q' v.
Proof.
  intros HP HQ. destruct v; cbn; try tauto;
    intuition eauto using Forall_impl, option_Forall_weaken, closed_props_impl,
      closed_ix_impl.
Qed.

Lemma closed_variant_and v :
  closed_variant P Q v -> closed_variant P' Q' v ->
  closed_variant (fun t => P t /\ P' t) (fun p => Q p /\ Q' p) v.
Proof.
  destruct v; cbn; try tauto;
    intuition auto using Forall_and_2, option_Forall_both, closed_props_and,
      closed_ix_and.
Qed.

Lemma closed_pack_variant_impl v :
  (forall t, P t -> P' t) -> (forall p, Q p -> Q' p) ->
  closed_pack_variant P Q v -> closed_pack_variant P' Q' v.
Proof.
  intros HP HQ. destruct v; cbn; try tauto;
    intuition eauto using Forall_impl, option_Forall_weaken.
Qed.

Lemma closed_pack_variant_and v :
  closed_pack_variant P Q v -> closed_pack_variant P' Q' v ->
  closed_pack_variant (fun t => P t /\ P' t) (fun p => Q p /\ Q' p) v.
Proof.
  destruct v; cbn; try tauto;
    intuition auto using Forall_and_2, option_Forall_both.
Qed.

End ClosedFacts.

Lemma closed_set_inter base ST SP ST' SP' :
  closed_set base ST SP -> closed_set base ST' SP' ->
  closed_set base (ST ∩ ST') (SP ∩ SP').
Proof.
  intros [H1 H2] [H1' H2']. split.
  - intros x Hx. apply elem_of_intersection in Hx as [Hx Hx'].
    destruct (H1 x Hx) as (node & Hb & Hc).
    destruct (H1' x Hx') as (node' & Hb' & Hc').
    assert (node' = node) by congruence. subst node'.
    exists node. split; [exact Hb|].
    eapply closed_variant_impl; [| |apply (closed_variant_and _ _ _ _ _ Hc Hc')];
      cbn; intros y [? ?]; now apply elem_of_intersection.
  - intros x Hx. apply elem_of_intersection in Hx as [Hx Hx'].
    destruct (H2 x Hx) as (node & Hb & Hc).
    destruct (H2' x Hx') as (node' & Hb' & Hc').
    assert (node' = node) by congruence. subst node'.
    exists node. split; [exact Hb|].
    eapply closed_pack_variant_impl;
      [| |apply (closed_pack_variant_and _ _ _ _ _ Hc Hc')];
      cbn; intros y [? ?]; now apply elem_of_intersection.
Qed.

(** The whole graph is a closed part. *)
Lemma closed_set_full flags base :
  wf_graph flags base ->
  closed_set base (set_seq 0 (length (types base)))
    (set_seq 0 (length (typePacks base))).
Proof.
  intros Hwf. split.
  - intros x Hx. apply elem_of_set_seq in Hx as [_ Hx]. cbn in Hx.
    destruct (lookup_lt_is_Some_2 (types base) x Hx) as [node Hb].
    exists node. split; [exact Hb|].
    destruct (wf_types _ _ Hwf x node Hb) as (_ & _ & Hc).
    eapply closed_variant_impl; [| |exact Hc]; cbn; intros y Hy;
      apply elem_of_set_seq; cbn; lia.
  - intros x Hx. apply elem_of_set_seq in Hx as [_ Hx]. cbn in Hx.
    destruct (lookup_lt_is_Some_2 (typePacks base) x Hx) as [node Hb].
    exists node. split; [exact Hb|].
    destruct (wf_packs _ _ Hwf x node Hb) as (_ & _ & Hc).
    eapply closed_pack_variant_impl; [| |exact Hc]; cbn; intros y Hy;
      apply elem_of_set_seq; cbn; lia.
Qed.

(** *** Nodes that are registered after the descent *)

Section Late.
Context (flags : FFlags) (dest : ArenaId) (base : Memory).
Context (b : nat) (cT : TypeId -> M TypeId) (cP : TypePackId -> M TypePackId).
Context (HT : forall ST SP, closed_set base ST SP ->
                clones_types dest base ST SP b cT).
Context (HP : forall ST SP, closed_set base ST SP ->
                clones_packs dest base ST SP b cP).
Context (ST : gset TypeId) (SP : gset TypePackId).
Context (Hclosed : closed_set base ST SP).

Local Abbreviation tys w := (types (mem w)).
Local Abbreviation tps w := (typePacks (mem w)).
Local Abbreviation sT w := (seenTypes (cloneState w)).
Local Abbreviation sP w := (seenTypePacks (cloneState w)).
Local Abbreviation RT w := (fun a b : TypeId => seenTypes (cloneState w) !! a = Some b).
Local Abbreviation Inv := (CloneSpec.Inv base).
Local Abbreviation post := (CloneSpec.post dest base ST SP).
Local Abbreviation opened_t := (CloneSpec.opened_t dest).
Local Abbreviation opened_p := (CloneSpec.opened_p dest).

(** A union off the cycles, without [LuauCloneCyclicUnions]: the options
    are cloned in a part of the graph that does not contain the union,
    then the clone is allocated and registered. *)
Lemma clone_TypeId_admitted_union x node options w :
  Inv w -> x ∈ ST -> types base !! x = Some node ->
  ty node = UnionType options ->
  LuauCloneCyclicUnions flags = false ->
  off_cycle_t base x (ty node) ->
  post None None (S b) w (clone_TypeId_admitted flags dest cT cP x node w)
    (fun c w' => sT w' !! x = Some c).
Proof using HT Hclosed.
  intros Hi Hx Hb Hty Hflag (ST' & SP' & Hclosed' & Hcl' & Hnot).
  destruct (sT w !! x) as [r|] eqn:Hs.
  { unfold clone_TypeId_admitted. rewrite lookupSeenType_bind, Hs.
    apply post_ret; [exact Hi | discriminate | discriminate | exact Hs]. }
  pose proof (closed_set_inter _ _ _ _ _ Hclosed Hclosed') as Hclosed2.
  destruct (proj1 Hclosed x Hx) as (node' & Hb' & Hcl).
  assert (node' = node) by congruence. subst node'.
  rewrite Hty in Hcl, Hcl'. cbn in Hcl, Hcl'.
  assert (Hopts : Forall (fun t => t ∈ ST ∩ ST') options).
  { eapply Forall_impl; [apply (Forall_and_2 _ _ _ Hcl Hcl')|].
    cbn. intros t [? ?]. now apply elem_of_intersection. }
  assert (Hsub1 : ST ∩ ST' ⊆ ST) by (intros y Hy; now apply elem_of_intersection in Hy).
  assert (Hsub2 : SP ∩ SP' ⊆ SP) by (intros y Hy; now apply elem_of_intersection in Hy).
  assert (Hnot2 : x ∉ ST ∩ ST').
  { intros Hy. apply elem_of_intersection in Hy as [_ Hy]. contradiction. }
  pose proof (cloneInto_spec dest base (ST ∩ ST') (SP ∩ SP') b cT
                (fun t => t ∈ ST ∩ ST') (fun w x c => RT w x c)
                (fun t w Hw Ht => HT _ _ Hclosed2 t w Hw Ht)
                (RT_seen_mono) options [] w Hi Hopts) as Hinto.
  assert (Hrun :
    TypeCloner flags dest cT cP x (ty node) w
    = match cloneInto cT options [] w with
      | Returned cs w1 => Returned tt (opened_t w1 x (UnionType cs))
      | LimitExceeded w1 => LimitExceeded w1
      | Undefined => Undefined
      end).
  { rewrite Hty. cbn [TypeCloner]. unfold clone_UnionType. rewrite Hflag.
    unfold bind at 1. destruct (cloneInto cT options [] w); reflexivity. }
  destruct (cloneInto cT options [] w) as [cs w1|w1|]; cbn in Hinto.
  - destruct Hinto as (Hi1 & He1 & cs' & -> & Hcs). cbn [app] in *.
    assert (Hs1 : sT w1 !! x = None).
    { destruct (sT w1 !! x) as [c|] eqn:Hc; [|reflexivity].
      destruct Hnot2. apply (ext_in_t He1 x c Hs Hc). }
    assert (Hx2 : tys (opened_t w1 x (UnionType cs')) !! x = Some node).
    { cbn. rewrite lookup_app_l.
      - rewrite (inv_base_t Hi1) by (eapply lookup_lt_Some; eauto). exact Hb.
      - pose proof (inv_len_t Hi1). apply lookup_lt_Some in Hb. lia. }
    rewrite (clone_TypeId_admitted_tail flags dest cT cP x node w _
               (length (tys w1)) (UnionType cs') Hs Hrun
               ltac:(cbn; apply lookup_insert_eq)
               (opened_t_lookup dest w1 x (UnionType cs')) Hx2).
    assert (Hi2 : Inv (opened_t w1 x (UnionType cs'))).
    { apply (Inv_opened_t dest base ST SP Hclosed); auto. }
    destruct (close_t dest base ST SP w1 x (UnionType cs')
                (opened_t w1 x (UnionType cs')) node (UnionType cs')
                Hi1 Hx Hs1 Hb Hi2)
      as (Hi3 & He3 & Hs3).
    + apply Ext_refl; [|discriminate].
      intros r [= <-]. cbn. rewrite length_app. cbn. lia.
    + apply opened_t_lookup.
    + rewrite Hty. cbn. exists cs'. split; [reflexivity|].
      eapply Forall2_impl; [exact Hcs|]. cbn. intros a c Hac.
      rewrite lookup_insert_ne; [exact Hac|]. intros <-. congruence.
    + cbn. split; [exact Hi3|]. split; [|exact Hs3].
      eapply Ext_trans; [|exact He3]. eapply Ext_sub; eauto.
  - unfold clone_TypeId_admitted. rewrite lookupSeenType_bind, Hs.
    unfold bind at 1. rewrite Hrun. cbn.
    eapply EX_sub_t; eauto.
  - destruct Hinto.
Qed.

(** A variadic pack off the cycles. *)
Lemma clone_TypePackId_admitted_variadic x node t hidden w :
  Inv w -> x ∈ SP -> typePacks base !! x = Some node ->
  tp_ty node = VariadicTypePack t hidden ->
  off_cycle_p base x (tp_ty node) ->
  post None None (S b) w (clone_TypePackId_admitted flags dest cT cP x node w)
    (fun c w' => sP w' !! x = Some c).
Proof using HT Hclosed.
  intros Hi Hx Hb Hty (ST' & SP' & Hclosed' & Hcl' & Hnot).
  destruct (sP w !! x) as [r|] eqn:Hs.
  { unfold clone_TypePackId_admitted. rewrite lookupSeenTypePack_bind, Hs.
    apply post_ret; [exact Hi | discriminate | discriminate | exact Hs]. }
  pose proof (closed_set_inter _ _ _ _ _ Hclosed Hclosed') as Hclosed2.
  destruct (proj2 Hclosed x Hx) as (node' & Hb' & Hcl).
  assert (node' = node) by congruence. subst node'.
  rewrite Hty in Hcl, Hcl'. cbn in Hcl, Hcl'.
  assert (Ht : t ∈ ST ∩ ST') by (now apply elem_of_intersection).
  assert (Hsub1 : ST ∩ ST' ⊆ ST) by (intros y Hy; now apply elem_of_intersection in Hy).
  assert (Hsub2 : SP ∩ SP' ⊆ SP) by (intros y Hy; now apply elem_of_intersection in Hy).
  assert (Hnot2 : x ∉ SP ∩ SP').
  { intros Hy. apply elem_of_intersection in Hy as [_ Hy]. contradiction. }
  pose proof (HT _ _ Hclosed2 t w Hi Ht) as Hcall.
  assert (Hrun :
    TypePackCloner flags dest cT cP x (tp_ty node) w
    = match cT t w with
      | Returned c w1 => Returned tt (opened_p w1 x (VariadicTypePack c hidden))
      | LimitExceeded w1 => LimitExceeded w1
      | Undefined => Undefined
      end).
  { rewrite Hty. cbn [TypePackCloner].
    unfold bind at 1. destruct (cT t w); reflexivity. }
  destruct (cT t w) as [c w1|w1|]; cbn in Hcall.
  - destruct Hcall as (Hi1 & He1 & Hc).
    assert (Hs1 : sP w1 !! x = None).
    { destruct (sP w1 !! x) as [c'|] eqn:Hc'; [|reflexivity].
      destruct Hnot2. apply (ext_in_p He1 x c' Hs Hc'). }
    rewrite (clone_TypePackId_admitted_tail flags dest cT cP x node w _
               (length (tps w1)) Hs Hrun ltac:(cbn; apply lookup_insert_eq)).
    assert (Hi2 : Inv (opened_p w1 x (VariadicTypePack c hidden))).
    { apply (Inv_opened_p dest base ST SP Hclosed); auto. }
    destruct (close_p dest base ST SP w1 x (VariadicTypePack c hidden)
                (opened_p w1 x (VariadicTypePack c hidden)) node
                (VariadicTypePack c hidden) Hi1 Hx Hs1 Hb Hi2)
      as (He3 & Hs3).
    + apply Ext_refl; [discriminate|].
      intros r [= <-]. cbn. rewrite length_app. cbn. lia.
    + apply opened_p_lookup.
    + rewrite Hty. cbn. exists c. split; [reflexivity | exact Hc].
    + cbn. split; [exact Hi2|]. split; [|exact Hs3].
      eapply Ext_trans; [|exact He3]. eapply Ext_sub; eauto.
  - unfold clone_TypePackId_admitted. rewrite lookupSeenTypePack_bind, Hs.
    unfold bind at 1. rewrite Hrun. cbn.
    eapply EX_sub_p; eauto.
  - destruct Hcall.
Qed.

End Late.

(** *** The recursion *)

Section Recursion.
Context (flags : FFlags) (dest : ArenaId) (base : Memory).
Context (Hwf : wf_graph flags base).

Lemma clone_TypeId_admitted_spec b cT cP ST SP x node w :
  (forall ST SP, closed_set base ST SP -> clones_types dest base ST SP b cT) ->
  (forall ST SP, closed_set base ST SP -> clones_packs dest base ST SP b cP) ->
  closed_set base ST SP ->
  Inv base w -> x ∈ ST -> types base !! x = Some node ->
  post dest base ST SP None None (S b) w
    (clone_TypeId_admitted flags dest cT cP x node w)
    (fun c w' => seenTypes (cloneState w') !! x = Some c).
Proof using Hwf.
  intros HT HP Hclosed Hi Hx Hb.
  destruct (wf_types _ _ Hwf x node Hb) as (_ & [Hc|(options & Hty & Hflag & Hoff)] & _).
  - apply (clone_TypeId_admitted_early flags dest base ST SP Hclosed b cT cP
             (HT _ _ Hclosed) (HP _ _ Hclosed)); assumption.
  - apply (clone_TypeId_admitted_union flags dest base b cT cP HT ST SP Hclosed
             x node options); assumption.
Qed.

Lemma clone_TypePackId_admitted_spec b cT cP ST SP x node w :
  (forall ST SP, closed_set base ST SP -> clones_types dest base ST SP b cT) ->
  (forall ST SP, closed_set base ST SP -> clones_packs dest base ST SP b cP) ->
  closed_set base ST SP ->
  Inv base w -> x ∈ SP -> typePacks base !! x = Some node ->
  post dest base ST SP None None (S b) w
    (clone_TypePackId_admitted flags dest cT cP x node w)
    (fun c w' => seenTypePacks (cloneState w') !! x = Some c).
Proof using Hwf.
  intros HT HP Hclosed Hi Hx Hb.
  destruct (wf_packs _ _ Hwf x node Hb) as (_ & [Hc|(t & hidden & Hty & Hoff)] & _).
  - apply (clone_TypePackId_admitted_early flags dest base ST SP Hclosed b cT cP
             (HT _ _ Hclosed) (HP _ _ Hclosed)); assumption.
  - apply (clone_TypePackId_admitted_variadic flags dest base b cT cP HT ST SP
             Hclosed x node t hidden); assumption.
Qed.

(** With budget [b], [clone] of a node of a closed part registers the
    node, keeps the invariant and stays in the part; the limiter can
    refuse only when [b] does not exceed the number of unseen nodes of
    the part. *)
Theorem clone_rec_spec b ST SP :
  closed_set base ST SP ->
  clones_types dest base ST SP b (clone_rec flags dest b)
  /\ clones_packs dest base ST SP b (clone_pack_rec flags dest b).
Proof using Hwf.
  revert ST SP. induction b as [|b IH]; intros ST SP Hclosed.
  - split; intros x w Hi Hx.
    + destruct (proj1 Hclosed x Hx) as (node & Hb & _).
      destruct (wf_types _ _ Hwf x node Hb) as (Hnp & _).
      rewrite clone_rec_unfold, (getType_bind x node).
      * rewrite Hnp. cbn. apply EX_0.
      * rewrite (inv_base_t Hi) by (eapply lookup_lt_Some; eauto). exact Hb.
    + destruct (proj2 Hclosed x Hx) as (node & Hb & _).
      destruct (wf_packs _ _ Hwf x node Hb) as (Hnp & _).
      rewrite clone_pack_rec_unfold, (getTypePack_bind x node).
      * rewrite Hnp. cbn. apply EX_0.
      * rewrite (inv_base_p Hi) by (eapply lookup_lt_Some; eauto). exact Hb.
  - assert (HT : forall ST SP, closed_set base ST SP ->
                   clones_types dest base ST SP b (clone_rec flags dest b))
      by (intros; now apply IH).
    assert (HP : forall ST SP, closed_set base ST SP ->
                   clones_packs dest base ST SP b (clone_pack_rec flags dest b))
      by (intros; now apply IH).
    split; intros x w Hi Hx.
    + destruct (proj1 Hclosed x Hx) as (node & Hb & _).
      destruct (wf_types _ _ Hwf x node Hb) as (Hnp & _).
      rewrite clone_rec_unfold, (getType_bind x node).
      * rewrite Hnp. now apply clone_TypeId_admitted_spec.
      * rewrite (inv_base_t Hi) by (eapply lookup_lt_Some; eauto). exact Hb.
    + destruct (proj2 Hclosed x Hx) as (node & Hb & _).
      destruct (wf_packs _ _ Hwf x node Hb) as (Hnp & _).
      rewrite clone_pack_rec_unfold, (getTypePack_bind x node).
      * rewrite Hnp. now apply clone_TypePackId_admitted_spec.
      * rewrite (inv_base_p Hi) by (eapply lookup_lt_Some; eauto). exact Hb.
Qed.

End Recursion.

Import TypeGraph Clone CloneSpec CloneSamples.


(** C1. A persistent type and a persistent type pack are returned
    themselves by [clone], whatever the destination arena, the flags and
    the [CloneState]; memory and [CloneState] are left as they were, so
    nothing is allocated and nothing is written. *)
Theorem clone_persistent_identity (flags : FFlags) (dest : ArenaId) (w : World) :
  (forall T node,
     types (mem w) !! T = Some node -> persistent node = true ->
     clone flags T dest w = Returned T w)
  /\ (forall P node,
        typePacks (mem w) !! P = Some node -> tp_persistent node = true ->
        clone_pack flags P dest w = Returned P w).
Proof.
  split; intros x node Hn Hp; unfold clone, clone_pack.
  - eapply clone_rec_persistent; eauto.
  - eapply clone_pack_rec_persistent; eauto.
Qed.

Lemma clone_persistent_identity_witness :
  clone defaultFlags 0 1 builtinWorld = Returned 0 builtinWorld
  /\ clone_pack defaultFlags 0 1 builtinWorld = Returned 0 builtinWorld.
Proof.
  split.
  - apply (proj1 (clone_persistent_identity defaultFlags 1 builtinWorld) 0
             (mkType (PrimitiveType Number) true None None)); reflexivity.
  - apply (proj2 (clone_persistent_identity defaultFlags 1 builtinWorld) 0
             (mkTypePackVar (TypePack [0] None) true None)); reflexivity.
Defined.

(** *** Fidelity *)

Lemma EX_startWorld base count (b : nat) :
  EX (set_seq 0 (length (types base))) (set_seq 0 (length (typePacks base))) b
    (startWorld base count) ->
  b <= length (types base) + length (typePacks base).
Proof.
  unfold EX. cbn. rewrite !dom_empty_L, !difference_empty_L, !size_set_seq. auto.
Qed.

Lemma clone_outcome flags dest base count root (b : nat) :
  wf_graph flags base -> root < length (types base) ->
  length (types base) + length (typePacks base) < b ->
  exists c w',
    clone_rec flags dest b root (startWorld base count) = Returned c w'
    /\ seenTypes (cloneState w') !! root = Some c
    /\ recursionCount (cloneState w') = count
    /\ faithful dest base w'.
Proof.
  intros Hwf Hroot Hb.
  pose proof (closed_set_full flags base Hwf) as Hclosed.
  destruct (clone_rec_spec flags dest base Hwf b _ _ Hclosed) as [HT _].
  assert (Hin : root ∈ (set_seq 0 (length (types base)) : gset nat))
    by (apply elem_of_set_seq; cbn; lia).
  specialize (HT root (startWorld base count) (Inv_startWorld base count) Hin).
  destruct (clone_rec flags dest b root (startWorld base count)) as [c w'|w'|];
    cbn in HT.
  - destruct HT as (Hi & He & Hs). exists c, w'. split; [reflexivity|].
    split; [exact Hs|]. split; [apply (ext_count He)|].
    eapply faithful_of_Ext; eauto.
  - apply EX_startWorld in HT. lia.
  - destruct HT.
Qed.

Lemma clone_pack_outcome flags dest base count root (b : nat) :
  wf_graph flags base -> root < length (typePacks base) ->
  length (types base) + length (typePacks base) < b ->
  exists c w',
    clone_pack_rec flags dest b root (startWorld base count) = Returned c w'
    /\ seenTypePacks (cloneState w') !! root = Some c
    /\ recursionCount (cloneState w') = count
    /\ faithful dest base w'.
Proof.
  intros Hwf Hroot Hb.
  pose proof (closed_set_full flags base Hwf) as Hclosed.
  destruct (clone_rec_spec flags dest base Hwf b _ _ Hclosed) as [_ HP].
  assert (Hin : root ∈ (set_seq 0 (length (typePacks base)) : gset nat))
    by (apply elem_of_set_seq; cbn; lia).
  specialize (HP root (startWorld base count) (Inv_startWorld base count) Hin).
  destruct (clone_pack_rec flags dest b root (startWorld base count)) as [c w'|w'|];
    cbn in HP.
  - destruct HP as (Hi & He & Hs). exists c, w'. split; [reflexivity|].
    split; [exact Hs|]. split; [apply (ext_count He)|].
    eapply faithful_of_Ext; eauto.
  - apply EX_startWorld in HP. lia.
  - destruct HP.
Qed.


Lemma cyclicGraph_wf : wf_graph cyclicFlags cyclicGraph.
Proof.
  constructor.
  - intros x node H. destruct x as [|[|[|[|x]]]]; cbn in H; try discriminate;
      injection H as <-; cbn; (split; [reflexivity|]); (split; [left; cbn|]).
    + reflexivity.
    + repeat constructor.
    + split; [reflexivity|]. apply map_Forall_singleton. exists 0. auto.
    + split; [|repeat split; repeat constructor].
      apply map_Forall_singleton. split; constructor; cbn; lia.
    + split; eauto.
    + repeat split; repeat constructor.
    + exact I.
    + exact I.
  - intros x node H. destruct x as [|[|x]]; cbn in H; try discriminate;
      injection H as <-; cbn; (split; [reflexivity|]).
    + split; [left; exact I|]. repeat split; repeat constructor.
    + split; [|lia]. right. exists 3, false. split; [reflexivity|].
      exists {[3]}, ∅. split; [|split].
      * split.
        -- intros y Hy. apply elem_of_singleton in Hy as ->.
           exists (sampleNode (PrimitiveType Number)). split; [reflexivity | exact I].
        -- intros y Hy. now apply elem_of_empty in Hy.
      * cbn. now apply elem_of_singleton.
      * apply not_elem_of_empty.
Qed.


(** C2. The claim fails on the code as it runs by default, with
    [LuauCloneCyclicUnions] unset.  The union of [type T = { next: T } |
    nil] is cloned twice: [clone] returns one copy of it, and the
    property [next] of the cloned table is another copy, so the two
    edges that reach the union do not reach one clone.  With the flag set
    the same graph is cloned as the claim says: the property [next] of
    the cloned table is the clone that is returned.  And a union that is
    its own option is not cloned at all by default: the traversal goes
    on until the recursion limit ends it. *)
Lemma clone_duplicates_cyclic_union :
  (exists w',
     clone defaultFlags 0 1 listWorld = Returned 6 w'
     /\ seenTypes (cloneState w') !! 0 = Some 6
     /\ seenTypes (cloneState w') !! 1 = Some 3
     /\ nextOf w' 3 = Some 5
     /\ ty <$> types (mem w') !! 5 = Some (UnionType [3; 4])
     /\ ty <$> types (mem w') !! 6 = Some (UnionType [3; 4]))
  /\ (exists w',
        clone cyclicFlags 0 1 listWorld = Returned 3 w'
        /\ seenTypes (cloneState w') !! 0 = Some 3
        /\ seenTypes (cloneState w') !! 1 = Some 4
        /\ nextOf w' 4 = Some 3)
  /\ (forall c w', clone defaultFlags 0 1 cyclicUnionWorld <> Returned c w').
Proof.
  split; [|split].
  - vm_compute. eexists. repeat split; reflexivity.
  - vm_compute. eexists. repeat split; reflexivity.
  - intros c w'. vm_compute. discriminate.
Qed.

(** *** The recursion limit *)

Lemma budgetOf_withLimit limit flags w :
  budgetOf (withLimit limit flags) w = limit - recursionCount (cloneState w).
Proof. reflexivity. Qed.

Lemma clone_TypeId_admitted_withLimit limit flags dest cT cP x node :
  clone_TypeId_admitted (withLimit limit flags) dest cT cP x node
  = clone_TypeId_admitted flags dest cT cP x node.
Proof. unfold clone_TypeId_admitted. destruct (ty node); reflexivity. Qed.

Lemma clone_TypePackId_admitted_withLimit limit flags dest cT cP x node :
  clone_TypePackId_admitted (withLimit limit flags) dest cT cP x node
  = clone_TypePackId_admitted flags dest cT cP x node.
Proof. unfold clone_TypePackId_admitted. destruct (tp_ty node); reflexivity. Qed.

(** The limit is read at the entry of [clone] only: the traversal itself
    does not depend on it. *)
Lemma clone_rec_withLimit limit flags dest b :
  (forall x, refines (clone_rec (withLimit limit flags) dest b x)
               (clone_rec flags dest b x))
  /\ (forall x, refines (clone_pack_rec (withLimit limit flags) dest b x)
                  (clone_pack_rec flags dest b x))
  /\ (forall x, refines (clone_rec flags dest b x)
                  (clone_rec (withLimit limit flags) dest b x))
  /\ (forall x, refines (clone_pack_rec flags dest b x)
                  (clone_pack_rec (withLimit limit flags) dest b x)).
Proof.
  induction b as [|b (IH1 & IH2 & IH3 & IH4)].
  - split; [|split; [|split]]; intros x; apply refines_refl.
  - split; [|split; [|split]]; intros x;
      rewrite ?clone_rec_unfold, ?clone_pack_rec_unfold;
      (apply refines_bind; [apply refines_refl|]); intros node.
    + destruct (persistent node); [apply refines_refl|].
      rewrite clone_TypeId_admitted_withLimit.
      apply refines_clone_TypeId_admitted; auto.
    + destruct (tp_persistent node); [apply refines_refl|].
      rewrite clone_TypePackId_admitted_withLimit.
      apply refines_clone_TypePackId_admitted; auto.
    + destruct (persistent node); [apply refines_refl|].
      rewrite clone_TypeId_admitted_withLimit.
      apply refines_clone_TypeId_admitted; auto.
    + destruct (tp_persistent node); [apply refines_refl|].
      rewrite clone_TypePackId_admitted_withLimit.
      apply refines_clone_TypePackId_admitted; auto.
Qed.

(** *** No error node is put in *)

Section ErrorFree.
Import CloneFrame.
Context (flags : FFlags) (dest : ArenaId).

Local Abbreviation okE m := (CloneFrame.addsNoError m (fun _ => True)).

Lemma ef_ret {A} (a : A) (Q : A -> Prop) : Q a -> addsNoError (ret a) Q.
Proof. intros HQ w Hw. cbn. auto. Qed.

Lemma ef_undefined {A} (Q : A -> Prop) : addsNoError (@undefined A) Q.
Proof. intros w Hw. exact I. Qed.

Lemma ef_throwLimit {A} (Q : A -> Prop) : addsNoError (@throwLimit A) Q.
Proof. intros w Hw. exact Hw. Qed.

Lemma ef_bind {A B} (m : M A) (k : A -> M B) (P : A -> Prop) (Q : B -> Prop) :
  addsNoError m P -> (forall a, P a -> addsNoError (k a) Q) ->
  addsNoError (bind m k) Q.
Proof.
  intros Hm Hk w Hw. unfold bind. specialize (Hm w Hw).
  destruct (m w) as [a w1|w1|]; [|exact Hm|exact I].
  destruct Hm as (Hw1 & Pa). exact (Hk a Pa w1 Hw1).
Qed.

Lemma ef_weaken {A} (m : M A) (P Q : A -> Prop) :
  addsNoError m P -> (forall a, P a -> Q a) -> addsNoError m Q.
Proof.
  intros Hm HPQ w Hw. specialize (Hm w Hw).
  destruct (m w) as [a w1|w1|]; [|exact Hm|exact I].
  destruct Hm as (? & ?). auto.
Qed.

Lemma ef_bindT {A B} (m : M A) (k : A -> M B) :
  okE m -> (forall a, okE (k a)) -> okE (bind m k).
Proof. intros Hm Hk. eapply ef_bind; [exact Hm|]. intros a _. apply Hk. Qed.

Lemma ef_forEach {A} (xs : list A) (body : A -> M unit) :
  (forall x, okE (body x)) -> okE (forEach xs body).
Proof.
  intros Hb. induction xs as [|x xs IH]; cbn [forEach].
  - now apply ef_ret.
  - apply ef_bindT; auto.
Qed.

Lemma ef_cloneInto {A} (cl : A -> M A) (xs acc : list A) :
  (forall x, okE (cl x)) -> okE (cloneInto cl xs acc).
Proof.
  intros Hc. revert acc. induction xs as [|x xs IH]; intros acc; cbn [cloneInto].
  - now apply ef_ret.
  - apply ef_bindT; auto.
Qed.

(** A node read from an error-free memory is no error node. *)
Lemma ef_getType x : addsNoError (getType x) (fun node => ty node <> ErrorType).
Proof.
  intros w Hw. unfold getType. destruct (types (mem w) !! x) eqn:E; [|exact I].
  split; [exact Hw|]. exact (proj1 Hw _ _ E).
Qed.

Lemma ef_getTypePack x :
  addsNoError (getTypePack x) (fun node => tp_ty node <> ErrorTypePack).
Proof.
  intros w Hw. unfold getTypePack. destruct (typePacks (mem w) !! x) eqn:E; [|exact I].
  split; [exact Hw|]. exact (proj2 Hw _ _ E).
Qed.

Lemma ef_lookupSeenType x : okE (lookupSeenType x).
Proof. intros w Hw. cbn. auto. Qed.

Lemma ef_lookupSeenTypePack x : okE (lookupSeenTypePack x).
Proof. intros w Hw. cbn. auto. Qed.

Lemma ef_setSeenType x c : okE (setSeenType x c).
Proof. intros w Hw. cbn. split; [exact Hw | exact I]. Qed.

Lemma ef_setSeenTypePack x c : okE (setSeenTypePack x c).
Proof. intros w Hw. cbn. split; [exact Hw | exact I]. Qed.

Lemma ef_addType v : v <> ErrorType -> okE (addType dest v).
Proof.
  intros Hv w [H1 H2]. cbn. split; [|exact I]. split; cbn; [|exact H2].
  intros i node H. apply lookup_app_Some in H as [H | [_ H]]; [eauto|].
  apply list_lookup_singleton_Some in H as [_ <-]. exact Hv.
Qed.

Lemma ef_addTypePack v : v <> ErrorTypePack -> okE (addTypePack dest v).
Proof.
  intros Hv w [H1 H2]. cbn. split; [|exact I]. split; cbn; [exact H1|].
  intros i node H. apply lookup_app_Some in H as [H | [_ H]]; [eauto|].
  apply list_lookup_singleton_Some in H as [_ <-]. exact Hv.
Qed.

Lemma ef_modifyType r f : makesNoError f -> okE (modifyType r f).
Proof.
  intros Hf w [H1 H2]. unfold modifyType.
  destruct (types (mem w) !! r) as [node|] eqn:E; [|exact I].
  cbn. split; [|exact I]. split; cbn; [|exact H2].
  intros i n' H. destruct (decide (i = r)) as [->|Hne].
  - rewrite list_lookup_insert_eq in H by (now apply lookup_lt_Some in E).
    injection H as <-. apply Hf. eauto.
  - rewrite list_lookup_insert_ne in H by congruence. eauto.
Qed.

Lemma ef_modifyTypePack r f : makesNoErrorPack f -> okE (modifyTypePack r f).
Proof.
  intros Hf w [H1 H2]. unfold modifyTypePack.
  destruct (typePacks (mem w) !! r) as [node|] eqn:E; [|exact I].
  cbn. split; [|exact I]. split; cbn; [exact H1|].
  intros i n' H. destruct (decide (i = r)) as [->|Hne].
  - rewrite list_lookup_insert_eq in H by (now apply lookup_lt_Some in E).
    injection H as <-. apply Hf. eauto.
  - rewrite list_lookup_insert_ne in H by congruence. eauto.
Qed.

Lemma makesNoError_setTy v : v <> ErrorType -> makesNoError (setTy v).
Proof. intros Hv node _. exact Hv. Qed.

Lemma makesNoError_onFunction g : makesNoError (onFunction g).
Proof.
  intros node H. unfold onFunction. destruct (ty node) eqn:E; cbn; congruence.
Qed.

Lemma makesNoError_onTable g : makesNoError (onTable g).
Proof.
  intros node H. unfold onTable. destruct (ty node) eqn:E; cbn; congruence.
Qed.

Lemma makesNoError_onClass g : makesNoError (onClass g).
Proof.
  intros node H. unfold onClass. destruct (ty node) eqn:E; cbn; congruence.
Qed.

Lemma makesNoError_onVariant g :
  (forall v, v <> ErrorType -> g v <> ErrorType) -> makesNoError (onVariant g).
Proof. intros Hg node H. cbn. now apply Hg. Qed.

Lemma makesNoErrorPack_onPackVariant g :
  (forall v, v <> ErrorTypePack -> g v <> ErrorTypePack) ->
  makesNoErrorPack (onPackVariant g).
Proof. intros Hg node H. cbn. now apply Hg. Qed.

Lemma makesNoError_setDocumentationSymbol d :
  makesNoError (setDocumentationSymbol d).
Proof. intros node H. exact H. Qed.

Create HintDb errfree.
#[local] Hint Resolve makesNoError_onFunction makesNoError_onTable
  makesNoError_onClass makesNoError_setDocumentationSymbol : errfree.
#[local] Hint Extern 1 (makesNoError (setTy _)) =>
  apply makesNoError_setTy; discriminate : errfree.
#[local] Hint Extern 1 (makesNoError (onVariant _)) =>
  apply makesNoError_onVariant; intros [] ?; cbn; congruence : errfree.
#[local] Hint Extern 1 (makesNoErrorPack (onPackVariant _)) =>
  apply makesNoErrorPack_onPackVariant; intros [] ?; cbn; congruence : errfree.

Section Cloners.
Context (cloneTy : TypeId -> M TypeId) (cloneTp : TypePackId -> M TypePackId).
Context (HT : forall x, okE (cloneTy x)) (HP : forall x, okE (cloneTp x)).

Ltac efstep :=
  match goal with
  | |- CloneFrame.addsNoError (ret _) _ => apply ef_ret; exact I
  | |- CloneFrame.addsNoError undefined _ => apply ef_undefined
  | |- CloneFrame.addsNoError (bind (getType _) _) _ =>
      eapply ef_bind; [apply ef_getType | intros ? ?]
  | |- CloneFrame.addsNoError (bind _ _) _ => apply ef_bindT; [|intros ?]
  | |- CloneFrame.addsNoError (forEach _ _) _ => apply ef_forEach; intros ?
  | |- CloneFrame.addsNoError (cloneInto _ _ _) _ => apply ef_cloneInto; intros ?
  | |- CloneFrame.addsNoError (modifyType _ _) _ =>
      apply ef_modifyType; auto with errfree
  | |- CloneFrame.addsNoError (modifyTypePack _ _) _ =>
      apply ef_modifyTypePack; auto with errfree
  | |- CloneFrame.addsNoError (setSeenType _ _) _ => apply ef_setSeenType
  | |- CloneFrame.addsNoError (setSeenTypePack _ _) _ => apply ef_setSeenTypePack
  | |- CloneFrame.addsNoError (addType _ _) _ =>
      apply ef_addType; (assumption || discriminate)
  | |- CloneFrame.addsNoError (addTypePack _ _) _ =>
      apply ef_addTypePack; (assumption || discriminate)
  | |- CloneFrame.addsNoError (cloneTy _) _ => apply HT
  | |- CloneFrame.addsNoError (cloneTp _) _ => apply HP
  | |- CloneFrame.addsNoError (let '(_, _) := ?x in _) _ => destruct x
  | |- CloneFrame.addsNoError (match ?x with _ => _ end) _ => destruct x eqn:?
  end.

Lemma ef_cloneOptionalType o : okE (cloneOptionalType cloneTy o).
Proof using HT. unfold cloneOptionalType. repeat efstep. Qed.

Lemma ef_clone_Property p : okE (clone_Property flags cloneTy p).
Proof using HT.
  unfold clone_Property.
  repeat first [apply ef_cloneOptionalType | efstep].
Qed.

Lemma ef_clone_TableIndexer ix : okE (clone_TableIndexer flags cloneTy ix).
Proof using HT. unfold clone_TableIndexer. repeat efstep. Qed.

Ltac efgo :=
  repeat first [apply ef_clone_Property | apply ef_clone_TableIndexer | efstep].

Lemma ef_TypePackCloner x v :
  v <> ErrorTypePack -> okE (TypePackCloner flags dest cloneTy cloneTp x v).
Proof using HT HP.
  intros Hv. unfold TypePackCloner, tp_defaultClone.
  destruct v; try congruence; efgo.
Qed.

Lemma ef_TypeCloner x v :
  v <> ErrorType -> okE (TypeCloner flags dest cloneTy cloneTp x v).
Proof using HT HP.
  intros Hv.
  unfold TypeCloner, defaultClone, clone_FunctionType, clone_TableType,
    clone_MetatableType, clone_ClassType, clone_UnionType,
    cloneTypeParamAt, cloneTypePackParamAt.
  destruct v; try congruence; efgo.
Qed.

Lemma ef_clone_TypeId_admitted x node :
  ty node <> ErrorType ->
  okE (clone_TypeId_admitted flags dest cloneTy cloneTp x node).
Proof using HT HP.
  intros Hn. unfold clone_TypeId_admitted.
  apply ef_bindT; [apply ef_lookupSeenType|]. intros [r|]; [now apply ef_ret|].
  apply ef_bindT; [now apply ef_TypeCloner|]. intros _.
  apply ef_bindT; [apply ef_lookupSeenType|]. intros [r|]; [|apply ef_undefined].
  efgo.
Qed.

Lemma ef_clone_TypePackId_admitted x node :
  tp_ty node <> ErrorTypePack ->
  okE (clone_TypePackId_admitted flags dest cloneTy cloneTp x node).
Proof using HT HP.
  intros Hn. unfold clone_TypePackId_admitted.
  apply ef_bindT; [apply ef_lookupSeenTypePack|]. intros [r|]; [now apply ef_ret|].
  apply ef_bindT; [now apply ef_TypePackCloner|]. intros _.
  apply ef_bindT; [apply ef_lookupSeenTypePack|]. intros [r|]; [|apply ef_undefined].
  now apply ef_ret.
Qed.

End Cloners.

Lemma ef_clone_rec b :
  (forall x, okE (clone_rec flags dest b x))
  /\ (forall x, okE (clone_pack_rec flags dest b x)).
Proof.
  induction b as [|b [IHT IHP]].
  - split; intros x; cbn [clone_rec clone_pack_rec];
      (eapply ef_bind; [apply ef_getType || apply ef_getTypePack|]);
      intros node Hn.
    + destruct (persistent node); [now apply ef_ret | apply ef_throwLimit].
    + destruct (tp_persistent node); [now apply ef_ret | apply ef_throwLimit].
  - split; intros x; cbn [clone_rec clone_pack_rec];
      (eapply ef_bind; [apply ef_getType || apply ef_getTypePack|]);
      intros node Hn.
    + destruct (persistent node); [now apply ef_ret|].
      now apply ef_clone_TypeId_admitted.
    + destruct (tp_persistent node); [now apply ef_ret|].
      now apply ef_clone_TypePackId_admitted.
Qed.

End ErrorFree.

Lemma errorFree_hasErrorNode w :
  CloneFrame.errorFree w <-> hasErrorNode w = false.
Proof.
  unfold CloneFrame.errorFree, hasErrorNode.
  rewrite orb_false_iff, <- !not_true_iff_false, !existsb_exists. split.
  - intros [H1 H2]. split.
    + intros (node & Hin & Hty). apply list_elem_of_In, list_elem_of_lookup in Hin as [i Hi].
      apply (H1 _ _ Hi). now destruct (ty node).
    + intros (node & Hin & Hty). apply list_elem_of_In, list_elem_of_lookup in Hin as [i Hi].
      apply (H2 _ _ Hi). now destruct (tp_ty node).
  - intros [H1 H2]. split.
    + intros i node Hi Hty. apply H1. exists node. split.
      * apply list_elem_of_In, list_elem_of_lookup. eauto.
      * now rewrite Hty.
    + intros i node Hi Hty. apply H2. exists node. split.
      * apply list_elem_of_In, list_elem_of_lookup. eauto.
      * now rewrite Hty.
Qed.




Import Compile.


(** ** The command line of the compiler *)

Section CommandLine.
Import CompileMain CompileSamples.
Context {Double Others Bcb ParseResult : Type}.
Context (ext : Collaborators Double Others Bcb ParseResult).
Context (atoi : string -> Z).
Context (setLuauFlags : string -> FastFlags Others -> FastFlags Others).

Let parseArg := @CompileMain.parseArg Double Others atoi setLuauFlags.
Let parseArgs := @CompileMain.parseArgs Double Others atoi setLuauFlags.

Lemma parseArg_levels argv0 arg s :
  levelsInRange (globalOptions s) ->
  match parseArg argv0 arg s with
  | Proceed s' | Return _ s' => levelsInRange (globalOptions s')
  end.
Proof.
  intros [Ho Hg]. unfold parseArg, CompileMain.parseArg.
  destruct (strcmp_eq0 arg "-h" || strcmp_eq0 arg "--help"); [split; assumption|].
  destruct (strncmp_eq0 arg "-O").
  { destruct (atoi (skip 2 arg) <? 0)%Z eqn:E1; [split; assumption|].
    destruct (2 <? atoi (skip 2 arg))%Z eqn:E2; [split; assumption|].
    apply Z.ltb_ge in E1, E2. split; [cbn -[skip]; lia | assumption]. }
  destruct (strncmp_eq0 arg "-g").
  { destruct (atoi (skip 2 arg) <? 0)%Z eqn:E1; [split; assumption|].
    destruct (2 <? atoi (skip 2 arg))%Z eqn:E2; [split; assumption|].
    apply Z.ltb_ge in E1, E2. split; [assumption | cbn -[skip]; lia]. }
  destruct (strcmp_eq0 arg "--timetrace"); [split; assumption|].
  destruct (strncmp_eq0 arg "--fflags="); [split; assumption|].
  destruct (if strncmp_eq0 arg "--" then getCompileFormat (skip 2 arg) else None);
    [split; assumption|].
  destruct (strncmp_eq0 arg "-"); split; assumption.
Qed.

Lemma parseArgs_levels argv0 args s :
  levelsInRange (globalOptions s) ->
  match parseArgs argv0 args s with
  | Proceed s' | Return _ s' => levelsInRange (globalOptions s')
  end.
Proof.
  revert s. induction args as [|arg rest IH]; intros s H; cbn; [exact H|].
  pose proof (parseArg_levels argv0 arg s H) as H1. unfold parseArg in H1.
  destruct (CompileMain.parseArg atoi setLuauFlags argv0 arg s) as [s1|code s1];
    [apply IH|]; exact H1.
Qed.

Lemma string_prefix_cons c p d s :
  String.prefix (String c p) (String d s) = true -> c = d /\ String.prefix p s = true.
Proof. cbn. destruct (ascii_dec c d); [auto | discriminate]. Qed.

Ltac peel H :=
  match type of H with
  | String.prefix (String _ _) ?s = true =>
      destruct s as [|? ?];
      [cbn in H; discriminate | apply string_prefix_cons in H as [<- H]]
  end.

Lemma parseArg_format argv0 arg s s' :
  parseArg argv0 arg s = Proceed s' ->
  compileFormat s' = default (compileFormat s) (formatOption arg).
Proof.
  unfold parseArg, CompileMain.parseArg, formatOption.
  destruct (strcmp_eq0 arg "-h" || strcmp_eq0 arg "--help"); [discriminate|].
  destruct (strncmp_eq0 arg "-O") eqn:EO.
  { assert (strncmp_eq0 arg "--" = false) as ->.
    { unfold strncmp_eq0 in *. peel EO. peel EO. reflexivity. }
    destruct (_ || _); [discriminate|]. now intros [= <-]. }
  destruct (strncmp_eq0 arg "-g") eqn:Eg.
  { assert (strncmp_eq0 arg "--" = false) as ->.
    { unfold strncmp_eq0 in *. peel Eg. peel Eg. reflexivity. }
    destruct (_ || _); [discriminate|]. now intros [= <-]. }
  destruct (strcmp_eq0 arg "--timetrace") eqn:Et.
  { apply String.eqb_eq in Et as ->. now intros [= <-]. }
  destruct (strncmp_eq0 arg "--fflags=") eqn:Ef.
  { assert (strncmp_eq0 arg "--" = true /\ getCompileFormat (skip 2 arg) = None)
      as [-> ->].
    { unfold strncmp_eq0 in *. clear EO Eg Et. peel Ef. peel Ef. peel Ef.
      split; reflexivity. }
    now intros [= <-]. }
  destruct (if strncmp_eq0 arg "--" then getCompileFormat (skip 2 arg) else None)
    as [f|]; [now intros [= <-]|].
  destruct (strncmp_eq0 arg "-"); [discriminate|]. now intros [= <-].
Qed.

Lemma parseArgs_app argv0 pre post s :
  parseArgs argv0 (pre ++ post) s
  = match parseArgs argv0 pre s with
    | Proceed s1 => parseArgs argv0 post s1
    | Return code s1 => Return code s1
    end.
Proof.
  revert s. induction pre as [|a pre IH]; intros s; cbn; [reflexivity|].
  destruct (CompileMain.parseArg atoi setLuauFlags argv0 a s); [apply IH | reflexivity].
Qed.

End CommandLine.

Section CompileFileFacts.
Import CompileMain CompileSamples.
Context {Double Others Bcb ParseResult : Type}.
Context (ext : Collaborators Double Others Bcb ParseResult).

Lemma written_onStats f (p : Process Double) :
  written (onStats f p) = written p.
Proof. reflexivity. Qed.

Lemma written_recordDeltaTime timer (p : Process Double) :
  written (snd (recordDeltaTime ext timer p)) = written p.
Proof. reflexivity. Qed.

Lemma stdout_write_stderr (e : Event Double) (p : Process Double) :
  toStdout e = false ->
  filter (fun e => toStdout e = true) (written (write e p))
  = filter (fun e => toStdout e = true) (written p).
Proof.
  intros H. cbn. rewrite filter_app, filter_cons, decide_False by congruence.
  apply app_nil_r.
Qed.

Lemma stdout_parse_errors name errors (p : Process Double) :
  filter (fun e => toStdout e = true)
    (written (foldl (fun p error => write (reportParseError name error) p) p errors))
  = filter (fun e => toStdout e = true) (written p).
Proof.
  revert p. induction errors as [|e errors IH]; intros p; cbn [foldl]; [reflexivity|].
  rewrite IH. now apply stdout_write_stderr.
Qed.

Lemma stdout_getCodegenAssembly name bytecode options bcb (p : Process Double) :
  filter (fun e => toStdout e = true)
    (written (snd (getCodegenAssembly ext name bytecode options bcb p)))
  = filter (fun e => toStdout e = true) (written p).
Proof.
  unfold getCodegenAssembly. destruct (_ =? _)%Z; [reflexivity|].
  now apply stdout_write_stderr.
Qed.

Lemma compileFile_result flags g name format (p : Process Double) :
  fst (compileFile ext flags g name format p) = compiles ext flags g format name.
Proof.
  unfold compileFile, compiles.
  destruct (readFile ext name) as [source|]; [|reflexivity].
  cbn -[parse compileOrThrow emit].
  destruct (parse ext flags source) as [[errors lines] result].
  destruct errors as [|e errors]; [|reflexivity].
  cbn -[compileOrThrow emit].
  destruct (compileOrThrow ext flags _ result (copts g)); reflexivity.
Qed.

Lemma compileFiles_failed s files failed (p : Process Double) :
  fst (compileFiles ext s files failed p)
  = (failed + Z.of_nat (length (filter
       (fun name => compiles ext (flags s) (globalOptions s) (compileFormat s) name = false)
       files)))%Z.
Proof.
  revert failed p. induction files as [|name files IH]; intros failed p;
    cbn [compileFiles]; [cbn; lia|].
  pose proof (compileFile_result (flags s) (globalOptions s) name (compileFormat s) p) as H.
  destruct (compileFile ext (flags s) (globalOptions s) name (compileFormat s) p)
    as [ok p']. cbn [fst] in H. subst ok.
  rewrite IH. rewrite filter_cons.
  destruct (compiles ext (flags s) (globalOptions s) (compileFormat s) name).
  - rewrite decide_False by discriminate. lia.
  - rewrite decide_True by reflexivity. cbn [length]. lia.
Qed.

End CompileFileFacts.

(** The optimization level and the debug level that [main] leaves in
    [globalOptions], and compiles every file with, are between 0 and 2,
    whatever the arguments and whatever [atoi] makes of them. *)
Theorem main_keeps_levels_in_range {Double Others Bcb ParseResult : Type}
    (ext : CompileMain.Collaborators Double Others Bcb ParseResult)
    (atoi : string -> Z)
    (setLuauFlagsDefault : CompileMain.FastFlags Others -> CompileMain.FastFlags Others)
    (setLuauFlags : string -> CompileMain.FastFlags Others -> CompileMain.FastFlags Others)
    (getSourceFiles : string -> list string -> list string)
    (LUAU_ENABLE_TIME_TRACE : bool)
    (zero : Double) (ofSize : Z -> Double) (ddiv : Double -> Double -> Double)
    (initialFlags : CompileMain.FastFlags Others) (argv0 : string)
    (args : list string) :
  CompileSamples.levelsInRange
    (CompileMain.globalOptions
       (snd (fst (CompileMain.main ext atoi setLuauFlagsDefault setLuauFlags
                    getSourceFiles LUAU_ENABLE_TIME_TRACE zero ofSize ddiv
                    initialFlags argv0 args)))).
Proof.
  unfold CompileMain.main.
  pose proof (parseArgs_levels (Double := Double) atoi setLuauFlags argv0 args
                (CompileMain.mkSettings CompileMain.initialGlobalOptions
                   (setLuauFlagsDefault initialFlags) Text [])) as H.
  destruct (CompileMain.parseArgs atoi setLuauFlags argv0 args _) as [s|code s].
  - specialize (H ltac:(split; cbn; lia)).
    destruct (negb LUAU_ENABLE_TIME_TRACE && _); [exact H|].
    destruct (CompileMain.compileFiles _ _ _ _ _). exact H.
  - apply H. split; cbn; lia.
Qed.

(** When the option loop runs to its end, the format that [main] compiles
    with is the one named by the last argument of the form
    [--<format name>]; without such an argument it stays as it was
    ([text] at the start). *)
Theorem format_is_last_selector {Double Others : Type}
    (atoi : string -> Z)
    (setLuauFlags : string -> CompileMain.FastFlags Others -> CompileMain.FastFlags Others)
    (argv0 : string) (args : list string)
    (s s' : CompileMain.Settings Double Others) :
  CompileMain.parseArgs atoi setLuauFlags argv0 args s = CompileMain.Proceed s' ->
  CompileMain.compileFormat s'
  = CompileSamples.lastFormat (CompileMain.compileFormat s) args.
Proof.
  revert s. induction args as [|arg rest IH]; intros s H; cbn in H.
  - now injection H as <-.
  - destruct (CompileMain.parseArg atoi setLuauFlags argv0 arg s) as [s1|code s1] eqn:E;
      [|discriminate].
    apply parseArg_format in E. unfold CompileSamples.lastFormat. cbn [foldl].
    rewrite <- E. now apply IH.
Qed.

Lemma format_is_last_selector_witness :
  CompileMain.compileFormat
    (CompileMain.mkSettings (Double := Z) (Others := unit)
       (CompileMain.mkGlobalOptions 2 1) CompileSamples.sampleFlags Remarks [])
  = CompileSamples.lastFormat Text ["--binary"; "-O2"; "--remarks"; "good.luau"].
Proof.
  apply (format_is_last_selector CompileSamples.sampleAtoi (fun _ f => f)
           "luau-compile" ["--binary"; "-O2"; "--remarks"; "good.luau"]
           CompileSamples.sampleSettings).
  reflexivity.
Defined.

(** When the options are accepted and time tracing is not asked of a
    build without it, [main] returns 0 if every source file can be read,
    parses without errors and compiles, and 1 otherwise. *)
Theorem main_exit_code {Double Others Bcb ParseResult : Type}
    (ext : CompileMain.Collaborators Double Others Bcb ParseResult)
    (atoi : string -> Z)
    (setLuauFlagsDefault : CompileMain.FastFlags Others -> CompileMain.FastFlags Others)
    (setLuauFlags : string -> CompileMain.FastFlags Others -> CompileMain.FastFlags Others)
    (getSourceFiles : string -> list string -> list string)
    (LUAU_ENABLE_TIME_TRACE : bool)
    (zero : Double) (ofSize : Z -> Double) (ddiv : Double -> Double -> Double)
    (initialFlags : CompileMain.FastFlags Others) (argv0 : string)
    (args : list string) (s : CompileMain.Settings Double Others) :
  CompileMain.parseArgs atoi setLuauFlags argv0 args
    (CompileMain.mkSettings CompileMain.initialGlobalOptions
       (setLuauFlagsDefault initialFlags) Text [])
  = CompileMain.Proceed s ->
  LUAU_ENABLE_TIME_TRACE = true
  \/ CompileMain.DebugLuauTimeTracing (CompileMain.flags s) = false ->
  fst (fst (CompileMain.main ext atoi setLuauFlagsDefault setLuauFlags
              getSourceFiles LUAU_ENABLE_TIME_TRACE zero ofSize ddiv
              initialFlags argv0 args))
  = if forallb (CompileSamples.compiles ext (CompileMain.flags s)
                  (CompileMain.globalOptions s) (CompileMain.compileFormat s))
         (getSourceFiles argv0 args)
    then 0%Z else 1%Z.
Proof.
  intros Hp Ht. unfold CompileMain.main. rewrite Hp.
  assert (negb LUAU_ENABLE_TIME_TRACE
          && CompileMain.DebugLuauTimeTracing (CompileMain.flags s) = false) as ->.
  { destruct Ht as [-> | ->]; [reflexivity | apply andb_false_r]. }
  pose proof (compileFiles_failed ext s (getSourceFiles argv0 args) 0
                (CompileMain.mkProcess (CompileMain.emptyStats zero) 0
                   (CompileMain.printed s))) as H.
  destruct (CompileMain.compileFiles _ _ _ _ _) as [failed p]. cbn [fst] in *.
  subst failed. rewrite Z.add_0_l.
  induction (getSourceFiles argv0 args) as [|name files IH]; [reflexivity|].
  rewrite filter_cons. cbn [forallb].
  destruct (CompileSamples.compiles ext _ _ _ name).
  - rewrite decide_False by discriminate. exact IH.
  - rewrite decide_True by reflexivity. cbn [length andb].
    destruct (Z.of_nat (S _) =? 0)%Z eqn:E; [|reflexivity].
    apply Z.eqb_eq in E. lia.
Qed.

Lemma main_exit_code_witness :
  fst (fst (CompileSamples.sampleMain ["--null"; "good.luau"; "bad.luau"])) = 1%Z.
Proof.
  unfold CompileSamples.sampleMain.
  rewrite (main_exit_code CompileSamples.sampleCollaborators CompileSamples.sampleAtoi
             (fun f => f) (fun _ f => f) CompileSamples.sampleSourceFiles false
             0%Z (fun z => z) Z.div CompileSamples.sampleFlags "luau-compile"
             ["--null"; "good.luau"; "bad.luau"]
             (CompileMain.mkSettings CompileMain.initialGlobalOptions
                CompileSamples.sampleFlags Null [])
             eq_refl (or_intror eq_refl)).
  reflexivity.
Defined.

(** A file that [compileFile] gives up on, and every file compiled with
    the format [null] or [codegennull], adds nothing to the standard
    output: whatever is written goes to the standard error. *)
Theorem compileFile_quiet_on_stdout {Double Others Bcb ParseResult : Type}
    (ext : CompileMain.Collaborators Double Others Bcb ParseResult)
    (flags : CompileMain.FastFlags Others) (g : CompileMain.GlobalOptions)
    (name : string) (format : CompileFormat) (p : CompileMain.Process Double) :
  fst (CompileMain.compileFile ext flags g name format p) = false
  \/ format = Null \/ format = CodegenNull ->
  filter (fun e => CompileMain.toStdout e = true)
    (CompileMain.written (snd (CompileMain.compileFile ext flags g name format p)))
  = filter (fun e => CompileMain.toStdout e = true) (CompileMain.written p).
Proof.
  unfold CompileMain.compileFile.
  destruct (CompileMain.readFile ext name) as [source|];
    [|intros _; cbn [snd]; now rewrite stdout_write_stderr].
  cbn -[CompileMain.parse CompileMain.compileOrThrow CompileMain.emit
        CompileMain.assemblyOptions CompileMain.write].
  destruct (CompileMain.parse ext flags source) as [[errors lines] result].
  destruct errors as [|e errors];
    [|intros _; cbn [snd]; now rewrite stdout_parse_errors].
  cbn -[CompileMain.compileOrThrow CompileMain.emit CompileMain.assemblyOptions
        CompileMain.write].
  destruct (CompileMain.compileOrThrow ext flags _ result (CompileMain.copts g))
    as [err|bcb]; [intros _; cbn [snd]; now rewrite stdout_write_stderr|].
  cbn [fst snd]. intros [H | [-> | ->]]; [discriminate | reflexivity |].
  unfold CompileMain.emit.
  match goal with
  | |- context [CompileMain.getCodegenAssembly ext ?n ?b ?o ?c ?q] =>
      pose proof (stdout_getCodegenAssembly ext n b o c q) as H;
      destruct (CompileMain.getCodegenAssembly ext n b o c q) as [text q']
  end.
  exact H.
Qed.

Lemma compileFile_quiet_on_stdout_witness :
  filter (fun e => CompileMain.toStdout e = true)
    (CompileMain.written
       (snd (CompileMain.compileFile CompileSamples.sampleCollaborators
               CompileSamples.sampleFlags CompileMain.initialGlobalOptions
               "bad.luau" Text CompileSamples.sampleProcess)))
  = [].
Proof.
  apply (compileFile_quiet_on_stdout CompileSamples.sampleCollaborators
           CompileSamples.sampleFlags CompileMain.initialGlobalOptions
           "bad.luau" Text CompileSamples.sampleProcess).
  left. reflexivity.
Defined.

Lemma parseArg_prints_nothing {Double Others : Type} (atoi : string -> Z)
    (setLuauFlags : string -> CompileMain.FastFlags Others -> CompileMain.FastFlags Others)
    argv0 arg (s s' : CompileMain.Settings Double Others) :
  CompileMain.parseArg atoi setLuauFlags argv0 arg s = CompileMain.Proceed s' ->
  CompileMain.printed s' = CompileMain.printed s.
Proof.
  unfold CompileMain.parseArg.
  repeat match goal with
         | |- context [if ?b then _ else _] => destruct b
         | |- context [match ?o with Some _ => _ | None => _ end] => destruct o
         end; intros [= <-] || discriminate; reflexivity.
Qed.

Lemma parseArgs_prints_nothing {Double Others : Type} (atoi : string -> Z)
    (setLuauFlags : string -> CompileMain.FastFlags Others -> CompileMain.FastFlags Others)
    argv0 args (s s' : CompileMain.Settings Double Others) :
  CompileMain.parseArgs atoi setLuauFlags argv0 args s = CompileMain.Proceed s' ->
  CompileMain.printed s' = CompileMain.printed s.
Proof.
  revert s. induction args as [|arg rest IH]; intros s H; cbn in H.
  - now injection H as <-.
  - destruct (CompileMain.parseArg atoi setLuauFlags argv0 arg s) as [s1|code s1] eqn:E;
      [|discriminate].
    rewrite (IH _ H). now apply parseArg_prints_nothing in E.
Qed.

(** An argument [-h] or [--help] that the option loop reaches makes
    [main] write the usage text, and nothing else, and return 0: the
    arguments after it are not looked at and no file is read. *)
Theorem help_ends_main {Double Others Bcb ParseResult : Type}
    (ext : CompileMain.Collaborators Double Others Bcb ParseResult)
    (atoi : string -> Z)
    (setLuauFlagsDefault : CompileMain.FastFlags Others -> CompileMain.FastFlags Others)
    (setLuauFlags : string -> CompileMain.FastFlags Others -> CompileMain.FastFlags Others)
    (getSourceFiles : string -> list string -> list string)
    (LUAU_ENABLE_TIME_TRACE : bool)
    (zero : Double) (ofSize : Z -> Double) (ddiv : Double -> Double -> Double)
    (initialFlags : CompileMain.FastFlags Others) (argv0 help : string)
    (before after : list string) (s : CompileMain.Settings Double Others) :
  help = "-h" \/ help = "--help" ->
  CompileMain.parseArgs atoi setLuauFlags argv0 before
    (CompileMain.mkSettings CompileMain.initialGlobalOptions
       (setLuauFlagsDefault initialFlags) Text [])
  = CompileMain.Proceed s ->
  let r := CompileMain.main ext atoi setLuauFlagsDefault setLuauFlags
             getSourceFiles LUAU_ENABLE_TIME_TRACE zero ofSize ddiv
             initialFlags argv0 (before ++ help :: after) in
  fst (fst r) = 0%Z /\ snd r = CompileMain.displayHelp argv0.
Proof.
  intros Hh Hp r. subst r. unfold CompileMain.main.
  rewrite parseArgs_app, Hp. cbn [CompileMain.parseArgs].
  apply parseArgs_prints_nothing in Hp. cbn [CompileMain.printed] in Hp.
  assert (CompileMain.parseArg atoi setLuauFlags argv0 help s
          = CompileMain.Return 0 (CompileMain.print (CompileMain.displayHelp argv0) s))
    as ->.
  { destruct Hh as [-> | ->]; reflexivity. }
  split; [reflexivity|]. cbn [snd CompileMain.printed CompileMain.print].
  now rewrite Hp.
Qed.

Lemma help_ends_main_witness :
  fst (fst (CompileSamples.sampleMain ["-O2"; "missing.luau"; "--help"; "-x"])) = 0%Z
  /\ snd (CompileSamples.sampleMain ["-O2"; "missing.luau"; "--help"; "-x"])
     = CompileMain.displayHelp "luau-compile".
Proof.
  apply (help_ends_main CompileSamples.sampleCollaborators CompileSamples.sampleAtoi
           (fun f => f) (fun _ f => f) CompileSamples.sampleSourceFiles false
           0%Z (fun z => z) Z.div CompileSamples.sampleFlags "luau-compile" "--help"
           ["-O2"; "missing.luau"] ["-x"]
           (CompileMain.mkSettings (CompileMain.mkGlobalOptions 2 1)
              CompileSamples.sampleFlags Text [])).
  - right. reflexivity.
  - reflexivity.
Defined.

Import TypeGraph Clone CloneSpec CloneSamples.

Set Default Proof Using "Type".

(** ** What a traversal leaves alone *)

Section FrameFacts.
Import CloneFrame.
Context (flags : FFlags) (dest : ArenaId) (nT nP : nat).

Local Abbreviation keeps := (CloneFrame.keeps nT nP).
Local Abbreviation fresh_ok := (CloneFrame.fresh_ok dest nT nP).
Local Abbreviation ok := (CloneFrame.ok dest nT nP).
Local Abbreviation okT m := (CloneFrame.ok dest nT nP m (fun _ => True)).

Lemma keeps_refl w : keeps w w.
Proof.
  constructor; try reflexivity; try lia.
  - intros i node _ H. exists node. auto.
  - auto.
Qed.

Lemma keeps_trans w1 w2 w3 : keeps w1 w2 -> keeps w2 w3 -> keeps w1 w3.
Proof.
  intros A B. constructor.
  - pose proof (k_len_t _ _ _ _ A). pose proof (k_len_t _ _ _ _ B). lia.
  - pose proof (k_len_p _ _ _ _ A). pose proof (k_len_p _ _ _ _ B). lia.
  - intros i node Hi H.
    destruct (k_old_t _ _ _ _ A i node Hi H) as (n2 & H2 & Ht & Hp & Ho & Hd).
    destruct (k_old_t _ _ _ _ B i n2 Hi H2) as (n3 & H3 & Ht' & Hp' & Ho' & Hd').
    exists n3. repeat split; try congruence.
    intros Hpers. rewrite Hd' by congruence. now apply Hd.
  - intros i node Hi H. apply (k_old_p _ _ _ _ B i node Hi).
    now apply (k_old_p _ _ _ _ A).
  - etransitivity; [apply (k_seen_t _ _ _ _ A) | apply (k_seen_t _ _ _ _ B)].
  - etransitivity; [apply (k_seen_p _ _ _ _ A) | apply (k_seen_p _ _ _ _ B)].
  - rewrite (k_count _ _ _ _ B). apply (k_count _ _ _ _ A).
Qed.

Lemma ok_ret {A} (a : A) (Q : A -> Prop) : Q a -> ok (ret a) Q.
Proof. intros HQ w Hw. cbn. auto using keeps_refl. Qed.

Lemma ok_undefined {A} (Q : A -> Prop) : ok undefined Q.
Proof. intros w Hw. exact I. Qed.

Lemma ok_throwLimit {A} (Q : A -> Prop) : ok throwLimit Q.
Proof. intros w Hw. cbn. auto using keeps_refl. Qed.

Lemma ok_bind {A B} (m : M A) (k : A -> M B) (P : A -> Prop) (Q : B -> Prop) :
  ok m P -> (forall a, P a -> ok (k a) Q) -> ok (bind m k) Q.
Proof.
  intros Hm Hk w Hw. unfold bind. specialize (Hm w Hw).
  destruct (m w) as [a w1|w1|]; [|exact Hm|exact I].
  destruct Hm as (Hw1 & K1 & Pa). specialize (Hk a Pa w1 Hw1).
  destruct (k a w1) as [b w2|w2|]; [| |exact I].
  - destruct Hk as (Hw2 & K2 & Qb). eauto using keeps_trans.
  - destruct Hk as (Hw2 & K2). eauto using keeps_trans.
Qed.

Lemma ok_weaken {A} (m : M A) (P Q : A -> Prop) :
  ok m P -> (forall a, P a -> Q a) -> ok m Q.
Proof.
  intros Hm HPQ w Hw. specialize (Hm w Hw).
  destruct (m w) as [a w1|w1|]; [|exact Hm|exact I].
  destruct Hm as (? & ? & ?). auto.
Qed.

Lemma ok_bindT {A B} (m : M A) (k : A -> M B) :
  okT m -> (forall a, okT (k a)) -> okT (bind m k).
Proof. intros Hm Hk. eapply ok_bind; [exact Hm|]. intros a _. apply Hk. Qed.

Lemma ok_forEach {A} (xs : list A) (body : A -> M unit) :
  (forall x, okT (body x)) -> okT (forEach xs body).
Proof.
  intros Hb. induction xs as [|x xs IH]; cbn [forEach].
  - now apply ok_ret.
  - apply ok_bindT; auto.
Qed.

Lemma ok_cloneInto {A} (cl : A -> M A) (xs acc : list A) :
  (forall x, okT (cl x)) -> okT (cloneInto cl xs acc).
Proof.
  intros Hc. revert acc. induction xs as [|x xs IH]; intros acc; cbn [cloneInto].
  - now apply ok_ret.
  - apply ok_bindT; auto.
Qed.

Lemma ok_getType x : okT (getType x).
Proof.
  intros w Hw. unfold getType. destruct (types (mem w) !! x); [|exact I].
  auto using keeps_refl.
Qed.

Lemma ok_getTypePack x : okT (getTypePack x).
Proof.
  intros w Hw. unfold getTypePack. destruct (typePacks (mem w) !! x); [|exact I].
  auto using keeps_refl.
Qed.

Lemma ok_lookupSeenType x : okT (lookupSeenType x).
Proof. intros w Hw. cbn. auto using keeps_refl. Qed.

Lemma ok_lookupSeenTypePack x : okT (lookupSeenTypePack x).
Proof. intros w Hw. cbn. auto using keeps_refl. Qed.

Lemma ok_setSeenType x c : okT (setSeenType x c).
Proof.
  intros w Hw. cbn. split; [|split; [|exact I]].
  - destruct Hw. constructor; assumption.
  - constructor; cbn; try reflexivity; try lia.
    + intros i node _ H. exists node. auto.
    + auto.
    + rewrite dom_insert_L. apply union_subseteq_r.
Qed.

Lemma ok_setSeenTypePack x c : okT (setSeenTypePack x c).
Proof.
  intros w Hw. cbn. split; [|split; [|exact I]].
  - destruct Hw. constructor; assumption.
  - constructor; cbn; try reflexivity; try lia.
    + intros i node _ H. exists node. auto.
    + auto.
    + rewrite dom_insert_L. apply union_subseteq_r.
Qed.

Lemma ok_addType v : ok (addType dest v) (fun r => nT <= r).
Proof.
  intros w Hw. cbn. destruct Hw as [L1 L2 N1 N2].
  split; [|split; [|exact L1]].
  - constructor; cbn; try (rewrite ?length_app; cbn; lia); [|exact N2].
    intros i node Hi H. apply lookup_app_Some in H as [H | [Hl H]]; [eauto|].
    apply list_lookup_singleton_Some in H as [_ <-]. auto.
  - constructor; cbn; try reflexivity; try (rewrite ?length_app; cbn; lia).
    + intros i node _ H. exists node. rewrite lookup_app_l by (now apply lookup_lt_Some in H).
      auto.
    + auto.
Qed.

Lemma ok_addTypePack v : ok (addTypePack dest v) (fun r => nP <= r).
Proof.
  intros w Hw. cbn. destruct Hw as [L1 L2 N1 N2].
  split; [|split; [|exact L2]].
  - constructor; cbn; try (rewrite ?length_app; cbn; lia); [exact N1|].
    intros i node Hi H. apply lookup_app_Some in H as [H | [Hl H]]; [eauto|].
    apply list_lookup_singleton_Some in H as [_ <-]. auto.
  - constructor; cbn; try reflexivity; try (rewrite ?length_app; cbn; lia).
    + intros i node _ H. exists node. auto.
    + intros i node _ H. rewrite lookup_app_l by (now apply lookup_lt_Some in H).
      auto.
Qed.

Lemma ok_modifyType r f : nT <= r -> keepsFlags f -> okT (modifyType r f).
Proof.
  intros Hr Hf w Hw. unfold modifyType.
  destruct (types (mem w) !! r) as [node|] eqn:E; [|exact I].
  destruct Hw as [L1 L2 N1 N2]. cbn. split; [|split; [|exact I]].
  - constructor; cbn; rewrite ?length_insert; try assumption.
    intros i n' Hi H. destruct (decide (i = r)) as [->|Hne].
    + rewrite list_lookup_insert_eq in H by (now apply lookup_lt_Some in E).
      injection H as <-. destruct (Hf node) as [-> ->]. eauto.
    + rewrite list_lookup_insert_ne in H by congruence. eauto.
  - constructor; cbn; rewrite ?length_insert; try reflexivity; try lia.
    + intros i n' Hi H. exists n'.
      rewrite list_lookup_insert_ne by lia. auto.
    + auto.
Qed.

Lemma ok_modifyTypePack r f :
  nP <= r -> keepsPackFlags f -> okT (modifyTypePack r f).
Proof.
  intros Hr Hf w Hw. unfold modifyTypePack.
  destruct (typePacks (mem w) !! r) as [node|] eqn:E; [|exact I].
  destruct Hw as [L1 L2 N1 N2]. cbn. split; [|split; [|exact I]].
  - constructor; cbn; rewrite ?length_insert; try assumption.
    intros i n' Hi H. destruct (decide (i = r)) as [->|Hne].
    + rewrite list_lookup_insert_eq in H by (now apply lookup_lt_Some in E).
      injection H as <-. destruct (Hf node) as [-> ->]. eauto.
    + rewrite list_lookup_insert_ne in H by congruence. eauto.
  - constructor; cbn; rewrite ?length_insert; try reflexivity; try lia.
    + intros i n' Hi H. exists n'. auto.
    + intros i n' Hi H. rewrite list_lookup_insert_ne by lia. auto.
Qed.

Lemma keepsFlags_setTy v : keepsFlags (setTy v).
Proof. intros node. split; reflexivity. Qed.

Lemma keepsFlags_onFunction g : keepsFlags (onFunction g).
Proof. intros node. unfold onFunction. destruct (ty node); split; reflexivity. Qed.

Lemma keepsFlags_onTable g : keepsFlags (onTable g).
Proof. intros node. unfold onTable. destruct (ty node); split; reflexivity. Qed.

Lemma keepsFlags_onClass g : keepsFlags (onClass g).
Proof. intros node. unfold onClass. destruct (ty node); split; reflexivity. Qed.

Lemma keepsFlags_onVariant g : keepsFlags (onVariant g).
Proof. intros node. split; reflexivity. Qed.

Lemma keepsPackFlags_onPackVariant g : keepsPackFlags (onPackVariant g).
Proof. intros node. split; reflexivity. Qed.

(** The last step of [clone(TypeId, ...)]: the documentation symbol of the
    source is written to the result unless that is persistent. *)
Lemma ok_documentationSymbol typeId r :
  okT (rnode <- getType r ;;
       (if persistent rnode then ret tt
        else src <- getType typeId ;;
             modifyType r (setDocumentationSymbol (documentationSymbol src))) ;;;
       ret r).
Proof.
  intros w Hw. unfold bind, getType.
  destruct (types (mem w) !! r) as [rnode|] eqn:Er; [|exact I].
  destruct (persistent rnode) eqn:Ep; [cbn; auto using keeps_refl|].
  destruct (types (mem w) !! typeId) as [src|] eqn:Es; [|exact I].
  unfold modifyType. rewrite Er.
  destruct Hw as [L1 L2 N1 N2]. cbn. split; [|split; [|exact I]].
  - constructor; cbn; rewrite ?length_insert; try assumption.
    intros i n' Hi H. destruct (decide (i = r)) as [->|Hne].
    + rewrite list_lookup_insert_eq in H by (now apply lookup_lt_Some in Er).
      injection H as <-. cbn. eauto.
    + rewrite list_lookup_insert_ne in H by congruence. eauto.
  - constructor; cbn; rewrite ?length_insert; try reflexivity; try lia.
    + intros i n' Hi H. destruct (decide (i = r)) as [->|Hne].
      * rewrite list_lookup_insert_eq by (now apply lookup_lt_Some in Er).
        eexists. split; [reflexivity|]. assert (n' = rnode) as -> by congruence.
        cbn. repeat split. congruence.
      * exists n'. rewrite list_lookup_insert_ne by congruence. auto.
    + auto.
Qed.

Section Cloners.
Context (cloneTy : TypeId -> M TypeId) (cloneTp : TypePackId -> M TypePackId).
Context (HT : forall x, okT (cloneTy x)) (HP : forall x, okT (cloneTp x)).

Create HintDb frame.
#[local] Hint Resolve keepsFlags_setTy keepsFlags_onFunction keepsFlags_onTable
  keepsFlags_onClass keepsFlags_onVariant keepsPackFlags_onPackVariant : frame.

Ltac okstep :=
  match goal with
  | |- CloneFrame.ok _ _ _ (ret _) _ => apply ok_ret; exact I
  | |- CloneFrame.ok _ _ _ undefined _ => apply ok_undefined
  | |- CloneFrame.ok _ _ _ (bind (addType _ _) _) _ =>
      eapply ok_bind; [apply ok_addType | intros ? ?]
  | |- CloneFrame.ok _ _ _ (bind (addTypePack _ _) _) _ =>
      eapply ok_bind; [apply ok_addTypePack | intros ? ?]
  | |- CloneFrame.ok _ _ _ (bind _ _) _ => apply ok_bindT; [|intros ?]
  | |- CloneFrame.ok _ _ _ (forEach _ _) _ => apply ok_forEach; intros ?
  | |- CloneFrame.ok _ _ _ (cloneInto _ _ _) _ => apply ok_cloneInto; intros ?
  | |- CloneFrame.ok _ _ _ (modifyType _ _) _ =>
      apply ok_modifyType; [assumption | auto with frame]
  | |- CloneFrame.ok _ _ _ (modifyTypePack _ _) _ =>
      apply ok_modifyTypePack; [assumption | auto with frame]
  | |- CloneFrame.ok _ _ _ (setSeenType _ _) _ => apply ok_setSeenType
  | |- CloneFrame.ok _ _ _ (setSeenTypePack _ _) _ => apply ok_setSeenTypePack
  | |- CloneFrame.ok _ _ _ (getType _) _ => apply ok_getType
  | |- CloneFrame.ok _ _ _ (addType _ _) _ =>
      eapply ok_weaken; [apply ok_addType | auto]
  | |- CloneFrame.ok _ _ _ (addTypePack _ _) _ =>
      eapply ok_weaken; [apply ok_addTypePack | auto]
  | |- CloneFrame.ok _ _ _ (cloneTy _) _ => apply HT
  | |- CloneFrame.ok _ _ _ (cloneTp _) _ => apply HP
  | |- CloneFrame.ok _ _ _ (let '(_, _) := ?x in _) _ => destruct x
  | |- CloneFrame.ok _ _ _ (match ?x with _ => _ end) _ => destruct x
  end.

Lemma ok_cloneOptionalType o : okT (cloneOptionalType cloneTy o).
Proof using HT. unfold cloneOptionalType. repeat okstep. Qed.

Lemma ok_clone_Property p : okT (clone_Property flags cloneTy p).
Proof using HT.
  unfold clone_Property.
  repeat first [apply ok_cloneOptionalType | okstep].
Qed.

Lemma ok_clone_TableIndexer ix : okT (clone_TableIndexer flags cloneTy ix).
Proof using HT. unfold clone_TableIndexer. repeat okstep. Qed.

Ltac okgo :=
  repeat first [apply ok_clone_Property | apply ok_clone_TableIndexer | okstep].

Lemma ok_TypePackCloner x v :
  okT (TypePackCloner flags dest cloneTy cloneTp x v).
Proof using HT HP.
  unfold TypePackCloner, tp_defaultClone. destruct v; okgo.
Qed.

Lemma ok_TypeCloner x v : okT (TypeCloner flags dest cloneTy cloneTp x v).
Proof using HT HP.
  unfold TypeCloner, defaultClone, clone_FunctionType, clone_TableType,
    clone_MetatableType, clone_ClassType, clone_UnionType,
    cloneTypeParamAt, cloneTypePackParamAt.
  destruct v; okgo.
Qed.

Lemma ok_clone_TypeId_admitted x node :
  okT (clone_TypeId_admitted flags dest cloneTy cloneTp x node).
Proof using HT HP.
  unfold clone_TypeId_admitted.
  apply ok_bindT; [apply ok_lookupSeenType|]. intros [r|]; [now apply ok_ret|].
  apply ok_bindT; [apply ok_TypeCloner|]. intros _.
  apply ok_bindT; [apply ok_lookupSeenType|]. intros [r|]; [|apply ok_undefined].
  apply ok_documentationSymbol.
Qed.

Lemma ok_clone_TypePackId_admitted x node :
  okT (clone_TypePackId_admitted flags dest cloneTy cloneTp x node).
Proof using HT HP.
  unfold clone_TypePackId_admitted.
  apply ok_bindT; [apply ok_lookupSeenTypePack|]. intros [r|]; [now apply ok_ret|].
  apply ok_bindT; [apply ok_TypePackCloner|]. intros _.
  apply ok_bindT; [apply ok_lookupSeenTypePack|]. intros [r|]; [|apply ok_undefined].
  now apply ok_ret.
Qed.

End Cloners.

Lemma ok_clone_rec b :
  (forall x, okT (clone_rec flags dest b x))
  /\ (forall x, okT (clone_pack_rec flags dest b x)).
Proof.
  induction b as [|b [IHT IHP]].
  - split; intros x; cbn [clone_rec clone_pack_rec];
      (apply ok_bindT; [apply ok_getType || apply ok_getTypePack|]); intros node.
    + destruct (persistent node); [now apply ok_ret | apply ok_throwLimit].
    + destruct (tp_persistent node); [now apply ok_ret | apply ok_throwLimit].
  - split; intros x; cbn [clone_rec clone_pack_rec];
      (apply ok_bindT; [apply ok_getType || apply ok_getTypePack|]); intros node.
    + destruct (persistent node); [now apply ok_ret|].
      now apply ok_clone_TypeId_admitted.
    + destruct (tp_persistent node); [now apply ok_ret|].
      now apply ok_clone_TypePackId_admitted.
Qed.

End FrameFacts.

Lemma ok_clone flags dest nT nP x :
  CloneFrame.ok dest nT nP (clone flags x dest) (fun _ => True).
Proof. intros w Hw. unfold clone. now apply ok_clone_rec. Qed.

Lemma ok_clone_pack flags dest nT nP x :
  CloneFrame.ok dest nT nP (clone_pack flags x dest) (fun _ => True).
Proof. intros w Hw. unfold clone_pack. now apply ok_clone_rec. Qed.

Lemma fresh_ok_start dest w :
  CloneFrame.fresh_ok dest (length (types (mem w))) (length (typePacks (mem w))) w.
Proof.
  constructor; try lia.
  - intros i node Hi H. apply lookup_lt_Some in H. lia.
  - intros i node Hi H. apply lookup_lt_Some in H. lia.
Qed.

Lemma keeps_preserved w w' :
  CloneFrame.keeps (length (types (mem w))) (length (typePacks (mem w))) w w' ->
  CloneFrame.preserved w w'.
Proof.
  intros K. split.
  - intros i node H. apply (CloneFrame.k_old_t _ _ _ _ K); [|exact H].
    now apply lookup_lt_Some in H.
  - intros i node H. apply (CloneFrame.k_old_p _ _ _ _ K); [|exact H].
    now apply lookup_lt_Some in H.
Qed.

Lemma frame_allocated_in dest w w' :
  CloneFrame.keeps (length (types (mem w))) (length (typePacks (mem w))) w w' ->
  CloneFrame.fresh_ok dest (length (types (mem w))) (length (typePacks (mem w))) w' ->
  CloneFrame.allocated_in dest w w'.
Proof.
  intros K F. repeat split.
  - apply (CloneFrame.k_len_t _ _ _ _ K).
  - apply (CloneFrame.k_len_p _ _ _ _ K).
  - eapply (CloneFrame.f_new_t _ _ _ _ F); eassumption.
  - eapply (CloneFrame.f_new_t _ _ _ _ F); eassumption.
  - eapply (CloneFrame.f_new_p _ _ _ _ F); eassumption.
  - eapply (CloneFrame.f_new_p _ _ _ _ F); eassumption.
Qed.

Lemma frame_of_final {A} dest (m : M A) w w' :
  CloneFrame.ok dest (length (types (mem w))) (length (typePacks (mem w))) m
    (fun _ => True) ->
  CloneFrame.finalWorld (m w) = Some w' ->
  CloneFrame.keeps (length (types (mem w))) (length (typePacks (mem w))) w w'
  /\ CloneFrame.fresh_ok dest (length (types (mem w))) (length (typePacks (mem w))) w'.
Proof.
  intros Hm H. specialize (Hm w (fresh_ok_start dest w)).
  destruct (m w) as [a w1|w1|]; cbn in H; [| |discriminate];
    injection H as ->; tauto.
Qed.

(** Whatever the state of the memory and of the seen maps, a call of
    [clone] that ends, by a value or by the limiter, leaves what was
    allocated before as it was: every type keeps its variant, its
    persistence and its arena, a persistent type also its documentation
    symbol, and every pack is unchanged. *)
Theorem clone_preserves_existing_memory (flags : FFlags) (dest : ArenaId)
    (w w' : World) :
  (forall typeId, CloneFrame.finalWorld (clone flags typeId dest w) = Some w' ->
     CloneFrame.preserved w w')
  /\ (forall tp, CloneFrame.finalWorld (clone_pack flags tp dest w) = Some w' ->
        CloneFrame.preserved w w').
Proof.
  split; intros x H; apply keeps_preserved.
  - eapply (frame_of_final dest); [apply ok_clone | exact H].
  - eapply (frame_of_final dest); [apply ok_clone_pack | exact H].
Qed.

Lemma clone_preserves_existing_memory_witness :
  exists w',
    CloneFrame.finalWorld (clone defaultFlags 0 1 variadicWorld) = Some w'
    /\ CloneFrame.preserved variadicWorld w'.
Proof.
  eexists. split; [vm_compute; reflexivity|].
  apply (proj1 (clone_preserves_existing_memory defaultFlags 1 variadicWorld _) 0).
  vm_compute. reflexivity.
Defined.

(** A call of [clone] that ends never shrinks the memory, and every node
    it has added belongs to the destination arena and is not persistent. *)
Theorem clone_allocates_in_destination (flags : FFlags) (dest : ArenaId)
    (w w' : World) :
  (forall typeId, CloneFrame.finalWorld (clone flags typeId dest w) = Some w' ->
     CloneFrame.allocated_in dest w w')
  /\ (forall tp, CloneFrame.finalWorld (clone_pack flags tp dest w) = Some w' ->
        CloneFrame.allocated_in dest w w').
Proof.
  split; intros x H.
  - destruct (frame_of_final dest (clone flags x dest) w w') as [K F];
      [apply ok_clone | exact H | now apply frame_allocated_in].
  - destruct (frame_of_final dest (clone_pack flags x dest) w w') as [K F];
      [apply ok_clone_pack | exact H | now apply frame_allocated_in].
Qed.

Lemma clone_allocates_in_destination_witness :
  exists w',
    CloneFrame.finalWorld (clone defaultFlags 0 1 cyclicUnionWorld) = Some w'
    /\ CloneFrame.allocated_in 1 cyclicUnionWorld w'.
Proof.
  eexists. split; [vm_compute; reflexivity|].
  apply (proj1 (clone_allocates_in_destination defaultFlags 1 cyclicUnionWorld _) 0).
  vm_compute. reflexivity.
Defined.

Lemma budgetOf_count flags w w' :
  recursionCount (cloneState w') = recursionCount (cloneState w) ->
  budgetOf flags w' = budgetOf flags w.
Proof. unfold budgetOf. now intros ->. Qed.

Lemma clone_rec_seen flags dest b x w node r :
  types (mem w) !! x = Some node -> persistent node = false ->
  seenTypes (cloneState w) !! x = Some r ->
  clone_rec flags dest (S b) x w = Returned r w.
Proof.
  intros Hn Hp Hs. cbn [clone_rec]. unfold bind at 1, getType at 1.
  rewrite Hn, Hp. unfold clone_TypeId_admitted, bind, lookupSeenType.
  now rewrite Hs.
Qed.

Lemma clone_pack_rec_seen flags dest b x w node r :
  typePacks (mem w) !! x = Some node -> tp_persistent node = false ->
  seenTypePacks (cloneState w) !! x = Some r ->
  clone_pack_rec flags dest (S b) x w = Returned r w.
Proof.
  intros Hn Hp Hs. cbn [clone_pack_rec]. unfold bind at 1, getTypePack at 1.
  rewrite Hn, Hp. unfold clone_TypePackId_admitted, bind, lookupSeenTypePack.
  now rewrite Hs.
Qed.

Lemma clone_rec_again flags dest b x w c w' :
  clone_rec flags dest b x w = Returned c w' ->
  recursionCount (cloneState w') = recursionCount (cloneState w)
  /\ clone_rec flags dest b x w' = Returned c w'.
Proof.
  intros H.
  assert (Hsame : w' = w -> recursionCount (cloneState w') = recursionCount (cloneState w)
                           /\ clone_rec flags dest b x w' = Returned c w')
    by (intros ->; auto).
  destruct b as [|b]; cbn [clone_rec] in H; unfold bind at 1, getType at 1 in H;
    destruct (types (mem w) !! x) as [node|] eqn:En; try discriminate;
    destruct (persistent node) eqn:Ep;
    try (injection H as <- <-; now apply Hsame); try discriminate.
  unfold clone_TypeId_admitted in H. unfold bind at 1, lookupSeenType at 1 in H.
  destruct (seenTypes (cloneState w) !! x) as [r|] eqn:Es.
  { injection H as <- <-. now apply Hsame. }
  clear Hsame. unfold bind at 1 in H.
  pose proof (ok_TypeCloner flags dest _ _ _ _
                (proj1 (ok_clone_rec flags dest (length (types (mem w)))
                          (length (typePacks (mem w))) b))
                (proj2 (ok_clone_rec flags dest (length (types (mem w)))
                          (length (typePacks (mem w))) b))
                x (ty node) w (fresh_ok_start dest w)) as Hok.
  destruct (TypeCloner flags dest (clone_rec flags dest b)
              (clone_pack_rec flags dest b) x (ty node) w) as [[] w1|w1|];
    try discriminate.
  destruct Hok as (F1 & K1 & _).
  destruct (CloneFrame.k_old_t _ _ _ _ K1 x node
              ltac:(now apply lookup_lt_Some in En) En)
    as (node1 & En1 & _ & Hp1 & _).
  unfold bind at 1, lookupSeenType at 1 in H.
  destruct (seenTypes (cloneState w1) !! x) as [r|] eqn:Es1; [|discriminate].
  unfold bind at 1 in H. unfold bind at 1, getType at 1 in H.
  destruct (types (mem w1) !! r) as [rnode|] eqn:Er; [|discriminate].
  destruct (persistent rnode) eqn:Epr.
  - cbn in H. injection H as <- <-. split; [apply (CloneFrame.k_count _ _ _ _ K1)|].
    eapply clone_rec_seen; eauto; congruence.
  - unfold bind at 1, getType at 1 in H. rewrite En1 in H.
    unfold modifyType in H. rewrite Er in H. cbn in H. injection H as <- <-.
    split; [apply (CloneFrame.k_count _ _ _ _ K1)|].
    destruct (decide (x = r)) as [->|Hne].
    + eapply clone_rec_seen; [| |exact Es1].
      * cbn. apply list_lookup_insert_eq. now apply lookup_lt_Some in Er.
      * cbn. congruence.
    + eapply clone_rec_seen; [| |exact Es1].
      * cbn. rewrite list_lookup_insert_ne by congruence. exact En1.
      * congruence.
Qed.

Lemma clone_pack_rec_again flags dest b x w c w' :
  clone_pack_rec flags dest b x w = Returned c w' ->
  recursionCount (cloneState w') = recursionCount (cloneState w)
  /\ clone_pack_rec flags dest b x w' = Returned c w'.
Proof.
  intros H.
  assert (Hsame : w' = w -> recursionCount (cloneState w') = recursionCount (cloneState w)
                           /\ clone_pack_rec flags dest b x w' = Returned c w')
    by (intros ->; auto).
  destruct b as [|b]; cbn [clone_pack_rec] in H;
    unfold bind at 1, getTypePack at 1 in H;
    destruct (typePacks (mem w) !! x) as [node|] eqn:En; try discriminate;
    destruct (tp_persistent node) eqn:Ep;
    try (injection H as <- <-; now apply Hsame); try discriminate.
  unfold clone_TypePackId_admitted in H.
  unfold bind at 1, lookupSeenTypePack at 1 in H.
  destruct (seenTypePacks (cloneState w) !! x) as [r|] eqn:Es.
  { injection H as <- <-. now apply Hsame. }
  clear Hsame. unfold bind at 1 in H.
  pose proof (ok_TypePackCloner flags dest _ _ _ _
                (proj1 (ok_clone_rec flags dest (length (types (mem w)))
                          (length (typePacks (mem w))) b))
                (proj2 (ok_clone_rec flags dest (length (types (mem w)))
                          (length (typePacks (mem w))) b))
                x (tp_ty node) w (fresh_ok_start dest w)) as Hok.
  destruct (TypePackCloner flags dest (clone_rec flags dest b)
              (clone_pack_rec flags dest b) x (tp_ty node) w) as [[] w1|w1|];
    try discriminate.
  destruct Hok as (F1 & K1 & _).
  pose proof (CloneFrame.k_old_p _ _ _ _ K1 x node
                ltac:(now apply lookup_lt_Some in En) En) as En1.
  unfold bind at 1, lookupSeenTypePack at 1 in H.
  destruct (seenTypePacks (cloneState w1) !! x) as [r|] eqn:Es1; [|discriminate].
  cbn in H. injection H as <- <-. split; [apply (CloneFrame.k_count _ _ _ _ K1)|].
  eapply clone_pack_rec_seen; eauto.
Qed.

(** In every state, a call of [clone] that returned a clone returns the
    same clone when it is repeated in the state it left, and the second
    call changes nothing: not the memory, not the seen maps, not the
    counter. *)
Theorem clone_again_changes_nothing (flags : FFlags) (dest : ArenaId)
    (w w' : World) :
  (forall typeId c, clone flags typeId dest w = Returned c w' ->
     clone flags typeId dest w' = Returned c w')
  /\ (forall tp c, clone_pack flags tp dest w = Returned c w' ->
        clone_pack flags tp dest w' = Returned c w').
Proof.
  split; intros x c H; unfold clone, clone_pack in *.
  - apply clone_rec_again in H as [Hc H].
    now rewrite (budgetOf_count flags w w' Hc).
  - apply clone_pack_rec_again in H as [Hc H].
    now rewrite (budgetOf_count flags w w' Hc).
Qed.

Lemma clone_again_changes_nothing_witness :
  exists c w',
    clone defaultFlags 0 1 boundWorld = Returned c w'
    /\ clone defaultFlags 0 1 w' = Returned c w'.
Proof.
  do 2 eexists. split; [vm_compute; reflexivity|].
  apply (proj1 (clone_again_changes_nothing defaultFlags 1 boundWorld _) 0).
  vm_compute. reflexivity.
Defined.

Lemma clone_rec_registered flags dest b x w c w' :
  clone_rec flags dest b x w = Returned c w' ->
  (exists node, types (mem w) !! x = Some node /\ persistent node = true
                /\ c = x /\ w' = w)
  \/ seenTypes (cloneState w') !! x = Some c.
Proof.
  intros H.
  destruct b as [|b]; cbn [clone_rec] in H; unfold bind at 1, getType at 1 in H;
    destruct (types (mem w) !! x) as [node|] eqn:En; try discriminate;
    destruct (persistent node) eqn:Ep;
    try (injection H as <- <-; left; eauto); try discriminate.
  right. unfold clone_TypeId_admitted in H.
  unfold bind at 1, lookupSeenType at 1 in H.
  destruct (seenTypes (cloneState w) !! x) as [r|] eqn:Es.
  { now injection H as <- <-. }
  unfold bind at 1 in H.
  destruct (TypeCloner flags dest (clone_rec flags dest b)
              (clone_pack_rec flags dest b) x (ty node) w) as [[] w1|w1|];
    try discriminate.
  unfold bind at 1, lookupSeenType at 1 in H.
  destruct (seenTypes (cloneState w1) !! x) as [r|] eqn:Es1; [|discriminate].
  unfold bind at 1 in H. unfold bind at 1, getType at 1 in H.
  destruct (types (mem w1) !! r) as [rnode|] eqn:Er; [|discriminate].
  destruct (persistent rnode) eqn:Epr.
  - cbn in H. now injection H as <- <-.
  - unfold bind at 1, getType at 1 in H.
    destruct (types (mem w1) !! x) as [src|]; [|discriminate].
    unfold modifyType in H. rewrite Er in H. cbn in H. now injection H as <- <-.
Qed.

(** With [DebugLuauCopyBeforeNormalizing] unset, the clone of a type that
    is bound to another one is the clone of that other type, in every
    state: when [clone] returns [c] for a bound type that was not seen
    before, the seen map sends the bound type to [c], and [c] is also
    what stands for its target: the target itself if that is persistent,
    the target's entry in the seen map otherwise. *)
Theorem clone_of_bound_is_clone_of_target (flags : FFlags) (dest : ArenaId)
    (typeId boundTo c : TypeId) (node : Type_) (w w' : World) :
  DebugLuauCopyBeforeNormalizing flags = false ->
  types (mem w) !! typeId = Some node ->
  persistent node = false ->
  ty node = BoundType boundTo ->
  seenTypes (cloneState w) !! typeId = None ->
  clone flags typeId dest w = Returned c w' ->
  seenTypes (cloneState w') !! typeId = Some c
  /\ ((exists target, types (mem w) !! boundTo = Some target
                      /\ persistent target = true /\ c = boundTo)
      \/ seenTypes (cloneState w') !! boundTo = Some c).
Proof.
  intros Hflag En Ep Ety Es H. unfold clone in H.
  destruct (budgetOf flags w) as [|b]; cbn [clone_rec] in H;
    unfold bind at 1, getType at 1 in H; rewrite En, Ep in H; [discriminate|].
  unfold clone_TypeId_admitted in H.
  unfold bind at 1, lookupSeenType at 1 in H. rewrite Es in H.
  unfold bind at 1 in H. rewrite Ety in H. cbn [TypeCloner] in H.
  rewrite Hflag in H. unfold bind at 1 in H.
  destruct (clone_rec flags dest b boundTo w) as [c1 w1|w1|] eqn:Ec; try discriminate.
  apply clone_rec_registered in Ec.
  unfold bind at 1, ret at 1 in H. unfold setSeenType at 1 in H.
  unfold bind at 1, lookupSeenType at 1 in H. cbn [cloneState seenTypes] in H.
  rewrite lookup_insert_eq in H.
  unfold bind at 1 in H. unfold bind at 1, getType at 1 in H. cbn [mem] in H.
  assert (Hseen : forall w2, seenTypes (cloneState w2)
                             = <[typeId := c1]> (seenTypes (cloneState w1)) ->
            seenTypes (cloneState w2) !! typeId = Some c1
            /\ ((exists target, types (mem w) !! boundTo = Some target
                                /\ persistent target = true /\ c1 = boundTo)
                \/ seenTypes (cloneState w2) !! boundTo = Some c1)).
  { intros w2 ->. split; [apply lookup_insert_eq|].
    destruct Ec as [(target & Ht & Hp & -> & ->) | Hs]; [left; eauto|]. right.
    destruct (decide (boundTo = typeId)) as [->|Hne];
      [apply lookup_insert_eq | now rewrite lookup_insert_ne]. }
  destruct (types (mem w1) !! c1) as [rnode|] eqn:Er; [|discriminate].
  destruct (persistent rnode).
  - cbn in H. injection H as <- <-. now apply Hseen.
  - unfold bind at 1, getType at 1 in H. cbn [mem] in H.
    destruct (types (mem w1) !! typeId) as [src|]; [|discriminate].
    unfold modifyType in H. cbn [mem] in H. rewrite Er in H. cbn in H.
    injection H as <- <-. now apply Hseen.
Qed.

Lemma clone_of_bound_is_clone_of_target_witness :
  exists c w',
    clone defaultFlags 0 1 boundWorld = Returned c w'
    /\ seenTypes (cloneState w') !! 0 = Some c
    /\ ((exists target, types (mem boundWorld) !! 1 = Some target
                        /\ persistent target = true /\ c = 1)
        \/ seenTypes (cloneState w') !! 1 = Some c).
Proof.
  do 2 eexists. split; [vm_compute; reflexivity|].
  eapply (clone_of_bound_is_clone_of_target defaultFlags 1 0 1);
    [reflexivity | reflexivity | reflexivity | reflexivity | reflexivity |].
  vm_compute. reflexivity.
Defined.

Import TypeGraph Clone CloneSpec CloneSamples.

Set Default Proof Using "Type".

(** ** Several roots with one [CloneState]: type functions *)

Section SharedState.
Import CloneTypeFun.
Context (flags : FFlags) (dest : ArenaId) (base : Memory) (count : nat).
Context (Hwf : wf_graph flags base).

Local Abbreviation N0 := (length (types base)).
Local Abbreviation M0 := (length (typePacks base)).
Local Abbreviation sT w := (seenTypes (cloneState w)).
Local Abbreviation sP w := (seenTypePacks (cloneState w)).
Local Abbreviation ST := (set_seq 0 (length (types base)) : gset nat).
Local Abbreviation SP := (set_seq 0 (length (typePacks base)) : gset nat).
Local Abbreviation b := (LuauTypeCloneRecursionLimit flags - count).
Local Abbreviation Inv := (CloneSpec.Inv base).
Local Abbreviation post := (CloneSpec.post dest base ST SP None None b).
Local Abbreviation counted w := (recursionCount (cloneState w) = count).

Lemma shared_clone x w :
  Inv w -> counted w -> x < N0 ->
  post w (clone flags x dest w) (fun c w' => sT w' !! x = Some c /\ counted w').
Proof using Hwf.
  intros Hi Hc Hx. unfold clone, budgetOf. rewrite Hc.
  eapply post_conseq.
  - apply (proj1 (clone_rec_spec flags dest base Hwf b ST SP
                    (closed_set_full flags base Hwf))); [exact Hi|].
    apply elem_of_set_seq. cbn. lia.
  - cbn. intros c w' Hi' He Hs. split; [exact Hs|].
    rewrite (ext_count He). exact Hc.
Qed.

Lemma shared_clone_pack x w :
  Inv w -> counted w -> x < M0 ->
  post w (clone_pack flags x dest w)
    (fun c w' => sP w' !! x = Some c /\ counted w').
Proof using Hwf.
  intros Hi Hc Hx. unfold clone_pack, budgetOf. rewrite Hc.
  eapply post_conseq.
  - apply (proj2 (clone_rec_spec flags dest base Hwf b ST SP
                    (closed_set_full flags base Hwf))); [exact Hi|].
    apply elem_of_set_seq. cbn. lia.
  - cbn. intros c w' Hi' He Hs. split; [exact Hs|].
    rewrite (ext_count He). exact Hc.
Qed.

Lemma shared_ret {A} (a : A) w (Q : A -> World -> Prop) :
  Inv w -> Q a w -> post w (ret a w) Q.
Proof. intros Hi HQ. apply post_ret; auto; discriminate. Qed.

Lemma shared_default o w :
  Inv w -> counted w -> option_Forall (fun d => d < N0) o ->
  post w ((match o with
           | Some d => c <- clone flags d dest ;; ret (Some c)
           | None => ret None
           end) w)
    (fun o' w' =>
       match o, o' with
       | Some d, Some d' => sT w' !! d = Some d'
       | None, None => True
       | _, _ => False
       end /\ counted w').
Proof using Hwf.
  intros Hi Hc Hd. destruct o as [d|].
  - assert (Hd' : d < N0) by (inversion Hd; assumption).
    eapply post_bind; [now apply shared_clone|].
    intros c2 w2 Hi2 He2 [Hs2 Hc2]. cbn beta.
    apply shared_ret; auto.
  - apply shared_ret; auto.
Qed.

Lemma shared_default_pack o w :
  Inv w -> counted w -> option_Forall (fun d => d < M0) o ->
  post w ((match o with
           | Some d => c <- clone_pack flags d dest ;; ret (Some c)
           | None => ret None
           end) w)
    (fun o' w' =>
       match o, o' with
       | Some d, Some d' => sP w' !! d = Some d'
       | None, None => True
       | _, _ => False
       end /\ counted w').
Proof using Hwf.
  intros Hi Hc Hd. destruct o as [d|].
  - assert (Hd' : d < M0) by (inversion Hd; assumption).
    eapply post_bind; [now apply shared_clone_pack|].
    intros c2 w2 Hi2 He2 [Hs2 Hc2]. cbn beta.
    apply shared_ret; auto.
  - apply shared_ret; auto.
Qed.

Lemma shared_typeParam p w :
  Inv w -> counted w ->
  gtd_ty p < N0 -> option_Forall (fun d => d < N0) (gtd_defaultValue p) ->
  post w (clone_typeParam flags dest p w)
    (fun p' w' => image_typeParam w' p p' /\ counted w').
Proof using Hwf.
  intros Hi Hc Hx Hd. unfold clone_typeParam.
  eapply post_bind; [now apply shared_clone|].
  intros c w1 Hi1 He1 [Hs1 Hc1]. cbn beta.
  eapply post_bind; [now apply shared_default|].
  cbn beta. intros o w2 Hi2 He2 [Ho Hc2].
  apply shared_ret; [exact Hi2|]. split; [|exact Hc2].
  split; cbn; [|exact Ho].
  eapply lookup_weaken; [exact Hs1 | apply (ext_seen_t He2)].
Qed.

Lemma shared_typePackParam p w :
  Inv w -> counted w ->
  gtpd_tp p < M0 -> option_Forall (fun d => d < M0) (gtpd_defaultValue p) ->
  post w (clone_typePackParam flags dest p w)
    (fun p' w' => image_typePackParam w' p p' /\ counted w').
Proof using Hwf.
  intros Hi Hc Hx Hd. unfold clone_typePackParam.
  eapply post_bind; [now apply shared_clone_pack|].
  intros c w1 Hi1 He1 [Hs1 Hc1]. cbn beta.
  eapply post_bind; [now apply shared_default_pack|].
  cbn beta. intros o w2 Hi2 He2 [Ho Hc2].
  apply shared_ret; [exact Hi2|]. split; [|exact Hc2].
  split; cbn; [|exact Ho].
  eapply lookup_weaken; [exact Hs1 | apply (ext_seen_p He2)].
Qed.

Lemma shared_cloneInto {X} (call : X -> M X) (valid : X -> Prop)
    (Rel : World -> X -> X -> Prop) :
  (forall x w, Inv w -> counted w -> valid x ->
     post w (call x w) (fun c w' => Rel w' x c /\ counted w')) ->
  (forall w w' x c, sT w ⊆ sT w' -> sP w ⊆ sP w' -> Rel w x c -> Rel w' x c) ->
  forall xs acc w,
    Inv w -> counted w -> Forall valid xs ->
    post w (cloneInto call xs acc w)
      (fun r w' => (exists cs, r = (acc ++ cs)%list /\ Forall2 (Rel w') xs cs)
                   /\ counted w').
Proof.
  intros Hcall Hmono. induction xs as [|x xs IH]; intros acc w Hi Hc Hv.
  - cbn [cloneInto]. apply shared_ret; [exact Hi|]. split; [|exact Hc].
    exists []. split; [now rewrite app_nil_r | constructor].
  - cbn [cloneInto]. inversion Hv as [|? ? Hv1 Hv2]; subst.
    eapply post_bind; [apply Hcall; auto|].
    intros c w1 Hi1 He1 [Hrel Hc1]. cbn beta.
    eapply post_conseq; [apply (IH _ w1 Hi1 Hc1 Hv2)|].
    cbn. intros r w2 Hi2 He2 [(cs & -> & Hcs) Hc2]. split; [|exact Hc2].
    exists (c :: cs). split; [now rewrite <- app_assoc|].
    constructor; [|exact Hcs].
    eapply Hmono; [apply (ext_seen_t He2) | apply (ext_seen_p He2) | exact Hrel].
Qed.

Lemma image_typeParam_mono w w' p p' :
  sT w ⊆ sT w' -> sP w ⊆ sP w' -> image_typeParam w p p' -> image_typeParam w' p p'.
Proof.
  intros HT HP [H1 H2]. split; [eapply lookup_weaken; eauto|].
  destruct (gtd_defaultValue p), (gtd_defaultValue p'); auto.
  eapply lookup_weaken; eauto.
Qed.

Lemma image_typePackParam_mono w w' p p' :
  sT w ⊆ sT w' -> sP w ⊆ sP w' ->
  image_typePackParam w p p' -> image_typePackParam w' p p'.
Proof.
  intros HT HP [H1 H2]. split; [eapply lookup_weaken; eauto|].
  destruct (gtpd_defaultValue p), (gtpd_defaultValue p'); auto.
  eapply lookup_weaken; eauto.
Qed.

Lemma shared_clone_TypeFun f w :
  Inv w -> counted w -> closed_TypeFun base f ->
  post w (clone_TypeFun flags dest f w)
    (fun f' w' => image_TypeFun w' f f' /\ counted w').
Proof using Hwf.
  intros Hi Hc (Hp1 & Hp2 & Hty). unfold clone_TypeFun.
  eapply post_bind.
  { apply (shared_cloneInto (clone_typeParam flags dest)
             (fun p => gtd_ty p < N0
                       /\ option_Forall (fun d => d < N0) (gtd_defaultValue p))
             image_typeParam);
      [|apply image_typeParam_mono | exact Hi | exact Hc | exact Hp1].
    intros x w0 Hi0 Hc0 [? ?]. now apply shared_typeParam. }
  cbn beta. intros ps w1 Hi1 He1 [(cs & -> & Hcs) Hc1].
  eapply post_bind.
  { apply (shared_cloneInto (clone_typePackParam flags dest)
             (fun p => gtpd_tp p < M0
                       /\ option_Forall (fun d => d < M0) (gtpd_defaultValue p))
             image_typePackParam);
      [|apply image_typePackParam_mono | exact Hi1 | exact Hc1 | exact Hp2].
    intros x w0 Hi0 Hc0 [? ?]. now apply shared_typePackParam. }
  cbn beta. intros qs w2 Hi2 He2 [(ds & -> & Hds) Hc2].
  eapply post_bind; [now apply shared_clone|].
  cbn beta. intros c w3 Hi3 He3 [Hs3 Hc3].
  apply shared_ret; [exact Hi3|]. split; [|exact Hc3].
  split; [|split]; cbn.
  - eapply Forall2_impl; [exact Hcs|]. intros p p' H.
    eapply image_typeParam_mono; [| |exact H].
    + etransitivity; [apply (ext_seen_t He2) | apply (ext_seen_t He3)].
    + etransitivity; [apply (ext_seen_p He2) | apply (ext_seen_p He3)].
  - eapply Forall2_impl; [exact Hds|]. intros p p' H.
    eapply image_typePackParam_mono; [| |exact H].
    + apply (ext_seen_t He3).
    + apply (ext_seen_p He3).
  - exact Hs3.
Qed.

End SharedState.



Import TypeGraph.


(** ** Type family instances *)

Section FamilyFacts.
Import TypeChecker2 TypeFamilies.
Context (ext : Externals) (m : Memory).

Lemma sameFollowed_iff {A} (followed : A -> nat) (a b : list A) :
  length a = length b ->
  sameFollowed followed a b = true <-> map followed a = map followed b.
Proof.
  revert b. induction a as [|x a IH]; intros [|y b] Hl; try discriminate; cbn.
  - tauto.
  - injection Hl as Hl. destruct (Nat.eqb_spec (followed x) (followed y)) as [E|E]; cbn.
    + rewrite (IH b Hl), E. split; [now intros -> | now intros [= ->]].
    + split; [discriminate | intros [= ? _]; contradiction].
Qed.

Lemma areEquivalent_iff a b :
  areEquivalent ext m a b = true
  <-> family a = family b
      /\ map (follow ext m) (typeArguments a) = map (follow ext m) (typeArguments b)
      /\ map (follow_pack ext m) (packArguments a)
         = map (follow_pack ext m) (packArguments b).
Proof.
  unfold areEquivalent.
  destruct (Nat.eqb_spec (family a) (family b)) as [Ef|Ef]; cbn;
    [|split; [discriminate | tauto]].
  destruct (Nat.eqb_spec (length (typeArguments a)) (length (typeArguments b)))
    as [Et|Et]; cbn.
  2: { split; [discriminate|]. intros (_ & H & _). apply (f_equal length) in H.
       rewrite !length_map in H. contradiction. }
  destruct (Nat.eqb_spec (length (packArguments a)) (length (packArguments b)))
    as [Ep|Ep]; cbn.
  2: { split; [discriminate|]. intros (_ & _ & H). apply (f_equal length) in H.
       rewrite !length_map in H. contradiction. }
  pose proof (sameFollowed_iff (follow ext m) _ _ Et) as Ht.
  pose proof (sameFollowed_iff (follow_pack ext m) _ _ Ep) as Hp.
  destruct (sameFollowed (follow ext m) _ _); cbn.
  2: { split; [discriminate|]. intros (_ & H & _). apply Ht in H. discriminate. }
  destruct (sameFollowed (follow_pack ext m) _ _); cbn.
  2: { split; [discriminate|]. intros (_ & _ & H). apply Hp in H. discriminate. }
  split; [|reflexivity]. intros _. split; [exact Ef|].
  split; [now apply Ht | now apply Hp].
Qed.

Lemma areEquivalent_trans_eq a a' b :
  areEquivalent ext m a a' = true ->
  areEquivalent ext m a b = areEquivalent ext m a' b.
Proof.
  intros H. apply areEquivalent_iff in H as (H1 & H2 & H3).
  destruct (areEquivalent ext m a b) eqn:E1, (areEquivalent ext m a' b) eqn:E2;
    try reflexivity.
  - apply areEquivalent_iff in E1 as (? & ? & ?).
    assert (areEquivalent ext m a' b = true) by (apply areEquivalent_iff; repeat split; congruence).
    congruence.
  - apply areEquivalent_iff in E2 as (? & ? & ?).
    assert (areEquivalent ext m a b = true) by (apply areEquivalent_iff; repeat split; congruence).
    congruence.
Qed.

Lemma anyGenericType_followed ps ps' :
  map (follow ext m) ps = map (follow ext m) ps' ->
  anyGenericType ext m ps = anyGenericType ext m ps'.
Proof.
  revert ps'. induction ps as [|p ps IH]; intros [|p' ps'] H; try discriminate;
    [reflexivity|].
  cbn in *. injection H as -> H. rewrite (IH _ H). reflexivity.
Qed.

Lemma anyGenericTypePack_followed ps ps' :
  map (follow_pack ext m) ps = map (follow_pack ext m) ps' ->
  anyGenericTypePack ext m ps = anyGenericTypePack ext m ps'.
Proof.
  revert ps'. induction ps as [|p ps IH]; intros [|p' ps'] H; try discriminate;
    [reflexivity|].
  cbn in *. injection H as -> H. rewrite (IH _ H). reflexivity.
Qed.

End FamilyFacts.

(** [areEquivalent] holds exactly when the two instances are of one
    family and their type arguments and their pack arguments are, one by
    one, the same after [follow]; so it is reflexive, symmetric and
    transitive, whatever [follow] does. *)
Theorem areEquivalent_is_equivalence (ext : TypeChecker2.Externals) (m : Memory) :
  (forall a b,
     TypeFamilies.areEquivalent ext m a b = true
     <-> TypeFamilies.family a = TypeFamilies.family b
         /\ map (TypeChecker2.follow ext m) (TypeFamilies.typeArguments a)
            = map (TypeChecker2.follow ext m) (TypeFamilies.typeArguments b)
         /\ map (TypeChecker2.follow_pack ext m) (TypeFamilies.packArguments a)
            = map (TypeChecker2.follow_pack ext m) (TypeFamilies.packArguments b))
  /\ (forall a, TypeFamilies.areEquivalent ext m a a = true)
  /\ (forall a b, TypeFamilies.areEquivalent ext m a b
                  = TypeFamilies.areEquivalent ext m b a)
  /\ (forall a b c, TypeFamilies.areEquivalent ext m a b = true ->
                    TypeFamilies.areEquivalent ext m b c = true ->
                    TypeFamilies.areEquivalent ext m a c = true).
Proof.
  split; [apply areEquivalent_iff|]. split; [|split].
  - intros a. now apply areEquivalent_iff.
  - intros a b.
    destruct (TypeFamilies.areEquivalent ext m a b) eqn:E1,
             (TypeFamilies.areEquivalent ext m b a) eqn:E2; try reflexivity.
    + apply areEquivalent_iff in E1 as (? & ? & ?).
      assert (TypeFamilies.areEquivalent ext m b a = true)
        by (apply areEquivalent_iff; auto). congruence.
    + apply areEquivalent_iff in E2 as (? & ? & ?).
      assert (TypeFamilies.areEquivalent ext m a b = true)
        by (apply areEquivalent_iff; auto). congruence.
  - intros a b c H1 H2. apply areEquivalent_iff in H1 as (? & ? & ?).
    apply areEquivalent_iff in H2 as (? & ? & ?).
    apply areEquivalent_iff. repeat split; congruence.
Qed.

(** What [InternalFamilyFinder] decides about a type family instance
    depends on the instance only up to [areEquivalent]: two equivalent
    instances visited for the same type leave the same set of internal
    families (and fail alike on a dangling argument). *)
Theorem internal_family_verdict_respects_equivalence
    (ext : TypeChecker2.Externals) (m : Memory) (mentionedFamilies : list TypeId)
    (ty : TypeId) (tfit tfit' : TypeFamilies.FamilyInstance)
    (internalFamilies : gset TypeId) :
  TypeFamilies.areEquivalent ext m tfit tfit' = true ->
  TypeFamilies.visitFamilyInstance ext m mentionedFamilies ty tfit internalFamilies
  = TypeFamilies.visitFamilyInstance ext m mentionedFamilies ty tfit' internalFamilies.
Proof.
  intros H. pose proof H as (Hf & Ht & Hp)%areEquivalent_iff.
  unfold TypeFamilies.visitFamilyInstance, TypeFamilies.hasGeneric.
  rewrite (anyGenericType_followed ext m _ _ Ht),
    (anyGenericTypePack_followed ext m _ _ Hp).
  assert (Hm : TypeFamilies.mentionsEquivalent ext m tfit mentionedFamilies
               = TypeFamilies.mentionsEquivalent ext m tfit' mentionedFamilies).
  { induction mentionedFamilies as [|t rest IH]; [reflexivity|]. cbn.
    destruct (TypeFamilies.getFamilyInstance m t) as [mt|]; [|reflexivity].
    rewrite (areEquivalent_trans_eq ext m tfit tfit' mt H), IH. reflexivity. }
  now rewrite Hm.
Qed.

Lemma internal_family_verdict_respects_equivalence_witness :
  TypeFamilies.visitFamilyInstance TypeFamilies.familyExt TypeFamilies.familyMemory
    [] 20 (TypeFamilies.mkFamilyInstance 7 [15; 14] []) ∅
  = TypeFamilies.visitFamilyInstance TypeFamilies.familyExt TypeFamilies.familyMemory
      [] 20 (TypeFamilies.mkFamilyInstance 7 [16; 2] []) ∅.
Proof.
  apply (internal_family_verdict_respects_equivalence TypeFamilies.familyExt
           TypeFamilies.familyMemory [] 20
           (TypeFamilies.mkFamilyInstance 7 [15; 14] [])
           (TypeFamilies.mkFamilyInstance 7 [16; 2] []) ∅).
  reflexivity.
Defined.

(** ** Diagnostics *)

Section DiagnosticFacts.
Import TypeChecker2 Diagnostics.
Context (ext : Externals) (module : Module).

Lemma accumulate_sound key ps candidates :
  (forall n, n ∈ candidates -> nearMiss key n) ->
  forall n, n ∈ accumulate key ps candidates -> nearMiss key n.
Proof.
  intros H n Hn. unfold accumulate in Hn. apply elem_of_union in Hn as [Hn|Hn]; [auto|].
  apply elem_of_filter in Hn as [Hn _]. exact Hn.
Qed.

Lemma accumulate_complete key ps candidates n :
  n ∈ dom ps -> nearMiss key n -> n ∈ accumulate key ps candidates.
Proof.
  intros Hd Hn. unfold accumulate. apply elem_of_union. right.
  apply elem_of_filter. auto.
Qed.

Lemma accumulate_mono key ps candidates : candidates ⊆ accumulate key ps candidates.
Proof. unfold accumulate. apply union_subseteq_l. Qed.

Lemma classCandidates_sound fuel m key ctv candidates result :
  classCandidates fuel m key ctv candidates = inr result ->
  (forall n, n ∈ candidates -> nearMiss key n) ->
  (forall n, n ∈ result -> nearMiss key n)
  /\ accumulate key (ct_props ctv) candidates ⊆ result.
Proof.
  revert ctv candidates. induction fuel as [|fuel IH]; intros ctv candidates H Hc;
    cbn in H; [discriminate|].
  destruct (parent ctv) as [p|].
  - destruct (types m !! p) as [node|]; [|discriminate].
    destruct (TypeGraph.ty node) as [| | | | | | | | | |  |ctv'| | | | | | | |];
      try discriminate.
    destruct (IH _ _ H (accumulate_sound key _ _ Hc)) as [H1 H2].
    split; [exact H1|]. etransitivity; [apply accumulate_mono | exact H2].
  - injection H as <-. split; [now apply accumulate_sound | reflexivity].
Qed.

Lemma diagnoseMissingTableKey_sound table key data s data' s' :
  diagnoseMissingTableKey ext table key data s = Ok data' s' ->
  s' = s
  /\ (data' = data
      \/ exists candidates,
           data' = UnknownPropButFoundLikeProp table key candidates
           /\ candidates <> ∅
           /\ forall n, n ∈ candidates -> nearMiss key n).
Proof.
  unfold diagnoseMissingTableKey.
  assert (Hfin : forall candidates,
            (forall n, n ∈ candidates -> nearMiss key n) ->
            (if decide (candidates = ∅) then Ok data s
             else Ok (UnknownPropButFoundLikeProp table key candidates) s)
            = Ok data' s' ->
            s' = s
            /\ (data' = data
                \/ exists candidates,
                     data' = UnknownPropButFoundLikeProp table key candidates
                     /\ candidates <> ∅
                     /\ forall n, n ∈ candidates -> nearMiss key n)).
  { intros candidates Hc H. destruct (decide (candidates = ∅)) as [E|E];
      injection H as <- <-; split; eauto. }
  assert (Hempty : forall n : Name, n ∈ (∅ : gset Name) -> nearMiss key n)
    by (intros n Hn; now apply elem_of_empty in Hn).
  destruct (getTableType ext (mem s) table) as [ttv|].
  - apply Hfin. now apply accumulate_sound.
  - destruct (types (mem s) !! follow ext (mem s) table) as [node|]; [|discriminate].
    destruct (TypeGraph.ty node) as [| | | | | | | | | |  |ctv| | | | | | | |];
      try (apply Hfin; exact Hempty).
    destruct (classCandidates _ _ _ _ _) as [why|candidates] eqn:E; [discriminate|].
    apply Hfin. now apply (classCandidates_sound _ _ _ _ _ _ E).
Qed.

Lemma reportError_relays data location s s' :
  reportError ext module data location s = Ok tt s' ->
  exists e', s' = withErrors [e'] s
             /\ relayed (name module) (mkTypeError location "" data) e'.
Proof.
  unfold reportError, bind. intros H.
  destruct data;
    try (injection H as <-; eexists; split; [reflexivity|];
         repeat split; left; reflexivity).
  destruct (diagnoseMissingTableKey ext table key (UnknownProperty table key) s)
    as [d s1|why] eqn:E; [|discriminate].
  apply diagnoseMissingTableKey_sound in E as [-> Hd].
  injection H as <-. eexists. split; [reflexivity|]. repeat split. cbn.
  destruct Hd as [-> | (c & -> & _)]; [now left | right; eauto].
Qed.

Lemma relayed_stamp moduleName l n d e' :
  relayed moduleName (mkTypeError l "" d) e' ->
  relayed moduleName (mkTypeError l n d) e'.
Proof. intros (H1 & H2 & H3). repeat split; assumption. Qed.

Lemma reportErrors_relays es s s' :
  reportErrors ext module es s = Ok tt s' ->
  exists es', s' = withErrors es' s /\ Forall2 (relayed (name module)) es es'.
Proof.
  revert s. induction es as [|e es IH]; intros s H; cbn in H.
  - injection H as <-. exists []. split; [|constructor].
    destruct s. unfold withErrors. cbn. now rewrite app_nil_r.
  - unfold reportErrors in IH. unfold bind in H.
    destruct (reportError ext module (err_data e) (err_location e) s)
      as [[] s1|why] eqn:E; [|discriminate].
    apply reportError_relays in E as (e' & -> & He).
    apply IH in H as (es' & -> & Hes).
    exists (e' :: es'). split.
    + unfold withErrors. cbn. now rewrite <- app_assoc.
    + constructor; [|exact Hes]. destruct e. now apply relayed_stamp.
Qed.

Lemma checkForFamilyInhabitance_seen instance location s :
  instance ∈ noTypeFamilyErrors s ->
  checkForFamilyInhabitance ext module instance location s = Ok instance s.
Proof.
  intros H. unfold checkForFamilyInhabitance. now rewrite decide_True.
Qed.

End DiagnosticFacts.



(** [diagnoseMissingTableKey] always answers, leaves the state alone, and
    suggests exactly the near misses: the names that differ from the key
    and equal it without regard to case.  For a table they are taken
    from the properties of the table; for a class with a line of
    ancestors, from the properties of the class and of every ancestor;
    for anything else there is none.  When there is no near miss the
    error stays as it is, otherwise it becomes
    [UnknownPropButFoundLikeProp] with all of them. *)
Theorem suggestions_are_near_misses
    (ext : TypeChecker2.Externals) (table : TypeId) (key : Name)
    (data : TypeChecker2.TypeErrorData) (s : TypeChecker2.Checker) :
  let m := TypeChecker2.mem s in
  (forall ttv,
     TypeChecker2.getTableType ext m table = Some ttv ->
     TypeChecker2.diagnoseMissingTableKey ext table key data s
     = TypeChecker2.Ok
         (Diagnostics.suggestion table key data
            (Diagnostics.nearMisses key (dom (props ttv)))) s)
  /\ (forall node ctv chain,
        TypeChecker2.getTableType ext m table = None ->
        types m !! TypeChecker2.follow ext m table = Some node ->
        ty node = ClassTypeV ctv ->
        Diagnostics.ancestry m ctv chain ->
        TypeChecker2.diagnoseMissingTableKey ext table key data s
        = TypeChecker2.Ok
            (Diagnostics.suggestion table key data
               (Diagnostics.nearMisses key (Diagnostics.propertyNames chain))) s)
  /\ (forall node,
        TypeChecker2.getTableType ext m table = None ->
        types m !! TypeChecker2.follow ext m table = Some node ->
        TypeChecker2.isClassType (ty node) = false ->
        TypeChecker2.diagnoseMissingTableKey ext table key data s
        = TypeChecker2.Ok data s).
Proof.
  intros m. split; [|split].
  - intros ttv H. now apply diagnoseMissingTableKey_table.
  - intros node ctv chain Ht Hn Hc Ha.
    now apply (diagnoseMissingTableKey_class ext table key data s node ctv chain).
  - intros node Ht Hn Hc.
    now apply (diagnoseMissingTableKey_other ext table key data s node).
Qed.

Lemma suggestions_are_near_misses_witness :
  TypeChecker2.diagnoseMissingTableKey Samples.sampleExt 15 "size"
    (TypeChecker2.UnknownProperty 15 "size") Diagnostics.classChecker
  = TypeChecker2.Ok
      (TypeChecker2.UnknownPropButFoundLikeProp 15 "size" {["SIZE"; "Size"]})
      Diagnostics.classChecker
  /\ TypeChecker2.diagnoseMissingTableKey Samples.sampleExt 10 "name"
       (TypeChecker2.UnknownProperty 10 "name") Samples.sampleChecker
     = TypeChecker2.Ok
         (TypeChecker2.UnknownPropButFoundLikeProp 10 "name" {["Name"]})
         Samples.sampleChecker.
Proof.
  split.
  - rewrite (proj1 (proj2 (suggestions_are_near_misses Samples.sampleExt 15 "size"
                 (TypeChecker2.UnknownProperty 15 "size") Diagnostics.classChecker))
               (mkType (ClassTypeV Diagnostics.derivedClass) false None (Some 1))
               Diagnostics.derivedClass
               [Diagnostics.derivedClass; Diagnostics.baseClass]).
    + reflexivity.
    + reflexivity.
    + reflexivity.
    + reflexivity.
    + eapply Diagnostics.ancestry_parent;
        [reflexivity | reflexivity | reflexivity |].
      apply Diagnostics.ancestry_top. reflexivity.
  - rewrite (proj1 (suggestions_are_near_misses Samples.sampleExt 10 "name"
               (TypeChecker2.UnknownProperty 10 "name") Samples.sampleChecker)
               (Samples.sampleTable [("Name", Samples.sampleProperty 3)])).
    + reflexivity.
    + reflexivity.
Defined.

(** [checkForFamilyInhabitance] returns the instance it is given, and an
    instance is reduced until it is found free of errors and no more:
    when [reduceFamilies] has no error for it, the call reports nothing
    and records the instance, and from then on every call for it, at
    whatever location, returns at once and changes nothing. *)
Theorem family_instance_is_reduced_once
    (ext : TypeChecker2.Externals) (module : TypeChecker2.Module)
    (instance : TypeId) (location : Location) (s : TypeChecker2.Checker)
    (scope : ScopeId) :
  last (TypeChecker2.stack s) = Some scope ->
  TypeChecker2.reduceFamilies ext (TypeChecker2.mem s) instance location scope = [] ->
  exists s',
    TypeChecker2.checkForFamilyInhabitance ext module instance location s
    = TypeChecker2.Ok instance s'
    /\ TypeChecker2.errors s' = TypeChecker2.errors s
    /\ TypeChecker2.mem s' = TypeChecker2.mem s
    /\ instance ∈ TypeChecker2.noTypeFamilyErrors s'
    /\ forall location',
         TypeChecker2.checkForFamilyInhabitance ext module instance location' s'
         = TypeChecker2.Ok instance s'.
Proof.
  intros Hs Hr. unfold TypeChecker2.checkForFamilyInhabitance at 1.
  destruct (decide (instance ∈ TypeChecker2.noTypeFamilyErrors s)) as [Hin|Hin].
  - exists s. repeat split; auto.
    intros l. now apply checkForFamilyInhabitance_seen.
  - rewrite Hs, Hr. rewrite decide_True by reflexivity. cbn.
    eexists. split; [reflexivity|]. cbn. repeat split.
    + apply elem_of_union_l. now apply elem_of_singleton.
    + intros l. apply checkForFamilyInhabitance_seen. cbn.
      apply elem_of_union_l. now apply elem_of_singleton.
Qed.

Lemma family_instance_is_reduced_once_witness :
  exists s',
    TypeChecker2.checkForFamilyInhabitance Samples.sampleExt Samples.sampleModule
      10 (Samples.at_ 1 1) Samples.sampleChecker
    = TypeChecker2.Ok 10 s'
    /\ TypeChecker2.errors s' = TypeChecker2.errors Samples.sampleChecker
    /\ TypeChecker2.mem s' = TypeChecker2.mem Samples.sampleChecker
    /\ 10 ∈ TypeChecker2.noTypeFamilyErrors s'
    /\ forall location',
         TypeChecker2.checkForFamilyInhabitance Samples.sampleExt
           Samples.sampleModule 10 location' s'
         = TypeChecker2.Ok 10 s'.
Proof.
  apply (family_instance_is_reduced_once Samples.sampleExt Samples.sampleModule
           10 (Samples.at_ 1 1) Samples.sampleChecker 7); reflexivity.
Defined.

(** ** The validator only adds to what it has reported *)

Section Orderly.
Import TypeChecker2 Diagnostics.
Context (ext : Externals) (module : Module).

Lemma appends_refl s : appends s s.
Proof. repeat split; reflexivity. Qed.

Lemma appends_trans s1 s2 s3 : appends s1 s2 -> appends s2 s3 -> appends s1 s3.
Proof.
  intros (a1 & a2 & a3 & a4 & a5) (b1 & b2 & b3 & b4 & b5).
  repeat split; try congruence; etransitivity; eassumption.
Qed.

Lemma orderly_ret {A} (a : A) : orderly (ret a).
Proof. intros s a' s' H. inversion H; subst. apply appends_refl. Qed.

Lemma orderly_stop {A} why : orderly (@stop A why).
Proof. intros s a s' H. discriminate. Qed.

Lemma orderly_bind {A B} (m : TC A) (k : A -> TC B) :
  orderly m -> (forall a, orderly (k a)) -> orderly (bind m k).
Proof.
  intros Hm Hk s b s' H. unfold bind in H.
  destruct (m s) as [a s1|why] eqn:E; [|discriminate].
  eapply appends_trans; [eapply Hm | eapply Hk]; eassumption.
Qed.

Lemma orderly_state {A} (m : TC A) :
  (forall s a s', m s = Ok a s' ->
     errors s' = errors s /\ stack s' = stack s
     /\ functionDeclStack s' = functionDeclStack s
     /\ noTypeFamilyErrors s' = noTypeFamilyErrors s /\ printed s' = printed s) ->
  orderly m.
Proof.
  intros H s a s' E. destruct (H s a s' E) as (H1 & H2 & H3 & H4 & H5).
  unfold appends. rewrite H1, H2, H3, H4, H5. repeat split; reflexivity.
Qed.

Lemma orderly_getMem : orderly getMem.
Proof. apply orderly_state. intros s a s' H. inversion H; subst. repeat split. Qed.

Lemma orderly_setMem m : orderly (setMem m).
Proof. apply orderly_state. intros s a s' H. inversion H; subst. repeat split. Qed.

Lemma orderly_get t : orderly (get t).
Proof.
  apply orderly_state. intros s a s'. unfold get.
  destruct (types (mem s) !! t); [|discriminate].
  intros H. inversion H; subst. repeat split.
Qed.

Lemma orderly_getPack t : orderly (getPack t).
Proof.
  apply orderly_state. intros s a s'. unfold getPack.
  destruct (typePacks (mem s) !! t); [|discriminate].
  intros H. inversion H; subst. repeat split.
Qed.

Lemma orderly_addType v : orderly (addType v).
Proof. apply orderly_state. intros s a s' H. inversion H; subst. repeat split. Qed.

Lemma orderly_addTypePack v : orderly (addTypePack v).
Proof. apply orderly_state. intros s a s' H. inversion H; subst. repeat split. Qed.

Lemma orderly_stackBack : orderly stackBack.
Proof.
  apply orderly_state. intros s a s'. unfold stackBack.
  destruct (last (stack s)); [|discriminate].
  intros H. inversion H; subst. repeat split.
Qed.

Lemma orderly_LUAU_ASSERT b : orderly (LUAU_ASSERT b).
Proof. destruct b; [apply orderly_ret | apply orderly_stop]. Qed.

Lemma orderly_pushErrors es : orderly (pushErrors es).
Proof.
  intros s a s' H. inversion H; subst. repeat split; try reflexivity. cbn.
  now apply prefix_app_r.
Qed.

Lemma orderly_forEach {A} (xs : list A) body :
  (forall x, orderly (body x)) -> orderly (forEach xs body).
Proof.
  intros Hb. induction xs as [|x xs IH]; cbn [forEach];
    [apply orderly_ret | apply orderly_bind; auto].
Qed.

Lemma orderly_diagnoseMissingTableKey table key data :
  orderly (diagnoseMissingTableKey ext table key data).
Proof.
  intros s a s' H. apply diagnoseMissingTableKey_sound in H as [-> _].
  apply appends_refl.
Qed.

Ltac ord_leaf :=
  first
    [ apply orderly_ret | apply orderly_stop | apply orderly_getMem
    | apply orderly_setMem | apply orderly_get | apply orderly_getPack
    | apply orderly_addType | apply orderly_addTypePack | apply orderly_stackBack
    | apply orderly_LUAU_ASSERT | apply orderly_pushErrors
    | apply orderly_diagnoseMissingTableKey | assumption ].

Ltac ord_step :=
  match goal with
  | |- orderly (bind _ _) => apply orderly_bind; [|intros ?]
  | |- orderly (forEach _ _) => apply orderly_forEach; intros ?
  | |- orderly (let '(_, _) := ?x in _) => destruct x
  | |- orderly (if ?b then _ else _) => destruct b
  | |- orderly (match ?x with _ => _ end) => destruct x
  end.

Ltac ord := repeat first [ord_leaf | ord_step].

Lemma orderly_reportError data location : orderly (reportError ext module data location).
Proof. unfold reportError. ord. Qed.

Lemma orderly_reportErrors es : orderly (reportErrors ext module es).
Proof. unfold reportErrors. ord. apply orderly_reportError. Qed.

Lemma orderly_isSubtype a b scope g : orderly (isSubtype ext a b scope g).
Proof. unfold isSubtype. ord. Qed.

Lemma orderly_tryUnify scope location a b : orderly (tryUnify ext scope location a b).
Proof. unfold tryUnify. ord. Qed.

Lemma orderly_checkForInternalFamily t location :
  orderly (checkForInternalFamily ext module t location).
Proof.
  intros s a s' H. unfold checkForInternalFamily in H.
  destruct (internalFamilies ext (mem s) (functionDeclStack s) t) as [tys tps].
  revert s a s' H.
  change (orderly (forEach tys (fun i => reportError ext module (WhereClauseNeeded i) location) ;;;
                   forEach tps (fun i => reportError ext module (PackWhereClauseNeeded i) location))).
  ord; apply orderly_reportError.
Qed.

Lemma orderly_checkForFamilyInhabitance instance location :
  orderly (checkForFamilyInhabitance ext module instance location).
Proof.
  intros s a s' H. unfold checkForFamilyInhabitance in H.
  destruct (decide (instance ∈ noTypeFamilyErrors s)).
  { inversion H; subst. apply appends_refl. }
  destruct (last (stack s)) as [scope|]; [|discriminate].
  set (errs := reduceFamilies ext (mem s) instance location scope) in *.
  assert (Ho : orderly (reportErrors ext module errs ;;; ret instance))
    by (ord; apply orderly_reportErrors).
  apply Ho in H. eapply appends_trans; [|exact H].
  destruct (decide (errs = [])); [|apply appends_refl].
  repeat split; cbn; try reflexivity. apply union_subseteq_r.
Qed.

Lemma orderly_flattenPack pack : orderly (flattenPack ext pack).
Proof.
  unfold flattenPack. ord.
  apply orderly_state. intros s1 u s2.
  destruct (typePacks (mem s1) !! _); [|discriminate].
  intros H. inversion H; subst. repeat split.
Qed.

Lemma orderly_lookupType expr : orderly (lookupType ext module expr).
Proof.
  unfold lookupType. ord;
    first [apply orderly_checkForFamilyInhabitance | apply orderly_flattenPack].
Qed.

Lemma orderly_print line :
  orderly (fun s => Ok tt (mkChecker (errors s) (mem s) (stack s)
                             (functionDeclStack s) (noTypeFamilyErrors s)
                             (printed s ++ [line])%list)).
Proof.
  intros s a s' H. inversion H; subst. repeat split; try reflexivity. cbn.
  now apply prefix_app_r.
Qed.

Lemma orderly_lookupAnnotation : forall annotation,
  orderly (lookupAnnotation ext module annotation).
Proof.
  fix IH 1. intros annotation.
  assert (Hplain : orderly
            (match astResolvedTypes module !! typeId_ annotation with
             | Some ty =>
                 m <- getMem ;;
                 checkForFamilyInhabitance ext module (follow ext m ty)
                   (typeLocation annotation)
             | None => stop AssertionFailed
             end)).
  { ord. apply orderly_checkForFamilyInhabitance. }
  destruct annotation as [id loc refName params|id loc]; cbn [lookupAnnotation];
    destruct (DebugLuauMagicTypes ext); try exact Hplain.
  destruct params as [|[ann|] params]; try exact Hplain.
  destruct (String.eqb refName "_luau_print"); [|exact Hplain].
  apply orderly_bind; [apply IH|]. intros argTy.
  apply orderly_bind; [apply orderly_getMem|]. intros m.
  apply orderly_bind; [apply orderly_print|]. intros _. apply orderly_ret.
Qed.

Ltac ord2 :=
  repeat first
    [ ord_leaf
    | apply orderly_reportError | apply orderly_reportErrors
    | apply orderly_isSubtype | apply orderly_tryUnify
    | apply orderly_checkForInternalFamily
    | apply orderly_checkForFamilyInhabitance
    | apply orderly_flattenPack | apply orderly_lookupType
    | apply orderly_lookupAnnotation
    | ord_step ].

Lemma orderly_visit_AstExprConstant expr expected :
  orderly (visit_AstExprConstant ext module expr expected).
Proof. unfold visit_AstExprConstant. ord2. Qed.

Lemma orderly_synthesizeExpectedTy op scope l r :
  orderly (synthesizeExpectedTy ext op scope l r).
Proof. unfold synthesizeExpectedTy. ord2. Qed.

Lemma orderly_checkMetamethodCall location op mmName key scope mm l r e :
  orderly (checkMetamethodCall ext module location op mmName key scope mm l r e).
Proof.
  unfold checkMetamethodCall.
  repeat first [apply orderly_synthesizeExpectedTy | ord2].
Qed.

Lemma orderly_checkMetamethods self location op left right overrideKey mmName
    scope l r e isStr inter :
  orderly (checkMetamethods ext module self location op left right overrideKey
             mmName scope l r e isStr inter).
Proof.
  unfold checkMetamethods.
  repeat first [apply orderly_checkMetamethodCall | ord2].
Qed.

Lemma orderly_checkPrimitiveOperator location op left right scope l r :
  orderly (checkPrimitiveOperator ext module location op left right scope l r).
Proof. unfold checkPrimitiveOperator. ord2. Qed.

Lemma orderly_checkTypeAssertion location a c :
  orderly (checkTypeAssertion ext module location a c).
Proof. unfold checkTypeAssertion. ord2. Qed.

Lemma orderly_allOf f parts seen :
  (forall p sn, orderly (f p sn)) -> orderly (allOf f parts seen).
Proof.
  intros Hf. revert seen. induction parts as [|p parts IH]; intros seen;
    cbn [allOf]; [apply orderly_ret|].
  apply orderly_bind; [apply Hf|]. intros r. destruct (fst r); [apply IH|apply orderly_ret].
Qed.

Lemma orderly_anyOf f parts seen :
  (forall p sn, orderly (f p sn)) -> orderly (anyOf f parts seen).
Proof.
  intros Hf. revert seen. induction parts as [|p parts IH]; intros seen;
    cbn [anyOf]; [apply orderly_ret|].
  apply orderly_bind; [apply Hf|]. intros r. destruct (fst r); [apply orderly_ret|apply IH].
Qed.

Lemma orderly_hasIndexTypeFromType fuel prop location astIndexExprType :
  forall t seen,
    orderly (hasIndexTypeFromType ext fuel prop location astIndexExprType t seen).
Proof.
  induction fuel as [|fuel IH]; intros t seen; cbn [hasIndexTypeFromType];
    [apply orderly_stop|].
  repeat first [now apply orderly_allOf | now apply orderly_anyOf | ord2].
Qed.

Lemma orderly_fetch fuel prop location astIndexExprType t acc :
  orderly (fetch ext fuel prop location astIndexExprType t acc).
Proof.
  unfold fetch. repeat first [apply orderly_hasIndexTypeFromType | ord2].
Qed.

Lemma orderly_fetchEach xs f acc :
  (forall x a, orderly (f x a)) -> orderly (fetchEach xs f acc).
Proof.
  intros Hf. revert acc. induction xs as [|x xs IH]; intros acc; cbn [fetchEach];
    [apply orderly_ret | apply orderly_bind; auto].
Qed.

Lemma orderly_fetchComponents fuel norm prop location astIndexExprType :
  orderly (fetchComponents ext fuel norm prop location astIndexExprType).
Proof.
  unfold fetchComponents. cbn zeta.
  repeat (apply orderly_bind;
          [repeat first [apply orderly_fetch | apply orderly_fetchEach; intros ? ?
                        | ord2]
          | intros ?]).
  match goal with |- orderly (_ ?l ?acc) => generalize acc; induction l as [|[tyvar intersect] rest IHt] end;
    intros acc0; [apply orderly_ret|].
  apply orderly_bind; [apply orderly_get|]. intros vt.
  apply orderly_bind; [|intros ?; apply IHt].
  repeat first [apply orderly_fetch | ord2].
Qed.

Lemma orderly_reportMissingProperty tableTy prop location context acc :
  orderly (reportMissingProperty ext module tableTy prop location context acc).
Proof. unfold reportMissingProperty. ord2. Qed.

Lemma orderly_checkIndexTypeFromType fuel tableTy prop location context a :
  orderly (checkIndexTypeFromType ext module fuel tableTy prop location context a).
Proof.
  unfold checkIndexTypeFromType.
  repeat first [apply orderly_fetchComponents | apply orderly_reportMissingProperty
               | ord2].
Qed.

Section Visitors.
Context (visitExpr : AstExpr -> ValueContext -> TC unit).
Context (visitType : AstType -> TC unit).
Context (HvisitExpr : forall e c, orderly (visitExpr e c)).
Context (HvisitType : forall t, orderly (visitType t)).

Lemma orderly_visit_AstExprBinary self location op left right overrideKey :
  orderly (visit_AstExprBinary ext module visitExpr self location op left right
             overrideKey).
Proof using HvisitExpr.
  unfold visit_AstExprBinary.
  repeat first [apply HvisitExpr | apply orderly_checkMetamethods
               | apply orderly_checkPrimitiveOperator | ord2].
Qed.

Lemma orderly_visit_AstExprTypeAssertion location expr annotation :
  orderly (visit_AstExprTypeAssertion ext module visitExpr visitType location
             expr annotation).
Proof using HvisitExpr HvisitType.
  unfold visit_AstExprTypeAssertion.
  repeat first [apply HvisitExpr | apply HvisitType | apply orderly_checkTypeAssertion
               | ord2].
Qed.

End Visitors.

End Orderly.

(** Whatever the validator's checks of binary operators, type
    assertions, constants and property lookups do, they only add: the
    errors and the printed lines that were there stay in front and in
    order, the scope stack and the stack of function declarations are
    back as they were, and no instance leaves the set of those known to
    be free of type family errors; provided the visits of the
    sub-expressions and of the annotation do the same. *)
Theorem validator_only_appends
    (ext : TypeChecker2.Externals) (module : TypeChecker2.Module)
    (visitExpr : TypeChecker2.AstExpr -> TypeChecker2.ValueContext ->
                 TypeChecker2.TC unit)
    (visitType : TypeChecker2.AstType -> TypeChecker2.TC unit) :
  (forall e c, Diagnostics.orderly (visitExpr e c)) ->
  (forall t, Diagnostics.orderly (visitType t)) ->
  (forall self location op left right overrideKey,
     Diagnostics.orderly
       (TypeChecker2.visit_AstExprBinary ext module visitExpr self location op
          left right overrideKey))
  /\ (forall location expr annotation,
        Diagnostics.orderly
          (TypeChecker2.visit_AstExprTypeAssertion ext module visitExpr visitType
             location expr annotation))
  /\ (forall expr expectedType,
        Diagnostics.orderly
          (TypeChecker2.visit_AstExprConstant ext module expr expectedType))
  /\ (forall fuel tableTy prop location context astIndexExprType,
        Diagnostics.orderly
          (TypeChecker2.checkIndexTypeFromType ext module fuel tableTy prop
             location context astIndexExprType)).
Proof.
  intros He Ht. split; [|split; [|split]]; intros.
  - now apply orderly_visit_AstExprBinary.
  - now apply orderly_visit_AstExprTypeAssertion.
  - apply orderly_visit_AstExprConstant.
  - apply orderly_checkIndexTypeFromType.
Qed.

Lemma validator_only_appends_witness :
  Diagnostics.orderly
    (TypeChecker2.visit_AstExprBinary Samples.sampleExt Samples.sampleModule
       Samples.noVisit 24 (Samples.at_ 2 3) TypeChecker2.CompareLt
       Samples.exprObjA Samples.exprObjB None).
Proof.
  apply (validator_only_appends Samples.sampleExt Samples.sampleModule
           Samples.noVisit Samples.noVisitType).
  - intros e c s a s' H. injection H as _ <-. repeat split; reflexivity.
  - intros t s a s' H. injection H as _ <-. repeat split; reflexivity.
Defined.



Import TypeGraph.


(** ** The scope of a location *)

Section ScopeFacts.
Import TypeChecker2 Scopes.
Context (pos_gt pos_lt : Position -> Position -> bool).
Context (encloses : Location -> Location -> bool).
Context (location : Location).

Let consider := Scopes.consider pos_gt pos_lt encloses location.
Let tighter := Scopes.tighter pos_gt pos_lt.

(** The loop ends on the pair it started with or on an entry of the list
    whose span encloses the location. *)
Lemma consider_fold_member scopes best :
  let res := fold_left consider scopes best in
  res = best
  \/ ((snd res, fst res) ∈ scopes /\ encloses (snd res) location = true).
Proof.
  revert best. induction scopes as [|[bounds sc] rest IH]; intros best; cbn [fold_left].
  - now left.
  - destruct (IH (consider best (bounds, sc))) as [Heq | [Hin Henc]].
    + cbv zeta in Heq. cbv zeta. rewrite Heq. unfold consider, Scopes.consider.
      destruct (encloses bounds location) eqn:Henc; [|now left].
      destruct (Scopes.tighter pos_gt pos_lt bounds (snd best)); [|now left].
      right. cbn. split; [apply list_elem_of_here | exact Henc].
    + right. split; [apply list_elem_of_further; exact Hin | exact Henc].
Qed.

(** Spans that do not enclose the location leave the pair as it is. *)
Lemma consider_fold_none scopes best :
  (forall bounds sc, (bounds, sc) ∈ scopes -> encloses bounds location = false) ->
  fold_left consider scopes best = best.
Proof.
  revert best. induction scopes as [|[bounds sc] rest IH]; intros best Hnone; cbn [fold_left].
  - reflexivity.
  - assert (Hstep : consider best (bounds, sc) = best).
    { unfold consider, Scopes.consider.
      now rewrite (Hnone bounds sc (list_elem_of_here _ _)). }
    rewrite Hstep. apply IH. intros b s Hin.
    apply (Hnone b s). now apply list_elem_of_further.
Qed.

Section Ordered.
Hypothesis lt_gt : forall a b, pos_lt a b = pos_gt b a.
Hypothesis gt_irrefl : forall a, pos_gt a a = false.
Hypothesis gt_between :
  forall a b c, pos_gt a c = true -> pos_gt a b = true \/ pos_gt b c = true.

Lemma tighter_irrefl a : tighter a a = false.
Proof using lt_gt gt_irrefl.
  unfold tighter, Scopes.tighter. now rewrite lt_gt, !gt_irrefl.
Qed.

Lemma tighter_trans a b c :
  tighter a b = false -> tighter b c = false -> tighter a c = false.
Proof using lt_gt gt_between.
  unfold tighter, Scopes.tighter. rewrite !lt_gt, !orb_false_iff.
  intros [Hab1 Hab2] [Hbc1 Hbc2]. split.
  - destruct (pos_gt (begin_ a) (begin_ c)) eqn:E; [|reflexivity].
    destruct (gt_between _ (begin_ b) _ E); congruence.
  - destruct (pos_gt (end_ c) (end_ a)) eqn:E; [|reflexivity].
    destruct (gt_between _ (end_ b) _ E); congruence.
Qed.

(** With the spans that enclose the location nested in one another, the
    loop ends on a span that none of them is tighter than. *)
Lemma consider_fold_tightest scopes :
  forall (old : list Location) best,
    (forall b, b ∈ old -> tighter b (snd best) = false) ->
    (forall b1 b2,
       (b1 ∈ old \/ exists s, (b1, s) ∈ scopes /\ encloses b1 location = true) ->
       (b2 ∈ old \/ exists s, (b2, s) ∈ scopes /\ encloses b2 location = true) ->
       tighter b1 b2 = false \/ tighter b2 b1 = false) ->
    forall b,
      (b ∈ old \/ exists s, (b, s) ∈ scopes /\ encloses b location = true) ->
      tighter b (snd (fold_left consider scopes best)) = false.
Proof using lt_gt gt_irrefl gt_between.
  induction scopes as [|[bounds sc] rest IH]; intros old best Hold Hnest b Hb; cbn [fold_left].
  - destruct Hb as [Hb | (s & Hin & _)]; [now apply Hold|].
    now apply elem_of_nil in Hin.
  - unfold consider at 2, Scopes.consider.
    destruct (encloses bounds location) eqn:Henc.
    + assert (Hhead : exists s, (bounds, s) ∈ (bounds, sc) :: rest
                               /\ encloses bounds location = true).
      { exists sc. split; [apply list_elem_of_here | exact Henc]. }
      assert (Hlift : forall x,
                 (x ∈ bounds :: old
                  \/ exists s, (x, s) ∈ rest /\ encloses x location = true) ->
                 x ∈ old
                 \/ exists s, (x, s) ∈ (bounds, sc) :: rest
                              /\ encloses x location = true).
      { intros x [Hx | (s & Hin & Hx)].
        - apply elem_of_cons in Hx as [-> | Hx]; [right; exact Hhead | now left].
        - right. exists s. split; [now apply list_elem_of_further | exact Hx]. }
      assert (Hb' : b ∈ bounds :: old
                    \/ exists s, (b, s) ∈ rest /\ encloses b location = true).
      { destruct Hb as [Hb | (s & Hin & Hb)].
        - left. now apply list_elem_of_further.
        - apply elem_of_cons in Hin as [[= -> ->] | Hin].
          + left. apply list_elem_of_here.
          + right. now exists s. }
      destruct (Scopes.tighter pos_gt pos_lt bounds (snd best)) eqn:Ht.
      * apply (IH (bounds :: old) (sc, bounds)); [| |exact Hb'].
        -- intros x Hx. cbn. apply elem_of_cons in Hx as [-> | Hx].
           ++ apply tighter_irrefl.
           ++ destruct (Hnest x bounds) as [H | H];
                [now left | right; exact Hhead | exact H |].
              pose proof (tighter_trans _ _ _ H (Hold x Hx)) as Hc.
              unfold tighter in Hc. congruence.
        -- intros b1 b2 H1 H2. apply Hnest; now apply Hlift.
      * apply (IH (bounds :: old) best); [| |exact Hb'].
        -- intros x Hx. apply elem_of_cons in Hx as [-> | Hx];
             [exact Ht | now apply Hold].
        -- intros b1 b2 H1 H2. apply Hnest; now apply Hlift.
    + apply (IH old best); [exact Hold | |].
      * intros b1 b2 H1 H2. apply Hnest.
        -- destruct H1 as [H1 | (s & Hin & H1)]; [now left|].
           right. exists s. split; [now apply list_elem_of_further | exact H1].
        -- destruct H2 as [H2 | (s & Hin & H2)]; [now left|].
           right. exists s. split; [now apply list_elem_of_further | exact H2].
      * destruct Hb as [Hb | (s & Hin & Hb)]; [now left|].
        apply elem_of_cons in Hin as [[= -> ->] | Hin]; [congruence|].
        right. now exists s.
Qed.

End Ordered.
End ScopeFacts.

(** [findInnermostScope] gives no scope only when the module lists none
    (the source then reads the first entry of an empty vector).  The
    scope it gives is the module scope or a listed scope whose span
    encloses the location, and it is the module scope when no listed
    span encloses the location; this holds whatever the comparisons of
    positions are. *)
Theorem findInnermostScope_picks_enclosing
    (pos_gt pos_lt : Position -> Position -> bool)
    (encloses : Location -> Location -> bool)
    (moduleScope : ScopeId)
    (scopes : list (Location * ScopeId)) (location : Location) :
  (Scopes.findInnermostScope pos_gt pos_lt encloses moduleScope scopes location = None
   <-> scopes = [])
  /\ forall r,
       Scopes.findInnermostScope pos_gt pos_lt encloses moduleScope scopes location
       = Some r ->
       (r = moduleScope
        \/ exists bounds, (bounds, r) ∈ scopes /\ encloses bounds location = true)
       /\ ((forall bounds sc,
              (bounds, sc) ∈ scopes -> encloses bounds location = false) ->
           r = moduleScope).
Proof.
  unfold Scopes.findInnermostScope, Scopes.innermost.
  destruct scopes as [|[first sc0] rest] eqn:Hs.
  - split; [now split|]. intros r H. discriminate H.
  - rewrite <- Hs. split; [split; [intros H; discriminate H | intros H; congruence]|].
    intros r H. cbn in H. injection H as <-. split.
    + destruct (consider_fold_member pos_gt pos_lt encloses location scopes
                  (moduleScope, first)) as [Heq | [Hin Henc]].
      * left. cbn in Heq. now rewrite Heq.
      * right. eexists. split; [exact Hin | exact Henc].
    + intros Hnone.
      now rewrite (consider_fold_none pos_gt pos_lt encloses location scopes
                     (moduleScope, first) Hnone).
Qed.

(** When [<] and [>] on positions are one strict order read both ways,
    with incomparable positions alike, and the listed spans that enclose
    the location are nested in one another, [findInnermostScope] ends on
    a span that is tightest: no listed span that encloses the location
    begins later or ends earlier than the one chosen.  The scope returned
    is listed with that span and encloses the location, or it is the
    module scope and the span is that of the first entry. *)
Theorem findInnermostScope_is_tightest
    (pos_gt pos_lt : Position -> Position -> bool)
    (encloses : Location -> Location -> bool)
    (moduleScope : ScopeId)
    (scopes : list (Location * ScopeId)) (location : Location) :
  (forall a b, pos_lt a b = pos_gt b a) ->
  (forall a, pos_gt a a = false) ->
  (forall a b c, pos_gt a c = true -> pos_gt a b = true \/ pos_gt b c = true) ->
  (forall b1 s1 b2 s2,
     (b1, s1) ∈ scopes -> (b2, s2) ∈ scopes ->
     encloses b1 location = true -> encloses b2 location = true ->
     Scopes.tighter pos_gt pos_lt b1 b2 = false
     \/ Scopes.tighter pos_gt pos_lt b2 b1 = false) ->
  scopes <> [] ->
  exists r bounds,
    Scopes.innermost pos_gt pos_lt encloses moduleScope scopes location
    = Some (r, bounds)
    /\ Scopes.findInnermostScope pos_gt pos_lt encloses moduleScope scopes location
       = Some r
    /\ ((r = moduleScope /\ fst <$> head scopes = Some bounds)
        \/ ((bounds, r) ∈ scopes /\ encloses bounds location = true))
    /\ forall b sc,
         (b, sc) ∈ scopes -> encloses b location = true ->
         Scopes.tighter pos_gt pos_lt b bounds = false.
Proof.
  intros Hlt Hirr Hbet Hnest Hne.
  unfold Scopes.findInnermostScope, Scopes.innermost.
  destruct scopes as [|[first sc0] rest] eqn:Hs; [congruence|].
  rewrite <- Hs.
  destruct (fold_left (Scopes.consider pos_gt pos_lt encloses location) scopes
              (moduleScope, first)) as [r bounds] eqn:Hfold.
  exists r, bounds. split; [reflexivity|]. split; [reflexivity|]. split.
  - destruct (consider_fold_member pos_gt pos_lt encloses location scopes
                (moduleScope, first)) as [Heq | [Hin Henc]].
    + left. cbn in Heq. rewrite Hfold in Heq. injection Heq as -> ->.
      rewrite Hs. split; reflexivity.
    + right. cbn in Hin, Henc. rewrite Hfold in Hin, Henc. now split.
  - intros b sc Hin Henc.
    pose proof (consider_fold_tightest pos_gt pos_lt encloses location
                  Hlt Hirr Hbet scopes [] (moduleScope, first)) as Ht.
    rewrite Hfold in Ht. apply Ht.
    + intros x Hx. now apply elem_of_nil in Hx.
    + intros b1 b2 [H1 | (s1 & H1 & E1)] [H2 | (s2 & H2 & E2)];
        try (now apply elem_of_nil in H1); try (now apply elem_of_nil in H2).
      rewrite Hs in H1, H2. now apply (Hnest b1 s1 b2 s2).
    + right. now exists sc.
Qed.

Lemma findInnermostScope_is_tightest_witness :
  exists r bounds,
    Scopes.innermost Scopes.samplePosGt Scopes.samplePosLt Scopes.sampleEncloses 0
      Scopes.sampleScopes (Scopes.span 5 0 5 9)
    = Some (r, bounds)
    /\ Scopes.findInnermostScope Scopes.samplePosGt Scopes.samplePosLt
         Scopes.sampleEncloses 0 Scopes.sampleScopes (Scopes.span 5 0 5 9)
       = Some r
    /\ ((r = 0 /\ fst <$> head Scopes.sampleScopes = Some bounds)
        \/ ((bounds, r) ∈ Scopes.sampleScopes
            /\ Scopes.sampleEncloses bounds (Scopes.span 5 0 5 9) = true))
    /\ forall b sc,
         (b, sc) ∈ Scopes.sampleScopes ->
         Scopes.sampleEncloses b (Scopes.span 5 0 5 9) = true ->
         Scopes.tighter Scopes.samplePosGt Scopes.samplePosLt b bounds = false.
Proof.
  apply (findInnermostScope_is_tightest Scopes.samplePosGt Scopes.samplePosLt
           Scopes.sampleEncloses 0 Scopes.sampleScopes (Scopes.span 5 0 5 9)).
  - reflexivity.
  - intros [l c]. unfold Scopes.samplePosGt, Scopes.samplePosLt.
    cbn [line column]. rewrite !Nat.ltb_irrefl. now rewrite andb_false_r.
  - intros [l1 c1] [l2 c2] [l3 c3].
    unfold Scopes.samplePosGt, Scopes.samplePosLt. cbn [line column].
    rewrite !orb_true_iff, !andb_true_iff, !Nat.ltb_lt, !Nat.eqb_eq. lia.
  - intros b1 s1 b2 s2 H1 H2.
    unfold Scopes.sampleScopes in H1, H2.
    repeat (apply elem_of_cons in H1 as [[= -> ->] | H1]);
      try (now apply elem_of_nil in H1);
      repeat (apply elem_of_cons in H2 as [[= -> ->] | H2]);
      try (now apply elem_of_nil in H2);
      vm_compute; intros; first [discriminate | now left | now right].
  - discriminate.
Defined.

(** ** Optional values *)

Section StripFacts.
Import TypeChecker2 OptionalAccess.
Context (ext : Externals) (module : Module).
Context (isNil : Memory -> TypeId -> bool).

(** Nothing is left of the options once the nil ones are taken out
    exactly when no option is other than nil. *)
Lemma nonNil_nil m options :
  nonNil ext isNil m options = []
  <-> existsb (fun option => negb (isNil m option)) (unionOptions ext m options) = false.
Proof.
  unfold nonNil. induction (unionOptions ext m options) as [|o os IH]; cbn.
  - tauto.
  - destruct (isNil m o); cbn; [exact IH|]. split; intros H; discriminate H.
Qed.

End StripFacts.



(** ** Generic parameters *)

Section GenericFacts.
Import TypeChecker2 Generics.
Context (ext : Externals) (module : Module).
Context (DuplicateGenericParameter : string -> TypeErrorData).
Local Open Scope list_scope.
Hypothesis notUnknownProperty :
  forall n table key, DuplicateGenericParameter n <> UnknownProperty table key.

(** The errors for the parameters [l] that repeat a name of [pre] or of
    an earlier parameter of [l]. *)
Let repeats (pre : list string) (l : list (string * Location)) : ErrorVec :=
  omap id
    (imap (fun i p =>
             if bool_decide (p.1 ∈ pre ++ (take i l).*1)
             then Some (mkTypeError p.2 (name module) (DuplicateGenericParameter p.1))
             else None) l).

Lemma repeats_cons pre n loc l :
  repeats pre ((n, loc) :: l)
  = (if bool_decide (n ∈ pre)
     then [mkTypeError loc (name module) (DuplicateGenericParameter n)]
     else []) ++ repeats (pre ++ [n]) l.
Proof.
  unfold repeats. rewrite imap_cons. cbn [omap take fmap list_fmap fst snd].
  rewrite app_nil_r.
  assert (Hext :
    imap ((fun i p =>
             if bool_decide (p.1 ∈ pre ++ (take i ((n, loc) :: l)).*1)
             then Some (mkTypeError p.2 (name module) (DuplicateGenericParameter p.1))
             else None) ∘ S) l
    = imap (fun i p =>
             if bool_decide (p.1 ∈ (pre ++ [n]) ++ (take i l).*1)
             then Some (mkTypeError p.2 (name module) (DuplicateGenericParameter p.1))
             else None) l).
  { apply imap_ext. intros i x _. cbn. now rewrite <- app_assoc. }
  rewrite Hext. now destruct (bool_decide (n ∈ pre)).
Qed.

Lemma repeats_app pre l1 l2 :
  repeats pre (l1 ++ l2) = repeats pre l1 ++ repeats (pre ++ l1.*1) l2.
Proof.
  revert pre. induction l1 as [|[n loc] l1 IH]; intros pre.
  - cbn [app fmap list_fmap]. now rewrite app_nil_r.
  - rewrite <- app_comm_cons, !repeats_cons, IH, <- !app_assoc. reflexivity.
Qed.

(** One loop over parameters without default values: the names seen
    come out with those of the parameters added, and the repeated ones
    are reported. *)
Lemma visitGenericList_repeats {Default : Type}
    (visitDefault : Default -> TC unit) (generics : list (AstGeneric Default)) :
  forall (pre : list string) (seen : gset string) s,
    (forall n, n ∈ seen <-> n ∈ pre) ->
    Forall (fun g => g_defaultValue g = None) generics ->
    exists seen',
      visitGenericList ext module DuplicateGenericParameter visitDefault
        generics seen s
      = Ok seen'
          (withErrors
             (repeats pre (map (fun g => (g_name g, g_location g)) generics)) s)
      /\ forall n, n ∈ seen' <-> n ∈ pre ++ map g_name generics.
Proof using notUnknownProperty.
  induction generics as [|g rest IH]; intros pre seen s Hseen Hdef.
  - exists seen. split.
    + cbn. unfold ret. f_equal. destruct s. unfold withErrors. cbn.
      now rewrite app_nil_r.
    + intros n. cbn. now rewrite app_nil_r.
  - inversion Hdef as [|? ? Hg Hrest]; subst.
    cbn [visitGenericList map]. rewrite repeats_cons, Hg.
    unfold bind at 1. unfold bind at 1.
    destruct (bool_decide (g_name g ∈ seen)) eqn:Hin.
    + apply bool_decide_eq_true in Hin.
      rewrite (bool_decide_eq_true_2 (g_name g ∈ pre)) by now apply Hseen.
      unfold bind at 1.
      rewrite reportError_plain by apply notUnknownProperty.
      unfold ret. cbv beta iota.
      destruct (IH (pre ++ [g_name g]) seen
                  (withErrors [mkTypeError (g_location g) (name module)
                                 (DuplicateGenericParameter (g_name g))] s))
        as (seen' & Hrun & Hseen'); [|exact Hrest|].
      { intros n. rewrite elem_of_app, list_elem_of_singleton, <- Hseen.
        split; [tauto|]. intros [H | ->]; assumption. }
      exists seen'. split.
      * rewrite Hrun. f_equal. unfold withErrors. cbn. now rewrite <- app_assoc.
      * intros n. rewrite Hseen'. now rewrite <- app_assoc.
    + apply bool_decide_eq_false in Hin.
      rewrite (bool_decide_eq_false_2 (g_name g ∈ pre)) by now rewrite <- Hseen.
      unfold ret. cbv beta iota.
      destruct (IH (pre ++ [g_name g]) ({[g_name g]} ∪ seen) s)
        as (seen' & Hrun & Hseen'); [|exact Hrest|].
      { intros n. rewrite elem_of_union, elem_of_singleton, elem_of_app,
          list_elem_of_singleton, <- Hseen. tauto. }
      exists seen'. split.
      * unfold bind. rewrite Hrun. reflexivity.
      * intros n. rewrite Hseen'. now rewrite <- app_assoc.
Qed.

End GenericFacts.



